(** * code_understand: the indexing engine and the architecture analyzer

    A shallow embedding of [backend/app/core/indexer.py],
    [backend/app/core/arch_analyzer.py] and [backend/app/db/models.py],
    followed by the properties proved about them.

    Conventions of the embedding:
    - a Python [str] is a list of Unicode code points ([pystr]);
    - Python integers are [Z]; a nullable column is an [option];
    - a table is the list of its rows in insertion order, a query is a
      filter over that list, [.first()] is the first match;
    - the SQLAlchemy session is a pair of database states (the committed one
      and the one of the open transaction);
    - code that can raise runs in a state-and-exception monad over the
      indexer object. *)

From Stdlib Require Import ZArith NArith Lia QArith Ascii String.
From stdpp Require Import base list gmap sets strings relations.
#[local] Open Scope Z_scope.

(** ** Python values *)

Module Py.

(** A Python string: the sequence of its code points. *)
Abbreviation pystr := (list N).

(** An ASCII literal as a Python string. *)
Fixpoint py (s : string) : pystr :=
  match s with
  | EmptyString => []
  | String a s' => N_of_ascii a :: py s'
  end.

(** [len(x)] *)
Definition len {A} (l : list A) : Z := Z.of_nat (length l).

(** Truth value of a string: empty strings are falsy. *)
Definition truthy_str (s : pystr) : bool :=
  match s with [] => false | _ => true end.

(** [a or b] on strings. *)
Definition str_or (a b : pystr) : pystr := if truthy_str a then a else b.

(** Truth value of an optional integer ([None] and [0] are falsy). *)
Definition truthy_int (o : option Z) : bool :=
  match o with Some z => negb (z =? 0) | None => false end.

(** Bound of a slice: negative bounds count from the end, then both are
    clamped to [0 .. len]. *)
Definition clamp (n i : Z) : Z :=
  if i <? 0 then Z.max (i + n) 0 else Z.min i n.

(** [l[lo:hi]]; an omitted bound is [None]. *)
Definition slice {A} (l : list A) (lo hi : option Z) : list A :=
  let n := len l in
  let a := match lo with Some i => clamp n i | None => 0 end in
  let b := match hi with Some i => clamp n i | None => n end in
  take (Z.to_nat (b - a)) (drop (Z.to_nat a) l).

(** [l[i]]: [None] stands for [IndexError]. *)
Definition index {A} (l : list A) (i : Z) : option A :=
  let n := len l in
  if (i <? - n) || (n <=? i) then None
  else l !! Z.to_nat (if i <? 0 then i + n else i).

(** [range(a, b)] *)
Definition range (a b : Z) : list Z :=
  (λ k : nat, a + Z.of_nat k) <$> seq 0 (Z.to_nat (b - a)).

(** The code points on which [str.isspace] holds; [str.split()] splits
    on runs of these. *)
Definition isspace (c : N) : bool :=
  (((9 <=? c) && (c <=? 13)) || ((28 <=? c) && (c <=? 32))
   || (c =? 133) || (c =? 160) || (c =? 5760)
   || ((8192 <=? c) && (c <=? 8202))
   || (c =? 8232) || (c =? 8233) || (c =? 8239) || (c =? 8287)
   || (c =? 12288))%N.

(** [s.split()]: the maximal runs of non-space characters.  [cur] is the
    word being read, reversed. *)
Fixpoint split_aux (s : pystr) (cur : pystr) : list pystr :=
  match s with
  | [] => match cur with [] => [] | _ => [rev cur] end
  | c :: s' =>
      if isspace c
      then match cur with
           | [] => split_aux s' []
           | _ => rev cur :: split_aux s' []
           end
      else split_aux s' (c :: cur)
  end.

Definition split (s : pystr) : list pystr := split_aux s [].

(** [sep.join(ws)] *)
Fixpoint join (sep : pystr) (ws : list pystr) : pystr :=
  match ws with
  | [] => []
  | [w] => w
  | w :: ws' => w ++ sep ++ join sep ws'
  end.

(** [any(t in ops for t in ts)] *)
Definition any_in (ops ts : list pystr) : bool :=
  existsb (λ t, bool_decide (t ∈ ops)) ts.

(** [s.startswith(p)] *)
Fixpoint startswith (s p : pystr) : bool :=
  match p, s with
  | [], _ => true
  | _ :: _, [] => false
  | a :: p', b :: s' => (a =? b)%N && startswith s' p'
  end.

(** [max(xs)] of a non-empty sequence given as head and tail. *)
Definition max_of (x : Z) (xs : list Z) : Z := foldl Z.max x xs.

End Py.
Export Py.

(** ** The data model: [db/models.py] *)

Inductive SymbolType :=
  | FUNCTION | VARIABLE | STRUCT | TYPEDEF | MACRO | FIELD | ENUM | UNION.

Inductive RefType := CALL | READ | WRITE | TYPE_USAGE | INCLUDE.

Inductive ScanStatus := PENDING | SCANNING | COMPLETED | FAILED.

#[global] Instance SymbolType_eq_dec : EqDecision SymbolType.
Proof. solve_decision. Defined.
#[global] Instance RefType_eq_dec : EqDecision RefType.
Proof. solve_decision. Defined.
#[global] Instance ScanStatus_eq_dec : EqDecision ScanStatus.
Proof. solve_decision. Defined.

(** [Project.scan_message] is built by f-strings; the model keeps the
    template and its integer arguments. *)
Inductive ScanMessage :=
  | MsgInitializing
  | MsgIndexed (done total : Z)
  | MsgComplete (total : Z)
  | MsgFailed.

Module Project.
Record t := mk {
    id : Z;
    name : pystr;
    root_path : pystr;
    scan_status : ScanStatus;
    scan_progress : Q;
    scan_message : option ScanMessage;
    compile_commands_path : option pystr
  }.
End Project.

Module FileRecord.
Record t := mk {
    id : Z;
    path : pystr;
    last_modified : Z;
    project_id : option Z;
    module_id : option Z
  }.
End FileRecord.

Module Symbol.
Record t := mk {
    id : Z;
    name : pystr;
    usr : pystr;
    kind : SymbolType;
    signature : pystr;
    file_id : option Z;
    line : Z;
    column : Z;
    end_line : option Z;
    cyclomatic_complexity : Z;
    lines_of_code : Z;
    is_static : bool;
    is_extern : bool;
    is_definition : bool
  }.
End Symbol.

Module Reference.
Record t := mk {
    id : Z;
    source_id : option Z;
    target_id : Z;
    kind : RefType;
    file_id : option Z;
    line : Z;
    column : Z
  }.
End Reference.

Module Include.
Record t := mk {
    id : Z;
    source_file_id : option Z;
    target_path : pystr;
    target_file_id : option Z;
    line : Z
  }.
End Include.

Module ModuleDefinition.
Record t := mk {
    id : Z;
    project_id : Z;
    name : pystr;
    path_pattern : pystr;
    layer : Z;
    is_locked : bool
  }.
End ModuleDefinition.

Module ArchitectureRule.
Record t := mk {
    id : Z;
    project_id : Z;
    name : pystr;
    rule_type : pystr;
    source_module_id : option Z;
    target_module_id : option Z;
    is_active : bool
  }.
End ArchitectureRule.

(** One state of the relational store. *)
Record Database := mkDatabase {
  projects : list Project.t;
  files : list FileRecord.t;
  symbols : list Symbol.t;
  references : list Reference.t;
  includes : list Include.t;
  modules : list ModuleDefinition.t;
  architecture_rules : list ArchitectureRule.t
}.

Definition empty_db : Database := mkDatabase [] [] [] [] [] [] [].

(** The id SQLite gives a new row of an [INTEGER PRIMARY KEY] table: one
    more than the largest id in the table. *)
Definition next_id (ids : list Z) : Z := foldr Z.max 0 ids + 1.

(** ** The AST front end: what the engine reads of [clang.cindex] *)

Module Clang.

Inductive CursorKind :=
  | TRANSLATION_UNIT | FUNCTION_DECL | VAR_DECL | STRUCT_DECL | TYPEDEF_DECL
  | FIELD_DECL | PARM_DECL | ENUM_DECL | UNION_DECL | MACRO_DEFINITION
  | CALL_EXPR | DECL_REF_EXPR | MEMBER_REF_EXPR
  | BINARY_OPERATOR | COMPOUND_ASSIGNMENT_OPERATOR
  | IF_STMT | WHILE_STMT | FOR_STMT | CASE_STMT | DEFAULT_STMT
  | CONDITIONAL_OPERATOR | DO_STMT
  | COMPOUND_STMT | UNEXPOSED_EXPR | INTEGER_LITERAL
  | OTHER_KIND (n : N).

Inductive StorageClass := SC_NONE | STATIC | EXTERN | SC_OTHER.

#[global] Instance CursorKind_eq_dec : EqDecision CursorKind.
Proof. solve_decision. Defined.
#[global] Instance StorageClass_eq_dec : EqDecision StorageClass.
Proof. solve_decision. Defined.

Record SourceLocation := mkLocation {
  file : option pystr;
  line : Z;
  column : Z
}.

Record SourceRange := mkRange {
  start : SourceLocation;
  end_ : SourceLocation
}.

(** A cursor with everything the engine asks of it.
    - [kind = None]: the binding does not know the kind id and reading
      [cursor.kind] raises [ValueError];
    - [tokens = None]: [get_tokens()] raises;
    - [definition] and [referenced] are the cursors [get_definition()] and
      [.referenced] return; the engine reads their own attributes and, for
      a function, walks their children to count decision points. *)
#[local] Unset Elimination Schemes.
Inductive Cursor := mkCursor {
  kind : option CursorKind;
  spelling : pystr;
  displayname : pystr;
  get_usr : pystr;
  location : SourceLocation;
  extent : SourceRange;
  storage_class : StorageClass;
  is_definition : bool;
  tokens : option (list pystr);
  children : list Cursor;
  definition : option Cursor;
  referenced : option Cursor
}.
#[local] Set Elimination Schemes.

(** One entry of [tu.get_includes()]. *)
Record FileInclusion := mkInclusion {
  source : pystr;
  include : pystr;
  inc_location : SourceLocation
}.

(** [get_includes = None]: the call raises. *)
Record TranslationUnit := mkTU {
  cursor : Cursor;
  get_includes : option (list FileInclusion)
}.

(** [getCompileCommands(path)]: [None] when the call raises, otherwise the
    argument lists of the commands found. *)
Record CompilationDatabase := mkCompDb {
  getCompileCommands : pystr → option (list (list pystr))
}.

End Clang.

(** ** The world outside the engine: [os], [os.path], files, libclang *)

(** A directory as [os.walk] sees it. *)
#[local] Unset Elimination Schemes.
Inductive Dir := mkDir {
  subdirs : list (pystr * Dir);
  filenames : list pystr
}.
#[local] Set Elimination Schemes.

Record World := mkWorld {
  sep : pystr;
  abspath : pystr → pystr;
  path_join : pystr → pystr → pystr;
  dirname : pystr → pystr;
  path_exists : pystr → bool;
  (** [None]: [OSError] *)
  getmtime : pystr → option Z;
  (** [open(p).readlines()]; [None]: the file cannot be read *)
  readlines : pystr → option (list pystr);
  (** the tree under a directory, [None] when it is not a directory *)
  tree : pystr → option Dir;
  (** [Index.parse]; [None]: [TranslationUnitLoadError] *)
  parse : pystr → list pystr → option Clang.TranslationUnit;
  (** [CompilationDatabase.fromDirectory]; [None]: it raises *)
  fromDirectory : pystr → option Clang.CompilationDatabase
}.

(** ** The session and the monad of the engine *)

(** [committed] is what other readers see, [working] is the state inside
    the open transaction.  [history] is a ghost field: the states committed
    so far, oldest first. *)
Record Session := mkSession {
  committed : Database;
  working : Database;
  history : list Database
}.

(** The [Indexer] object. *)
Record Indexer := mkIndexer {
  db : Session;
  current_file_id : option Z;
  file_path : option pystr
}.

Inductive outcome (A : Type) :=
  | Ok (a : A)
  | Raise.
Arguments Ok {A} a.
Arguments Raise {A}.

Definition M (A : Type) : Type := Indexer → outcome A * Indexer.

Definition ret {A} (a : A) : M A := λ s, (Ok a, s).

Definition bind {A B} (m : M A) (k : A → M B) : M B :=
  λ s, match m s with
       | (Ok a, s') => k a s'
       | (Raise, s') => (Raise, s')
       end.

Definition raise {A} : M A := λ s, (Raise, s).

(** [try: m  except Exception: h] *)
Definition try_except {A} (m : M A) (h : M A) : M A :=
  λ s, match m s with
       | (Ok a, s') => (Ok a, s')
       | (Raise, s') => h s'
       end.

Definition get_self : M Indexer := λ s, (Ok s, s).

Definition modify (f : Indexer → Indexer) : M unit := λ s, (Ok tt, f s).

(** An [option] read as a call that raises on [None]. *)
Definition or_raise {A} (o : option A) : M A :=
  match o with Some a => ret a | None => raise end.

Notation "'let!' x ':=' m 'in' k" := (bind m (λ x, k))
  (at level 10, x name, m at level 100, k at level 200,
   format "'[v' 'let!'  x  ':='  m  'in' '/' k ']'").
Notation "'run!' m 'in' k" := (bind m (λ _, k))
  (at level 10, m at level 100, k at level 200,
   format "'[v' 'run!'  m  'in' '/' k ']'").

(** [for x in xs: body x] *)
Definition for_each {A} (xs : list A) (body : A → M unit) : M unit :=
  (fix loop (xs : list A) : M unit :=
     match xs with
     | [] => ret tt
     | x :: xs' => run! body x in loop xs'
     end) xs.

(** *** Session primitives *)

Definition on_working (f : Database → Database) : M unit :=
  modify (λ s, mkIndexer
    (mkSession (committed (db s)) (f (working (db s))) (history (db s)))
    (current_file_id s) (file_path s)).

(** [db.commit()] *)
Definition commit : M unit :=
  modify (λ s, mkIndexer
    (mkSession (working (db s)) (working (db s))
               (history (db s) ++ [working (db s)]))
    (current_file_id s) (file_path s)).

(** [db.rollback()] *)
Definition rollback : M unit :=
  modify (λ s, mkIndexer
    (mkSession (committed (db s)) (committed (db s)) (history (db s)))
    (current_file_id s) (file_path s)).

Definition query : M Database := λ s, (Ok (working (db s)), s).

Definition with_symbols (f : list Symbol.t → list Symbol.t) (d : Database) :=
  mkDatabase (projects d) (files d) (f (symbols d)) (references d)
             (includes d) (modules d) (architecture_rules d).

Definition with_references (f : list Reference.t → list Reference.t)
    (d : Database) :=
  mkDatabase (projects d) (files d) (symbols d) (f (references d))
             (includes d) (modules d) (architecture_rules d).

Definition with_includes (f : list Include.t → list Include.t)
    (d : Database) :=
  mkDatabase (projects d) (files d) (symbols d) (references d)
             (f (includes d)) (modules d) (architecture_rules d).

Definition with_files (f : list FileRecord.t → list FileRecord.t)
    (d : Database) :=
  mkDatabase (projects d) (f (files d)) (symbols d) (references d)
             (includes d) (modules d) (architecture_rules d).

Definition with_projects (f : list Project.t → list Project.t)
    (d : Database) :=
  mkDatabase (f (projects d)) (files d) (symbols d) (references d)
             (includes d) (modules d) (architecture_rules d).

(** ** The indexing engine: [core/indexer.py] *)

Module IndexerImpl.
Import Clang.

Definition decision_kinds : list CursorKind :=
  [IF_STMT; WHILE_STMT; FOR_STMT; CASE_STMT; DEFAULT_STMT;
   CONDITIONAL_OPERATOR; DO_STMT].

(** The number of [&&] and [||] among the tokens of a binary operator; a
    failing [get_tokens()] counts as none. *)
Definition logical_tokens (toks : option (list pystr)) : Z :=
  match toks with
  | Some ts => len (filter (λ t, t ∈ [py "&&"; py "||"]) ts)
  | None => 0
  end.

(** What the inner function [count_decision_points] adds to [complexity]
    over the sub-tree of [node]; [None] when reading a kind raises. *)
Fixpoint count_decision_points (node : Cursor) : option Z :=
  match node with
  | mkCursor k _ _ _ _ _ _ _ toks cs _ _ =>
      k' ← k;
      let here := if bool_decide (k' ∈ decision_kinds) then 1 else 0 in
      let ops :=
        if bool_decide (k' = BINARY_OPERATOR) then logical_tokens toks else 0 in
      below ← (fix over (cs : list Cursor) : option Z :=
                 match cs with
                 | [] => Some 0
                 | c :: cs' =>
                     n ← count_decision_points c;
                     m ← over cs';
                     Some (n + m)
                 end) cs;
      Some (here + ops + below)
  end.

Definition calculate_cyclomatic_complexity (cursor : Cursor) : option Z :=
  k ← kind cursor;
  if bool_decide (k ≠ FUNCTION_DECL) then Some 0
  else n ← count_decision_points cursor; Some (1 + n).

Section with_world.
Context (w : World).

(** The source text of the extent of [cursor], before any clean-up:
    [None] when the guard of the [if] fails or anything in the [try]
    raises. *)
Definition extent_text (cursor : Cursor) : option pystr :=
  let ext := extent cursor in
  match file (start ext) with
  | None => None
  | Some f =>
      if bool_decide (file (start ext) = file (end_ ext)) then
        lines ← readlines w f;
        let start_line := line (start ext) - 1 in
        let end_line := line (end_ ext) - 1 in
        if start_line =? end_line then
          l ← index lines start_line;
          Some (slice l (Some (column (start ext) - 1))
                        (Some (column (end_ ext) - 1)))
        else
          sig_parts ← mapM (λ i,
              l ← index lines i;
              Some (if i =? start_line
                    then slice l (Some (column (start ext) - 1)) None
                    else if i =? end_line
                    then slice l None (Some (column (end_ ext) - 1))
                    else l))
            (range start_line (Z.min (end_line + 1) (len lines)));
          Some (concat sig_parts)
      else None
  end.

(** [' '.join(sig.split())], then the length limit. *)
Definition clean_signature (sig : pystr) : pystr :=
  let sig := join (py " ") (split sig) in
  if 500 <? len sig then slice sig None (Some 500) ++ py "..." else sig.

Definition get_symbol_signature (cursor : Cursor) : pystr :=
  match extent_text cursor with
  | Some sig => clean_signature sig
  | None => str_or (displayname cursor) (spelling cursor)
  end.

Definition get_symbol_end_line (cursor : Cursor) : Z :=
  line (end_ (extent cursor)).

(** [kind_map.get(cursor.kind, SymbolType.VARIABLE)] *)
Definition kind_map (k : CursorKind) : SymbolType :=
  match k with
  | FUNCTION_DECL => FUNCTION
  | VAR_DECL => VARIABLE
  | STRUCT_DECL => STRUCT
  | TYPEDEF_DECL => TYPEDEF
  | FIELD_DECL => FIELD
  | PARM_DECL => VARIABLE
  | ENUM_DECL => ENUM
  | UNION_DECL => UNION
  | MACRO_DEFINITION => MACRO
  | _ => VARIABLE
  end.

Definition get_or_create_file (path : pystr) (project_id : option Z)
    : M FileRecord.t :=
  let abs_path := abspath w path in
  let! d := query in
  match List.find (λ f, bool_decide (FileRecord.path f = abs_path)) (files d) with
  | Some file_record => ret file_record
  | None =>
      let! mtime := or_raise (getmtime w abs_path) in
      let file_record :=
        FileRecord.mk (next_id (FileRecord.id <$> files d)) abs_path mtime
                      project_id None in
      run! on_working (with_files (λ l, l ++ [file_record])) in
      run! commit in
      ret file_record
  end.

Definition get_or_create_symbol (cursor : option Cursor)
    : M (option Symbol.t) :=
  match cursor with
  | None => ret None
  | Some cursor =>
      let usr := get_usr cursor in
      if negb (truthy_str usr) then ret None
      else
        let! d := query in
        match List.find (λ s, bool_decide (Symbol.usr s = usr)) (symbols d) with
        | Some symbol => ret (Some symbol)
        | None =>
            let! k := or_raise (kind cursor) in
            let sym_type := kind_map k in
            let signature := get_symbol_signature cursor in
            let! complexity :=
              (if bool_decide (k = FUNCTION_DECL)
               then or_raise (calculate_cyclomatic_complexity cursor)
               else ret 0) in
            let is_definition := is_definition cursor in
            let is_static := bool_decide (storage_class cursor = STATIC) in
            let is_extern := bool_decide (storage_class cursor = EXTERN) in
            let end_line := get_symbol_end_line cursor in
            let! self := get_self in
            let symbol :=
              Symbol.mk (next_id (Symbol.id <$> symbols d))
                        (spelling cursor) usr sym_type signature
                        (current_file_id self)
                        (line (location cursor)) (column (location cursor))
                        (Some end_line) complexity 0
                        is_static is_extern is_definition in
            run! on_working (with_symbols (λ l, l ++ [symbol])) in
            run! commit in
            ret (Some symbol)
        end
  end.

Definition definition_kinds : list CursorKind :=
  [FUNCTION_DECL; STRUCT_DECL; TYPEDEF_DECL; VAR_DECL].

Definition assign_ops : list pystr :=
  [py "="; py "+="; py "-="; py "*="; py "/="; py "%="; py "&="; py "|=";
   py "^="; py "<<="; py ">>="].

(** [node.get_definition() or node.referenced] *)
Definition target_of (node : Cursor) : option Cursor :=
  match definition node with
  | Some c => Some c
  | None => referenced node
  end.

(** Step 1 of [visit_node]: the symbol id the node contributes as scope. *)
Definition enter_definition (node : Cursor) (k : CursorKind)
    (parent_symbol_id : option Z) : M (option Z) :=
  let is_definition := bool_decide (k ∈ definition_kinds) in
  let! self := get_self in
  let in_current_file :=
    match file (location node) with
    | Some f => bool_decide (Some (abspath w f) = file_path self)
    | None => false
    end in
  if is_definition && in_current_file then
    let! symbol := get_or_create_symbol (Some node) in
    match symbol with
    | Some symbol => ret (Some (Symbol.id symbol))
    | None => ret parent_symbol_id
    end
  else ret parent_symbol_id.

(** Step 2 of [visit_node]: the reference the node stands for, if any. *)
Definition record_reference (node : Cursor) (k : CursorKind)
    (parent_symbol_id : option Z) (is_written_context : bool) : M unit :=
  if truthy_int parent_symbol_id then
    let ref_kind :=
      if bool_decide (k = CALL_EXPR) then Some CALL
      else if bool_decide (k ∈ [DECL_REF_EXPR; MEMBER_REF_EXPR])
      then Some (if is_written_context then WRITE else READ)
      else None in
    match ref_kind, target_of node with
    | Some ref_kind, Some target_cursor =>
        let! target_symbol := get_or_create_symbol (Some target_cursor) in
        match target_symbol with
        | Some target_symbol =>
            let! self := get_self in
            on_working (with_references (λ l, l ++
              [Reference.mk (next_id (Reference.id <$> l))
                            parent_symbol_id (Symbol.id target_symbol)
                            ref_kind (current_file_id self)
                            (line (location node))
                            (column (location node))]))
        | None => ret tt
        end
    | _, _ => ret tt
    end
  else ret tt.

(** The test that makes a node an assignment: a binary or compound
    assignment operator with an assignment token in its extent. *)
Definition is_assign (k : CursorKind) (toks : option (list pystr)) : bool :=
  bool_decide (k = BINARY_OPERATOR ∨ k = COMPOUND_ASSIGNMENT_OPERATOR)
  && match toks with
     | Some ts => any_in assign_ops ts
     | None => false
     end.

Fixpoint visit_node (node : Cursor) (parent_symbol_id : option Z)
    (is_written_context : bool) {struct node} : M unit :=
  match node with
  | mkCursor k _ _ _ _ _ _ _ toks cs _ _ =>
      let! k := or_raise k in
      let is_definition := bool_decide (k ∈ definition_kinds) in
      let! current_symbol_id := enter_definition node k parent_symbol_id in
      run! record_reference node k parent_symbol_id is_written_context in
      if is_assign k toks then
        match cs with
        | [] => ret tt
        | lhs :: rhs =>
            run! visit_node lhs parent_symbol_id true in
            for_each rhs (λ child, visit_node child parent_symbol_id false)
        end
      else
        let next_scope :=
          if is_definition then current_symbol_id else parent_symbol_id in
        for_each cs (λ child, visit_node child next_scope false)
  end.

Definition extract_includes (tu : TranslationUnit) : M unit :=
  match get_includes tu with
  | None => ret tt
  | Some inclusions =>
      for_each inclusions (λ inclusion,
        let source_path := abspath w (source inclusion) in
        let target_path := include inclusion in
        let! self := get_self in
        if bool_decide (Some source_path ≠ file_path self) then ret tt
        else
          let! d := query in
          let target_file_record :=
            List.find (λ f, bool_decide
                         (FileRecord.path f = abspath w target_path))
                      (files d) in
          on_working (with_includes (λ l, l ++
            [Include.mk (next_id (Include.id <$> l))
                        (current_file_id self) target_path
                        (FileRecord.id <$> target_file_record)
                        (line (inc_location inclusion))])))
  end.

(** The arguments handed to the parser: those of the first compile command
    without the compiler executable, or none. *)
Definition compile_args (file_path : pystr)
    (comp_db : option CompilationDatabase) : list pystr :=
  match comp_db with
  | None => []
  | Some comp_db =>
      match getCompileCommands comp_db file_path with
      | Some (cmd_args :: _) =>
          match cmd_args with
          | [] => []
          | a :: rest => if negb (startswith a (py "-")) then rest else cmd_args
          end
      | _ => []
      end
  end.

Definition set_current_file (fid : option Z) (path : option pystr) : M unit :=
  modify (λ s, mkIndexer (db s) fid path).

Definition index_file (file_path : pystr) (project_id : option Z)
    (comp_db : option CompilationDatabase) : M unit :=
  let! self := get_self in
  run! set_current_file (current_file_id self) (Some (abspath w file_path)) in
  let! file_record := get_or_create_file file_path project_id in
  run! set_current_file (Some (FileRecord.id file_record))
                        (Some (abspath w file_path)) in
  run! on_working (with_symbols (filter (λ s,
         Symbol.file_id s ≠ Some (FileRecord.id file_record)))) in
  run! on_working (with_includes (filter (λ i,
         Include.source_file_id i ≠ Some (FileRecord.id file_record)))) in
  run! commit in
  let args := compile_args file_path comp_db in
  try_except
    (let! tu := or_raise (parse w file_path args) in
     run! extract_includes tu in
     run! visit_node (cursor tu) None false in
     commit)
    rollback.

(** [project.attr = ...] on the row found for [project_id]. *)
Definition update_project (project_id : Z) (f : Project.t → Project.t)
    : M unit :=
  on_working (with_projects (fmap (λ p,
    if bool_decide (Project.id p = project_id) then f p else p))).

Definition set_scan (status : ScanStatus) (progress : Q)
    (message : ScanMessage) (p : Project.t) : Project.t :=
  Project.mk (Project.id p) (Project.name p) (Project.root_path p)
             status progress (Some message) (Project.compile_commands_path p).

Definition set_progress (progress : Q) (message : ScanMessage)
    (p : Project.t) : Project.t :=
  Project.mk (Project.id p) (Project.name p) (Project.root_path p)
             (Project.scan_status p) progress (Some message)
             (Project.compile_commands_path p).

Definition set_failed (p : Project.t) : Project.t :=
  Project.mk (Project.id p) (Project.name p) (Project.root_path p)
             FAILED (Project.scan_progress p) (Some MsgFailed)
             (Project.compile_commands_path p).

Definition set_compile_commands_path (path : pystr) (p : Project.t)
    : Project.t :=
  Project.mk (Project.id p) (Project.name p) (Project.root_path p)
             (Project.scan_status p) (Project.scan_progress p)
             (Project.scan_message p) (Some path).

Definition ignored_dirs : list pystr :=
  [py ".git"; py "build"; py "venv"; py "node_modules"].

Definition source_suffixes : list pystr :=
  [py ".c"; py ".h"; py ".cpp"; py ".hpp"; py ".cc"; py ".cxx"].

(** [file.endswith((...))] *)
Definition has_source_suffix (f : pystr) : bool :=
  existsb (λ suf, startswith (rev f) (rev suf)) source_suffixes.

(** The files the [os.walk] loop collects below [root]: the source files
    of the directory, then those of each sub-directory left after the
    ignored ones are removed from [dirs]. *)
Fixpoint collect_files (root : pystr) (d : Dir) : list pystr :=
  match d with
  | mkDir subs fs =>
      (path_join w root <$> filter (λ f, has_source_suffix f = true) fs)
      ++ (fix below (subs : list (pystr * Dir)) : list pystr :=
            match subs with
            | [] => []
            | (name, sub) :: subs' =>
                (if bool_decide (name ∈ ignored_dirs) then []
                 else collect_files (path_join w root name) sub)
                ++ below subs'
            end) subs
  end.

Definition files_to_scan (root_path : pystr) : list pystr :=
  match tree w root_path with
  | Some d => collect_files root_path d
  | None => []
  end.

(** Where the compilation database is looked for. *)
Definition find_db_path (root_path : pystr) : pystr :=
  let db_path := path_join w root_path (py "compile_commands.json") in
  if negb (path_exists w db_path)
  then path_join w (path_join w root_path (py "build"))
                 (py "compile_commands.json")
  else db_path.

(** The body of the indexing loop for the file at position [idx]. *)
Definition scan_one (project_id : Z) (has_project : bool)
    (comp_db : option CompilationDatabase) (total_files : Z)
    (idx : Z) (full_path : pystr) : M unit :=
  try_except
    (run! index_file full_path (Some project_id) comp_db in
     if ((idx + 1) mod 10 =? 0) && has_project then
       run! update_project project_id
              (set_progress (Qmake (idx + 1) (Z.to_pos total_files))
                            (MsgIndexed (idx + 1) total_files)) in
       commit
     else ret tt)
    (ret tt).

Fixpoint scan_loop (project_id : Z) (has_project : bool)
    (comp_db : option CompilationDatabase) (total_files : Z)
    (idx : Z) (paths : list pystr) : M unit :=
  match paths with
  | [] => ret tt
  | full_path :: rest =>
      run! scan_one project_id has_project comp_db total_files idx full_path in
      scan_loop project_id has_project comp_db total_files (idx + 1) rest
  end.

(** [root_path = None] stands for a call with [None], on which
    [os.path.join] raises [TypeError]. *)
Definition scan_project (project_id : Z) (root_path : option pystr)
    : M unit :=
  let! d := query in
  let has_project :=
    bool_decide (is_Some (List.find
      (λ p, bool_decide (Project.id p = project_id)) (projects d))) in
  run! (if has_project then
          run! update_project project_id
                 (set_scan SCANNING 0 MsgInitializing) in
          commit
        else ret tt) in
  try_except
    (let! root_path := or_raise root_path in
     let db_path := find_db_path root_path in
     let! comp_db :=
       (if path_exists w db_path then
          try_except
            (let! c := or_raise (fromDirectory w (dirname w db_path)) in
             run! (if has_project then
                     run! update_project project_id
                            (set_compile_commands_path db_path) in
                     commit
                   else ret tt) in
             ret (Some c))
            (ret None)
        else ret None) in
     let files_to_scan := files_to_scan root_path in
     let total_files := len files_to_scan in
     run! scan_loop project_id has_project comp_db total_files 0
                    files_to_scan in
     if has_project then
       run! update_project project_id
              (set_scan COMPLETED 1 (MsgComplete total_files)) in
       commit
     else ret tt)
    (if has_project then
       run! update_project project_id set_failed in
       commit
     else ret tt).

End with_world.
End IndexerImpl.

(** ** The graph library: what the analyzer uses of [networkx] *)

Module Nx.

(** A [DiGraph] over integer node ids.  Nodes and edges are kept in
    insertion order, without repetition; node attributes are not
    modelled. *)
Record DiGraph := mkDiGraph {
  nodes : list Z;
  edges : list (Z * Z)
}.

Definition empty : DiGraph := mkDiGraph [] [].

Definition add_node (n : Z) (G : DiGraph) : DiGraph :=
  if bool_decide (n ∈ nodes G) then G
  else mkDiGraph (nodes G ++ [n]) (edges G).

Definition add_edge (u v : Z) (G : DiGraph) : DiGraph :=
  let G' := add_node v (add_node u G) in
  if bool_decide ((u, v) ∈ edges G') then G'
  else mkDiGraph (nodes G') (edges G' ++ [(u, v)]).

Definition successors (G : DiGraph) (u : Z) : list Z :=
  (filter (λ e : Z * Z, e.1 = u) (edges G)).*2.

Definition predecessors (G : DiGraph) (v : Z) : list Z :=
  (filter (λ e : Z * Z, e.2 = v) (edges G)).*1.

Definition in_degree (G : DiGraph) (v : Z) : Z := len (predecessors G v).

(** [G.edges()]: grouped by source node, in node order. *)
Definition edges_view (G : DiGraph) : list (Z * Z) :=
  u ← nodes G; (λ v, (u, v)) <$> successors G u.

(** *** [topological_sort]: Kahn's algorithm, generation by generation *)

Inductive topo_result :=
  | TopoOk (order : list Z)
  | NetworkXUnfeasible
  | RuntimeError
  | OutOfFuel.

(** One edge into [child] is used up; at zero the child joins the next
    generation.  [None] is the [KeyError] turned into [RuntimeError]. *)
Definition relax (child : Z) (st : gmap Z Z * list Z)
    : option (gmap Z Z * list Z) :=
  d ← st.1 !! child;
  if d - 1 =? 0 then Some (delete child st.1, st.2 ++ [child])
  else Some (<[child := d - 1]> st.1, st.2).

Fixpoint relax_all (children : list Z) (st : gmap Z Z * list Z)
    : option (gmap Z Z * list Z) :=
  match children with
  | [] => Some st
  | c :: cs => st' ← relax c st; relax_all cs st'
  end.

Fixpoint process_generation (G : DiGraph) (this_generation : list Z)
    (st : gmap Z Z * list Z) : option (gmap Z Z * list Z) :=
  match this_generation with
  | [] => Some st
  | node :: rest =>
      if bool_decide (node ∈ nodes G) then
        st' ← relax_all (successors G node) st;
        process_generation G rest st'
      else None
  end.

Fixpoint generations (fuel : nat) (G : DiGraph) (indegree_map : gmap Z Z)
    (zero_indegree : list Z) (yielded : list Z) : topo_result :=
  match zero_indegree with
  | [] =>
      if bool_decide (indegree_map = ∅) then TopoOk yielded
      else NetworkXUnfeasible
  | _ =>
      match fuel with
      | O => OutOfFuel
      | S fuel' =>
          match process_generation G zero_indegree (indegree_map, []) with
          | None => RuntimeError
          | Some (indegree_map', zero_indegree') =>
              generations fuel' G indegree_map' zero_indegree'
                          (yielded ++ zero_indegree)
          end
      end
  end.

Definition initial_indegree_map (G : DiGraph) : gmap Z Z :=
  list_to_map ((λ v, (v, in_degree G v)) <$>
               filter (λ v, 0 < in_degree G v) (nodes G)).

Definition initial_zero_indegree (G : DiGraph) : list Z :=
  filter (λ v, in_degree G v = 0) (nodes G).

Definition topological_sort (G : DiGraph) : topo_result :=
  generations (S (length (nodes G))) G (initial_indegree_map G)
              (initial_zero_indegree G) [].

(** [is_directed_acyclic_graph]: the sort does not raise
    [NetworkXUnfeasible]; any other exception goes through. *)
Definition is_directed_acyclic_graph (G : DiGraph) : option bool :=
  match topological_sort G with
  | TopoOk _ => Some true
  | NetworkXUnfeasible => Some false
  | _ => None
  end.

(** *** [strongly_connected_components]

    The library promises one set per strongly connected component and
    fixes neither the order of the components nor the order inside one.
    The model computes them by reachability: the component of a node is
    the set of nodes it reaches and is reached from. *)

Definition expand (G : DiGraph) (S : gset Z) : gset Z :=
  S ∪ list_to_set (elements S ≫= successors G).

(** The nodes reachable from [v], [v] included. *)
Definition reach (G : DiGraph) (v : Z) : gset Z :=
  Nat.iter (length (nodes G)) (expand G) {[v]}.

Definition component_of (G : DiGraph) (v : Z) : list Z :=
  filter (λ u, u ∈ reach G v ∧ v ∈ reach G u) (nodes G).

Fixpoint components (G : DiGraph) (todo : list Z) (seen : gset Z)
    : list (list Z) :=
  match todo with
  | [] => []
  | v :: rest =>
      if bool_decide (v ∈ seen) then components G rest seen
      else component_of G v
           :: components G rest (seen ∪ list_to_set (component_of G v))
  end.

Definition strongly_connected_components (G : DiGraph) : list (list Z) :=
  components G (nodes G) ∅.

(** *** [condensation]: one node per component, numbered in the order
    the components are enumerated; [members] gives the files of each. *)

Definition component_index (sccs : list (list Z)) (n : Z) : option Z :=
  (λ found : nat * list Z, Z.of_nat found.1)
    <$> list_find (λ c : list Z, n ∈ c) sccs.

Definition condensation (G : DiGraph) : DiGraph * list (list Z) :=
  let sccs := strongly_connected_components G in
  let C := foldl (λ C i, add_node i C) empty (range 0 (len sccs)) in
  let C := foldl (λ C e,
             match component_index sccs e.1, component_index sccs e.2 with
             | Some i, Some j => if bool_decide (i ≠ j) then add_edge i j C else C
             | _, _ => C
             end) C (edges_view G) in
  (C, sccs).

End Nx.

(** ** The architecture analyzer: [core/arch_analyzer.py] *)

Module ArchitectureAnalyzer.

(** SQLite's [LIKE]: [%] matches any run of characters, [_] any single
    one, ASCII letters match without regard to case. *)
Definition ascii_fold (c : N) : N :=
  (if (65 <=? c) && (c <=? 90) then c + 32 else c)%N.

Fixpoint like (pattern s : pystr) : bool :=
  match pattern with
  | [] => match s with [] => true | _ => false end
  | p :: pattern' =>
      if (p =? 37)%N then
        (fix star (s : pystr) : bool :=
           like pattern' s
           || match s with [] => false | _ :: s' => star s' end) s
      else
        match s with
        | [] => false
        | c :: s' =>
            ((p =? 95) || (ascii_fold p =? ascii_fold c))%N && like pattern' s'
        end
  end.

Section with_analyzer.
(** The fields of the analyzer object: the session's state, the project id
    and the world it takes [os.sep] from. *)
Context (w : World) (db : Database) (project_id : Z).

(** [self.root_path]: the root of the project, or [""] without one. *)
Definition root_path : pystr :=
  match List.find (λ p, bool_decide (Project.id p = project_id))
                  (projects db) with
  | Some project => Project.root_path project
  | None => []
  end.

(** The filter both file queries use. *)
Definition under_root (f : FileRecord.t) : bool :=
  bool_decide (FileRecord.path f = root_path)
  || like (root_path ++ sep w ++ py "%") (FileRecord.path f).

Definition _get_project_files : list FileRecord.t :=
  if negb (truthy_str root_path) then []
  else filter (λ f, under_root f = true) (files db).

(** The [Include] rows joined with the file they come from. *)
Definition project_includes : list Include.t :=
  inc ← includes db;
  f ← files db;
  if bool_decide (Include.source_file_id inc = Some (FileRecord.id f))
     && under_root f
  then [inc] else [].

Definition build_include_graph : Nx.DiGraph :=
  let G := foldl (λ G f, Nx.add_node (FileRecord.id f) G)
                 Nx.empty _get_project_files in
  foldl (λ G inc,
           match Include.source_file_id inc, Include.target_file_id inc with
           | Some src, Some tgt =>
               if truthy_int (Some tgt) then Nx.add_edge src tgt G else G
           | _, _ => G
           end) G project_includes.

Definition detect_circular_dependencies : list (list Z) :=
  let G := build_include_graph in
  let sccs := Nx.strongly_connected_components G in
  filter (λ scc, 1 < len scc) sccs.

(** The layer the acyclic branch gives [node] from the layers already
    assigned. *)
Definition layer_from (G : Nx.DiGraph) (layers : gmap Z Z) (node : Z) : Z :=
  match Nx.predecessors G node with
  | [] => 0
  | p :: ps =>
      max_of (default 0 (layers !! p)) ((λ p, default 0 (layers !! p)) <$> ps)
      + 1
  end.

Definition levelize_acyclic (G : Nx.DiGraph) (order : list Z) : gmap Z Z :=
  foldl (λ layers node, <[node := layer_from G layers node]> layers) ∅ order.

Definition levelize_condensed (members : list (list Z))
    (topo_order : list Z) : gmap Z Z :=
  foldl (λ layers entry,
           foldl (λ layers file_id, <[file_id := entry.1]> layers) layers
                 (default [] (members !! Z.to_nat entry.2)))
        ∅ (zip (range 0 (len topo_order)) topo_order).

Definition compute_levelization : gmap Z Z :=
  let G := build_include_graph in
  match Nx.is_directed_acyclic_graph G with
  | None => ∅
  | Some false =>
      let '(scc_graph, members) := Nx.condensation G in
      match Nx.topological_sort scc_graph with
      | Nx.TopoOk topo_order => levelize_condensed members topo_order
      | _ => ∅
      end
  | Some true =>
      match Nx.topological_sort G with
      | Nx.TopoOk order => levelize_acyclic G order
      | _ => ∅
      end
  end.

(** The message of a layer violation, an f-string over these four. *)
Record LayerMessage := mkLayerMessage {
  lower_name : pystr;
  lower_layer : Z;
  upper_name : pystr;
  upper_layer : Z
}.

(** One entry of the list [check_architecture_violations] returns. *)
Record Violation := mkViolation {
  rule_id : Z;
  rule_name : pystr;
  type : pystr;
  message : LayerMessage;
  reference_line : Z;
  file_id : option Z;
  target_symbol : pystr
}.

Definition find_module (mid : Z) : option ModuleDefinition.t :=
  List.find (λ m, bool_decide (ModuleDefinition.id m = mid)) (modules db).

Definition module_file_ids (m : ModuleDefinition.t) : list Z :=
  FileRecord.id <$>
    filter (λ f, FileRecord.module_id f = Some (ModuleDefinition.id m))
           (files db).

(** [x.in_(ids)] on a nullable column. *)
Definition in_ (x : option Z) (ids : list Z) : bool :=
  match x with Some i => bool_decide (i ∈ ids) | None => false end.

Definition _check_layer_violations (rule : ArchitectureRule.t)
    : list Violation :=
  if negb (truthy_int (ArchitectureRule.source_module_id rule))
     || negb (truthy_int (ArchitectureRule.target_module_id rule))
  then []
  else
    match ArchitectureRule.source_module_id rule ≫= find_module,
          ArchitectureRule.target_module_id rule ≫= find_module with
    | Some source_module, Some target_module =>
        if ModuleDefinition.layer source_module
           <? ModuleDefinition.layer target_module then
          let source_file_ids := module_file_ids source_module in
          let target_file_ids := module_file_ids target_module in
          ref ← references db;
          target_sym ← symbols db;
          if bool_decide (Reference.target_id ref = Symbol.id target_sym)
             && in_ (Reference.file_id ref) source_file_ids
             && in_ (Symbol.file_id target_sym) target_file_ids
          then
            [mkViolation
               (ArchitectureRule.id rule) (ArchitectureRule.name rule)
               (py "layer_violation")
               (mkLayerMessage (ModuleDefinition.name source_module)
                               (ModuleDefinition.layer source_module)
                               (ModuleDefinition.name target_module)
                               (ModuleDefinition.layer target_module))
               (Reference.line ref) (Reference.file_id ref)
               (Symbol.name target_sym)]
          else []
        else []
    | _, _ => []
    end.

Definition _check_locked_module_violations (rule : ArchitectureRule.t)
    : list Violation := [].

Definition check_architecture_violations : list Violation :=
  let rules :=
    filter (λ r, ArchitectureRule.project_id r = project_id
                 ∧ ArchitectureRule.is_active r = true)
           (architecture_rules db) in
  rule ← rules;
  if bool_decide (ArchitectureRule.rule_type rule = py "layer_violation")
  then _check_layer_violations rule
  else if bool_decide (ArchitectureRule.rule_type rule = py "locked_module")
  then _check_locked_module_violations rule
  else [].

End with_analyzer.
End ArchitectureAnalyzer.

From Stdlib Require Import Sorted.

(** ** The architecture analyzer: the reports over modules and files *)

Module Reports.
Import ArchitectureAnalyzer.

(** [list.sort(key=key, reverse=True)]: by descending key; the sort is
    stable, so elements with equal keys keep their order. *)
Fixpoint insert_descending {A} (key : A → Z) (x : A) (l : list A) : list A :=
  match l with
  | [] => [x]
  | y :: l' =>
      if key x <? key y then y :: insert_descending key x l' else x :: l
  end.

Definition sort_descending {A} (key : A → Z) (l : list A) : list A :=
  foldr (insert_descending key) [] l.

(** One entry of the list of modules of the dependency matrix. *)
Record ModuleEntry := mkModuleEntry {
  entry_id : Z;
  entry_name : pystr;
  entry_layer : Z
}.

Record DependencyMatrix := mkDependencyMatrix {
  module_list : list ModuleEntry;
  matrix : list (list Z)
}.

(** One entry of the list of hot spots. *)
Record FileMetrics := mkFileMetrics {
  file_id : Z;
  path : pystr;
  total_complexity : Z;
  function_count : Z;
  symbol_count : Z;
  avg_complexity : Q
}.

Section with_analyzer.
Context (w : World) (db : Database) (project_id : Z).

(** The number of [Include] rows from a file among [src_file_ids] to a
    file among [tgt_file_ids]. *)
Definition include_count (src_file_ids tgt_file_ids : list Z) : Z :=
  len (filter (λ inc, in_ (Include.source_file_id inc) src_file_ids
                      && in_ (Include.target_file_id inc) tgt_file_ids = true)
              (includes db)).

Definition get_module_dependency_matrix : DependencyMatrix :=
  let modules :=
    filter (λ m, ModuleDefinition.project_id m = project_id) (modules db) in
  match modules with
  | [] => mkDependencyMatrix [] []
  | _ =>
      let matrix :=
        imap (λ i src_module,
                let src_file_ids := module_file_ids db src_module in
                imap (λ j tgt_module,
                        if bool_decide (i = j) then 0
                        else include_count src_file_ids
                               (module_file_ids db tgt_module))
                     modules)
             modules in
      mkDependencyMatrix
        ((λ m, mkModuleEntry (ModuleDefinition.id m) (ModuleDefinition.name m)
                             (ModuleDefinition.layer m)) <$> modules)
        matrix
  end.

(** The metrics of one file; the average is kept as the exact quotient. *)
Definition metrics_of (file : FileRecord.t) : FileMetrics :=
  let symbols :=
    filter (λ s, Symbol.file_id s = Some (FileRecord.id file)) (symbols db) in
  let total_complexity :=
    foldl Z.add 0 (Symbol.cyclomatic_complexity <$> symbols) in
  let function_count := len (filter (λ s, Symbol.kind s = FUNCTION) symbols) in
  mkFileMetrics (FileRecord.id file) (FileRecord.path file)
    total_complexity function_count (len symbols)
    (if 0 <? function_count
     then Qmake total_complexity (Z.to_pos function_count) else 0).

Definition get_hotspot_files (top_n : Z) : list FileMetrics :=
  let files := _get_project_files w db project_id in
  let file_metrics := metrics_of <$> files in
  let file_metrics := sort_descending total_complexity file_metrics in
  slice file_metrics None (Some top_n).

End with_analyzer.
End Reports.

(** ** The service: what [main.py] computes from the store *)

Module Api.
Import ArchitectureAnalyzer.

(** One entry of the list of files of the matrix. *)
Record DsmFile := mkDsmFile {
  dsm_id : Z;
  dsm_name : pystr;
  dsm_path : pystr
}.

(** The answer of the endpoint: the files in matrix order, with the
    matrix. *)
Record Dsm := mkDsm {
  file_list : list DsmFile;
  matrix : list (list Z)
}.

(** [matrix[i][j] += 1]; [None] stands for [IndexError]. *)
Definition increment (matrix : list (list Z)) (i j : nat)
    : option (list (list Z)) :=
  row ← matrix !! i;
  x ← row !! j;
  Some (<[i := <[j := x + 1]> row]> matrix).

(** [{f.id: f for f in files}]: of two files with one id the later
    stays. *)
Definition file_map (files : list FileRecord.t) : gmap Z FileRecord.t :=
  foldl (λ m f, <[FileRecord.id f := f]> m) ∅ files.

(** [{f.id: i for i, f in enumerate(ordered_files)}] *)
Definition index_map (ordered_files : list FileRecord.t) : gmap Z nat :=
  foldl (λ m entry, <[FileRecord.id entry.2 := entry.1]> m) ∅
        (imap (λ i f, (i, f)) ordered_files).

Section with_session.
(** [basename] is [os.path.basename]. *)
Context (w : World) (basename : pystr → pystr) (db : Database).

(** The files under the root of a project, as this endpoint selects
    them. *)
Definition files_under (root_path : pystr) : list FileRecord.t :=
  filter (λ f, FileRecord.path f = root_path
               ∨ like (root_path ++ sep w ++ py "%") (FileRecord.path f)
                 = true)
         (files db).

(** The includes between two of the files. *)
Definition includes_among (file_ids : list Z) : list Include.t :=
  filter (λ inc, in_ (Include.source_file_id inc) file_ids
                 && in_ (Include.target_file_id inc) file_ids = true)
         (includes db).

(** The graph of the includes, without those of a file to itself. *)
Definition dsm_graph (files : list FileRecord.t)
    (includes : list Include.t) : Nx.DiGraph :=
  let G := foldl (λ G f, Nx.add_node (FileRecord.id f) G) Nx.empty files in
  foldl (λ G inc,
           match Include.source_file_id inc, Include.target_file_id inc with
           | Some src, Some tgt =>
               if bool_decide (src ≠ tgt) then Nx.add_edge src tgt G else G
           | _, _ => G
           end) G includes.

(** The order of the ids: a topological order, or, with cycles, the
    members of the components in a topological order of the condensed
    graph.  [None]: an exception other than [NetworkXUnfeasible]
    escapes. *)
Definition sorted_ids (G : Nx.DiGraph) : option (list Z) :=
  match Nx.topological_sort G with
  | Nx.TopoOk order => Some order
  | Nx.NetworkXUnfeasible =>
      let '(scc_graph, members) := Nx.condensation G in
      scc_order ←
        match Nx.topological_sort scc_graph with
        | Nx.TopoOk order => Some order
        | Nx.NetworkXUnfeasible => Some (Nx.nodes scc_graph)
        | _ => None
        end;
      Some (scc_idx ← scc_order; default [] (members !! Z.to_nat scc_idx))
  | _ => None
  end.

(** The files in the order of [sorted_ids], then those it left out. *)
Definition order_files (files : list FileRecord.t) (sorted_ids : list Z)
    : list FileRecord.t :=
  let file_map_obj := file_map files in
  let ordered_files := omap (λ fid, file_map_obj !! fid) sorted_ids in
  let seen_ids : gset Z := list_to_set sorted_ids in
  ordered_files ++ filter (λ f, FileRecord.id f ∉ seen_ids) files.

(** The matrix: one count for every include between two files of the
    list. *)
Definition count_includes (ordered_files : list FileRecord.t)
    (includes : list Include.t) : option (list (list Z)) :=
  let n := length ordered_files in
  let file_index_map := index_map ordered_files in
  foldl (λ matrix inc,
           matrix ← matrix;
           match Include.source_file_id inc ≫= (file_index_map !!.),
                 Include.target_file_id inc ≫= (file_index_map !!.) with
           | Some src_idx, Some tgt_idx => increment matrix src_idx tgt_idx
           | _, _ => Some matrix
           end)
        (Some (replicate n (replicate n 0))) includes.

Definition get_project_dsm (project_id : Z) : option Dsm :=
  match List.find (λ p, bool_decide (Project.id p = project_id))
                  (projects db) with
  | None => Some (mkDsm [] [])
  | Some project =>
      let files := files_under (Project.root_path project) in
      let file_ids := FileRecord.id <$> files in
      let includes := includes_among file_ids in
      let G := dsm_graph files includes in
      sorted_ids ← sorted_ids G;
      let ordered_files := order_files files sorted_ids in
      matrix ← count_includes ordered_files includes;
      Some (mkDsm ((λ f, mkDsmFile (FileRecord.id f)
                                   (basename (FileRecord.path f))
                                   (FileRecord.path f)) <$> ordered_files)
                  matrix)
  end.

End with_session.
End Api.

(** ** Vocabulary of the statements *)

Module Props.
Import Clang IndexerImpl.

(** No two rows of the symbol table carry the same [usr]. *)
Definition usr_unique (d : Database) : Prop :=
  NoDup (Symbol.usr <$> symbols d).

(** [usr] uniqueness in every state of the session: the open transaction,
    the committed state, and every state that was ever committed. *)
Definition store_unique (s : Indexer) : Prop :=
  usr_unique (working (db s))
  ∧ usr_unique (committed (db s))
  ∧ Forall usr_unique (history (db s)).


(** [m] keeps the state predicate [I], whether it returns or raises. *)
Definition preserves {A} (I : Indexer → Prop) (m : M A) : Prop :=
  ∀ s, I s → I (m s).2.


(** The state after a new row [sym] was added and committed. *)
Definition after_insert (sym : Symbol.t) (s : Indexer) : Indexer :=
  let W := with_symbols (λ l, l ++ [sym]) (working (db s)) in
  mkIndexer (mkSession W W (history (db s) ++ [W]))
            (current_file_id s) (file_path s).

(** The complexity stored for a cursor of kind [k]; [None] when counting
    raises. *)
Definition complexity_of (cursor : Cursor) (k : CursorKind) : option Z :=
  if bool_decide (k = FUNCTION_DECL)
  then calculate_cyclomatic_complexity cursor
  else Some 0.

(** The row [get_or_create_symbol] builds for [cursor] in state [s]. *)
Definition new_symbol (w : World) (cursor : Cursor) (k : CursorKind)
    (complexity : Z) (s : Indexer) : Symbol.t :=
  Symbol.mk (next_id (Symbol.id <$> symbols (working (db s))))
            (spelling cursor) (get_usr cursor) (kind_map k)
            (get_symbol_signature w cursor)
            (current_file_id s)
            (line (location cursor)) (column (location cursor))
            (Some (get_symbol_end_line cursor)) complexity 0
            (bool_decide (storage_class cursor = STATIC))
            (bool_decide (storage_class cursor = EXTERN))
            (is_definition cursor).




(** The id of the row stored for the [usr] [u]. *)
Definition symbol_id_of (u : pystr) (d : Database) : option Z :=
  Symbol.id <$> List.find (λ s, bool_decide (Symbol.usr s = u)) (symbols d).

(** A reference as the triple the specification writes [(f → x, kind)]. *)
Definition edge_of (r : Reference.t) : option Z * Z * RefType :=
  (Reference.source_id r, Reference.target_id r, Reference.kind r).

(** A triple with two postconditions: from a state in [P], [m] returns
    [a] in a state in [Q a] or raises in a state in [R]. *)
Definition hoare {A} (P : Indexer → Prop) (m : M A)
    (Q : A → Indexer → Prop) (R : Indexer → Prop) : Prop :=
  ∀ s, P s →
    match m s with
    | (Ok a, s') => Q a s'
    | (Raise, s') => R s'
    end.

(** Every row of [d] was in [S0] or belongs to the file [cur]. *)
Definition old_or_owned (S0 : list Symbol.t) (cur : option Z)
    (d : Database) : Prop :=
  ∀ x, x ∈ symbols d → x ∈ S0 ∨ Symbol.file_id x = cur.

(** The indexer is at the file [cur] and its session holds only rows
    that were in [S0] or belong to [cur]. *)
Definition owned (S0 : list Symbol.t) (cur : option Z) (s : Indexer)
    : Prop :=
  current_file_id s = cur
  ∧ old_or_owned S0 cur (working (db s))
  ∧ old_or_owned S0 cur (committed (db s)).

(** The same for a traversal, which never rolls back: only the open
    transaction matters. *)
Definition owned_working (S0 : list Symbol.t) (cur : option Z)
    (s : Indexer) : Prop :=
  current_file_id s = cur ∧ old_or_owned S0 cur (working (db s)).

(** The file a row is stored under. *)
Definition symbol_file_of (u : pystr) (d : Database) : option (option Z) :=
  Symbol.file_id <$>
    List.find (λ s, bool_decide (Symbol.usr s = u)) (symbols d).

(** *** Whitespace *)

(** [ws] are the words of [s]: the maximal runs of characters that are
    not spaces, in order.  Spaces are skipped; a word is not empty, holds
    no space, and is followed by a space or by the end of the string. *)
Inductive words_of : pystr → list pystr → Prop :=
  | words_end : words_of [] []
  | words_space c s ws :
      isspace c = true → words_of s ws → words_of (c :: s) ws
  | words_word wd s ws :
      wd ≠ [] → Forall (λ c, isspace c = false) wd →
      (s = [] ∨ ∃ c s', s = c :: s' ∧ isspace c = true) →
      words_of s ws → words_of (wd ++ s) (wd :: ws).

(** C7 as the specification states it, for the row created for
    [cursor]. *)
Definition signature_within_500 (w : World) (cursor : Cursor)
    (s : Indexer) : Prop :=
  ∀ sym s',
    get_or_create_symbol w (Some cursor) s = (Ok (Some sym), s') →
    len (Symbol.signature sym) ≤ 500.

(** *** The source text of an extent *)

(** The place of the location [a] in the text of a file read as [lines]:
    the number of characters in front of it, lines and columns being
    counted from 1. *)
Definition offset (lines : list pystr) (a : SourceLocation) : Z :=
  len (concat (take (Z.to_nat (line a - 1)) lines)) + (column a - 1).

(** The text of the file from the location [a] up to the location [b],
    [b] left out. *)
Definition text_between (lines : list pystr) (a b : SourceLocation)
    : pystr :=
  take (Z.to_nat (offset lines b - offset lines a))
       (drop (Z.to_nat (offset lines a)) (concat lines)).

(** The location [a] lies in the text: on one of its lines, at one of the
    characters of that line or just behind the last. *)
Definition located (lines : list pystr) (a : SourceLocation) : Prop :=
  1 ≤ line a
  ∧ ∃ l, lines !! Z.to_nat (line a - 1) = Some l
         ∧ 1 ≤ column a ≤ len l + 1.

(** The location [a] is not behind the location [b]. *)
Definition not_after (a b : SourceLocation) : Prop :=
  line a < line b ∨ (line a = line b ∧ column a ≤ column b).

(** [sig] is [text] with its words joined by single spaces, cut to 500
    characters and marked with the ellipsis when that is longer. *)
Definition collapsed_and_cut (text sig : pystr) : Prop :=
  ∃ ws, words_of text ws
        ∧ (len (join (py " ") ws) ≤ 500 → sig = join (py " ") ws)
        ∧ (500 < len (join (py " ") ws) →
           sig = take 500 (join (py " ") ws) ++ py "..."
           ∧ len sig = 503).

(** The source text of the extent cannot be had: the extent has no file,
    it starts and ends in different files, the file cannot be read, or
    the one line of the extent lies behind the end of the file. *)
Definition text_unavailable (w : World) (ext : SourceRange) : Prop :=
  file (start ext) = None
  ∨ file (start ext) ≠ file (end_ ext)
  ∨ (∃ f, file (start ext) = Some f ∧ readlines w f = None)
  ∨ (∃ f lines, file (start ext) = Some f
                ∧ readlines w f = Some lines
                ∧ line (start ext) = line (end_ ext)
                ∧ len lines < line (start ext)).

(** *** The scan status as readers of the store see it *)

(** The scan status of project [pid] in the state [d]. *)
Definition status_of (pid : Z) (d : Database) : option ScanStatus :=
  Project.scan_status <$>
    List.find (λ p, bool_decide (Project.id p = pid)) (projects d).

(** The run started with the committed states [h0]; since then it has
    committed at least once, every time with the status [scanning], and
    [scanning] is also the status in the open transaction. *)
Definition scanning_since (pid : Z) (h0 : list Database) (s : Indexer)
    : Prop :=
  status_of pid (working (db s)) = Some SCANNING
  ∧ status_of pid (committed (db s)) = Some SCANNING
  ∧ ∃ mid, history (db s) = h0 ++ mid ∧ mid ≠ []
           ∧ Forall (λ d, status_of pid d = Some SCANNING) mid.

(** The run has ended: after the commits with status [scanning] a last
    commit carries the status [st], which is the status both states of
    the session now have. *)
Definition finished_with (pid : Z) (h0 : list Database) (st : ScanStatus)
    (s : Indexer) : Prop :=
  status_of pid (working (db s)) = Some st
  ∧ status_of pid (committed (db s)) = Some st
  ∧ ∃ mid last, history (db s) = h0 ++ mid ++ [last] ∧ mid ≠ []
                ∧ Forall (λ d, status_of pid d = Some SCANNING) mid
                ∧ status_of pid last = Some st.

(** The status a scan ends with: [completed] when its body runs to the
    end, [failed] when [os.path.join] raises on a missing root. *)
Definition terminal_status (root : option pystr) : ScanStatus :=
  match root with Some _ => COMPLETED | None => FAILED end.

(** The statuses readers can see during a run from [s] to [s']: the one
    committed when it starts, then the one of every commit of the run. *)
Definition run_statuses (pid : Z) (s s' : Indexer)
    : list (option ScanStatus) :=
  status_of pid (committed (db s))
  :: (status_of pid <$> drop (length (history (db s))) (history (db s'))).

(** The changes of value along a list. *)
Fixpoint transitions {A} `{EqDecision A} (l : list A) : list (A * A) :=
  match l with
  | a :: (b :: _) as l' =>
      if decide (a = b) then transitions l' else (a, b) :: transitions l'
  | _ => []
  end.

(** The life cycle the specification gives the status. *)
Definition lifecycle : list (option ScanStatus * option ScanStatus) :=
  [(Some PENDING, Some SCANNING); (Some SCANNING, Some COMPLETED);
   (Some SCANNING, Some FAILED)].

(** C8 as the specification states it, for one run. *)
Definition follows_lifecycle (w : World) (pid : Z) (root : option pystr)
    (s : Indexer) : Prop :=
  let s' := (IndexerImpl.scan_project w pid root s).2 in
  (∀ t, t ∈ transitions (run_statuses pid s s') → t ∈ lifecycle)
  ∧ (status_of pid (committed (db s')) = Some COMPLETED
     ∨ status_of pid (committed (db s')) = Some FAILED).

(** *** Layer violations *)

(** The file [fid] is a file of the module [m]. *)
Definition file_in_module (d : Database) (fid : option Z)
    (m : ModuleDefinition.t) : Prop :=
  ∃ f, f ∈ files d ∧ fid = Some (FileRecord.id f)
       ∧ FileRecord.module_id f = Some (ModuleDefinition.id m).

(** The row a reference points at. *)
Definition symbol_by_id (d : Database) (i : Z) : option Symbol.t :=
  List.find (λ s, bool_decide (Symbol.id s = i)) (symbols d).

(** The record reported for the reference [ref] to the symbol [sym]. *)
Definition violation_record (rule : ArchitectureRule.t)
    (src tgt : ModuleDefinition.t) (ref : Reference.t) (sym : Symbol.t)
    : ArchitectureAnalyzer.Violation :=
  ArchitectureAnalyzer.mkViolation
    (ArchitectureRule.id rule) (ArchitectureRule.name rule)
    (py "layer_violation")
    (ArchitectureAnalyzer.mkLayerMessage
       (ModuleDefinition.name src) (ModuleDefinition.layer src)
       (ModuleDefinition.name tgt) (ModuleDefinition.layer tgt))
    (Reference.line ref) (Reference.file_id ref) (Symbol.name sym).

(** Following the specification: the one record of a reference made in
    a file of the source module to a symbol of a file of the target
    module, and none for any other reference. *)
Definition violation_for (d : Database) (rule : ArchitectureRule.t)
    (src tgt : ModuleDefinition.t) (ref : Reference.t)
    : option ArchitectureAnalyzer.Violation :=
  sym ← symbol_by_id d (Reference.target_id ref);
  if ArchitectureAnalyzer.in_ (Reference.file_id ref)
       (ArchitectureAnalyzer.module_file_ids d src)
     && ArchitectureAnalyzer.in_ (Symbol.file_id sym)
          (ArchitectureAnalyzer.module_file_ids d tgt)
  then Some (violation_record rule src tgt ref sym)
  else None.

(** The two modules a rule names, when both ids are set and found. *)
Definition rule_modules (d : Database) (rule : ArchitectureRule.t)
    : option (ModuleDefinition.t * ModuleDefinition.t) :=
  match ArchitectureRule.source_module_id rule,
        ArchitectureRule.target_module_id rule with
  | Some i, Some j =>
      if (i =? 0) || (j =? 0) then None
      else
        src ← ArchitectureAnalyzer.find_module d i;
        tgt ← ArchitectureAnalyzer.find_module d j;
        Some (src, tgt)
  | _, _ => None
  end.

(** Following the specification: what one active rule contributes. *)
Definition rule_violations (d : Database) (rule : ArchitectureRule.t)
    : list ArchitectureAnalyzer.Violation :=
  if bool_decide (ArchitectureRule.rule_type rule = py "layer_violation")
  then
    match rule_modules d rule with
    | Some (src, tgt) =>
        if ModuleDefinition.layer src <? ModuleDefinition.layer tgt
        then omap (violation_for d rule src tgt) (references d)
        else []
    | None => []
    end
  else [].

(** *** Graphs *)

(** [u] includes [v]: the graph has the edge from the includer to the
    included file. *)
Definition edge (G : Nx.DiGraph) (u v : Z) : Prop := (u, v) ∈ Nx.edges G.

#[global] Instance edge_dec G u v : Decision (edge G u v).
Proof. unfold edge. apply _. Defined.

(** What [add_node] and [add_edge] maintain: no node and no edge is kept
    twice, and the ends of an edge are nodes. *)
Definition wf_graph (G : Nx.DiGraph) : Prop :=
  NoDup (Nx.nodes G) ∧ NoDup (Nx.edges G)
  ∧ ∀ u v, edge G u v → u ∈ Nx.nodes G ∧ v ∈ Nx.nodes G.

(** [u] and [v] lie on a common cycle or are equal: each reaches the
    other. *)
Definition mutually_reachable (G : Nx.DiGraph) (u v : Z) : Prop :=
  rtc (edge G) u v ∧ rtc (edge G) v u.

(** The graph has no cycle. *)
Definition acyclic (G : Nx.DiGraph) : Prop := ∀ v, ¬ tc (edge G) v v.

(** *** Topological order *)

(** The predecessors of [v] not yet in [P]. *)
Definition remaining (G : Nx.DiGraph) (P : list Z) (v : Z) : Z :=
  len (filter (λ u, u ∉ P) (Nx.predecessors G v)).

(** A list built by appending, one at a time, a node all of whose
    predecessors are already in the list. *)
Inductive topo_list (G : Nx.DiGraph) : list Z → Prop :=
  | topo_nil : topo_list G []
  | topo_snoc l v :
      topo_list G l → (∀ u, edge G u v → u ∈ l) → topo_list G (l ++ [v]).

(** [order] lists every node once, each after its predecessors. *)
Definition topological (G : Nx.DiGraph) (order : list Z) : Prop :=
  NoDup order ∧ (∀ v, v ∈ order ↔ v ∈ Nx.nodes G) ∧ topo_list G order.

(** The state of Kahn's algorithm between two nodes: [P] are the nodes
    processed so far, in order, [Q] the nodes released and waiting, [m] the
    in-degree map.  A released node has all its predecessors in [P] and no
    entry in [m]; any other node has an entry, the positive number of its
    predecessors outside [P]. *)
Definition kahn_inv (G : Nx.DiGraph) (P Q : list Z) (m : gmap Z Z)
    : Prop :=
  NoDup (P ++ Q)
  ∧ (∀ v, v ∈ P ++ Q → v ∈ Nx.nodes G)
  ∧ (∀ v, v ∈ P ++ Q → m !! v = None ∧ ∀ u, edge G u v → u ∈ P)
  ∧ (∀ v, v ∈ Nx.nodes G → v ∉ P ++ Q →
          m !! v = Some (remaining G P v) ∧ 0 < remaining G P v)
  ∧ (∀ v, v ∉ Nx.nodes G → m !! v = None)
  ∧ topo_list G P.

(** The nodes from which [v] is reached by a path of one edge or more. *)
Definition ancestors (G : Nx.DiGraph) (v : Z) : gset Z :=
  list_to_set
    (filter (λ u, Exists (λ x, v ∈ Nx.reach G x) (Nx.successors G u))
            (Nx.nodes G)).

(** [l] is the layer of [n] by the rule of the acyclic branch, read off
    the finished map [L]: 0 without predecessors, otherwise one more than
    the largest layer of a predecessor. *)
Definition layer_rule (G : Nx.DiGraph) (L : gmap Z Z) (n l : Z) : Prop :=
  (Nx.predecessors G n = [] ∧ l = 0)
  ∨ (Nx.predecessors G n ≠ []
     ∧ (∀ p, p ∈ Nx.predecessors G n → ∃ lp, L !! p = Some lp ∧ lp + 1 ≤ l)
     ∧ ∃ p, p ∈ Nx.predecessors G n ∧ L !! p = Some (l - 1)).

(** No two lists of [cs] share a member. *)
Inductive all_disjoint : list (list Z) → Prop :=
  | all_disjoint_nil : all_disjoint []
  | all_disjoint_cons c cs :
      Forall (λ c', ∀ x, x ∈ c → x ∉ c') cs →
      all_disjoint cs → all_disjoint (c :: cs).

End Props.

(** ** Concrete inputs used by the examples and witnesses *)

Module Fixtures.
Import Clang IndexerImpl.

(** The file [/p/a.c]:
<<
int x;
int y;
void f(void) { x = y + 1; }
>> *)
Definition a_c : pystr := py "/p/a.c".

Definition a_c_lines : list pystr :=
  [py "int x;" ++ [10%N]; py "int y;" ++ [10%N];
   py "void f(void) { x = y + 1; }" ++ [10%N]].

Definition at_ (l c : Z) : SourceLocation := mkLocation (Some a_c) l c.

Definition nowhere : SourceLocation := mkLocation None 0 0.

(** A declaration on line [l], named at column [c], spanning the columns
    [1 .. c']. *)
Definition decl (k : CursorKind) (name usr : string) (l c c' : Z)
    (toks : list string) (cs : list Cursor) : Cursor :=
  mkCursor (Some k) (py name) (py name) (py usr) (at_ l c)
           (mkRange (at_ l 1) (at_ l c')) SC_NONE true
           (Some (py <$> toks)) cs None None.

(** An expression on line [l] spanning the columns [c .. c']. *)
Definition expr (k : CursorKind) (name : string) (l c c' : Z)
    (toks : list string) (cs : list Cursor) (target : option Cursor)
    : Cursor :=
  mkCursor (Some k) (py name) (py name) [] (at_ l c)
           (mkRange (at_ l c) (at_ l c')) SC_NONE false
           (Some (py <$> toks)) cs target target.

Definition var_x : Cursor := decl VAR_DECL "x" "c:@x" 1 5 6 ["int"; "x"] [].
Definition var_y : Cursor := decl VAR_DECL "y" "c:@y" 2 5 6 ["int"; "y"] [].
Definition ref_x : Cursor :=
  expr DECL_REF_EXPR "x" 3 16 17 ["x"] [] (Some var_x).
Definition ref_y : Cursor :=
  expr DECL_REF_EXPR "y" 3 20 21 ["y"] [] (Some var_y).
Definition one : Cursor := expr INTEGER_LITERAL "" 3 24 25 ["1"] [] None.

(** [y + 1]: the read of [y] sits under an implicit conversion. *)
Definition y_plus_1 : Cursor :=
  expr BINARY_OPERATOR "" 3 20 25 ["y"; "+"; "1"]
       [expr UNEXPOSED_EXPR "y" 3 20 21 ["y"] [ref_y] None; one] None.

(** [x = y + 1] *)
Definition assignment : Cursor :=
  expr BINARY_OPERATOR "" 3 16 25 ["x"; "="; "y"; "+"; "1"]
       [ref_x; y_plus_1] None.

Definition body_f : Cursor :=
  expr COMPOUND_STMT "" 3 14 28
       ["{"; "x"; "="; "y"; "+"; "1"; ";"; "}"] [assignment] None.

Definition fun_f : Cursor :=
  decl FUNCTION_DECL "f" "c:@F@f" 3 6 28
       ["void"; "f"; "("; "void"; ")"; "{"; "x"; "="; "y"; "+"; "1"; ";"; "}"]
       [body_f].

Definition root_of (cs : list Cursor) : Cursor :=
  mkCursor (Some TRANSLATION_UNIT) a_c a_c [] nowhere
           (mkRange nowhere nowhere) SC_NONE false (Some []) cs None None.

Definition tu_a : TranslationUnit :=
  mkTU (root_of [var_x; var_y; fun_f]) (Some []).

(** A world with the one project directory [/p] holding [a.c]; [parse]
    answers with [tu] whatever the file. *)
Definition world_of (tu : option TranslationUnit) : World :=
  mkWorld (py "/") (λ p, p) (λ a b, a ++ py "/" ++ b) (λ p, p)
          (λ _, false) (λ _, Some 0)
          (λ p, if bool_decide (p = a_c) then Some a_c_lines else None)
          (λ p, if bool_decide (p = py "/p")
                then Some (mkDir [] [py "a.c"]) else None)
          (λ _ _, tu) (λ _, None).

Definition world_a : World := world_of (Some tu_a).

(** A fresh indexer on an empty store. *)
Definition fresh : Indexer :=
  mkIndexer (mkSession empty_db empty_db []) None None.

(** The project [1] rooted at [/p], in a given scan status. *)
Definition project_p (status : ScanStatus) : Project.t :=
  Project.mk 1 (py "p") (py "/p") status 0 None None.

Definition db_with_project (status : ScanStatus) : Database :=
  with_projects (λ _, [project_p status]) empty_db.

Definition indexer_on (d : Database) : Indexer :=
  mkIndexer (mkSession d d []) None None.

(** A row for [f] as a prototype leaves it: a declaration, not a
    definition. *)
Definition row_f_declared : Symbol.t :=
  Symbol.mk 1 (py "f") (py "c:@F@f") FUNCTION (py "void f(void);")
            (Some 7) 1 6 (Some 1) 1 0 false false false.

Definition db_with_f_declared : Database :=
  with_symbols (λ _, [row_f_declared]) empty_db.

(** A second content for [/p/a.c], with a library function declared in a
    header:
<<
#include <stdio.h>
int x;
void h(void) { x = 1; puts("hi"); }
>> *)
Definition stdio_h : pystr := py "/usr/include/stdio.h".

Definition puts_decl : Cursor :=
  mkCursor (Some FUNCTION_DECL) (py "puts") (py "puts(const char *)")
           (py "c:@F@puts") (mkLocation (Some stdio_h) 632 12)
           (mkRange (mkLocation (Some stdio_h) 632 1)
                    (mkLocation (Some stdio_h) 632 36))
           EXTERN false
           (Some (py <$> ["extern"; "int"; "puts"; "("; "const"; "char";
                          "*"; "__s"; ")"]))
           [] None None.

Definition x_is_1 : Cursor :=
  expr BINARY_OPERATOR "" 3 16 21 ["x"; "="; "1"]
       [expr DECL_REF_EXPR "x" 3 16 17 ["x"] [] (Some (decl VAR_DECL "x" "c:@x" 2 5 6 ["int"; "x"] []));
        expr INTEGER_LITERAL "" 3 20 21 ["1"] [] None] None.

Definition call_puts : Cursor :=
  mkCursor (Some CALL_EXPR) (py "puts") (py "puts") [] (at_ 3 23)
           (mkRange (at_ 3 23) (at_ 3 33)) SC_NONE false
           (Some (py <$> ["puts"; "("; "hi"; ")"]))
           [expr UNEXPOSED_EXPR "puts" 3 23 27 ["puts"]
                 [expr DECL_REF_EXPR "puts" 3 23 27 ["puts"] []
                       (Some puts_decl)] None]
           None (Some puts_decl).

Definition fun_h : Cursor :=
  decl FUNCTION_DECL "h" "c:@F@h" 3 6 36
       ["void"; "h"; "("; "void"; ")"; "{"; "x"; "="; "1"; ";"; "puts"; "(";
        "hi"; ")"; ";"; "}"]
       [expr COMPOUND_STMT "" 3 14 36 [] [x_is_1; call_puts] None].

Definition tu_b : TranslationUnit :=
  mkTU (root_of [puts_decl; decl VAR_DECL "x" "c:@x" 2 5 6 ["int"; "x"] [];
                 fun_h]) (Some []).

Definition world_b : World := world_of (Some tu_b).

(** A cursor of a kind the binding does not know: reading [.kind]
    raises. *)
Definition unreadable : Cursor :=
  mkCursor None [] [] [] (at_ 4 1) (mkRange (at_ 4 1) (at_ 4 2))
           SC_NONE false None [] None None.

(** The content above followed by a declaration the binding cannot
    read. *)
Definition tu_broken : TranslationUnit :=
  mkTU (root_of [puts_decl; decl VAR_DECL "x" "c:@x" 2 5 6 ["int"; "x"] [];
                 fun_h; unreadable]) (Some []).

Definition world_broken : World := world_of (Some tu_broken).

(** A second file [/p/b.c] holding [int z;], and a world in which the
    project has both files, [a.c] with the unreadable declaration. *)
Definition b_c : pystr := py "/p/b.c".

Definition var_z : Cursor :=
  mkCursor (Some VAR_DECL) (py "z") (py "z") (py "c:@z")
           (mkLocation (Some b_c) 1 5)
           (mkRange (mkLocation (Some b_c) 1 1) (mkLocation (Some b_c) 1 6))
           SC_NONE true (Some (py <$> ["int"; "z"])) [] None None.

Definition tu_z : TranslationUnit :=
  mkTU (mkCursor (Some TRANSLATION_UNIT) b_c b_c [] nowhere
                 (mkRange nowhere nowhere) SC_NONE false (Some [])
                 [var_z] None None) (Some []).

Definition world_two : World :=
  mkWorld (py "/") (λ p, p) (λ a b, a ++ py "/" ++ b) (λ p, p)
          (λ _, false) (λ _, Some 0) (λ _, None)
          (λ p, if bool_decide (p = py "/p")
                then Some (mkDir [] [py "a.c"; py "b.c"]) else None)
          (λ p _, if bool_decide (p = a_c) then Some tu_broken
                  else Some tu_z)
          (λ _, None).

(** A declaration whose text is 501 characters without a space, all on
    the first line of [/p/long.c]. *)
Definition long_c : pystr := py "/p/long.c".

Definition long_text : pystr := replicate 501 97%N.

Definition long_decl : Cursor :=
  mkCursor (Some VAR_DECL) (py "v") (py "v") (py "c:@v")
           (mkLocation (Some long_c) 1 5)
           (mkRange (mkLocation (Some long_c) 1 1)
                    (mkLocation (Some long_c) 1 502))
           SC_NONE true (Some []) [] None None.

Definition world_long : World :=
  mkWorld (py "/") (λ p, p) (λ a b, a ++ py "/" ++ b) (λ p, p)
          (λ _, false) (λ _, Some 0)
          (λ p, if bool_decide (p = long_c) then Some [long_text] else None)
          (λ _, None) (λ _ _, None) (λ _, None).

(** A project with the modules [core] (layer 0) and [ui] (layer 1), one
    file each, and a rule that forbids [core] to use [ui].  Of the four
    references, the first and the last are made in [core] to [draw], a
    symbol of [ui]. *)
Definition arch_db : Database :=
  mkDatabase
    [project_p COMPLETED]
    [FileRecord.mk 1 (py "/p/core/a.c") 0 (Some 1) (Some 1);
     FileRecord.mk 2 (py "/p/ui/b.c") 0 (Some 1) (Some 2)]
    [Symbol.mk 1 (py "draw") (py "c:@F@draw") FUNCTION (py "void draw(void)")
               (Some 2) 1 6 (Some 3) 1 0 false false true;
     Symbol.mk 2 (py "helper") (py "c:@F@helper") FUNCTION
               (py "void helper(void)") (Some 1) 1 6 (Some 3) 1 0
               false false true]
    [Reference.mk 1 (Some 2) 1 CALL (Some 1) 2 3;
     Reference.mk 2 (Some 2) 2 CALL (Some 1) 4 3;
     Reference.mk 3 (Some 1) 1 CALL (Some 2) 2 3;
     Reference.mk 4 (Some 2) 1 READ (Some 1) 7 3]
    []
    [ModuleDefinition.mk 1 1 (py "core") (py "core/*") 0 false;
     ModuleDefinition.mk 2 1 (py "ui") (py "ui/*") 1 false]
    [ArchitectureRule.mk 1 1 (py "core must not use ui")
                         (py "layer_violation") (Some 1) (Some 2) true;
     ArchitectureRule.mk 2 1 (py "dangling") (py "layer_violation")
                         (Some 1) (Some 9) true;
     ArchitectureRule.mk 3 1 (py "downwards") (py "layer_violation")
                         (Some 2) (Some 1) true].

(** Four headers of the project [/p]: [a.h] includes [b.h], [b.h]
    includes [c.h], [c.h] includes [a.h]; [d.h] stands alone. *)
Definition cycle_db : Database :=
  mkDatabase
    [project_p COMPLETED]
    [FileRecord.mk 1 (py "/p/a.h") 0 (Some 1) None;
     FileRecord.mk 2 (py "/p/b.h") 0 (Some 1) None;
     FileRecord.mk 3 (py "/p/c.h") 0 (Some 1) None;
     FileRecord.mk 4 (py "/p/d.h") 0 (Some 1) None]
    [] []
    [Include.mk 1 (Some 1) (py "b.h") (Some 2) 1;
     Include.mk 2 (Some 2) (py "c.h") (Some 3) 1;
     Include.mk 3 (Some 3) (py "a.h") (Some 1) 1]
    [] [].

(** Three headers in a chain: [b.h] includes [a.h] and [c.h] includes
    [b.h]; [a.h] includes nothing. *)
Definition chain_db : Database :=
  mkDatabase
    [project_p COMPLETED]
    [FileRecord.mk 1 (py "/p/a.h") 0 (Some 1) None;
     FileRecord.mk 2 (py "/p/b.h") 0 (Some 1) None;
     FileRecord.mk 3 (py "/p/c.h") 0 (Some 1) None]
    [] []
    [Include.mk 1 (Some 2) (py "a.h") (Some 1) 1;
     Include.mk 2 (Some 3) (py "b.h") (Some 2) 1]
    [] [].

(** C1's example as the specification states it: on the chain, [a.h]
    (file 1) in layer 0, [b.h] (file 2) in layer 1, [c.h] (file 3) in
    layer 2. *)
Definition chain_layers_as_stated : Prop :=
  let L := ArchitectureAnalyzer.compute_levelization world_a chain_db 1 in
  L !! 1 = Some 0 ∧ L !! 2 = Some 1 ∧ L !! 3 = Some 2.

End Fixtures.

(** ** Vocabulary of the further properties of the engine *)

Module EngineProps.
Import Clang IndexerImpl Props.

(** The cursors of the tree of [node]: [node] first, then the trees of
    its children from left to right. *)
Fixpoint subtree (node : Cursor) : list Cursor :=
  node :: (fix over (cs : list Cursor) : list Cursor :=
             match cs with
             | [] => []
             | c :: cs' => subtree c ++ over cs'
             end) (children node).

(** What one cursor adds to the complexity of the function it lies in:
    one when it is a decision statement, and, when it is a binary
    operator, the number of [&&] and [||] among the tokens of its
    extent. *)
Definition decision_points (n : Cursor) : Z :=
  match kind n with
  | Some k =>
      (if bool_decide (k ∈ decision_kinds) then 1 else 0)
      + (if bool_decide (k = BINARY_OPERATOR)
         then logical_tokens (tokens n) else 0)
  | None => 0
  end.

Definition sum_list (l : list Z) : Z := foldr Z.add 0 l.

(** [P] holds of the open transaction, of the committed state and of
    every state committed since the history was [h0]. *)
Definition in_session (P : Database → Prop) (h0 : list Database)
    (s : Indexer) : Prop :=
  P (working (db s)) ∧ P (committed (db s))
  ∧ ∃ mid, history (db s) = h0 ++ mid ∧ Forall P mid.

(** The assignments [scan_project] makes to the row of its project. *)
Inductive scan_update : (Project.t → Project.t) → Prop :=
  | update_start : scan_update (set_scan SCANNING 0 MsgInitializing)
  | update_compile_commands path :
      scan_update (set_compile_commands_path path)
  | update_progress i n :
      0 < i ≤ n →
      scan_update (set_progress (Qmake i (Z.to_pos n)) (MsgIndexed i n))
  | update_complete n : scan_update (set_scan COMPLETED 1 (MsgComplete n))
  | update_failed : scan_update set_failed.

(** The primary keys of the tables the engine writes, and the unique
    column [FileRecord.path]. *)
Definition keyed (d : Database) : Prop :=
  NoDup (FileRecord.id <$> files d)
  ∧ NoDup (FileRecord.path <$> files d)
  ∧ NoDup (Symbol.id <$> symbols d)
  ∧ NoDup (Reference.id <$> references d)
  ∧ NoDup (Include.id <$> includes d).

(** A symbol row as the engine writes it: the [usr] is not empty, no
    line count is stored, and the complexity is at least one for a
    function and zero for anything else. *)
Definition symbol_row_ok (x : Symbol.t) : Prop :=
  Symbol.usr x ≠ []
  ∧ Symbol.lines_of_code x = 0
  ∧ is_Some (Symbol.end_line x)
  ∧ (Symbol.kind x = FUNCTION → 1 ≤ Symbol.cyclomatic_complexity x)
  ∧ (Symbol.kind x ≠ FUNCTION → Symbol.cyclomatic_complexity x = 0).

(** A reference row as the engine writes it: it has a source symbol, and
    it is a call, a read or a write. *)
Definition reference_row_ok (r : Reference.t) : Prop :=
  (∃ i, Reference.source_id r = Some i ∧ i ≠ 0)
  ∧ Reference.kind r ∈ [CALL; READ; WRITE].

(** The file table and the reference table of [d] are those of [d0] with
    rows added at the end. *)
Definition grown_from (d0 d : Database) : Prop :=
  files d0 `prefix_of` files d ∧ references d0 `prefix_of` references d.

(** The project table of [d] has the rows of [d0], in the same order and
    with the same identity; every row but the one of [pid] is the same. *)
Definition same_projects (pid : Z) (d0 d : Database) : Prop :=
  Forall2 (λ p0 p,
             Project.id p = Project.id p0
             ∧ Project.name p = Project.name p0
             ∧ Project.root_path p = Project.root_path p0
             ∧ (Project.id p0 ≠ pid → p = p0))
          (projects d0) (projects d).

(** The progress stored for the project [pid] is a fraction. *)
Definition progress_in_range (pid : Z) (d : Database) : Prop :=
  ∀ p, p ∈ projects d → Project.id p = pid →
       (0 <= Project.scan_progress p)%Q ∧ (Project.scan_progress p <= 1)%Q.

(** The states a run from [s] to [s'] has committed. *)
Definition committed_during (s s' : Indexer) : list Database :=
  drop (length (history (db s))) (history (db s')).

(** [p] is the path of a source file found below the directory [d] at
    [root] without entering an ignored directory: the name of a file of
    [d] with a source suffix joined to [root], or such a path below a
    sub-directory that is not ignored. *)
Inductive listed (w : World) : pystr → Dir → pystr → Prop :=
  | listed_here root d f :
      f ∈ filenames d → has_source_suffix f = true →
      listed w root d (path_join w root f)
  | listed_below root d name sub p :
      (name, sub) ∈ subdirs d → name ∉ ignored_dirs →
      listed w (path_join w root name) sub p →
      listed w root d p.

(** The session has no open transaction. *)
Definition clean (s : Indexer) : Prop := working (db s) = committed (db s).

(** What an include row says: the path as written, the file it was
    resolved to, and the line. *)
Definition include_entry (i : Include.t) : pystr * option Z * Z :=
  (Include.target_path i, Include.target_file_id i, Include.line i).

(** The entry of an inclusion directive: the target is resolved to the
    file registered under its absolute path, if there is one. *)
Definition inclusion_entry (w : World) (fs : list FileRecord.t)
    (inc : FileInclusion) : pystr * option Z * Z :=
  (include inc,
   FileRecord.id <$>
     List.find (λ f, bool_decide (FileRecord.path f = abspath w (include inc)))
               fs,
   line (inc_location inc)).

(** The inclusions of a translation unit made by the file [fp] itself. *)
Definition own_inclusions (w : World) (fp : pystr)
    (incs : list FileInclusion) : list FileInclusion :=
  filter (λ inc, abspath w (source inc) = fp) incs.

(** The rows the loop of [extract_includes] adds to the table [l] for the
    inclusions [incs] of the current file. *)
Fixpoint new_include_rows (w : World) (fs : list FileRecord.t)
    (fid : option Z) (l : list Include.t) (incs : list FileInclusion)
    : list Include.t :=
  match incs with
  | [] => []
  | inc :: rest =>
      let row :=
        Include.mk (next_id (Include.id <$> l)) fid (include inc)
          (FileRecord.id <$>
             List.find (λ f, bool_decide
                          (FileRecord.path f = abspath w (include inc))) fs)
          (line (inc_location inc)) in
      row :: new_include_rows w fs fid (l ++ [row]) rest
  end.

(** The include rows of the file [fid]. *)
Definition includes_of (fid : option Z) (d : Database) : list Include.t :=
  filter (λ i, Include.source_file_id i = fid) (includes d).

(** The include rows of the other files. *)
Definition includes_of_others (fid : option Z) (d : Database)
    : list Include.t :=
  filter (λ i, Include.source_file_id i ≠ fid) (includes d).

(** The kind of every cursor of the tree of [node] can be read. *)
Definition kinds_readable (node : Cursor) : Prop :=
  Forall (λ n, is_Some (kind n)) (subtree node).

(** The traversal finds nothing it cannot read: the kind of every cursor
    of the tree of [node] can be read, and so can the kinds in the tree
    of every cursor that a cursor of the tree refers to. *)
Definition readable (node : Cursor) : Prop :=
  Forall (λ n, is_Some (kind n)
               ∧ ∀ t, target_of n = Some t → kinds_readable t)
         (subtree node).

(** The call [m] returns, whatever the state: it does not raise. *)
Definition returns {A} (m : M A) : Prop :=
  ∀ s, ∃ a s', m s = (Ok a, s').

End EngineProps.

(** ** Further concrete inputs *)

Module Samples.
Import Clang IndexerImpl Fixtures.

(** The session after a first scan of the project [/p] of [world_a]. *)
Definition scanned_once : Indexer :=
  (scan_project world_a 1 (Some (py "/p"))
     (indexer_on (db_with_project PENDING))).2.

(** [a && b || c], which the parser reads as [(a && b) || c]. *)
Definition guard : Cursor :=
  expr BINARY_OPERATOR "" 4 7 18 ["a"; "&&"; "b"; "||"; "c"]
       [expr BINARY_OPERATOR "" 4 7 13 ["a"; "&&"; "b"]
             [expr DECL_REF_EXPR "a" 4 7 8 ["a"] [] None;
              expr DECL_REF_EXPR "b" 4 12 13 ["b"] [] None] None;
        expr DECL_REF_EXPR "c" 4 17 18 ["c"] [] None] None.

(** [int g(void) { if (a && b || c) return 1; return 0; }] *)
Definition fun_g : Cursor :=
  decl FUNCTION_DECL "g" "c:@F@g" 4 5 50 []
       [expr COMPOUND_STMT "" 4 13 50 []
             [expr IF_STMT "" 4 15 30 []
                   [guard; expr (OTHER_KIND 214) "" 4 20 29 [] [one] None]
                   None;
              expr (OTHER_KIND 214) "" 4 32 41 [] [one] None] None].

(** [os.path.basename] on a system whose separator is [/]: what follows
    the last separator. *)
Definition posix_basename (p : pystr) : pystr :=
  foldl (λ name c, if (c =? 47)%N then [] else name ++ [c]) [] p.

(** The answer of the matrix endpoint for the three headers in a chain:
    [c.h], [b.h], [a.h], each including the next. *)
Definition chain_dsm : Api.Dsm :=
  Api.mkDsm
    [Api.mkDsmFile 3 (py "c.h") (py "/p/c.h");
     Api.mkDsmFile 2 (py "b.h") (py "/p/b.h");
     Api.mkDsmFile 1 (py "a.h") (py "/p/a.h")]
    [[0; 1; 0];
     [0; 0; 1];
     [0; 0; 0]].

(** The answer for the four headers of which three include each other in
    a circle: the include of [a.h] by [c.h] is below the diagonal. *)
Definition cycle_dsm : Api.Dsm :=
  Api.mkDsm
    [Api.mkDsmFile 1 (py "a.h") (py "/p/a.h");
     Api.mkDsmFile 2 (py "b.h") (py "/p/b.h");
     Api.mkDsmFile 3 (py "c.h") (py "/p/c.h");
     Api.mkDsmFile 4 (py "d.h") (py "/p/d.h")]
    [[0; 1; 0; 0];
     [0; 0; 1; 0];
     [1; 0; 0; 0];
     [0; 0; 0; 0]].

(** A declaration of [/p/a.c] whose extent runs from the [x] of the
    first line to the [y] of the second. *)
Definition two_line_decl : Cursor :=
  mkCursor (Some VAR_DECL) (py "x") (py "x") (py "c:@x") (at_ 1 5)
           (mkRange (at_ 1 5) (at_ 2 6)) SC_NONE true (Some []) [] None None.

(** [/p/a.c] read with two inclusion directives of its own, of
    [stdio.h] on line 1 and of [/p/b.h] on line 2, and with the
    inclusion that [stdio.h] makes in turn. *)
Definition stdio_h : pystr := py "/usr/include/stdio.h".

Definition tu_including : TranslationUnit :=
  mkTU (root_of [var_x; var_y; fun_f])
       (Some [mkInclusion a_c stdio_h (at_ 1 1);
              mkInclusion stdio_h (py "/usr/include/stddef.h")
                          (mkLocation (Some stdio_h) 30 1);
              mkInclusion a_c (py "/p/b.h") (at_ 2 1)]).

(** A session on a store that knows the project [/p] and its file
    [/p/b.h]. *)
Definition with_b_h : Indexer :=
  indexer_on
    (with_files (λ _, [FileRecord.mk 1 (py "/p/b.h") 0 (Some 1) None])
                (db_with_project PENDING)).

End Samples.

(** ** Vocabulary of the further properties of the analyzer *)

Module GraphProps.
Import Props.

(** A pattern without the wildcards [%] and [_]. *)
Definition literal (p : pystr) : Prop :=
  Forall (λ c, c ≠ 37%N ∧ c ≠ 95%N) p.

(** [s] and [t] are equal up to the case of ASCII letters. *)
Definition same_up_to_case (s t : pystr) : Prop :=
  ArchitectureAnalyzer.ascii_fold <$> s = ArchitectureAnalyzer.ascii_fold <$> t.

(** [n] is a member of the component numbered [i]. *)
Definition in_component (sccs : list (list Z)) (i n : Z) : Prop :=
  0 ≤ i ∧ ∃ c, sccs !! Z.to_nat i = Some c ∧ n ∈ c.

(** The step by which [condensation] adds the edge of the condensed graph
    that an edge of the graph stands for, if it joins two components. *)
Definition condensed_edge (sccs : list (list Z)) (e : Z * Z)
    : option (Z * Z) :=
  match Nx.component_index sccs e.1, Nx.component_index sccs e.2 with
  | Some i, Some j => if bool_decide (i ≠ j) then Some (i, j) else None
  | _, _ => None
  end.

#[global] Instance file_in_module_dec d fid m :
  Decision (file_in_module d fid m).
Proof.
  refine (cast_if (decide (Exists
            (λ f, fid = Some (FileRecord.id f)
                  ∧ FileRecord.module_id f = Some (ModuleDefinition.id m))
            (files d))));
    unfold file_in_module; rewrite Exists_exists in *; naive_solver.
Defined.

(** The include row [inc] leads from a file of the module [mi] to a file
    of the module [mj]. *)
Definition include_between (d : Database) (mi mj : ModuleDefinition.t)
    (inc : Include.t) : Prop :=
  file_in_module d (Include.source_file_id inc) mi
  ∧ file_in_module d (Include.target_file_id inc) mj.

#[global] Instance include_between_dec d mi mj inc :
  Decision (include_between d mi mj inc).
Proof. unfold include_between. apply _. Defined.

(** The keys never go up along [l]. *)
Definition descending {A} (key : A → Z) (l : list A) : Prop :=
  ∀ (i j : nat) x y,
    (i < j)%nat → l !! i = Some x → l !! j = Some y → key y ≤ key x.

(** [l'] holds the elements of [l], those of equal key in the order they
    have in [l]. *)
Definition stable_rearrangement {A} (key : A → Z) (l l' : list A) : Prop :=
  l' ≡ₚ l ∧ ∀ k, filter (λ x, key x = k) l' = filter (λ x, key x = k) l.

(** The edge an include row stands for in the graph of the matrix, if
    any: from the including file to the included one, unless they are the
    same. *)
Definition dsm_edge (inc : Include.t) : option (Z * Z) :=
  match Include.source_file_id inc, Include.target_file_id inc with
  | Some src, Some tgt =>
      if bool_decide (src ≠ tgt) then Some (src, tgt) else None
  | _, _ => None
  end.

(** The include row [inc] leads from the file [fi] to the file [fj]. *)
Definition include_from_to (fi fj : FileRecord.t) (inc : Include.t)
    : Prop :=
  Include.source_file_id inc = Some (FileRecord.id fi)
  ∧ Include.target_file_id inc = Some (FileRecord.id fj).

#[global] Instance include_from_to_dec fi fj inc :
  Decision (include_from_to fi fj inc).
Proof. unfold include_from_to. apply _. Defined.

(** The entry of the matrix [M] in row [i] and column [j]. *)
Definition entry (M : list (list Z)) (i j : nat) : option Z :=
  row ← M !! i; row !! j.

(** [M] has [n] rows of [n] entries. *)
Definition square (n : nat) (M : list (list Z)) : Prop :=
  length M = n ∧ Forall (λ row, length row = n) M.

(** The root path of the project [pid], if it has a row. *)
Definition project_root (d : Database) (pid : Z) : option pystr :=
  Project.root_path <$>
    List.find (λ p, bool_decide (Project.id p = pid)) (projects d).

(** The entry of a file in the answer of the matrix endpoint. *)
Definition dsm_file (basename : pystr → pystr) (f : FileRecord.t)
    : Api.DsmFile :=
  Api.mkDsmFile (FileRecord.id f) (basename (FileRecord.path f))
                (FileRecord.path f).

End GraphProps.

(** * Properties of the indexing engine *)

Section indexer_facts.
Import Clang IndexerImpl Props.
Context (w : World).

Lemma Cursor_children_ind (P : Cursor → Prop) :
  (∀ c, Forall P (children c) → P c) → ∀ c, P c.
Proof.
  intros step. fix IH 1. intros [k sp dn u loc ext sc isd toks cs d r].
  apply step. simpl. induction cs as [|c cs IHcs]; constructor.
  - apply IH.
  - exact IHcs.
Qed.

(** *** Rules for [preserves] *)

Lemma preserves_ret {A} I (a : A) : preserves I (ret a).
Proof. intros s Hs. exact Hs. Qed.

Lemma preserves_raise {A} I : preserves I (@raise A).
Proof. intros s Hs. exact Hs. Qed.

Lemma preserves_bind {A B} I (m : M A) (k : A → M B) :
  preserves I m → (∀ a, preserves I (k a)) → preserves I (bind m k).
Proof.
  intros Hm Hk s Hs. unfold bind. specialize (Hm s Hs).
  destruct (m s) as [[a|] s']; simpl in *; [by apply Hk | done].
Qed.

Lemma preserves_try_except {A} I (m h : M A) :
  preserves I m → preserves I h → preserves I (try_except m h).
Proof.
  intros Hm Hh s Hs. unfold try_except. specialize (Hm s Hs).
  destruct (m s) as [[a|] s']; simpl in *; [done | by apply Hh].
Qed.

Lemma preserves_or_raise {A} I (o : option A) : preserves I (or_raise o).
Proof. destruct o; [apply preserves_ret | apply preserves_raise]. Qed.

Lemma preserves_get_self I : preserves I get_self.
Proof. intros s Hs. exact Hs. Qed.

Lemma preserves_query I : preserves I query.
Proof. intros s Hs. exact Hs. Qed.

Lemma preserves_for_each {A} I (xs : list A) (body : A → M unit) :
  Forall (λ x, preserves I (body x)) xs → preserves I (for_each xs body).
Proof.
  induction 1 as [|x xs Hx _ IH]; [apply preserves_ret |].
  apply preserves_bind; [exact Hx | intros _; exact IH].
Qed.

Lemma preserves_if {A} I (b : bool) (m1 m2 : M A) :
  preserves I m1 → preserves I m2 → preserves I (if b then m1 else m2).
Proof. by destruct b. Qed.

(** *** The traversal keeps every predicate its two writes keep *)

Section traversal.
Context (I : Indexer → Prop).
Hypothesis symbol_step : ∀ c, preserves I (get_or_create_symbol w c).
Hypothesis reference_step :
  ∀ f, preserves I (on_working (with_references f)).

Lemma enter_definition_preserves node k p :
  preserves I (enter_definition w node k p).
Proof.
  unfold enter_definition.
  apply preserves_bind; [apply preserves_get_self | intros self].
  apply preserves_if; [| apply preserves_ret].
  apply preserves_bind; [apply symbol_step | intros [sym|]; apply preserves_ret].
Qed.

Lemma record_reference_preserves node k p wr :
  preserves I (record_reference w node k p wr).
Proof.
  unfold record_reference.
  apply preserves_if; [| apply preserves_ret].
  destruct (if bool_decide (k = CALL_EXPR) then _ else _) as [rk|];
    [| apply preserves_ret].
  destruct (target_of node) as [tc|]; [| apply preserves_ret].
  apply preserves_bind; [apply symbol_step | intros [ts|]];
    [| apply preserves_ret].
  apply preserves_bind; [apply preserves_get_self | intros self].
  apply reference_step.
Qed.

Lemma visit_node_preserves node :
  ∀ p wr, preserves I (visit_node w node p wr).
Proof.
  induction node as [node IH] using Cursor_children_ind.
  destruct node as [k sp dn u loc ext sc isd toks cs d r]; simpl in IH.
  intros p wr. simpl.
  apply preserves_bind; [apply preserves_or_raise | intros k'].
  apply preserves_bind; [apply enter_definition_preserves | intros cur].
  apply preserves_bind; [apply record_reference_preserves | intros _].
  apply preserves_if.
  - destruct cs as [|lhs rhs]; [apply preserves_ret |].
    apply Forall_cons in IH as [Hl Hr].
    apply preserves_bind; [apply Hl | intros _].
    apply preserves_for_each. eapply Forall_impl; [exact Hr |].
    intros c Hc. apply Hc.
  - apply preserves_for_each. eapply Forall_impl; [exact IH |].
    intros c Hc. apply Hc.
Qed.

End traversal.

(** *** What one call of [get_or_create_symbol] does *)

Lemma find_usr_Some u (l : list Symbol.t) row :
  List.find (λ s, bool_decide (Symbol.usr s = u)) l = Some row →
  row ∈ l ∧ Symbol.usr row = u.
Proof.
  intros H. apply find_some in H as [Hin Hu].
  split; [by apply list_elem_of_In | by apply bool_decide_eq_true in Hu].
Qed.

Lemma find_usr_None u (l : list Symbol.t) :
  List.find (λ s, bool_decide (Symbol.usr s = u)) l = None →
  ∀ x, x ∈ l → Symbol.usr x ≠ u.
Proof.
  intros H x Hx Hu. apply list_elem_of_In in Hx.
  pose proof (find_none _ _ H x Hx) as Hn. simpl in Hn.
  by apply bool_decide_eq_false in Hn.
Qed.

Lemma get_or_create_symbol_eq cursor s :
  get_or_create_symbol w (Some cursor) s =
  if truthy_str (get_usr cursor) then
    match List.find (λ x, bool_decide (Symbol.usr x = get_usr cursor))
                    (symbols (working (db s))) with
    | Some row => (Ok (Some row), s)
    | None =>
        match kind cursor with
        | None => (Raise, s)
        | Some k =>
            match complexity_of cursor k with
            | None => (Raise, s)
            | Some c =>
                (Ok (Some (new_symbol w cursor k c s)),
                 after_insert (new_symbol w cursor k c s) s)
            end
        end
    end
  else (Ok None, s).
Proof.
  unfold get_or_create_symbol.
  destruct (truthy_str (get_usr cursor)); simpl; [| done].
  unfold bind at 1. unfold query at 1.
  destruct (List.find _ (symbols (working (db s)))) as [row|]; [done |].
  unfold bind at 1. destruct (kind cursor) as [k|]; simpl; [| done].
  unfold bind at 1, complexity_of.
  destruct (bool_decide (k = FUNCTION_DECL)).
  - destruct (calculate_cyclomatic_complexity cursor); done.
  - done.
Qed.

Lemma get_or_create_symbol_None s :
  get_or_create_symbol w None s = (Ok None, s).
Proof. done. Qed.


Lemma new_symbol_file_id cursor k c s :
  Symbol.file_id (new_symbol w cursor k c s) = current_file_id s.
Proof. done. Qed.

Lemma truthy_str_nonempty (u : pystr) : truthy_str u = true ↔ u ≠ [].
Proof. destruct u; simpl; split; congruence. Qed.

(** *** [usr] uniqueness is kept by every step *)

Lemma NoDup_fmap_filter {A B} (f : A → B) (P : A → Prop)
    `{∀ x, Decision (P x)} (l : list A) :
  NoDup (f <$> l) → NoDup (f <$> filter P l).
Proof.
  induction l as [|x l IH]; [done |].
  rewrite fmap_cons, NoDup_cons. intros [Hx Hl].
  rewrite filter_cons. destruct (decide (P x)); [| by apply IH].
  rewrite fmap_cons, NoDup_cons. split; [| by apply IH].
  intros Hin. apply Hx. apply list_elem_of_fmap in Hin as (y & -> & Hy).
  apply list_elem_of_fmap. exists y. split; [done |].
  by apply list_elem_of_filter in Hy as [_ Hy].
Qed.














(** *** A traversal that returns has given every local declaration a row *)












(** *** Counting the rows of one [usr] *)



Lemma usr_unique_eq (l : list Symbol.t) x y :
  NoDup (Symbol.usr <$> l) → x ∈ l → y ∈ l →
  Symbol.usr x = Symbol.usr y → x = y.
Proof.
  induction l as [|z l IH]; [by intros _ ?%elem_of_nil |].
  rewrite fmap_cons, NoDup_cons. intros [Hz Hl] Hx Hy Heq.
  apply elem_of_cons in Hx as [-> | Hx]; apply elem_of_cons in Hy as [-> | Hy].
  - done.
  - exfalso. apply Hz. rewrite Heq. by apply list_elem_of_fmap_2.
  - exfalso. apply Hz. rewrite <- Heq. by apply list_elem_of_fmap_2.
  - by apply IH.
Qed.

Lemma find_usr_is_Some u (l : list Symbol.t) :
  u ∈ Symbol.usr <$> l →
  is_Some (List.find (λ s, bool_decide (Symbol.usr s = u)) l).
Proof.
  intros (x & -> & Hx)%list_elem_of_fmap.
  destruct (List.find _ l) eqn:Hfind; [by eexists |].
  exfalso. by eapply find_usr_None.
Qed.

Lemma store_unique_fresh : store_unique Fixtures.fresh.
Proof. repeat split; simpl; constructor. Qed.

(** *** Rules for triples *)

Lemma hoare_ret {A} (P : Indexer → Prop) (a : A) Q R :
  (∀ s, P s → Q a s) → hoare P (ret a) Q R.
Proof. intros H s Hs. by apply H. Qed.

Lemma hoare_bind {A B} P (m : M A) (k : A → M B) Q1 Q R :
  hoare P m Q1 R → (∀ a, hoare (Q1 a) (k a) Q R) →
  hoare P (bind m k) Q R.
Proof.
  intros Hm Hk s Hs. unfold bind. specialize (Hm s Hs).
  destruct (m s) as [[a|] s1]; [by apply Hk | done].
Qed.

Lemma hoare_try_except {A} P (m h : M A) Q R1 R :
  hoare P m Q R1 → hoare R1 h Q R → hoare P (try_except m h) Q R.
Proof.
  intros Hm Hh s Hs. unfold try_except. specialize (Hm s Hs).
  destruct (m s) as [[a|] s1]; [done | by apply Hh].
Qed.

Lemma hoare_conseq {A} (P P' : Indexer → Prop) (m : M A)
    (Q Q' : A → Indexer → Prop) (R R' : Indexer → Prop) :
  hoare P' m Q' R' →
  (∀ s, P s → P' s) → (∀ a s, Q' a s → Q a s) → (∀ s, R' s → R s) →
  hoare P m Q R.
Proof.
  intros Hm HP HQ HR s Hs. specialize (Hm s (HP s Hs)).
  destruct (m s) as [[a|] s1]; auto.
Qed.

Lemma hoare_preserves {A} I (m : M A) :
  preserves I m → hoare I m (λ _, I) I.
Proof.
  intros Hm s Hs. specialize (Hm s Hs). by destruct (m s) as [[a|] s1].
Qed.

Lemma hoare_modify (P : Indexer → Prop) f Q R :
  (∀ s, P s → Q tt (f s)) → hoare P (modify f) Q R.
Proof. intros H s Hs. by apply H. Qed.

Lemma hoare_get_self (P : Indexer → Prop) R :
  hoare P get_self (λ self s, s = self ∧ P s) R.
Proof. intros s Hs. done. Qed.

Lemma hoare_if {A} P (b : bool) (m1 m2 : M A) Q R :
  (b = true → hoare P m1 Q R) → (b = false → hoare P m2 Q R) →
  hoare P (if b then m1 else m2) Q R.
Proof. destruct b; auto. Qed.

(** *** Rows created during a traversal belong to the current file *)

Lemma owned_symbol_step S0 cur c :
  preserves (owned S0 cur) (get_or_create_symbol w c).
Proof.
  intros s Hs. destruct c as [cursor|]; [| exact Hs].
  rewrite get_or_create_symbol_eq.
  destruct (truthy_str _); [| exact Hs].
  destruct (List.find _ _); [exact Hs |].
  destruct (kind cursor) as [k|]; [| exact Hs].
  destruct (complexity_of cursor k) as [c|]; [| exact Hs].
  destruct Hs as (Hcur & Hw & Hc).
  assert (Hnew : old_or_owned S0 cur
            (with_symbols (λ l, l ++ [new_symbol w cursor k c s])
                          (working (db s)))).
  { intros x [Hx | ->%list_elem_of_singleton]%elem_of_app; [by apply Hw |].
    right. by rewrite new_symbol_file_id. }
  by repeat split.
Qed.

Lemma owned_on_working S0 cur f :
  (∀ d, symbols (f d) = symbols d) →
  preserves (owned S0 cur) (on_working f).
Proof.
  intros Hf s (Hcur & Hw & Hc). repeat split; [done | | done].
  intros x Hx. simpl in Hx. rewrite Hf in Hx. by apply Hw.
Qed.

Lemma owned_commit S0 cur : preserves (owned S0 cur) commit.
Proof. intros s (Hcur & Hw & Hc). by repeat split. Qed.

Lemma owned_rollback S0 cur : preserves (owned S0 cur) rollback.
Proof. intros s (Hcur & Hw & Hc). by repeat split. Qed.

Lemma owned_visit_node S0 cur node p wr :
  preserves (owned S0 cur) (visit_node w node p wr).
Proof.
  apply visit_node_preserves; [apply owned_symbol_step |].
  intros f. by apply owned_on_working.
Qed.

Lemma owned_extract_includes S0 cur tu :
  preserves (owned S0 cur) (extract_includes w tu).
Proof.
  unfold extract_includes. destruct (get_includes tu) as [incs|];
    [| apply preserves_ret].
  apply preserves_for_each, Forall_forall. intros inc _.
  apply preserves_bind; [apply preserves_get_self | intros self].
  apply preserves_if; [apply preserves_ret |].
  apply preserves_bind; [apply preserves_query | intros d].
  by apply owned_on_working.
Qed.

(** Up to the reset of the file's rows, indexing does not touch the
    symbol table. *)
Lemma same_symbols_get_or_create_file S0 path pid :
  preserves (λ s, symbols (working (db s)) = S0)
            (get_or_create_file w path pid).
Proof.
  unfold get_or_create_file.
  apply preserves_bind; [apply preserves_query | intros d].
  destruct (List.find _ _); [apply preserves_ret |].
  apply preserves_bind; [apply preserves_or_raise | intros mtime].
  apply preserves_bind; [by intros s Hs | intros _].
  apply preserves_bind; [by intros s Hs | intros _].
  apply preserves_ret.
Qed.

Lemma get_or_create_file_path path pid s fr s' :
  get_or_create_file w path pid s = (Ok fr, s') →
  FileRecord.path fr = abspath w path.
Proof.
  unfold get_or_create_file, bind, query.
  destruct (List.find _ _) as [fr0|] eqn:Hfind.
  - intros [= <- <-]. apply find_some in Hfind as [_ Hp].
    by apply bool_decide_eq_true in Hp.
  - destruct (getmtime w (abspath w path)); simpl; [| discriminate].
    by intros [= <- <-].
Qed.

Lemma hoare_preserves_with {A} I (m : M A) (Φ : A → Prop) :
  preserves I m → (∀ s a s', m s = (Ok a, s') → Φ a) →
  hoare I m (λ a s, I s ∧ Φ a) I.
Proof.
  intros Hm HΦ s Hs. specialize (Hm s Hs). specialize (HΦ s).
  destruct (m s) as [[a|] s1]; [| done]. split; [done | by eapply HΦ].
Qed.

Lemma index_file_owned path pid comp S0 :
  hoare (λ s, symbols (working (db s)) = S0)
        (index_file w path pid comp)
        (λ _ s, old_or_owned S0 (current_file_id s) (working (db s))
                ∧ ∃ fr, current_file_id s = Some (FileRecord.id fr)
                        ∧ FileRecord.path fr = abspath w path)
        (λ s, symbols (working (db s)) = S0).
Proof.
  unfold index_file.
  eapply hoare_bind; [apply hoare_get_self | intros self; simpl].
  eapply hoare_bind.
  { apply (hoare_modify _ _ (λ _ s, symbols (working (db s)) = S0)).
    by intros s [_ Hs]. }
  intros ?. simpl.
  eapply hoare_bind.
  { apply (hoare_preserves_with _ _
             (λ fr, FileRecord.path fr = abspath w path)).
    - apply same_symbols_get_or_create_file.
    - intros s fr s'. apply get_or_create_file_path. }
  intros fr. simpl.
  set (cur := Some (FileRecord.id fr)).
  eapply hoare_bind.
  { apply (hoare_modify _ _ (λ _ s, (symbols (working (db s)) = S0
                                     ∧ current_file_id s = cur)
                                    ∧ FileRecord.path fr = abspath w path)).
    by intros s [Hs Hp]. }
  intros ?. simpl.
  eapply hoare_bind.
  { apply (hoare_modify _ _ (λ _ s, (current_file_id s = cur
                                    ∧ old_or_owned S0 cur (working (db s)))
                                    ∧ FileRecord.path fr = abspath w path)).
    intros s [[Hs Hcur] Hp]. split; [| done]. split; [done |].
    intros x Hx. simpl in Hx.
    apply list_elem_of_filter in Hx as [_ Hx]. left. by rewrite <- Hs. }
  intros ?. simpl.
  eapply hoare_bind.
  { apply (hoare_modify _ _ (λ _ s, (current_file_id s = cur
                                    ∧ old_or_owned S0 cur (working (db s)))
                                    ∧ FileRecord.path fr = abspath w path)).
    by intros s Hs. }
  intros ?. simpl.
  eapply hoare_bind.
  { apply (hoare_modify _ _ (λ _ s, owned S0 cur s
                                    ∧ FileRecord.path fr = abspath w path)).
    intros s [[Hcur Hw] Hp]. by repeat split. }
  intros ?. simpl.
  apply (hoare_conseq _ (λ s, FileRecord.path fr = abspath w path
                              ∧ owned S0 cur s) _ _
           (λ _ s, FileRecord.path fr = abspath w path ∧ owned S0 cur s)
           _ (λ _, False)); [| by intros s [? ?] | | done].
  - apply (hoare_try_except _ _ _ _
             (λ s, FileRecord.path fr = abspath w path ∧ owned S0 cur s)).
    + apply hoare_preserves.
      intros s [Hp Hs]. split; [done |]. revert s Hs.
      change (preserves (owned S0 cur)
                (let! tu := or_raise (parse w path (compile_args path comp)) in
                 run! extract_includes w tu in
                 run! visit_node w (cursor tu) None false in commit)).
      apply preserves_bind; [apply preserves_or_raise | intros tu].
      apply preserves_bind; [apply owned_extract_includes | intros ?].
      apply preserves_bind; [apply owned_visit_node | intros ?].
      apply owned_commit.
    + apply hoare_modify. intros s [Hp Hs]. split; [done |].
      by apply owned_rollback.
  - intros ? s [Hp (Hcur & Hw & _)]. rewrite Hcur. split; [done |].
    by exists fr.
Qed.

Lemma owned_working_symbol_step S0 cur c :
  preserves (owned_working S0 cur) (get_or_create_symbol w c).
Proof.
  intros s Hs. destruct c as [cursor|]; [| exact Hs].
  rewrite get_or_create_symbol_eq.
  destruct (truthy_str _); [| exact Hs].
  destruct (List.find _ _); [exact Hs |].
  destruct (kind cursor) as [k|]; [| exact Hs].
  destruct (complexity_of cursor k) as [c|]; [| exact Hs].
  destruct Hs as (Hcur & Hw). split; [done |].
  intros x [Hx | ->%list_elem_of_singleton]%elem_of_app; [by apply Hw |].
  right. by rewrite new_symbol_file_id.
Qed.

Lemma owned_working_visit_node S0 cur node p wr :
  preserves (owned_working S0 cur) (visit_node w node p wr).
Proof.
  apply visit_node_preserves; [apply owned_working_symbol_step |].
  intros f s Hs. exact Hs.
Qed.


End indexer_facts.

(** * The indexing engine: identity of symbols *)

Section symbol_identity.
Import Clang IndexerImpl Props Fixtures.



(** C10. A call of get-or-create for a cursor whose [usr] has a row
    returns a stored row of that [usr] and leaves the whole state, hence
    every field of every row, as it was; with unique [usr]s the row
    returned is that very row.  Nothing of the cursor (its being a
    definition, its location, its text) reaches the store. *)
Theorem existing_symbol_returned_unchanged (w : World) (cursor : Cursor)
    (s : Indexer) (row : Symbol.t)
    (Hrow : row ∈ symbols (working (db s)))
    (Husr : Symbol.usr row = get_usr cursor)
    (Hne : get_usr cursor ≠ []) :
  ∃ row',
    get_or_create_symbol w (Some cursor) s = (Ok (Some row'), s)
    ∧ row' ∈ symbols (working (db s))
    ∧ Symbol.usr row' = get_usr cursor
    ∧ (usr_unique (working (db s)) → row' = row).
Proof.
  rewrite get_or_create_symbol_eq.
  apply truthy_str_nonempty in Hne. rewrite Hne.
  assert (Hhas : get_usr cursor ∈ Symbol.usr <$> symbols (working (db s))).
  { rewrite <- Husr. by apply list_elem_of_fmap_2. }
  destruct (find_usr_is_Some _ _ Hhas) as [row' Hfind]. rewrite Hfind.
  apply find_usr_Some in Hfind as [Hin Heq].
  exists row'. repeat split; [done | done |].
  intros Hu. eapply usr_unique_eq; [exact Hu | done | done | congruence].
Qed.

(** C10 at a definition of [f] met after its prototype was stored: the
    row keeps [is_definition = false]. *)
Lemma existing_symbol_returned_unchanged_witness :
  is_definition fun_f = true
  ∧ ∃ row',
      get_or_create_symbol world_a (Some fun_f)
        (indexer_on db_with_f_declared)
      = (Ok (Some row'), indexer_on db_with_f_declared)
      ∧ row' ∈ symbols (working (db (indexer_on db_with_f_declared)))
      ∧ Symbol.usr row' = get_usr fun_f
      ∧ (usr_unique (working (db (indexer_on db_with_f_declared))) →
         row' = row_f_declared).
Proof.
  split; [reflexivity |].
  apply (existing_symbol_returned_unchanged world_a fun_f
           (indexer_on db_with_f_declared) row_f_declared).
  - simpl. left.
  - reflexivity.
  - discriminate.
Defined.

End symbol_identity.

(** * The indexing engine: read and write references *)

Section write_context.
Import Clang IndexerImpl Props Fixtures.

Lemma get_or_create_symbol_references w c s :
  references (working (db (get_or_create_symbol w c s).2))
  = references (working (db s)).
Proof.
  destruct c as [cursor|]; [| done]. rewrite get_or_create_symbol_eq.
  destruct (truthy_str _); [| done].
  destruct (List.find _ _); [done |].
  destruct (kind cursor) as [k|]; [| done].
  destruct (complexity_of cursor k); done.
Qed.

Lemma record_reference_kind w node k p wr s r :
  k ∈ [DECL_REF_EXPR; MEMBER_REF_EXPR] →
  r ∈ references (working (db (record_reference w node k p wr s).2)) →
  r ∈ references (working (db s))
  ∨ (Reference.source_id r = p
     ∧ Reference.kind r = if wr then WRITE else READ).
Proof.
  intros Hk. unfold record_reference.
  destruct (truthy_int p); [| by left].
  assert (k ≠ CALL_EXPR) as Hcall.
  { intros ->. apply elem_of_cons in Hk as [Hk | Hk]; [discriminate |].
    apply list_elem_of_singleton in Hk. discriminate. }
  rewrite (bool_decide_eq_false_2 _ Hcall), (bool_decide_eq_true_2 _ Hk).
  destruct (target_of node) as [tc|]; [| by left].
  unfold bind at 1.
  pose proof (get_or_create_symbol_references w (Some tc) s) as Hrefs.
  destruct (get_or_create_symbol w (Some tc) s) as [[[ts|]|] s1];
    simpl in Hrefs; simpl; rewrite <- Hrefs; [| by left | by left].
  intros [Hold | ->%list_elem_of_singleton]%elem_of_app; [by left |].
  by right.
Qed.

Lemma bind_ret_l {A B} (a : A) (k : A → M B) : bind (ret a) k = k a.
Proof. reflexivity. Qed.

Lemma visit_node_assignment w node k p wr :
  kind node = Some k →
  is_assign k (tokens node) = true →
  visit_node w node p wr
  = (let! _ := enter_definition w node k p in
     run! record_reference w node k p wr in
     match children node with
     | [] => ret tt
     | lhs :: rhs =>
         run! visit_node w lhs p true in
         for_each rhs (λ child, visit_node w child p false)
     end).
Proof.
  destruct node as [k0 sp dn u loc ext sc isd toks cs df rf]. simpl.
  intros [= ->] Ha. simpl. rewrite bind_ret_l, Ha. reflexivity.
Qed.

(** C4. Indexing [a.c], whose function [f] holds the statement
    [x = y + 1;], records exactly the references [(f → x, write)] and
    [(f → y, read)], and so not [(f → x, read)].  In general a node that
    passes the assignment test visits its first child in write context and
    every other child in read context, in the scope it was given, and
    nothing else below it; and a name or member reference is recorded as a
    write exactly when it is visited in write context. *)
Theorem assignment_writes_first_child_only :
  (let d := working (db (index_file world_a a_c (Some 1) None fresh).2) in
   ∃ f x y,
     symbol_id_of (py "c:@F@f") d = Some f
     ∧ symbol_id_of (py "c:@x") d = Some x
     ∧ symbol_id_of (py "c:@y") d = Some y
     ∧ edge_of <$> references d = [(Some f, x, WRITE); (Some f, y, READ)]
     ∧ (Some f, x, READ) ∉ edge_of <$> references d)
  ∧ (∀ w node k p wr,
       kind node = Some k →
       is_assign k (tokens node) = true →
       visit_node w node p wr
       = (let! _ := enter_definition w node k p in
          run! record_reference w node k p wr in
          match children node with
          | [] => ret tt
          | lhs :: rhs =>
              run! visit_node w lhs p true in
              for_each rhs (λ child, visit_node w child p false)
          end))
  ∧ (∀ w node k p wr s r,
       k ∈ [DECL_REF_EXPR; MEMBER_REF_EXPR] →
       r ∈ references (working (db (record_reference w node k p wr s).2)) →
       r ∈ references (working (db s))
       ∨ (Reference.source_id r = p
          ∧ Reference.kind r = if wr then WRITE else READ)).
Proof.
  split; [| split].
  - exists 3, 1, 2. vm_compute.
    repeat split; try reflexivity.
    intros Hin. repeat (apply elem_of_cons in Hin as [Hin | Hin];
                        [discriminate |]).
    by apply elem_of_nil in Hin.
  - apply visit_node_assignment.
  - apply record_reference_kind.
Qed.

End write_context.

(** * The indexing engine: the file a row is stored under *)

Section symbol_file.
Import Clang IndexerImpl Props Fixtures.

(** C9. A row that get-or-create adds carries the indexer's current
    file id, whatever file the cursor is located in; so every row a
    traversal or the indexing of a file leaves in the table was there
    before or carries the current file id, which after [index_file] is the
    id of the row of the indexed path.  In the example the library
    function [puts], declared in [stdio.h] and called from [a.c], is stored
    under the id of [a.c]. *)
Theorem created_symbols_take_current_file_id :
  (∀ w cursor s sym s',
     (∀ x, x ∈ symbols (working (db s)) → Symbol.usr x ≠ get_usr cursor) →
     get_or_create_symbol w (Some cursor) s = (Ok (Some sym), s') →
     Symbol.file_id sym = current_file_id s
     ∧ symbols (working (db s')) = symbols (working (db s)) ++ [sym])
  ∧ (∀ w node p wr s x,
       x ∈ symbols (working (db (visit_node w node p wr s).2)) →
       x ∈ symbols (working (db s)) ∨ Symbol.file_id x = current_file_id s)
  ∧ (∀ w path pid comp s s',
       index_file w path pid comp s = (Ok tt, s') →
       (∃ fr, current_file_id s' = Some (FileRecord.id fr)
              ∧ FileRecord.path fr = abspath w path)
       ∧ ∀ x, x ∈ symbols (working (db s')) →
              x ∈ symbols (working (db s))
              ∨ Symbol.file_id x = current_file_id s')
  ∧ (let d := working (db (index_file world_b a_c (Some 1) None fresh).2) in
     file (location puts_decl) = Some stdio_h
     ∧ stdio_h ≠ a_c
     ∧ (λ f, (FileRecord.id f, FileRecord.path f)) <$> files d = [(1, a_c)]
     ∧ symbol_file_of (py "c:@F@puts") d = Some (Some 1)).
Proof.
  split; [| split; [| split]].
  - intros w cursor s sym s' Hfresh. rewrite get_or_create_symbol_eq.
    destruct (truthy_str _); [| discriminate].
    destruct (List.find _ _) as [row|] eqn:Hfind.
    { apply find_usr_Some in Hfind as [Hin Heq]. by destruct (Hfresh row). }
    destruct (kind cursor) as [k|]; [| discriminate].
    destruct (complexity_of cursor k) as [c|]; [| discriminate].
    by intros [= <- <-].
  - intros w node p wr s x Hx.
    assert (H0 : owned_working (symbols (working (db s)))
                               (current_file_id s) s).
    { split; [done |]. intros y Hy. by left. }
    pose proof (owned_working_visit_node w _ _ node p wr s H0) as [_ H1].
    by apply H1.
  - intros w path pid comp s s' Hrun.
    pose proof (index_file_owned w path pid comp (symbols (working (db s)))
                  s eq_refl) as H. rewrite Hrun in H.
    destruct H as [Hown Hfr]. split; [exact Hfr | exact Hown].
  - vm_compute. repeat split; try reflexivity. discriminate.
Qed.

(** C2, at the failing input.  The file [a.c] ends with a declaration the
    binding cannot read, so its traversal raises.  [index_file] returns all
    the same, the scan goes on to [b.c] and ends [completed]; but the rows
    of [a.c] that were committed on the way (three symbols, and the
    reference that was pending when [puts] was created) are still in the
    committed store, where a parse failure of the same file leaves none. *)
Theorem failed_file_keeps_committed_rows :
  let unparsed := index_file (world_of None) a_c (Some 1) None fresh in
  let failed := index_file world_broken a_c (Some 1) None fresh in
  let scan := scan_project world_two 1 (Some (py "/p"))
                (indexer_on (db_with_project PENDING)) in
  (visit_node world_broken (cursor tu_broken) None false unparsed.2).1 = Raise
  ∧ failed.1 = Ok tt
  ∧ symbols (committed (db unparsed.2)) = []
  ∧ references (committed (db unparsed.2)) = []
  ∧ Symbol.usr <$> symbols (committed (db failed.2))
    = [py "c:@x"; py "c:@F@h"; py "c:@F@puts"]
  ∧ edge_of <$> references (committed (db failed.2)) = [(Some 2, 1, WRITE)]
  ∧ scan.1 = Ok tt
  ∧ Project.scan_status <$> projects (committed (db scan.2)) = [COMPLETED]
  ∧ (λ s, (Symbol.usr s, Symbol.file_id s))
      <$> symbols (committed (db scan.2))
    = [(py "c:@x", Some 1); (py "c:@F@h", Some 1); (py "c:@F@puts", Some 1);
       (py "c:@z", Some 2)].
Proof. vm_compute. repeat split; reflexivity. Qed.

End symbol_file.

(** * The indexing engine: the status of a scan *)

Section scan_status.
Import Clang IndexerImpl Props Fixtures.
Context (w : World).

(** *** Predicates that only read the project table *)

Section project_frame.
Context (I : Indexer → Prop).
Hypothesis Hon :
  ∀ f, (∀ d, projects (f d) = projects d) → preserves I (on_working f).
Hypothesis Hcommit : preserves I commit.
Hypothesis Hrollback : preserves I rollback.
Hypothesis Hcur : ∀ a b, preserves I (set_current_file a b).

Lemma frame_symbol_step c : preserves I (get_or_create_symbol w c).
Proof.
  intros s Hs. destruct c as [cursor|]; [| exact Hs].
  rewrite get_or_create_symbol_eq.
  destruct (truthy_str _); [| exact Hs].
  destruct (List.find _ _); [exact Hs |].
  destruct (kind cursor) as [k|]; [| exact Hs].
  destruct (complexity_of cursor k) as [c|]; [| exact Hs].
  simpl.
  change (after_insert (new_symbol w cursor k c s) s) with
    (commit (on_working
       (with_symbols (λ l, l ++ [new_symbol w cursor k c s])) s).2).2.
  apply Hcommit, Hon; done.
Qed.

Lemma frame_visit_node node p wr : preserves I (visit_node w node p wr).
Proof.
  apply visit_node_preserves; [apply frame_symbol_step |].
  intros f. by apply Hon.
Qed.

Lemma frame_extract_includes tu : preserves I (extract_includes w tu).
Proof.
  unfold extract_includes. destruct (get_includes tu) as [incs|];
    [| apply preserves_ret].
  apply preserves_for_each, Forall_forall. intros inc _.
  apply preserves_bind; [apply preserves_get_self | intros self].
  apply preserves_if; [apply preserves_ret |].
  apply preserves_bind; [apply preserves_query | intros d].
  by apply Hon.
Qed.

Lemma frame_get_or_create_file path pid :
  preserves I (get_or_create_file w path pid).
Proof.
  unfold get_or_create_file.
  apply preserves_bind; [apply preserves_query | intros d].
  destruct (List.find _ _); [apply preserves_ret |].
  apply preserves_bind; [apply preserves_or_raise | intros mtime].
  apply preserves_bind; [by apply Hon | intros _].
  apply preserves_bind; [apply Hcommit | intros _].
  apply preserves_ret.
Qed.

Lemma frame_index_file path pid comp :
  preserves I (index_file w path pid comp).
Proof.
  unfold index_file.
  apply preserves_bind; [apply preserves_get_self | intros self].
  apply preserves_bind; [apply Hcur | intros _].
  apply preserves_bind; [apply frame_get_or_create_file | intros fr].
  apply preserves_bind; [apply Hcur | intros _].
  apply preserves_bind; [by apply Hon | intros _].
  apply preserves_bind; [by apply Hon | intros _].
  apply preserves_bind; [apply Hcommit | intros _].
  apply preserves_try_except; [| apply Hrollback].
  apply preserves_bind; [apply preserves_or_raise | intros tu].
  apply preserves_bind; [apply frame_extract_includes | intros _].
  apply preserves_bind; [apply frame_visit_node | intros _].
  apply Hcommit.
Qed.

End project_frame.

(** *** The status under [update_project] *)

Lemma find_project_fmap pid (g : Project.t → Project.t)
    (l : list Project.t) :
  (∀ p, Project.id (g p) = Project.id p) →
  List.find (λ p, bool_decide (Project.id p = pid)) (g <$> l)
  = g <$> List.find (λ p, bool_decide (Project.id p = pid)) l.
Proof.
  intros Hg. induction l as [|p l IH]; [done |].
  simpl. rewrite Hg. destruct (bool_decide (Project.id p = pid)); done.
Qed.

Lemma status_of_update pid (f : Project.t → Project.t) d :
  (∀ p, Project.id (f p) = Project.id p) →
  status_of pid
    (with_projects (fmap (λ p, if bool_decide (Project.id p = pid)
                               then f p else p)) d)
  = (λ p, Project.scan_status (f p))
      <$> List.find (λ p, bool_decide (Project.id p = pid)) (projects d).
Proof.
  intros Hf. unfold status_of. simpl.
  rewrite find_project_fmap.
  - destruct (List.find _ _) as [p|] eqn:Hfind; [| done]. simpl.
    apply find_some in Hfind as [_ Hp]. by rewrite Hp.
  - intros p. destruct (bool_decide _); [apply Hf | done].
Qed.

Lemma scanning_since_frame pid h0 f :
  (∀ d, projects (f d) = projects d) →
  preserves (scanning_since pid h0) (on_working f).
Proof.
  intros Hf s (Hw & Hc & Hh). repeat split; [| done | done].
  unfold status_of in *. simpl. by rewrite Hf.
Qed.

Lemma scanning_since_commit pid h0 :
  preserves (scanning_since pid h0) commit.
Proof.
  intros s (Hw & Hc & mid & Hh & Hne & Hmid).
  repeat split; [done | done |]. simpl.
  exists (mid ++ [working (db s)]). repeat split.
  - by rewrite Hh, app_assoc.
  - by destruct mid.
  - apply Forall_app. split; [done | by constructor].
Qed.

Lemma scanning_since_rollback pid h0 :
  preserves (scanning_since pid h0) rollback.
Proof. intros s (Hw & Hc & Hh). by repeat split. Qed.

Lemma scanning_since_index_file pid h0 path fid comp :
  preserves (scanning_since pid h0) (index_file w path fid comp).
Proof.
  apply frame_index_file.
  - intros f. apply scanning_since_frame.
  - apply scanning_since_commit.
  - apply scanning_since_rollback.
  - intros a b s Hs. exact Hs.
Qed.

(** An update that keeps the status keeps [scanning_since]. *)
Lemma scanning_since_update pid h0 (f : Project.t → Project.t) :
  (∀ p, Project.id (f p) = Project.id p) →
  (∀ p, Project.scan_status (f p) = Project.scan_status p) →
  preserves (scanning_since pid h0) (update_project pid f).
Proof.
  intros Hid Hst s (Hw & Hc & Hh). repeat split; [| done | done].
  unfold update_project. simpl. rewrite status_of_update by done.
  unfold status_of in Hw.
  destruct (List.find _ _) as [p|]; [| done]. simpl in *.
  by rewrite Hst.
Qed.

Lemma scanning_since_scan_loop pid h0 hp comp total paths :
  ∀ idx, preserves (scanning_since pid h0)
                   (scan_loop w pid hp comp total idx paths).
Proof.
  induction paths as [|path paths IH]; intros idx; [apply preserves_ret |].
  simpl. apply preserves_bind; [| intros _; apply IH].
  apply preserves_try_except; [| apply preserves_ret].
  apply preserves_bind; [apply scanning_since_index_file | intros _].
  apply preserves_if; [| apply preserves_ret].
  apply preserves_bind; [| intros _; apply scanning_since_commit].
  by apply scanning_since_update.
Qed.

(** The loop over the files never raises. *)
Lemma scan_loop_returns pid hp comp total paths :
  ∀ idx s, (scan_loop w pid hp comp total idx paths s).1 = Ok tt.
Proof.
  induction paths as [|path paths IH]; intros idx s; [done |].
  simpl. unfold bind at 1, scan_one, try_except.
  destruct (bind (index_file w path (Some pid) comp) _ s) as [[[]|] s1];
    apply IH.
Qed.

Lemma hoare_pre_pure {A} (φ : Prop) (P : Indexer → Prop) (m : M A) Q R :
  (φ → hoare P m Q R) → hoare (λ s, φ ∧ P s) m Q R.
Proof. intros H s [Hφ Hs]. by apply H. Qed.

Lemma hoare_query_at s R :
  hoare (λ t, t = s) query (λ d t, d = working (db s) ∧ t = s) R.
Proof. by intros t ->. Qed.

Lemma hoare_scan_loop pid h0 hp comp total paths :
  ∀ idx, hoare (scanning_since pid h0)
               (scan_loop w pid hp comp total idx paths)
               (λ _, scanning_since pid h0) (λ _, False).
Proof.
  intros idx s Hs.
  pose proof (scanning_since_scan_loop pid h0 hp comp total paths idx s Hs)
    as Hk.
  pose proof (scan_loop_returns pid hp comp total paths idx s) as Hok.
  destruct (scan_loop w pid hp comp total idx paths s) as [[[]|] s1];
    [exact Hk | discriminate].
Qed.

Lemma status_is_Some_find pid d :
  is_Some (status_of pid d) →
  is_Some (List.find (λ p, bool_decide (Project.id p = pid)) (projects d)).
Proof. unfold status_of. intros [st Hst]. by destruct (List.find _ _). Qed.

(** Setting a status and committing, from a state that is scanning. *)
Lemma finish_scan pid h0 st progress msg s :
  scanning_since pid h0 s →
  finished_with pid h0 st
    (commit (update_project pid
               (λ p, Project.mk (Project.id p) (Project.name p)
                       (Project.root_path p) st (progress p) (msg p)
                       (Project.compile_commands_path p)) s).2).2.
Proof.
  intros (Hw & Hc & mid & Hh & Hne & Hmid).
  assert (Hst : status_of pid (working (db
            (update_project pid
               (λ p, Project.mk (Project.id p) (Project.name p)
                       (Project.root_path p) st (progress p) (msg p)
                       (Project.compile_commands_path p)) s).2)) = Some st).
  { unfold update_project. simpl. rewrite status_of_update by done.
    unfold status_of in Hw. by destruct (List.find _ _). }
  repeat split; [exact Hst | exact Hst |].
  exists mid, (working (db (update_project pid
               (λ p, Project.mk (Project.id p) (Project.name p)
                       (Project.root_path p) st (progress p) (msg p)
                       (Project.compile_commands_path p)) s).2)).
  repeat split; [| done | done | exact Hst].
  simpl. by rewrite Hh, app_assoc.
Qed.

Lemma start_scan pid s :
  is_Some (status_of pid (working (db s))) →
  scanning_since pid (history (db s))
    (commit (update_project pid (set_scan SCANNING 0 MsgInitializing) s).2).2.
Proof.
  intros Hproject.
  assert (Hst : status_of pid (working (db
            (update_project pid (set_scan SCANNING 0 MsgInitializing) s).2))
                = Some SCANNING).
  { unfold update_project. simpl. rewrite status_of_update by done.
    apply status_is_Some_find in Hproject as [p ->]. done. }
  split; [exact Hst |]. split; [exact Hst |].
  exists [working (db (update_project pid
            (set_scan SCANNING 0 MsgInitializing) s).2)].
  split; [reflexivity |]. split; [done |].
  constructor; [exact Hst | constructor].
Qed.

Lemma scan_project_finishes pid root s :
  is_Some (status_of pid (working (db s))) →
  hoare (λ t, t = s) (scan_project w pid root)
        (λ _, finished_with pid (history (db s)) (terminal_status root))
        (λ _, False).
Proof.
  intros Hproject. set (h0 := history (db s)).
  unfold scan_project.
  eapply hoare_bind; [apply hoare_query_at | intros d; simpl].
  apply hoare_pre_pure. intros ->.
  rewrite (bool_decide_eq_true_2 _ (status_is_Some_find _ _ Hproject)).
  eapply hoare_bind.
  { (* status := scanning; commit *)
    eapply hoare_bind.
    - apply (hoare_modify _ _
               (λ _ t, t = (update_project pid
                              (set_scan SCANNING 0 MsgInitializing) s).2)).
      by intros t ->.
    - intros ?. apply (hoare_modify _ _ (λ _, scanning_since pid h0)).
      intros t ->. by apply start_scan. }
  intros ?. simpl.
  destruct root as [root|]; simpl.
  - (* the body runs to its end *)
    eapply (hoare_try_except _ _ _ _ (λ _, False)); [| by intros t []].
    rewrite bind_ret_l.
    eapply hoare_bind.
    { (* the compilation database *)
      apply (hoare_if _ _ _ _ (λ _, scanning_since pid h0)); intros _;
        [| by apply hoare_ret].
      eapply (hoare_try_except _ _ _ _ (scanning_since pid h0));
        [| by apply hoare_ret].
      apply (hoare_conseq _ (scanning_since pid h0) _ _
               (λ _, scanning_since pid h0) _ (scanning_since pid h0));
        [| done | done | done].
      apply hoare_preserves.
      apply preserves_bind; [apply preserves_or_raise | intros c].
      apply preserves_bind; [| intros ?; apply preserves_ret].
      apply preserves_bind; [| intros ?; apply scanning_since_commit].
      by apply scanning_since_update. }
    intros comp. simpl.
    eapply hoare_bind; [apply hoare_scan_loop | intros ?; simpl].
    eapply hoare_bind.
    + apply (hoare_modify _ _
               (λ _ t, ∃ t0, scanning_since pid h0 t0
                  ∧ t = (update_project pid
                           (set_scan COMPLETED 1
                              (MsgComplete (len (files_to_scan w root)))) t0).2)).
      intros t Ht. by exists t.
    + intros ?. apply hoare_modify. intros t (t0 & Ht0 & ->).
      apply (finish_scan pid h0 COMPLETED (λ _, 1%Q)
               (λ _, Some (MsgComplete (len (files_to_scan w root)))) t0 Ht0).
  - (* [os.path.join] raises: the handler records the failure *)
    eapply (hoare_try_except _ _ _ _ (scanning_since pid h0)).
    + intros t Ht. exact Ht.
    + eapply hoare_bind.
      * apply (hoare_modify _ _
               (λ _ t, ∃ t0, scanning_since pid h0 t0
                  ∧ t = (update_project pid set_failed t0).2)).
        intros t Ht. by exists t.
      * intros ?. apply hoare_modify. intros t (t0 & Ht0 & ->).
        apply (finish_scan pid h0 FAILED Project.scan_progress
                 (λ _, Some MsgFailed) t0 Ht0).
Qed.

(** *** The transitions of a run *)

Lemma transitions_constant_then (b c : option ScanStatus) l :
  Forall (λ x, x = b) l →
  ∀ t, t ∈ transitions (b :: l ++ [c]) → t = (b, c).
Proof.
  induction 1 as [|x l -> _ IH]; intros t; simpl.
  - destruct (decide (b = c)); [by intros ?%elem_of_nil |].
    by intros ->%list_elem_of_singleton.
  - destruct (decide (b = b)); [apply IH | done].
Qed.

Lemma transitions_run (a b c : option ScanStatus) l :
  l ≠ [] → Forall (λ x, x = b) l →
  ∀ t, t ∈ transitions (a :: l ++ [c]) → t = (a, b) ∨ t = (b, c).
Proof.
  intros Hne Hl t. destruct l as [|x l]; [done |].
  apply Forall_cons in Hl as [-> Hl]. simpl.
  change (match l ++ [c] with
          | [] => []
          | b0 :: _ =>
              if decide (b = b0) then transitions (l ++ [c])
              else (b, b0) :: transitions (l ++ [c])
          end) with (transitions (b :: l ++ [c])).
  destruct (decide (a = b)).
  - intros Ht. right. by eapply transitions_constant_then.
  - intros [-> | Ht]%elem_of_cons; [by left |].
    right. by eapply transitions_constant_then.
Qed.

End scan_status.

Section scan_status_claim.
Import Clang IndexerImpl Props Fixtures.

(** C8, as the code has it.  For a project that has a row, [scan_project]
    returns; the states it commits are one or more with the status
    [scanning] followed by a last one with the status [completed] (the body
    ran to its end) or [failed] (it raised), which is then the status of
    the session; so a reader sees the status go from what it was before the
    run, whatever that was, to [scanning] and from there to [completed] or
    [failed], and from [pending] the run follows the life cycle. *)
Theorem scan_ends_completed_or_failed (w : World) (pid : Z)
    (root : option pystr) (s : Indexer)
    (Hproject : is_Some (status_of pid (working (db s)))) :
  let r := scan_project w pid root s in
  r.1 = Ok tt
  ∧ finished_with pid (history (db s)) (terminal_status root) r.2
  ∧ (∀ t, t ∈ transitions (run_statuses pid s r.2) →
          t = (status_of pid (committed (db s)), Some SCANNING)
          ∨ t = (Some SCANNING, Some COMPLETED)
          ∨ t = (Some SCANNING, Some FAILED))
  ∧ (status_of pid (committed (db s)) = Some PENDING →
     ∀ t, t ∈ transitions (run_statuses pid s r.2) → t ∈ lifecycle).
Proof.
  intros r.
  pose proof (scan_project_finishes w pid root s Hproject s eq_refl) as H.
  fold r in H. destruct r as [[[]|] s'] eqn:Hr; [| done]. simpl.
  split; [done |]. split; [exact H |].
  destruct H as (Hw & Hc & mid & last & Hh & Hne & Hmid & Hlast).
  assert (Hstatuses : run_statuses pid s s'
            = status_of pid (committed (db s))
              :: (status_of pid <$> mid) ++ [Some (terminal_status root)]).
  { unfold run_statuses. rewrite Hh, drop_app_length, fmap_app.
    simpl. by rewrite Hlast. }
  assert (Hsteps : ∀ t, t ∈ transitions (run_statuses pid s s') →
            t = (status_of pid (committed (db s)), Some SCANNING)
            ∨ t = (Some SCANNING, Some (terminal_status root))).
  { rewrite Hstatuses. apply transitions_run.
    - by destruct mid.
    - apply Forall_fmap. eapply Forall_impl; [exact Hmid | done]. }
  split.
  - intros t Ht. destruct (Hsteps t Ht) as [-> | ->]; [by left | right].
    destruct root; [by left | by right].
  - intros Hpending t Ht. unfold lifecycle.
    destruct (Hsteps t Ht) as [-> | ->].
    + rewrite Hpending. left.
    + destruct root; simpl; [right; left | right; right; left].
Qed.

(** C8 as amended, at a first scan of the project [/p]. *)
Lemma scan_ends_completed_or_failed_witness :
  is_Some (status_of 1 (working (db (indexer_on (db_with_project PENDING)))))
  ∧ finished_with 1 [] COMPLETED
      (scan_project world_a 1 (Some (py "/p"))
         (indexer_on (db_with_project PENDING))).2.
Proof.
  assert (H : is_Some (status_of 1
                (working (db (indexer_on (db_with_project PENDING))))))
    by (vm_compute; by eexists).
  split; [exact H |].
  exact (proj1 (proj2 (scan_ends_completed_or_failed world_a 1
                         (Some (py "/p"))
                         (indexer_on (db_with_project PENDING)) H))).
Defined.

(** C8 as stated fails on a second scan: the project is [completed] and
    the run takes it back to [scanning], a step the life cycle does not
    have. *)
Lemma rescan_leaves_lifecycle :
  ¬ follows_lifecycle world_a 1 (Some (py "/p"))
      (indexer_on (db_with_project COMPLETED)).
Proof.
  intros [Hsteps _].
  specialize (Hsteps (Some COMPLETED, Some SCANNING)).
  assert (Hin : (Some COMPLETED, Some SCANNING)
                ∈ transitions (run_statuses 1
                    (indexer_on (db_with_project COMPLETED))
                    (scan_project world_a 1 (Some (py "/p"))
                       (indexer_on (db_with_project COMPLETED))).2)).
  { vm_compute. left. }
  specialize (Hsteps Hin). unfold lifecycle in Hsteps.
  repeat (apply elem_of_cons in Hsteps as [Hsteps | Hsteps];
          [discriminate |]).
  by apply elem_of_nil in Hsteps.
Qed.

End scan_status_claim.

(** * The indexing engine: the signature of a symbol *)

Section signature.
Import Clang IndexerImpl Props Fixtures.

Lemma rev_cons_nonempty {A} (x : A) (l : list A) : rev (x :: l) ≠ [].
Proof. simpl. by destruct (rev l). Qed.

Lemma Forall_rev_list {A} (P : A → Prop) (l : list A) :
  Forall P l → Forall P (rev l).
Proof.
  rewrite !Forall_forall. intros H x Hx. apply H.
  apply list_elem_of_In, in_rev. by apply list_elem_of_In.
Qed.

Lemma split_aux_words s :
  ∀ cur, Forall (λ c, isspace c = false) cur →
    match cur with
    | [] => words_of s (split_aux s [])
    | _ => words_of (rev cur ++ s) (split_aux s cur)
    end.
Proof.
  induction s as [|c s IH]; intros cur Hcur.
  - destruct cur as [|c0 cur]; [constructor |]. simpl split_aux.
    apply words_word.
    + apply rev_cons_nonempty.
    + by apply (Forall_rev_list _ (c0 :: cur)).
    + by left.
    + constructor.
  - simpl split_aux. destruct (isspace c) eqn:Hc.
    + destruct cur as [|c0 cur].
      * apply words_space; [done |]. apply (IH [] ltac:(constructor)).
      * apply words_word.
        -- apply rev_cons_nonempty.
        -- by apply (Forall_rev_list _ (c0 :: cur)).
        -- right. by exists c, s.
        -- apply words_space; [done |]. apply (IH [] ltac:(constructor)).
    + specialize (IH (c :: cur) ltac:(by constructor)). simpl in IH.
      rewrite <- app_assoc in IH. simpl in IH.
      destruct cur; exact IH.
Qed.

Lemma split_words s : words_of s (split s).
Proof. apply (split_aux_words s [] ltac:(constructor)). Qed.

Lemma slice_take {A} (l : list A) (n : Z) :
  0 ≤ n ≤ len l → slice l None (Some n) = take (Z.to_nat n) l.
Proof.
  intros Hn. unfold slice, clamp.
  destruct (Z.ltb_spec n 0); [lia |].
  rewrite Z.min_l by lia. rewrite Z.sub_0_r. done.
Qed.

Lemma clean_signature_short text :
  len (join (py " ") (split text)) ≤ 500 →
  clean_signature text = join (py " ") (split text).
Proof.
  intros Hlen. unfold clean_signature.
  destruct (Z.ltb_spec 500 (len (join (py " ") (split text)))); [lia | done].
Qed.

Lemma clean_signature_long text :
  500 < len (join (py " ") (split text)) →
  clean_signature text = take 500 (join (py " ") (split text)) ++ py "..."
  ∧ len (clean_signature text) = 503.
Proof.
  intros Hlen. unfold clean_signature.
  destruct (Z.ltb_spec 500 (len (join (py " ") (split text)))); [| lia].
  rewrite slice_take by lia. split; [done |].
  unfold len in *. rewrite length_app, length_take.
  change (length (py "...")) with 3%nat. lia.
Qed.

Lemma index_lookup {A} (l : list A) (i : Z) :
  0 ≤ i → index l i = l !! Z.to_nat i.
Proof.
  intros Hi. unfold index, len.
  destruct (Z.ltb_spec i (- Z.of_nat (length l))); [lia |]. simpl.
  destruct (Z.leb_spec (Z.of_nat (length l)) i).
  - symmetry. apply lookup_ge_None_2. lia.
  - by destruct (Z.ltb_spec i 0); [lia |].
Qed.

Lemma slice_from {A} (l : list A) (c : Z) :
  0 ≤ c ≤ len l → slice l (Some c) None = drop (Z.to_nat c) l.
Proof.
  intros Hc. unfold slice, clamp, len in *.
  destruct (Z.ltb_spec c 0); [lia |].
  rewrite Z.min_l by lia. apply take_ge. rewrite length_drop. lia.
Qed.

Lemma slice_between {A} (l : list A) (c d : Z) :
  0 ≤ c ≤ d → d ≤ len l →
  slice l (Some c) (Some d) = take (Z.to_nat (d - c)) (drop (Z.to_nat c) l).
Proof.
  intros Hc Hd. unfold slice, clamp, len in *.
  destruct (Z.ltb_spec c 0); [lia |]. destruct (Z.ltb_spec d 0); [lia |].
  by rewrite !Z.min_l by lia.
Qed.

Lemma range_first (a b : Z) : a < b → range a b = a :: range (a + 1) b.
Proof.
  intros Hab. unfold range.
  replace (Z.to_nat (b - a)) with (S (Z.to_nat (b - (a + 1)))) by lia.
  simpl. f_equal; [lia |]. rewrite <- fmap_S_seq, <- list_fmap_compose.
  apply list_fmap_ext. intros _ k _. simpl. lia.
Qed.

Lemma range_last (a b : Z) : a ≤ b → range a (b + 1) = range a b ++ [b].
Proof.
  intros Hab. unfold range.
  replace (Z.to_nat (b + 1 - a)) with (S (Z.to_nat (b - a))) by lia.
  rewrite seq_S, fmap_app. simpl. do 2 f_equal. lia.
Qed.

Lemma mapM_lines {A} (f : Z → option A) (g : Z → A) (a b : Z) :
  (∀ i, a ≤ i < b → f i = Some (g i)) →
  mapM f (range a b) = Some (g <$> range a b).
Proof.
  intros Hf. apply mapM_Some. apply Forall2_fmap_r, Forall_Forall2_diag.
  apply Forall_forall. intros i Hi. apply Hf. unfold range in Hi.
  apply list_elem_of_fmap in Hi as (k & -> & Hk). apply elem_of_seq in Hk.
  lia.
Qed.

Lemma fmap_range_lines (lines : list pystr) (a b : Z) (g : Z → pystr) :
  0 ≤ a → a ≤ b → b ≤ len lines →
  (∀ i l, a ≤ i < b → lines !! Z.to_nat i = Some l → g i = l) →
  g <$> range a b
  = take (Z.to_nat (b - a)) (drop (Z.to_nat a) lines).
Proof.
  intros Ha Hab Hb Hg. apply list_eq. intros k.
  unfold range. rewrite <- list_fmap_compose, list_lookup_fmap.
  destruct (decide (k < Z.to_nat (b - a))%nat) as [Hk | Hk].
  - rewrite lookup_seq_lt by done. simpl.
    rewrite lookup_take_lt by done. rewrite lookup_drop.
    unfold len in Hb.
    destruct (lookup_lt_is_Some_2 lines (Z.to_nat a + k)) as [l Hl]; [lia |].
    rewrite Hl. f_equal. apply Hg; [lia |].
    match goal with |- lines !! ?n = _ =>
      replace n with (Z.to_nat a + k)%nat by lia end.
    done.
  - rewrite lookup_seq_ge by lia. simpl.
    symmetry. apply lookup_ge_None_2. rewrite length_take. lia.
Qed.

Lemma text_between_middle lines a b (P X R : pystr) :
  concat lines = P ++ X ++ R →
  offset lines a = len P → offset lines b = len P + len X →
  text_between lines a b = X.
Proof.
  intros Hl Ha Hb. unfold text_between. rewrite Ha, Hb, Hl. unfold len.
  rewrite Nat2Z.id, drop_app_length.
  replace (Z.to_nat (_ + _ - _)) with (length X) by lia.
  by rewrite take_app_length.
Qed.

Lemma extent_text_between (w : World) (cursor : Cursor) f lines :
  file (start (extent cursor)) = Some f →
  file (end_ (extent cursor)) = Some f →
  readlines w f = Some lines →
  located lines (start (extent cursor)) →
  located lines (end_ (extent cursor)) →
  not_after (start (extent cursor)) (end_ (extent cursor)) →
  extent_text w cursor
  = Some (text_between lines (start (extent cursor))
                       (end_ (extent cursor))).
Proof.
  intros Hfa Hfb Hread (Hla & la & Hlook_a & Hca) (Hlb & lb & Hlook_b & Hcb)
    Horder.
  unfold extent_text. rewrite Hfa, Hfb.
  rewrite bool_decide_eq_true_2 by done. rewrite Hread. simpl.
  set (a := start (extent cursor)) in *. set (b := end_ (extent cursor)) in *.
  set (n1 := Z.to_nat (line a - 1)) in *.
  set (n2 := Z.to_nat (line b - 1)) in *.
  assert (Hsplit_a : concat lines
            = concat (take n1 lines) ++ la ++ concat (drop (S n1) lines)).
  { rewrite <- (take_drop_middle lines n1 la Hlook_a) at 1.
    by rewrite concat_app, concat_cons. }
  assert (Hcut : ∀ (l : pystr) (c : Z), 0 ≤ c ≤ len l →
            l = take (Z.to_nat c) l ++ drop (Z.to_nat c) l).
  { intros l c _. by rewrite take_drop. }
  assert (Hlen_take : ∀ (l : pystr) (c : Z), 0 ≤ c ≤ len l →
            len (take (Z.to_nat c) l) = c).
  { intros l c Hc. unfold len in *. rewrite length_take. lia. }
  destruct (Z.eqb_spec (line a - 1) (line b - 1)) as [Heq | Hne].
  - (* the extent lies on one line *)
    assert (Hline : line a = line b) by lia.
    destruct Horder as [? | [_ Hcols]]; [lia |].
    assert (lb = la) as -> by (unfold n1, n2 in *; rewrite Hline in *; congruence).
    rewrite index_lookup by lia. fold n1. rewrite Hlook_a. simpl.
    rewrite slice_between by lia. f_equal. symmetry.
    apply (text_between_middle lines a b
             (concat (take n1 lines) ++ take (Z.to_nat (column a - 1)) la)
             _
             (drop (Z.to_nat (column b - 1)) la
                ++ concat (drop (S n1) lines))).
    + rewrite Hsplit_a, <- !(assoc_L (++)). f_equal.
      rewrite !(assoc_L (++)). f_equal.
      rewrite (Hcut la (column a - 1)) at 1 by lia.
      rewrite <- (assoc_L (++)). f_equal.
      rewrite <- (take_drop (Z.to_nat (column b - 1 - (column a - 1)))
                   (drop (Z.to_nat (column a - 1)) la)) at 1.
      f_equal. rewrite drop_drop. f_equal. lia.
    + unfold offset. fold n1. unfold len. rewrite length_app, length_take.
      unfold len in Hca. lia.
    + unfold offset. rewrite <- Hline. fold n1. unfold len.
      rewrite length_app, !length_take, length_drop. unfold len in *. lia.
  - (* the extent spans lines *)
    destruct Horder as [Hlines | [? _]]; [| lia].
    assert (Hn : (n1 < n2)%nat) by (unfold n1, n2; lia).
    assert (Hlen_b : line b ≤ len lines).
    { apply lookup_lt_Some in Hlook_b. unfold len, n2 in *. lia. }
    rewrite Z.min_l by lia.
    set (g := λ i : Z,
           let l := default [] (lines !! Z.to_nat i) in
           if i =? line a - 1 then slice l (Some (column a - 1)) None
           else if i =? line b - 1 then slice l None (Some (column b - 1))
           else l).
    rewrite (mapM_lines _ g).
    2: { intros i Hi. rewrite index_lookup by lia.
         destruct (lookup_lt_is_Some_2 lines (Z.to_nat i)) as [l Hl].
         { unfold len in Hlen_b. lia. }
         unfold g. rewrite Hl. done. }
    simpl. f_equal.
    rewrite range_last by lia. rewrite range_first by lia.
    rewrite fmap_app, fmap_cons. cbn [fmap list_fmap].
    change (list_fmap Z pystr g) with (fmap (M:=list) g).
    set (M := take (n2 - n1 - 1) (drop (S n1) lines)).
    assert (HM : g <$> range (line a - 1 + 1) (line b - 1) = M).
    { rewrite (fmap_range_lines lines); [| lia | lia | lia |].
      - unfold M. f_equal; [unfold n1, n2; lia |]. f_equal. unfold n1. lia.
      - intros i l Hi Hl. unfold g. rewrite Hl. simpl.
        destruct (Z.eqb_spec i (line a - 1)); [lia |].
        by destruct (Z.eqb_spec i (line b - 1)); [lia |]. }
    rewrite HM.
    assert (Hga : g (line a - 1) = drop (Z.to_nat (column a - 1)) la).
    { unfold g. fold n1. rewrite Hlook_a. simpl. rewrite Z.eqb_refl.
      apply slice_from. lia. }
    assert (Hgb : g (line b - 1) = take (Z.to_nat (column b - 1)) lb).
    { unfold g. fold n2. rewrite Hlook_b. simpl.
      destruct (Z.eqb_spec (line b - 1) (line a - 1)); [lia |].
      rewrite Z.eqb_refl. apply slice_take. lia. }
    rewrite Hga, Hgb. rewrite concat_app, concat_cons. simpl.
    rewrite app_nil_r, <- (assoc_L (++)). symmetry.
    assert (Hdrop : drop (S n1) lines = M ++ lb :: drop (S n2) lines).
    { unfold M.
      rewrite <- (take_drop (n2 - n1 - 1) (drop (S n1) lines)) at 1.
      f_equal. rewrite drop_drop.
      replace (S n1 + (n2 - n1 - 1))%nat with n2 by lia.
      by apply drop_S. }
    assert (Htake : take n2 lines = take n1 lines ++ la :: M).
    { rewrite <- (take_drop_middle lines n1 la Hlook_a) at 1.
      rewrite take_app_ge by (rewrite length_take; apply lookup_lt_Some in Hlook_a; lia).
      rewrite length_take_le by (apply lookup_lt_Some in Hlook_a; lia).
      f_equal. replace (n2 - n1)%nat with (S (n2 - n1 - 1)) by lia.
      done. }
    apply (text_between_middle lines a b
             (concat (take n1 lines) ++ take (Z.to_nat (column a - 1)) la)
             _
             (drop (Z.to_nat (column b - 1)) lb
                ++ concat (drop (S n2) lines))).
    + rewrite Hsplit_a, Hdrop, concat_app, concat_cons.
      rewrite <- !(assoc_L (++)). f_equal.
      rewrite (Hcut la (column a - 1)) at 1 by lia.
      rewrite <- !(assoc_L (++)). do 3 f_equal.
      rewrite (Hcut lb (column b - 1)) at 1 by lia.
      by rewrite <- !(assoc_L (++)).
    + unfold offset. fold n1. unfold len. rewrite length_app, length_take.
      unfold len in Hca. lia.
    + unfold offset. fold n2. rewrite Htake, concat_app, concat_cons.
      unfold len. rewrite !length_app, !length_take, length_drop.
      unfold len in *. lia.
Qed.

(** C7, as the code has it.  When the extent of the declaration starts
    and ends in one file that can be read, and both its locations lie in
    the text of that file, the first not behind the second, the signature
    is built from the text of the file between the two locations: its
    words (the maximal runs of non-space characters) joined by single
    spaces, that string itself when it has at most 500 characters, and
    otherwise its first 500 characters followed by the three characters
    of the ellipsis, 503 in all.  When the text cannot be had (no file,
    two files, a file that cannot be read, a line behind the end of the
    file), the signature is the display name, or the spelling when the
    display name is empty.  The row created for a cursor stores this
    signature.  Two file objects are compared by the file they name. *)
Theorem signature_collapsed_and_cut_at_500 (w : World) (cursor : Cursor) :
  let ext := extent cursor in
  let sig := get_symbol_signature w cursor in
  (∀ f lines,
     file (start ext) = Some f → file (end_ ext) = Some f →
     readlines w f = Some lines →
     located lines (start ext) → located lines (end_ ext) →
     not_after (start ext) (end_ ext) →
     collapsed_and_cut (text_between lines (start ext) (end_ ext)) sig
     ∧ len sig ≤ 503)
  ∧ (text_unavailable w ext →
     sig = if truthy_str (displayname cursor) then displayname cursor
           else spelling cursor)
  ∧ (∀ s sym s',
       (∀ x, x ∈ symbols (working (db s)) → Symbol.usr x ≠ get_usr cursor) →
       get_or_create_symbol w (Some cursor) s = (Ok (Some sym), s') →
       Symbol.signature sym = sig).
Proof.
  intros ext sig. split; [| split].
  - intros f lines Hfa Hfb Hread Ha Hb Horder.
    unfold sig, get_symbol_signature.
    rewrite (extent_text_between w cursor f lines Hfa Hfb Hread Ha Hb Horder).
    fold ext. set (text := text_between lines (start ext) (end_ ext)).
    split.
    + exists (split text). split; [apply split_words |].
      split; [apply clean_signature_short | apply clean_signature_long].
    + destruct (decide (len (join (py " ") (split text)) ≤ 500))
        as [Hle | Hgt].
      * rewrite clean_signature_short by done. lia.
      * destruct (clean_signature_long text) as [_ ->]; lia.
  - intros Hnone. unfold sig, get_symbol_signature.
    enough (extent_text w cursor = None) as -> by done.
    unfold extent_text. fold ext.
    destruct Hnone as [Hfile | [Hfiles | [(f & Hf & Hread)
                                          | (f & lines & Hf & Hread & Hline & Hlen)]]].
    + by rewrite Hfile.
    + destruct (file (start ext)); [| done].
      by rewrite bool_decide_eq_false_2.
    + rewrite Hf. destruct (bool_decide _); [| done]. by rewrite Hread.
    + rewrite Hf. destruct (bool_decide _); [| done]. rewrite Hread. simpl.
      rewrite Hline, Z.eqb_refl.
      enough (index lines (line (end_ ext) - 1) = None) as -> by done.
      unfold index. destruct (Z.leb_spec (len lines) (line (end_ ext) - 1));
        [by rewrite orb_true_r | lia].
  - intros s sym s' Hfresh. rewrite get_or_create_symbol_eq.
    destruct (truthy_str _); [| discriminate].
    destruct (List.find _ _) as [row|] eqn:Hfind.
    { apply find_usr_Some in Hfind as [Hin Heq]. by destruct (Hfresh row). }
    destruct (kind cursor) as [k|]; [| discriminate].
    destruct (complexity_of cursor k) as [c|]; [| discriminate].
    by intros [= <- <-].
Qed.

(** C7 at a declaration that spans two lines of [/p/a.c]: the text
    between its locations holds a line break, the signature a space. *)
Lemma signature_collapsed_and_cut_at_500_witness :
  located a_c_lines (at_ 1 5)
  ∧ located a_c_lines (at_ 2 6)
  ∧ not_after (at_ 1 5) (at_ 2 6)
  ∧ text_between a_c_lines (at_ 1 5) (at_ 2 6)
    = py "x;" ++ [10%N] ++ py "int y"
  ∧ collapsed_and_cut (text_between a_c_lines (at_ 1 5) (at_ 2 6))
      (get_symbol_signature world_a Samples.two_line_decl)
  ∧ get_symbol_signature world_a Samples.two_line_decl = py "x; int y".
Proof.
  assert (Ha : located a_c_lines (at_ 1 5)).
  { split; [simpl; lia |]. eexists. split; [reflexivity |].
    unfold len. simpl. lia. }
  assert (Hb : located a_c_lines (at_ 2 6)).
  { split; [simpl; lia |]. eexists. split; [reflexivity |].
    unfold len. simpl. lia. }
  assert (Horder : not_after (at_ 1 5) (at_ 2 6)) by (left; simpl; lia).
  split; [exact Ha |]. split; [exact Hb |]. split; [exact Horder |].
  split; [reflexivity |]. split; [| reflexivity].
  exact (proj1 (proj1 (signature_collapsed_and_cut_at_500 world_a
                         Samples.two_line_decl)
                  a_c a_c_lines eq_refl eq_refl eq_refl Ha Hb Horder)).
Defined.

(** C7 as stated fails for a declaration of 501 characters: the row
    created for it stores 503. *)
Lemma long_signature_has_503_characters :
  ¬ signature_within_500 world_long long_decl fresh.
Proof.
  intros H.
  assert (Hrun : ∃ sym s',
            get_or_create_symbol world_long (Some long_decl) fresh
            = (Ok (Some sym), s')
            ∧ len (Symbol.signature sym) = 503).
  { eexists _, _. split; [vm_compute; reflexivity | vm_compute; reflexivity]. }
  destruct Hrun as (sym & s' & Hrun & Hlen).
  specialize (H sym s' Hrun). lia.
Qed.

End signature.

(** * The architecture analyzer: layer violations *)

Section layer_violations.
Import Props Fixtures ArchitectureAnalyzer.

Lemma in_module_file_ids d fid m :
  in_ fid (module_file_ids d m) = true ↔ file_in_module d fid m.
Proof.
  unfold in_, module_file_ids, file_in_module. split.
  - destruct fid as [i|]; [| done]. intros Hin%bool_decide_eq_true.
    apply list_elem_of_fmap in Hin as (f & -> & Hf).
    apply list_elem_of_filter in Hf as [Hm Hf]. by exists f.
  - intros (f & Hf & -> & Hm). apply bool_decide_eq_true.
    apply list_elem_of_fmap. exists f. split; [done |].
    by apply list_elem_of_filter.
Qed.

(** The join on the primary key finds at most one row. *)
Lemma join_on_id {B} (l : list Symbol.t) (t : Z) (g : Symbol.t → bool)
    (h : Symbol.t → B) :
  NoDup (Symbol.id <$> l) →
  (sym ← l; if bool_decide (t = Symbol.id sym) && g sym then [h sym] else [])
  = match List.find (λ s, bool_decide (Symbol.id s = t)) l with
    | Some sym => if g sym then [h sym] else []
    | None => []
    end.
Proof.
  induction l as [|x l IH]; [done |].
  rewrite fmap_cons, NoDup_cons. intros [Hx Hl].
  change ((x :: l) ≫= ?f) with (f x ++ (l ≫= f)); cbv beta. simpl List.find.
  destruct (decide (Symbol.id x = t)) as [<- | Hne].
  - rewrite !bool_decide_eq_true_2 by done. simpl.
    assert (Hrest : (sym ← l;
               if bool_decide (Symbol.id x = Symbol.id sym) && g sym
               then [h sym] else []) = []).
    { clear IH Hl. induction l as [|y l IHl]; [done |].
      change ((y :: l) ≫= ?f) with (f y ++ (l ≫= f)); cbv beta.
      rewrite bool_decide_eq_false_2; simpl.
      - apply IHl. intros Hin. apply Hx. rewrite fmap_cons. by right.
      - intros Heq. apply Hx. rewrite fmap_cons, Heq. by left. }
    rewrite Hrest, app_nil_r. done.
  - rewrite (bool_decide_eq_false_2 (t = Symbol.id x)) by done.
    rewrite (bool_decide_eq_false_2 (Symbol.id x = t)) by done.
    simpl. by apply IH.
Qed.

Lemma bind_option_omap {A B} (f : A → option B) (l : list A) :
  (x ← l; match f x with Some y => [y] | None => [] end) = omap f l.
Proof.
  induction l as [|x l IH]; [done |].
  change ((x :: l) ≫= ?g) with (g x ++ (l ≫= g)); cbv beta.
  rewrite IH. simpl.
  by destruct (f x).
Qed.

Lemma bind_pointwise {A B} (f g : A → list B) (l : list A) :
  (∀ x, f x = g x) → l ≫= f = l ≫= g.
Proof.
  intros Hfg. induction l as [|x l IH]; [done |].
  change ((x :: l) ≫= ?f) with (f x ++ (l ≫= f)). by rewrite Hfg, IH.
Qed.

Lemma NoDup_fmap_eq {A B} (f : A → B) (l : list A) x y :
  NoDup (f <$> l) → x ∈ l → y ∈ l → f x = f y → x = y.
Proof.
  induction l as [|z l IH]; [by intros _ ?%elem_of_nil |].
  rewrite fmap_cons, NoDup_cons. intros [Hz Hl] Hx Hy Heq.
  apply elem_of_cons in Hx as [-> | Hx]; apply elem_of_cons in Hy as [-> | Hy].
  - done.
  - exfalso. apply Hz. rewrite Heq. by apply list_elem_of_fmap_2.
  - exfalso. apply Hz. rewrite <- Heq. by apply list_elem_of_fmap_2.
  - by apply IH.
Qed.

Lemma check_layer_violations_eq d rule :
  NoDup (Symbol.id <$> symbols d) →
  _check_layer_violations d rule
  = match rule_modules d rule with
    | Some (src, tgt) =>
        if ModuleDefinition.layer src <? ModuleDefinition.layer tgt
        then omap (violation_for d rule src tgt) (references d)
        else []
    | None => []
    end.
Proof.
  intros Hpk. unfold _check_layer_violations, rule_modules.
  destruct (ArchitectureRule.source_module_id rule) as [i|]; [| done].
  destruct (ArchitectureRule.target_module_id rule) as [j|]; simpl;
    [| by rewrite orb_true_r].
  destruct (i =? 0); [done |]. destruct (j =? 0); [done |]. simpl.
  destruct (find_module d i) as [src|]; [| done]. simpl.
  destruct (find_module d j) as [tgt|]; [| done]. simpl.
  destruct (_ <? _); [| done].
  rewrite <- bind_option_omap. apply bind_pointwise. intros ref.
  transitivity
    (sym ← symbols d;
     if bool_decide (Reference.target_id ref = Symbol.id sym)
        && (in_ (Reference.file_id ref) (module_file_ids d src)
            && in_ (Symbol.file_id sym) (module_file_ids d tgt))
     then [violation_record rule src tgt ref sym] else []).
  { apply bind_pointwise. intros sym. by rewrite andb_assoc. }
  rewrite (join_on_id _ _
             (λ sym, in_ (Reference.file_id ref) (module_file_ids d src)
                     && in_ (Symbol.file_id sym) (module_file_ids d tgt))
             (violation_record rule src tgt ref)) by done.
  unfold violation_for, symbol_by_id.
  destruct (List.find _ _) as [sym|]; [| done]. simpl.
  by destruct (_ && _).
Qed.

(** C6. With the symbol ids a primary key: the violations reported are
    those of the active rules of the project, rule by rule; a
    [layer_violation] rule whose source or target module id is unset or
    names no module contributes none, and neither does one whose source
    layer is not below its target layer; otherwise it contributes exactly
    one record for every reference whose file is a file of the source
    module and whose target symbol exists in a file of the target module,
    in the order of the references, and none for any other reference. *)
Theorem layer_violations_one_per_reference (d : Database) (pid : Z)
    (Hpk : NoDup (Symbol.id <$> symbols d)) :
  check_architecture_violations d pid
  = (rule ← filter (λ r, ArchitectureRule.project_id r = pid
                         ∧ ArchitectureRule.is_active r = true)
                   (architecture_rules d);
     rule_violations d rule)
  ∧ (∀ rule, rule_modules d rule = None →
             _check_layer_violations d rule = [])
  ∧ (∀ rule src tgt,
       rule_modules d rule = Some (src, tgt) →
       (¬ ModuleDefinition.layer src < ModuleDefinition.layer tgt →
        _check_layer_violations d rule = [])
       ∧ (ModuleDefinition.layer src < ModuleDefinition.layer tgt →
          _check_layer_violations d rule
          = omap (violation_for d rule src tgt) (references d)))
  ∧ (∀ rule src tgt ref v,
       violation_for d rule src tgt ref = Some v ↔
       ∃ sym, sym ∈ symbols d
              ∧ Symbol.id sym = Reference.target_id ref
              ∧ file_in_module d (Reference.file_id ref) src
              ∧ file_in_module d (Symbol.file_id sym) tgt
              ∧ v = violation_record rule src tgt ref sym).
Proof.
  split; [| split; [| split]].
  - unfold check_architecture_violations. apply bind_pointwise.
    intros rule. unfold rule_violations.
    destruct (bool_decide (_ = py "layer_violation")).
    + by apply check_layer_violations_eq.
    + by destruct (bool_decide _).
  - intros rule Hnone. rewrite check_layer_violations_eq by done.
    by rewrite Hnone.
  - intros rule src tgt Hsome. rewrite check_layer_violations_eq by done.
    rewrite Hsome. split; intros Hlayer.
    + destruct (Z.ltb_spec (ModuleDefinition.layer src)
                           (ModuleDefinition.layer tgt)); [lia | done].
    + destruct (Z.ltb_spec (ModuleDefinition.layer src)
                           (ModuleDefinition.layer tgt)); [done | lia].
  - intros rule src tgt ref v. unfold violation_for, symbol_by_id. split.
    + destruct (List.find _ _) as [sym|] eqn:Hfind; [| done]. simpl.
      destruct (in_ (Reference.file_id ref) _) eqn:Hsrc; [| done].
      destruct (in_ (Symbol.file_id sym) _) eqn:Htgt; [| done].
      simpl. intros [= <-]. apply find_some in Hfind as [Hin Hid].
      exists sym. repeat split.
      * by apply list_elem_of_In.
      * by apply bool_decide_eq_true in Hid.
      * by apply in_module_file_ids.
      * by apply in_module_file_ids.
    + intros (sym & Hin & Hid & Hsrc & Htgt & ->).
      assert (Hfind : List.find (λ s, bool_decide
                         (Symbol.id s = Reference.target_id ref))
                        (symbols d) = Some sym).
      { destruct (List.find _ _) as [sym'|] eqn:Hfind.
        - apply find_some in Hfind as [Hin' Hid'].
          apply bool_decide_eq_true in Hid'.
          f_equal. eapply (NoDup_fmap_eq Symbol.id);
            [exact Hpk | by apply list_elem_of_In | done | congruence].
        - exfalso. apply list_elem_of_In in Hin.
          pose proof (find_none _ _ Hfind sym Hin) as Hn. simpl in Hn.
          by apply bool_decide_eq_false in Hn. }
      rewrite Hfind. simpl.
      apply in_module_file_ids in Hsrc, Htgt. by rewrite Hsrc, Htgt.
Qed.

(** C6 on the example: the rule between [core] and [ui] reports the two
    references of [core] to [draw]; the dangling rule and the downward rule
    report nothing. *)
Lemma layer_violations_one_per_reference_witness :
  NoDup (Symbol.id <$> symbols arch_db)
  ∧ reference_line <$> check_architecture_violations arch_db 1 = [2; 7]
  ∧ check_architecture_violations arch_db 1
    = (rule ← filter (λ r, ArchitectureRule.project_id r = 1
                           ∧ ArchitectureRule.is_active r = true)
                     (architecture_rules arch_db);
       rule_violations arch_db rule).
Proof.
  assert (H : NoDup (Symbol.id <$> symbols arch_db)).
  { apply (bool_decide_unpack _). vm_compute. exact I. }
  split; [exact H |]. split; [vm_compute; reflexivity |].
  exact (proj1 (layer_violations_one_per_reference arch_db 1 H)).
Defined.

End layer_violations.

(** * The graph library: graphs, reachability, components *)

Section graph_facts.
Import Props Nx.

Lemma wf_empty : wf_graph empty.
Proof.
  repeat split; try constructor; by apply elem_of_nil in H.
Qed.

Lemma wf_add_node n G : wf_graph G → wf_graph (add_node n G).
Proof.
  intros (Hn & He & Hends). unfold add_node.
  destruct (decide (n ∈ nodes G)) as [Hin | Hout].
  - by rewrite bool_decide_eq_true_2.
  - rewrite bool_decide_eq_false_2 by done. repeat split; simpl.
    + apply NoDup_app. repeat split; [done | | apply NoDup_singleton].
      intros x Hx ->%list_elem_of_singleton. done.
    + done.
    + apply elem_of_app. left. by apply (Hends u v).
    + apply elem_of_app. left. by apply (Hends u v).
Qed.

Lemma nodes_add_node n G x :
  x ∈ nodes (add_node n G) ↔ x ∈ nodes G ∨ x = n.
Proof.
  unfold add_node. destruct (decide (n ∈ nodes G)) as [Hin | Hout].
  - rewrite bool_decide_eq_true_2 by done. split; [by left |].
    by intros [? | ->].
  - rewrite bool_decide_eq_false_2 by done. simpl.
    by rewrite elem_of_app, list_elem_of_singleton.
Qed.

Lemma edges_add_node n G : edges (add_node n G) = edges G.
Proof. unfold add_node. by destruct (bool_decide _). Qed.

Lemma wf_add_edge u v G : wf_graph G → wf_graph (add_edge u v G).
Proof.
  intros HG. unfold add_edge.
  pose proof (wf_add_node v _ (wf_add_node u _ HG)) as HG'.
  set (G' := add_node v (add_node u G)) in *.
  destruct (decide ((u, v) ∈ edges G')) as [Hin | Hout].
  - by rewrite bool_decide_eq_true_2.
  - rewrite bool_decide_eq_false_2 by done.
    destruct HG' as (Hn & He & Hends). repeat split; simpl.
    + done.
    + apply NoDup_app. repeat split; [done | | apply NoDup_singleton].
      intros x Hx ->%list_elem_of_singleton. done.
    + unfold edge in H. simpl in H.
      apply elem_of_app in H as [H | [= -> ->]%list_elem_of_singleton].
      * by apply (Hends u0 v0).
      * subst G'. apply nodes_add_node. left. apply nodes_add_node. by right.
    + unfold edge in H. simpl in H.
      apply elem_of_app in H as [H | [= -> ->]%list_elem_of_singleton].
      * by apply (Hends u0 v0).
      * subst G'. apply nodes_add_node. by right.
Qed.

Lemma successors_spec G u v : v ∈ successors G u ↔ edge G u v.
Proof.
  unfold successors, edge. rewrite list_elem_of_fmap. split.
  - intros ([a b] & -> & Hab). apply list_elem_of_filter in Hab as [Ha Hin].
    simpl in *. by subst.
  - intros Hin. exists (u, v). split; [done |].
    by apply list_elem_of_filter.
Qed.

Lemma predecessors_spec G u v : u ∈ predecessors G v ↔ edge G u v.
Proof.
  unfold predecessors, edge. rewrite list_elem_of_fmap. split.
  - intros ([a b] & -> & Hab). apply list_elem_of_filter in Hab as [Ha Hin].
    simpl in *. by subst.
  - intros Hin. exists (u, v). split; [done |].
    by apply list_elem_of_filter.
Qed.

Lemma path_stays_in_nodes G u v :
  wf_graph G → u ∈ nodes G → rtc (edge G) u v → v ∈ nodes G.
Proof.
  intros (_ & _ & Hends) Hu Hpath. induction Hpath as [|x y z Hxy _ IH];
    [done |]. apply IH. by apply (Hends x y).
Qed.

(** *** Reachability by saturation *)

Lemma elem_of_expand G (S : gset Z) v :
  v ∈ expand G S ↔ v ∈ S ∨ ∃ u, u ∈ S ∧ edge G u v.
Proof.
  unfold expand. rewrite elem_of_union, elem_of_list_to_set,
    list_elem_of_bind. split.
  - intros [? | (u & Hv & Hu)]; [by left | right].
    exists u. split; [by apply elem_of_elements | by apply successors_spec].
  - intros [? | (u & Hu & Hv)]; [by left | right].
    exists u. split; [by apply successors_spec | by apply elem_of_elements].
Qed.

Lemma iter_expand_sound G n s v :
  v ∈ Nat.iter n (expand G) {[s]} → rtc (edge G) s v.
Proof.
  revert v. induction n as [|n IH]; intros v; simpl.
  - intros ->%elem_of_singleton. constructor.
  - intros [Hv | (u & Hu & Huv)]%elem_of_expand; [by apply IH |].
    eapply rtc_r; [by apply IH | done].
Qed.

Lemma iter_expand_mono G n (S : gset Z) : S ⊆ Nat.iter n (expand G) S.
Proof.
  induction n as [|n IH]; [done |]. simpl.
  intros x Hx. apply elem_of_expand. left. by apply IH.
Qed.

Lemma iter_expand_fixed G n (S : gset Z) :
  expand G S = S → Nat.iter n (expand G) S = S.
Proof. intros HS. induction n as [|n IH]; [done |]. simpl. by rewrite IH. Qed.

(** Enough rounds close the set under the edges. *)
Lemma iter_expand_closed G (V : gset Z) :
  (∀ u v, u ∈ V → edge G u v → v ∈ V) →
  ∀ (n : nat) (S : gset Z), S ⊆ V → (size V < n + size S)%nat →
    expand G (Nat.iter n (expand G) S) = Nat.iter n (expand G) S.
Proof.
  intros HV n. induction n as [|n IH]; intros S HS Hsize.
  - pose proof (subseteq_size _ _ HS). lia.
  - rewrite Nat.iter_succ_r.
    destruct (decide (expand G S = S)) as [Hfix | Hgrow].
    + rewrite Hfix, iter_expand_fixed by done. done.
    + assert (Hsub : expand G S ⊆ V).
      { intros x [Hx | (u & Hu & Hux)]%elem_of_expand; [by apply HS |].
        by apply (HV u x); [apply HS |]. }
      apply IH; [done |].
      assert (S ⊂ expand G S) as Hstrict.
      { split.
        - intros x Hx. apply elem_of_expand. by left.
        - intros Hback. apply Hgrow. apply set_eq. intros x. split.
          + apply Hback.
          + intros Hx. apply elem_of_expand. by left. }
      pose proof (subset_size _ _ Hstrict). lia.
Qed.

Lemma reach_spec G s v :
  wf_graph G → s ∈ nodes G → v ∈ reach G s ↔ rtc (edge G) s v.
Proof.
  intros HG Hs. split; [apply iter_expand_sound |].
  intros Hpath. unfold reach.
  set (V := list_to_set (nodes G) : gset Z).
  assert (Hclosed : expand G (Nat.iter (length (nodes G)) (expand G) {[s]})
                    = Nat.iter (length (nodes G)) (expand G) {[s]}).
  { apply (iter_expand_closed G V).
    - intros u v' Hu Huv. apply elem_of_list_to_set.
      by apply (proj2 (proj2 HG) u v').
    - intros x ->%elem_of_singleton. by apply elem_of_list_to_set.
    - rewrite size_singleton. unfold V.
      rewrite size_list_to_set by apply HG. lia. }
  revert v Hpath.
  apply (rtc_ind_r (λ v, v ∈ Nat.iter (length (nodes G)) (expand G) {[s]})).
  - apply iter_expand_mono. by apply elem_of_singleton.
  - intros y z _ Hyz IH. rewrite <- Hclosed. apply elem_of_expand. right.
    by exists y.
Qed.

(** *** Strongly connected components *)

Lemma mutually_reachable_refl G v : mutually_reachable G v v.
Proof. split; constructor. Qed.

Lemma mutually_reachable_sym G u v :
  mutually_reachable G u v → mutually_reachable G v u.
Proof. intros [? ?]. by split. Qed.

Lemma mutually_reachable_trans G u v x :
  mutually_reachable G u v → mutually_reachable G v x →
  mutually_reachable G u x.
Proof. intros [? ?] [? ?]. split; by etrans. Qed.

Lemma component_of_spec G v u :
  wf_graph G → v ∈ nodes G →
  u ∈ component_of G v ↔ mutually_reachable G v u.
Proof.
  intros HG Hv. unfold component_of. rewrite list_elem_of_filter. split.
  - intros [[Hvu Huv] Hu]. split; by apply reach_spec.
  - intros [Hvu Huv].
    assert (Hu : u ∈ nodes G).
    { by eapply path_stays_in_nodes. }
    repeat split; [by apply reach_spec | by apply reach_spec | done].
Qed.

Lemma components_spec G :
  wf_graph G →
  ∀ todo seen,
    (∀ v, v ∈ todo → v ∈ nodes G) →
    (∀ x y, x ∈ seen → mutually_reachable G x y → y ∈ seen) →
    (∀ c, c ∈ components G todo seen →
          ∃ v, v ∈ todo ∧ (v ∉ seen) ∧ c = component_of G v)
    ∧ (∀ v, v ∈ todo → v ∉ seen →
            ∃ c, c ∈ components G todo seen ∧ v ∈ c)
    ∧ all_disjoint (components G todo seen).
Proof.
  intros HG todo. induction todo as [|v0 rest IH]; intros seen Htodo Hseen.
  { repeat split; [by intros c ?%elem_of_nil | by intros v ?%elem_of_nil
                  | constructor]. }
  assert (Hv0 : v0 ∈ nodes G) by (apply Htodo; left).
  assert (Hrest : ∀ v, v ∈ rest → v ∈ nodes G)
    by (intros v Hv; apply Htodo; by right).
  simpl. destruct (decide (v0 ∈ seen)) as [Hin | Hout].
  - rewrite bool_decide_eq_true_2 by done.
    destruct (IH seen Hrest Hseen) as (Ha & Hb & Hc).
    repeat split; [| | done].
    + intros c Hcin. destruct (Ha c Hcin) as (v & Hv & Hvs & ->).
      exists v. repeat split; [by right | done].
    + intros v [-> | Hv]%elem_of_cons Hvs; [done | by apply Hb].
  - rewrite bool_decide_eq_false_2 by done.
    set (c0 := component_of G v0).
    set (seen' := seen ∪ list_to_set c0).
    assert (Hseen' : ∀ x y, x ∈ seen' → mutually_reachable G x y → y ∈ seen').
    { intros x y [Hx | Hx]%elem_of_union Hxy; apply elem_of_union.
      - left. by apply (Hseen x y).
      - right. apply elem_of_list_to_set in Hx. apply elem_of_list_to_set.
        apply component_of_spec in Hx; [| done | done].
        apply component_of_spec; [done | done |].
        by eapply mutually_reachable_trans. }
    destruct (IH seen' Hrest Hseen') as (Ha & Hb & Hc).
    repeat split.
    + intros c [-> | Hcin]%elem_of_cons.
      * exists v0. repeat split; [by left | done].
      * destruct (Ha c Hcin) as (v & Hv & Hvs & ->).
        exists v. repeat split; [by right |].
        intros Hvseen. apply Hvs. apply elem_of_union. by left.
    + intros v Hv Hvs.
      destruct (decide (v ∈ c0)) as [Hvc | Hvc].
      { exists c0. split; [by left | done]. }
      apply elem_of_cons in Hv as [-> | Hv].
      { exfalso. apply Hvc. apply component_of_spec; [done | done |].
        apply mutually_reachable_refl. }
      destruct (Hb v Hv) as (c & Hcin & Hvin).
      { intros [? | Hx%elem_of_list_to_set]%elem_of_union; done. }
      exists c. split; [by right | done].
    + constructor; [| done]. apply Forall_forall. intros c' Hc' x Hx0 Hx'.
      destruct (Ha c' Hc') as (v' & Hv' & Hvs' & ->).
      apply Hvs'. apply (Hseen' x v').
      * apply elem_of_union. right. by apply elem_of_list_to_set.
      * apply mutually_reachable_sym.
        apply component_of_spec in Hx'; [done | done | by apply Hrest].
Qed.

Lemma all_disjoint_filter (P : list Z → Prop) `{∀ c, Decision (P c)} cs :
  all_disjoint cs → all_disjoint (filter P cs).
Proof.
  induction 1 as [|c cs Hc Hcs IH]; [constructor |].
  rewrite filter_cons. destruct (decide (P c)); [| done].
  constructor; [| done]. apply Forall_forall. intros c' Hc'.
  apply list_elem_of_filter in Hc' as [_ Hc'].
  rewrite Forall_forall in Hc. by apply Hc.
Qed.

Lemma NoDup_component_of G v : wf_graph G → NoDup (component_of G v).
Proof. intros (Hn & _). by apply NoDup_filter. Qed.

End graph_facts.

(** * The architecture analyzer: circular dependencies *)

Section circular_dependencies.
Import Props Fixtures Nx ArchitectureAnalyzer.

Lemma wf_foldl {A} (f : DiGraph → A → DiGraph) (l : list A) :
  (∀ G x, wf_graph G → wf_graph (f G x)) →
  ∀ G, wf_graph G → wf_graph (foldl f G l).
Proof.
  intros Hf. induction l as [|x l IH]; intros G HG; [done |].
  simpl. by apply IH, Hf.
Qed.

Lemma wf_build_include_graph w d pid :
  wf_graph (build_include_graph w d pid).
Proof.
  unfold build_include_graph. apply wf_foldl.
  - intros G inc HG.
    destruct (Include.source_file_id inc) as [src|]; [| done].
    destruct (Include.target_file_id inc) as [tgt|]; [| done].
    destruct (truthy_int (Some tgt)); [by apply wf_add_edge | done].
  - apply wf_foldl; [| apply wf_empty].
    intros G f HG. by apply wf_add_node.
Qed.

Lemma two_members (l : list Z) u v :
  NoDup l → u ∈ l → v ∈ l → u ≠ v → 1 < len l.
Proof.
  intros Hl Hu Hv Hne. unfold len.
  destruct l as [|a [|b l]]; simpl; [| | lia].
  - by apply elem_of_nil in Hu.
  - apply list_elem_of_singleton in Hu, Hv. congruence.
Qed.

(** C5. The groups reported are exactly the strongly connected components
    of the include graph with two members or more: every group has at
    least two members and is the set of the files that reach, and are
    reached from, one of its members; every two distinct files that reach
    each other are together in a group; and no file is in two groups.  For
    the headers [a.h], [b.h], [c.h] including each other in a circle and a
    fourth header [d.h], the one group is [{a.h, b.h, c.h}]. *)
Theorem cycles_are_the_components_of_two_or_more (w : World) (d : Database)
    (pid : Z) :
  let G := build_include_graph w d pid in
  let R := detect_circular_dependencies w d pid in
  (∀ g, g ∈ R →
        2 ≤ len g ∧ NoDup g
        ∧ ∃ v, v ∈ g ∧ ∀ u, u ∈ g ↔ mutually_reachable G v u)
  ∧ (∀ u v, u ∈ nodes G → u ≠ v → mutually_reachable G u v →
            ∃ g, g ∈ R ∧ u ∈ g ∧ v ∈ g)
  ∧ all_disjoint R
  ∧ (build_include_graph world_a cycle_db 1
     = mkDiGraph [1; 2; 3; 4] [(1, 2); (2, 3); (3, 1)]
     ∧ detect_circular_dependencies world_a cycle_db 1 = [[1; 2; 3]]).
Proof.
  intros G R.
  pose proof (wf_build_include_graph w d pid) as HG. fold G in HG.
  destruct (components_spec G HG (nodes G) ∅ (λ v Hv, Hv)) as (Ha & Hb & Hc).
  { intros x y Hx. by apply elem_of_empty in Hx. }
  fold (strongly_connected_components G) in Ha, Hb, Hc.
  split; [| split; [| split]].
  - intros g [Hlen Hg]%list_elem_of_filter.
    destruct (Ha g Hg) as (v & Hv & _ & ->).
    split; [lia |]. split; [by apply NoDup_component_of |].
    exists v. split.
    + apply component_of_spec; [done | done | apply mutually_reachable_refl].
    + intros u. by apply component_of_spec.
  - intros u v Hu Hne Huv.
    destruct (Hb u Hu) as (c & Hcin & Huc).
    { intros Hx. by apply elem_of_empty in Hx. }
    destruct (Ha c Hcin) as (v0 & Hv0 & _ & ->).
    assert (Hvc : v ∈ component_of G v0).
    { apply component_of_spec; [done | done |].
      eapply mutually_reachable_trans; [| exact Huv].
      by apply component_of_spec in Huc. }
    exists (component_of G v0). split; [| done].
    apply list_elem_of_filter. split; [| done].
    eapply two_members; [by apply NoDup_component_of | exact Huc | exact Hvc
                        | done].
  - by apply all_disjoint_filter.
  - split; vm_compute; reflexivity.
Qed.

End circular_dependencies.

(** * The graph library: topological sort *)

Section toposort_facts.
Import Props Nx.

Lemma NoDup_successors G u : wf_graph G → NoDup (successors G u).
Proof.
  intros (_ & He & _). unfold successors.
  apply NoDup_fmap_2_strong; [| by apply NoDup_filter].
  intros [a b] [a' b'] [Ha _]%list_elem_of_filter [Ha' _]%list_elem_of_filter.
  simpl in *. congruence.
Qed.

Lemma NoDup_predecessors G v : wf_graph G → NoDup (predecessors G v).
Proof.
  intros (_ & He & _). unfold predecessors.
  apply NoDup_fmap_2_strong; [| by apply NoDup_filter].
  intros [a b] [a' b'] [Ha _]%list_elem_of_filter [Ha' _]%list_elem_of_filter.
  simpl in *. congruence.
Qed.

Lemma remaining_nil G v : remaining G [] v = in_degree G v.
Proof.
  unfold remaining, in_degree. f_equal.
  induction (predecessors G v) as [|x l IH]; [done |].
  rewrite filter_cons_True by apply not_elem_of_nil. by rewrite IH.
Qed.

Lemma remaining_nonneg G P v : 0 ≤ remaining G P v.
Proof. unfold remaining, len. lia. Qed.

Lemma remaining_zero G P v :
  remaining G P v = 0 ↔ ∀ u, edge G u v → u ∈ P.
Proof.
  unfold remaining, len. split.
  - intros Hz u Hu%predecessors_spec.
    destruct (decide (u ∈ P)) as [? | Hout]; [done |].
    assert (u ∈ filter (λ u, u ∉ P) (predecessors G v)) as Hin.
    { by apply list_elem_of_filter. }
    destruct (filter _ _); [by apply elem_of_nil in Hin | simpl in Hz; lia].
  - intros Hall.
    assert (filter (λ u, u ∉ P) (predecessors G v) = []) as ->; [| done].
    apply elem_of_nil_inv. intros u [Hout Hu]%list_elem_of_filter.
    apply Hout, Hall. by apply predecessors_spec.
Qed.

Lemma remaining_positive G P v :
  0 < remaining G P v → ∃ u, edge G u v ∧ u ∉ P.
Proof.
  unfold remaining, len. intros Hpos.
  destruct (filter (λ u, u ∉ P) (predecessors G v)) as [|u l] eqn:Hf;
    [simpl in Hpos; lia |].
  assert (u ∈ filter (λ u, u ∉ P) (predecessors G v)) as Hin.
  { rewrite Hf. left. }
  apply list_elem_of_filter in Hin as [Hout Hu].
  exists u. split; [by apply predecessors_spec | done].
Qed.

Lemma length_filter_snoc (l P : list Z) u :
  NoDup l → u ∉ P →
  Z.of_nat (length (filter (λ x, x ∉ P ++ [u]) l))
  = Z.of_nat (length (filter (λ x, x ∉ P) l)) - (if decide (u ∈ l) then 1 else 0).
Proof.
  intros Hl Hu. induction l as [|y l IH]; [done |].
  apply NoDup_cons in Hl as [Hy Hl]. specialize (IH Hl).
  rewrite !filter_cons.
  destruct (decide (y = u)) as [-> | Hne].
  - rewrite (decide_True (P:=u ∈ u :: l)) by left.
    rewrite decide_False; [| intros Hn; apply Hn, elem_of_app; right; left].
    rewrite decide_True by done. simpl length.
    rewrite decide_False in IH by done. lia.
  - assert (Hiff : (u ∈ y :: l) ↔ (u ∈ l)).
    { rewrite elem_of_cons. split; [by intros [-> | ?] | by right]. }
    destruct (decide (y ∈ P)) as [HyP | HyP].
    + rewrite decide_False; [| intros Hn; apply Hn, elem_of_app; by left].
      rewrite decide_False; [| by intros Hn].
      destruct (decide (u ∈ l)); [rewrite decide_True by (by apply Hiff)
                                 | rewrite decide_False by (by rewrite Hiff)];
        lia.
    + rewrite decide_True.
      2:{ intros [? | ?%list_elem_of_singleton]%elem_of_app; done. }
      rewrite decide_True by done. simpl length.
      destruct (decide (u ∈ l)); [rewrite decide_True by (by apply Hiff)
                                 | rewrite decide_False by (by rewrite Hiff)];
        lia.
Qed.

Lemma remaining_snoc G P u v :
  wf_graph G → u ∉ P →
  remaining G (P ++ [u]) v
  = remaining G P v - (if decide (edge G u v) then 1 else 0).
Proof.
  intros HG Hu. unfold remaining, len.
  rewrite length_filter_snoc by (by apply NoDup_predecessors || done).
  destruct (decide (u ∈ predecessors G v)) as [Hin | Hout].
  - by rewrite decide_True by (by apply predecessors_spec).
  - by rewrite decide_False by (by rewrite <- predecessors_spec).
Qed.

(** *** One node of a generation *)

Lemma filter_ext_in {A} (P Q : A → Prop) `{∀ x, Decision (P x)}
    `{∀ x, Decision (Q x)} (l : list A) :
  (∀ x, x ∈ l → P x ↔ Q x) → filter P l = filter Q l.
Proof.
  induction l as [|x l IH]; intros HPQ; [done |].
  rewrite !filter_cons.
  rewrite IH by (intros y Hy; apply HPQ; by right).
  destruct (decide (P x)) as [HP | HP].
  - rewrite decide_True; [done |]. apply HPQ; [left | done].
  - rewrite decide_False; [done |]. intros HQ. apply HP, HPQ; [left | done].
Qed.

(** What the loop over the children of a node does to the map and to the
    next generation. *)
Lemma relax_all_spec cs :
  NoDup cs →
  ∀ (m : gmap Z Z) zn,
    (∀ c, c ∈ cs → is_Some (m !! c)) →
    ∃ m', relax_all cs (m, zn)
          = Some (m', zn ++ filter (λ c, m !! c = Some 1) cs)
      ∧ ∀ x, m' !! x
             = if decide (x ∈ cs)
               then dd ← m !! x; if dd - 1 =? 0 then None else Some (dd - 1)
               else m !! x.
Proof.
  induction 1 as [|c cs Hc Hcs IH]; intros m zn Hm.
  { exists m. split; [by rewrite app_nil_r | done]. }
  destruct (Hm c ltac:(left)) as [dd Hdd].
  simpl. unfold relax at 1. simpl. rewrite Hdd. simpl.
  destruct (Z.eqb_spec (dd - 1) 0) as [Hone | Hmore].
  - assert (dd = 1) as -> by lia.
    destruct (IH (delete c m) (zn ++ [c])) as (m' & Hrun & Hlook).
    { intros c' Hc'. rewrite lookup_delete_ne; [apply Hm; by right |].
      by intros ->. }
    exists m'. split.
    + simpl. rewrite Hrun. f_equal. f_equal. rewrite <- app_assoc. f_equal.
      rewrite filter_cons_True by done. simpl. f_equal.
      apply filter_ext_in. intros x Hx.
      rewrite lookup_delete_ne; [done | by intros ->].
    + intros x. rewrite Hlook.
      destruct (decide (x = c)) as [-> | Hne].
      * rewrite decide_False by done. rewrite decide_True by left.
        by rewrite lookup_delete_eq, Hdd.
      * rewrite lookup_delete_ne by done.
        destruct (decide (x ∈ cs)).
        -- by rewrite decide_True by (by right).
        -- rewrite decide_False; [done |]. by intros [? | ?]%elem_of_cons.
  - destruct (IH (<[c := dd - 1]> m) zn) as (m' & Hrun & Hlook).
    { intros c' Hc'. rewrite lookup_insert_ne; [apply Hm; by right |].
      by intros ->. }
    exists m'. split.
    + simpl. rewrite Hrun. f_equal. f_equal. f_equal.
      rewrite filter_cons_False by (rewrite Hdd; intros [= ->]; lia).
      apply filter_ext_in. intros x Hx.
      rewrite lookup_insert_ne; [done | by intros ->].
    + intros x. rewrite Hlook.
      destruct (decide (x = c)) as [-> | Hne].
      * rewrite decide_False by done. rewrite decide_True by left.
        rewrite lookup_insert_eq, Hdd. simpl.
        by destruct (Z.eqb_spec (dd - 1) 0).
      * rewrite lookup_insert_ne by done.
        destruct (decide (x ∈ cs)).
        -- by rewrite decide_True by (by right).
        -- rewrite decide_False; [done |]. by intros [? | ?]%elem_of_cons.
Qed.

Lemma kahn_step G P u rest zn m :
  wf_graph G →
  kahn_inv G P (u :: rest ++ zn) m →
  ∃ m' zn',
    relax_all (successors G u) (m, zn) = Some (m', zn')
    ∧ kahn_inv G (P ++ [u]) (rest ++ zn') m'.
Proof.
  intros HG (HN & HS & HR & HW & HO & HT).
  set (X := P ++ u :: rest ++ zn) in *.
  set (cs := successors G u).
  assert (HuX : u ∈ X).
  { apply elem_of_app. right. left. }
  assert (F1 : u ∉ P).
  { apply NoDup_app in HN as (_ & Hdisj & _). intros Hu.
    apply (Hdisj u Hu). left. }
  assert (F2 : ∀ c, c ∈ cs → c ∉ X).
  { intros c Hc%successors_spec HcX. apply F1.
    by apply (proj2 (HR c HcX) u). }
  assert (F3 : ∀ c, c ∈ cs →
            m !! c = Some (remaining G P c) ∧ 0 < remaining G P c).
  { intros c Hc. apply HW; [| by apply F2].
    apply successors_spec in Hc. by apply (proj2 (proj2 HG) u c). }
  destruct (relax_all_spec cs (NoDup_successors G u HG) m zn)
    as (m' & Hrun & Hlook).
  { intros c Hc. destruct (F3 c Hc) as [-> _]. by eexists. }
  set (released := filter (λ c, m !! c = Some 1) cs) in *.
  exists m', (zn ++ released). split; [exact Hrun |].
  assert (Heq : (P ++ [u]) ++ rest ++ zn ++ released = X ++ released).
  { unfold X. rewrite <- !app_assoc. simpl. by rewrite <- !app_assoc. }
  assert (Hrel : ∀ v, v ∈ released → v ∈ cs ∧ remaining G P v = 1).
  { intros v [Hone Hv]%list_elem_of_filter. split; [done |].
    destruct (F3 v Hv) as [Hm _]. congruence. }
  assert (Hedge : ∀ v, v ∈ cs ↔ edge G u v).
  { intros v. apply successors_spec. }
  unfold kahn_inv. rewrite Heq. repeat split.
  - apply NoDup_app. repeat split; [done | |].
    + intros x Hx Hr. destruct (Hrel x Hr) as [Hc _]. by apply (F2 x).
    + by apply NoDup_filter, NoDup_successors.
  - intros v [Hv | Hv]%elem_of_app; [by apply HS |].
    destruct (Hrel v Hv) as [Hc%Hedge _]. by apply (proj2 (proj2 HG) u v).
  - apply elem_of_app in H as [Hv | Hv].
    + rewrite Hlook, decide_False; [by apply HR |].
      intros Hc. by apply (F2 v).
    + destruct (Hrel v Hv) as [Hc Hone].
      rewrite Hlook, decide_True by done.
      destruct (F3 v Hc) as [-> _]. rewrite Hone. done.
  - intros p Hp. apply elem_of_app in H as [Hv | Hv].
    + apply elem_of_app. left. by apply (proj2 (HR v Hv)).
    + destruct (Hrel v Hv) as [Hc Hone].
      apply (proj1 (remaining_zero G (P ++ [u]) v)); [| done].
      rewrite remaining_snoc by done.
      rewrite decide_True by (by apply Hedge). lia.
  - assert (HvX : v ∉ X) by (intros ?; apply H0, elem_of_app; by left).
    assert (Hvr : v ∉ released) by (intros ?; apply H0, elem_of_app; by right).
    destruct (HW v H HvX) as [Hm Hpos].
    rewrite Hlook, remaining_snoc by done.
    destruct (decide (v ∈ cs)) as [Hc | Hc].
    + rewrite decide_True by (by apply Hedge). rewrite Hm. simpl.
      assert (remaining G P v ≠ 1).
      { intros Hone. apply Hvr. apply list_elem_of_filter.
        split; [| done]. by rewrite Hm, Hone. }
      destruct (Z.eqb_spec (remaining G P v - 1) 0); [lia | done].
    + rewrite decide_False by (by rewrite <- Hedge). rewrite Hm.
      f_equal. lia.
  - assert (HvX : v ∉ X) by (intros ?; apply H0, elem_of_app; by left).
    destruct (HW v H HvX) as [Hm Hpos].
    rewrite remaining_snoc by done.
    destruct (decide (edge G u v)) as [He | He]; [| lia].
    assert (Hvr : v ∉ released) by (intros ?; apply H0, elem_of_app; by right).
    assert (remaining G P v ≠ 1); [| lia].
    intros Hone. apply Hvr. apply list_elem_of_filter.
    split; [by rewrite Hm, Hone | by apply Hedge].
  - intros v Hv. rewrite Hlook, decide_False; [by apply HO |].
    intros Hc%Hedge. apply Hv. by apply (proj2 (proj2 HG) u v).
  - apply topo_snoc; [done |]. intros p Hp. by apply (proj2 (HR u HuX)).
Qed.

(** *** A whole generation, and the first one *)

Lemma process_generation_spec G :
  wf_graph G →
  ∀ gen P zn m,
    kahn_inv G P (gen ++ zn) m →
    ∃ m' zn',
      process_generation G gen (m, zn) = Some (m', zn')
      ∧ kahn_inv G (P ++ gen) zn' m'.
Proof.
  intros HG gen. induction gen as [|u rest IH]; intros P zn m Hinv.
  { exists m, zn. split; [done |]. by rewrite app_nil_r. }
  simpl.
  assert (Hu : u ∈ nodes G).
  { destruct Hinv as (_ & HS & _). apply HS, elem_of_app. right. left. }
  rewrite bool_decide_eq_true_2 by done.
  destruct (kahn_step G P u rest zn m HG Hinv) as (m1 & zn1 & Hrun & Hinv1).
  rewrite Hrun. simpl.
  destruct (IH (P ++ [u]) zn1 m1 Hinv1) as (m' & zn' & Hrun' & Hinv').
  exists m', zn'. split; [done |]. by rewrite <- app_assoc in Hinv'.
Qed.

Lemma fst_tagged {A B} (f : A → B) (l : list A) :
  ((λ v, (v, f v)) <$> l).*1 = l.
Proof. induction l as [|x l IH]; simpl; [done | by f_equal]. Qed.

Lemma initial_indegree_lookup G v :
  wf_graph G →
  initial_indegree_map G !! v
  = if decide (v ∈ nodes G ∧ 0 < in_degree G v)
    then Some (in_degree G v) else None.
Proof.
  intros (Hn & _). unfold initial_indegree_map.
  set (l := filter (λ v, 0 < in_degree G v) (nodes G)).
  assert (Hl : NoDup l) by by apply NoDup_filter.
  assert (Hkeys : NoDup ((λ v, (v, in_degree G v)) <$> l).*1).
  { by rewrite fst_tagged. }
  destruct (decide (v ∈ nodes G ∧ 0 < in_degree G v)) as [[Hv Hd] | Hno].
  - apply elem_of_list_to_map; [done |].
    apply list_elem_of_fmap. exists v. split; [done |].
    by apply list_elem_of_filter.
  - apply not_elem_of_list_to_map. rewrite fst_tagged.
    intros [Hd Hx]%list_elem_of_filter. by apply Hno.
Qed.

Lemma kahn_inv_initial G :
  wf_graph G →
  kahn_inv G [] (initial_zero_indegree G) (initial_indegree_map G).
Proof.
  intros HG. unfold kahn_inv, initial_zero_indegree. simpl.
  repeat split.
  - apply NoDup_filter, HG.
  - by intros v [_ Hv]%list_elem_of_filter.
  - apply list_elem_of_filter in H as [Hd Hv].
    rewrite initial_indegree_lookup by done.
    rewrite decide_False; [done | intros [_ ?]; lia].
  - intros u Hu. apply list_elem_of_filter in H as [Hd Hv].
    rewrite <- remaining_nil in Hd.
    by apply (proj1 (remaining_zero G [] v) Hd u).
  - rewrite initial_indegree_lookup, remaining_nil by done.
    assert (0 < in_degree G v).
    { pose proof (remaining_nonneg G [] v) as Hnn.
      rewrite remaining_nil in Hnn.
      destruct (decide (in_degree G v = 0)) as [Hz | Hz]; [| lia].
      exfalso. apply H0. by apply list_elem_of_filter. }
    by rewrite decide_True by done.
  - rewrite remaining_nil.
    pose proof (remaining_nonneg G [] v) as Hnn.
    rewrite remaining_nil in Hnn.
    destruct (decide (in_degree G v = 0)) as [Hz | Hz]; [| lia].
    exfalso. apply H0. by apply list_elem_of_filter.
  - intros v Hv. rewrite initial_indegree_lookup by done.
    rewrite decide_False; [done | by intros [? _]].
  - constructor.
Qed.

(** *** Cycles *)

Lemma tc_first_step G u v :
  tc (edge G) u v ↔ ∃ x, edge G u x ∧ rtc (edge G) x v.
Proof.
  split.
  - induction 1 as [x y Hxy | x y z Hxy Hyz _].
    + exists y. split; [done | constructor].
    + exists y. split; [done | by apply tc_rtc].
  - intros (x & Hux & Hxv). eapply tc_rtc_r; [by apply tc_once | done].
Qed.

Lemma tc_last_step G u v :
  tc (edge G) u v → ∃ x, rtc (edge G) u x ∧ edge G x v.
Proof.
  induction 1 as [x y Hxy | x y z Hxy _ (x' & Hyx' & Hx'z)].
  - exists x. split; [constructor | done].
  - exists x'. split; [by eapply rtc_l | done].
Qed.

Lemma elem_of_ancestors G u v :
  wf_graph G → u ∈ ancestors G v ↔ u ∈ nodes G ∧ tc (edge G) u v.
Proof.
  intros HG. unfold ancestors.
  rewrite elem_of_list_to_set, list_elem_of_filter, Exists_exists,
    tc_first_step.
  split.
  - intros [(x & Hx & Hreach) Hu]. split; [done |].
    apply successors_spec in Hx. exists x. split; [done |].
    apply reach_spec in Hreach; [done | done |].
    by apply (proj2 (proj2 HG) u x).
  - intros [Hu (x & Hux & Hxv)]. split; [| done].
    exists x. split; [by apply successors_spec |].
    apply reach_spec; [done | | done]. by apply (proj2 (proj2 HG) u x).
Qed.

(** A set of nodes each of which has a predecessor in the set holds a
    cycle. *)
Lemma stuck_has_cycle G (P : list Z) :
  wf_graph G →
  (∃ v, v ∈ nodes G ∧ v ∉ P) →
  (∀ v, v ∈ nodes G → v ∉ P → ∃ u, edge G u v ∧ u ∉ P) →
  ¬ acyclic G.
Proof.
  intros HG (v0 & Hv0 & Hv0P) Hstuck Hacyclic.
  assert (Hall : ∀ (n : nat) v,
            (size (ancestors G v) < n)%nat → v ∈ nodes G → v ∈ P).
  { induction n as [|n IH]; intros v Hsize Hv; [lia |].
    destruct (decide (v ∈ P)) as [? | HvP]; [done |]. exfalso.
    destruct (Hstuck v Hv HvP) as (u & Huv & HuP).
    assert (Hu : u ∈ nodes G) by by apply (proj2 (proj2 HG) u v).
    apply HuP, IH; [| done].
    assert (ancestors G u ⊂ ancestors G v) as Hsub.
    { split.
      - intros x [Hx Hxu]%elem_of_ancestors; [| done].
        apply elem_of_ancestors; [done |]. split; [done |].
        eapply tc_rtc_r; [exact Hxu | by apply rtc_once].
      - intros Hback. apply (Hacyclic u).
        assert (u ∈ ancestors G u) as Huu.
        { apply Hback, elem_of_ancestors; [done |].
          split; [done | by apply tc_once]. }
        by apply elem_of_ancestors in Huu as [_ ?]. }
    pose proof (subset_size _ _ Hsub). lia. }
  apply Hv0P. by apply (Hall (S (size (ancestors G v0))) v0); [lia |].
Qed.

Lemma topo_list_closed G l :
  topo_list G l → ∀ x, x ∈ l → ∀ u, edge G u x → u ∈ l.
Proof.
  induction 1 as [|l v _ IH Hv]; intros x Hx u Hux.
  - by apply elem_of_nil in Hx.
  - apply elem_of_app. left.
    apply elem_of_app in Hx as [Hx | ->%list_elem_of_singleton];
      [by apply (IH x) | by apply Hv].
Qed.

Lemma topo_list_ancestors G l :
  topo_list G l → ∀ u x, tc (edge G) u x → x ∈ l → u ∈ l.
Proof.
  intros Hl u x Htc. induction Htc as [u x Hux | u y x Huy _ IH];
    intros Hx.
  - by apply (topo_list_closed G l Hl x).
  - apply (topo_list_closed G l Hl y); [by apply IH | done].
Qed.

Lemma topo_list_no_cycle G l :
  topo_list G l → NoDup l → ∀ x, x ∈ l → ¬ tc (edge G) x x.
Proof.
  induction 1 as [|l v Hl IH Hv]; intros Hnd x Hx Hcycle.
  - by apply elem_of_nil in Hx.
  - apply NoDup_app in Hnd as (Hnd & Hdisj & _).
    assert (Hvl : v ∉ l).
    { intros Hin. apply (Hdisj v Hin). left. }
    apply elem_of_app in Hx as [Hx | ->%list_elem_of_singleton].
    + by apply (IH Hnd x).
    + destruct (tc_last_step G v v Hcycle) as (u & Hvu & Huv).
      pose proof (Hv u Huv) as Hu.
      apply rtc_tc in Hvu as [-> | Hvu]; [done |].
      apply Hvl. by apply (topo_list_ancestors G l Hl v u).
Qed.

Lemma topological_acyclic G order :
  wf_graph G → topological G order → acyclic G.
Proof.
  intros HG (Hnd & Hall & Hl) v Hcycle.
  apply (topo_list_no_cycle G order Hl Hnd v); [| done].
  apply Hall. apply tc_first_step in Hcycle as (x & Hvx & _).
  by apply (proj2 (proj2 HG) v x).
Qed.

(** *** The sort *)

Lemma NoDup_length_le (l k : list Z) :
  NoDup l → (∀ x, x ∈ l → x ∈ k) → (length l ≤ length k)%nat.
Proof. intros Hl Hsub. by apply submseteq_length, NoDup_submseteq. Qed.

Lemma generations_spec G :
  wf_graph G →
  ∀ fuel m zero yielded,
    kahn_inv G yielded zero m →
    (length (nodes G) < fuel + length yielded)%nat →
    match generations fuel G m zero yielded with
    | TopoOk order => topological G order
    | NetworkXUnfeasible => ¬ acyclic G
    | _ => False
    end.
Proof.
  intros HG fuel.
  assert (Hdone : ∀ m yielded,
            kahn_inv G yielded [] m →
            match (if bool_decide (m = ∅) then TopoOk yielded
                   else NetworkXUnfeasible) with
            | TopoOk order => topological G order
            | NetworkXUnfeasible => ¬ acyclic G
            | _ => False
            end).
  { intros m yielded (HN & HS & HR & HW & HO & HT).
    rewrite app_nil_r in *.
    destruct (decide (m = ∅)) as [-> | Hne].
    - rewrite bool_decide_eq_true_2 by done. repeat split; [done | | | done].
      + apply HS.
      + intros Hv. destruct (decide (v ∈ yielded)) as [? | Hout]; [done |].
        destruct (HW v Hv Hout) as [Hm _]. by rewrite lookup_empty in Hm.
    - rewrite bool_decide_eq_false_2 by done.
      destruct (map_choose m Hne) as (v & x & Hvx).
      apply (stuck_has_cycle G yielded HG).
      + exists v. split.
        * destruct (decide (v ∈ nodes G)) as [? | Hout]; [done |].
          rewrite (HO v Hout) in Hvx. done.
        * intros Hin. destruct (HR v Hin) as [Hm _]. congruence.
      + intros u Hu Hout. apply remaining_positive. by apply HW. }
  induction fuel as [|fuel IH]; intros m zero yielded Hinv Hfuel.
  - destruct zero as [|z zs]; [by apply Hdone |]. simpl.
    destruct Hinv as (HN & HS & _).
    pose proof (NoDup_length_le _ _ HN HS) as Hle.
    rewrite length_app in Hle. simpl in Hle. lia.
  - destruct zero as [|z zs]; [by apply Hdone |].
    change (generations (S fuel) G m (z :: zs) yielded) with
      (match process_generation G (z :: zs) (m, []) with
       | None => RuntimeError
       | Some (m', zero') =>
           generations fuel G m' zero' (yielded ++ z :: zs)
       end).
    destruct (process_generation_spec G HG (z :: zs) yielded [] m)
      as (m' & zero' & -> & Hinv').
    { by rewrite app_nil_r. }
    apply IH; [done |]. rewrite length_app. simpl. lia.
Qed.

Lemma topological_sort_spec G :
  wf_graph G →
  match topological_sort G with
  | TopoOk order => topological G order
  | NetworkXUnfeasible => ¬ acyclic G
  | _ => False
  end.
Proof.
  intros HG. apply generations_spec; [done | | simpl; lia].
  by apply kahn_inv_initial.
Qed.

(** On the graphs [add_node] and [add_edge] build, the sort returns an
    order exactly when there is no cycle. *)
Lemma topological_sort_acyclic G :
  wf_graph G →
  acyclic G ↔ ∃ order, topological_sort G = TopoOk order.
Proof.
  intros HG. pose proof (topological_sort_spec G HG) as Hspec. split.
  - intros Hacyclic. destruct (topological_sort G); [by eexists | done..].
  - intros [order Horder]. rewrite Horder in Hspec.
    by eapply topological_acyclic.
Qed.

End toposort_facts.

(** * The architecture analyzer: levelization *)

Section levelization.
Import Props Fixtures Nx ArchitectureAnalyzer.

Lemma foldl_max_ge_init xs : ∀ x, x ≤ foldl Z.max x xs.
Proof.
  induction xs as [|z xs IH]; intros x; simpl; [lia |].
  etrans; [| apply IH]. lia.
Qed.

Lemma max_of_ge x xs : ∀ y, y ∈ x :: xs → y ≤ max_of x xs.
Proof.
  unfold max_of. revert x. induction xs as [|z xs IH]; intros x y Hy; simpl.
  - apply list_elem_of_singleton in Hy. lia.
  - apply elem_of_cons in Hy as [Hy | Hy].
    + subst y. etrans; [| apply foldl_max_ge_init]. lia.
    + apply elem_of_cons in Hy as [Hy | Hy].
      * subst y. etrans; [| apply foldl_max_ge_init]. lia.
      * apply IH. by right.
Qed.

Lemma max_of_in x xs : max_of x xs ∈ x :: xs.
Proof.
  unfold max_of. revert x. induction xs as [|z xs IH]; intros x; simpl.
  - left.
  - specialize (IH (Z.max x z)).
    apply elem_of_cons in IH as [-> | IH].
    + destruct (Z.max_spec x z) as [[_ ->] | [_ ->]]; [right; left | left].
    + right. by right.
Qed.

Lemma layer_from_ext G (L L' : gmap Z Z) n :
  (∀ p, p ∈ predecessors G n → L !! p = L' !! p) →
  layer_from G L n = layer_from G L' n.
Proof.
  unfold layer_from. intros Hagree.
  destruct (predecessors G n) as [|p ps]; [done |].
  rewrite (Hagree p) by left. f_equal. f_equal.
  apply list_fmap_ext. intros i q Hq. rewrite Hagree; [done |].
  right. by eapply list_elem_of_lookup_2.
Qed.

Lemma layer_from_rule G (L : gmap Z Z) n :
  (∀ p, p ∈ predecessors G n → is_Some (L !! p)) →
  layer_rule G L n (layer_from G L n).
Proof.
  unfold layer_rule, layer_from. intros Hsome.
  destruct (predecessors G n) as [|p ps] eqn:Hpreds; [by left |].
  right. split; [done |].
  set (get := λ q, default 0 (L !! q)).
  change (default 0 (L !! p)) with (get p).
  assert (Hget : ∀ q, q ∈ p :: ps → L !! q = Some (get q)).
  { intros q Hq. unfold get. by destruct (Hsome q Hq) as [x ->]. }
  split.
  - intros q Hq. exists (get q). split; [by apply Hget |].
    assert (get q ≤ max_of (get p) (get <$> ps)); [| lia].
    apply max_of_ge. change (get q ∈ get <$> p :: ps).
    by apply list_elem_of_fmap_2.
  - pose proof (max_of_in (get p) (get <$> ps)) as Hin.
    change (max_of (get p) (get <$> ps) ∈ get <$> p :: ps) in Hin.
    apply list_elem_of_fmap in Hin as (q & Hmax & Hq).
    exists q. split; [done |]. rewrite Hget by done. f_equal. lia.
Qed.

Lemma levelize_snoc G l x :
  levelize_acyclic G (l ++ [x])
  = <[x := layer_from G (levelize_acyclic G l) x]> (levelize_acyclic G l).
Proof. unfold levelize_acyclic. by rewrite foldl_snoc. Qed.

Lemma levelize_dom G l n :
  is_Some (levelize_acyclic G l !! n) ↔ n ∈ l.
Proof.
  induction l as [|x l IH] using rev_ind.
  - unfold levelize_acyclic. simpl. rewrite lookup_empty.
    split; [by intros [] | by intros ?%elem_of_nil].
  - rewrite levelize_snoc, elem_of_app, list_elem_of_singleton.
    destruct (decide (n = x)) as [-> | Hne].
    + rewrite lookup_insert_eq. split; [by right | by eexists].
    + rewrite lookup_insert_ne by done. rewrite IH.
      split; [by left | by intros [? | ?]].
Qed.

Lemma levelize_spec G l :
  topo_list G l → NoDup l →
  ∀ n, n ∈ l →
    levelize_acyclic G l !! n
    = Some (layer_from G (levelize_acyclic G l) n).
Proof.
  induction 1 as [|l x Hl IH Hx]; intros Hnd n Hn.
  - by apply elem_of_nil in Hn.
  - apply NoDup_app in Hnd as (Hnd & Hdisj & _).
    assert (Hxl : x ∉ l).
    { intros Hin. apply (Hdisj x Hin). left. }
    rewrite levelize_snoc.
    assert (Hsame : ∀ m, m ∈ l ∨ m = x →
              layer_from G (<[x := layer_from G (levelize_acyclic G l) x]>
                              (levelize_acyclic G l)) m
              = layer_from G (levelize_acyclic G l) m).
    { intros m Hm. apply layer_from_ext. intros p Hp%predecessors_spec.
      rewrite lookup_insert_ne; [done |]. intros ->. apply Hxl.
      destruct Hm as [Hm | ->]; [| by apply Hx].
      by apply (topo_list_closed G l Hl m). }
    apply elem_of_app in Hn as [Hn | ->%list_elem_of_singleton].
    + rewrite lookup_insert_ne by (by intros ->).
      rewrite Hsame by (by left). by apply IH.
    + rewrite lookup_insert_eq. by rewrite Hsame by (by right).
Qed.

(** The layers of an acyclic graph, whatever order the sort returns. *)
Lemma levelize_topological G order :
  topological G order →
  ∀ n,
    (n ∉ nodes G → levelize_acyclic G order !! n = None)
    ∧ (n ∈ nodes G →
       ∃ l, levelize_acyclic G order !! n = Some l
            ∧ layer_rule G (levelize_acyclic G order) n l).
Proof.
  intros (Hnd & Hall & Hl) n. split.
  - intros Hn. apply eq_None_not_Some. rewrite levelize_dom, Hall. done.
  - intros Hn%Hall. eexists. split; [by apply levelize_spec |].
    apply layer_from_rule. intros p Hp%predecessors_spec.
    apply levelize_dom. by apply (topo_list_closed G order Hl n).
Qed.

Lemma compute_levelization_acyclic w d pid :
  acyclic (build_include_graph w d pid) →
  ∃ order,
    topological (build_include_graph w d pid) order
    ∧ compute_levelization w d pid
      = levelize_acyclic (build_include_graph w d pid) order.
Proof.
  intros Hacyclic.
  pose proof (wf_build_include_graph w d pid) as HG.
  pose proof (topological_sort_spec _ HG) as Hspec.
  unfold compute_levelization, is_directed_acyclic_graph.
  destruct (topological_sort (build_include_graph w d pid)) as [order| | |];
    [| done..].
  by exists order.
Qed.

(** *** The edges of the include graph *)

Lemma edges_add_edge u v G a b :
  (a, b) ∈ edges (add_edge u v G) ↔ (a, b) ∈ edges G ∨ (a, b) = (u, v).
Proof.
  unfold add_edge.
  assert (HG' : edges (add_node v (add_node u G)) = edges G)
    by (by rewrite !edges_add_node).
  set (G' := add_node v (add_node u G)) in *.
  destruct (decide ((u, v) ∈ edges G')) as [Hin | Hout].
  - rewrite bool_decide_eq_true_2 by done. rewrite HG' in *.
    split; [by left | by intros [? | ->]].
  - rewrite bool_decide_eq_false_2 by done. simpl.
    by rewrite HG', elem_of_app, list_elem_of_singleton.
Qed.

Lemma edges_add_nodes (l : list FileRecord.t) G :
  edges (foldl (λ G f, add_node (FileRecord.id f) G) G l) = edges G.
Proof.
  revert G. induction l as [|f l IH]; intros G; [done |].
  simpl. by rewrite IH, edges_add_node.
Qed.

Lemma edges_add_includes (l : list Include.t) G a b :
  (a, b) ∈ edges (foldl (λ G inc,
      match Include.source_file_id inc, Include.target_file_id inc with
      | Some src, Some tgt =>
          if truthy_int (Some tgt) then add_edge src tgt G else G
      | _, _ => G
      end) G l)
  ↔ (a, b) ∈ edges G
    ∨ ∃ inc, inc ∈ l ∧ Include.source_file_id inc = Some a
             ∧ Include.target_file_id inc = Some b ∧ b ≠ 0.
Proof.
  revert G. induction l as [|inc l IH]; intros G.
  { simpl. split; [by left |]. intros [? | (inc & Hin%elem_of_nil & _)]; done. }
  simpl. rewrite IH. clear IH.
  assert (Hstep : (a, b) ∈ edges
            (match Include.source_file_id inc, Include.target_file_id inc with
             | Some src, Some tgt =>
                 if truthy_int (Some tgt) then add_edge src tgt G else G
             | _, _ => G
             end)
          ↔ (a, b) ∈ edges G
            ∨ (Include.source_file_id inc = Some a
               ∧ Include.target_file_id inc = Some b ∧ b ≠ 0)).
  { destruct (Include.source_file_id inc) as [src|];
      [| split; [by left | by intros [? | [? _]]]].
    destruct (Include.target_file_id inc) as [tgt|];
      [| split; [by left | by intros [? | (_ & ? & _)]]].
    simpl. destruct (Z.eqb_spec tgt 0) as [-> | Hne]; simpl.
    - split; [by left |]. intros [? | (_ & [= <-] & ?)]; done.
    - rewrite edges_add_edge. split.
      + intros [? | [= -> ->]]; [by left | by right].
      + intros [? | ([= ->] & [= ->] & _)]; [by left | by right]. }
  rewrite Hstep. split.
  - intros [[? | (? & ? & ?)] | (inc' & Hin & ?)].
    + by left.
    + right. exists inc. split; [left | done].
    + right. exists inc'. split; [by right | done].
  - intros [? | (inc' & [-> | Hin]%elem_of_cons & ?)].
    + by left; left.
    + by left; right.
    + right. by exists inc'.
Qed.

Lemma edge_build_include_graph w d pid u v :
  edge (build_include_graph w d pid) u v
  ↔ ∃ inc, inc ∈ project_includes w d pid
           ∧ Include.source_file_id inc = Some u
           ∧ Include.target_file_id inc = Some v ∧ v ≠ 0.
Proof.
  unfold edge, build_include_graph.
  rewrite edges_add_includes, edges_add_nodes. simpl.
  split; [by intros [?%elem_of_nil | ?] | by right].
Qed.

(** C1, as the code has it.  On the chain in which [b.h] includes [a.h]
    and [c.h] includes [b.h], the file that nobody includes, [c.h], gets
    layer 0, [b.h] layer 1 and [a.h] layer 2.  In general the edges of the
    graph lead from the includer to the included file, the predecessors of
    a file are the files that include it, and on every acyclic graph each
    node has a layer: 0 when it has no predecessor, otherwise one more than
    the largest layer of its predecessors. *)
Theorem layers_count_up_from_the_includers :
  (let L := compute_levelization world_a chain_db 1 in
   acyclic (build_include_graph world_a chain_db 1)
   ∧ build_include_graph world_a chain_db 1
     = mkDiGraph [1; 2; 3] [(2, 1); (3, 2)]
   ∧ L !! 3 = Some 0 ∧ L !! 2 = Some 1 ∧ L !! 1 = Some 2)
  ∧ (∀ w d pid,
       let G := build_include_graph w d pid in
       let L := compute_levelization w d pid in
       (∀ u v, edge G u v
               ↔ ∃ inc, inc ∈ project_includes w d pid
                        ∧ Include.source_file_id inc = Some u
                        ∧ Include.target_file_id inc = Some v ∧ v ≠ 0)
       ∧ (∀ u v, u ∈ predecessors G v ↔ edge G u v)
       ∧ (acyclic G →
          ∀ n, (n ∉ nodes G → L !! n = None)
               ∧ (n ∈ nodes G → ∃ l, L !! n = Some l ∧ layer_rule G L n l))).
Proof.
  split.
  - split; [| by vm_compute].
    apply topological_sort_acyclic; [apply wf_build_include_graph |].
    eexists. vm_compute. reflexivity.
  - intros w d pid G L. split; [apply edge_build_include_graph |].
    split; [intros u v; apply predecessors_spec |].
    intros Hacyclic.
    destruct (compute_levelization_acyclic w d pid Hacyclic)
      as (order & Horder & HL).
    subst L. rewrite HL. by apply levelize_topological.
Qed.

(** C1's example as stated fails: [a.h], which includes nothing but is
    included by [b.h], is not in layer 0 but in layer 2. *)
Lemma chain_layers_are_not_bottom_up : ¬ chain_layers_as_stated.
Proof.
  unfold chain_layers_as_stated. intros [H1 _].
  vm_compute in H1. discriminate.
Qed.

End levelization.

(** * The indexing engine: what every write keeps *)

Section table_invariant.
Import Clang IndexerImpl Props EngineProps.
Context (w : World) (P : Database → Prop) (h0 : list Database) (pid : Z).

(** The writes of the engine, one hypothesis for each. *)
Hypothesis file_insert : ∀ d path mtime fpid,
  P d →
  List.find (λ f, bool_decide (FileRecord.path f = path)) (files d) = None →
  P (with_files (λ l, l ++ [FileRecord.mk (next_id (FileRecord.id <$> files d))
                                          path mtime fpid None]) d).
Hypothesis symbol_insert : ∀ s cursor k c,
  P (working (db s)) →
  get_usr cursor ≠ [] →
  List.find (λ x, bool_decide (Symbol.usr x = get_usr cursor))
            (symbols (working (db s))) = None →
  kind cursor = Some k →
  complexity_of cursor k = Some c →
  P (with_symbols (λ l, l ++ [new_symbol w cursor k c s]) (working (db s))).
Hypothesis symbols_deleted : ∀ d fid,
  P d → P (with_symbols (filter (λ x, Symbol.file_id x ≠ Some fid)) d).
Hypothesis includes_deleted : ∀ d fid,
  P d → P (with_includes (filter (λ i, Include.source_file_id i ≠ Some fid)) d).
Hypothesis include_insert : ∀ d fid tp tfid ln,
  P d →
  P (with_includes (λ l, l ++ [Include.mk (next_id (Include.id <$> l))
                                          fid tp tfid ln]) d).
Hypothesis reference_insert : ∀ d src tgt rk fid ln col,
  P d → truthy_int src = true → rk ∈ [CALL; READ; WRITE] →
  P (with_references (λ l, l ++ [Reference.mk (next_id (Reference.id <$> l))
                                              src tgt rk fid ln col]) d).
Hypothesis project_update : ∀ d f,
  scan_update f → P d →
  P (with_projects (fmap (λ p, if bool_decide (Project.id p = pid)
                               then f p else p)) d).

#[local] Abbreviation I := (in_session P h0).

Lemma in_session_on_working f s :
  I s → P (f (working (db s))) → I ((on_working f s).2).
Proof. intros (Hw & Hc & Hh) Hf. by repeat split. Qed.

Lemma in_session_commit : preserves I commit.
Proof.
  intros s (Hw & Hc & mid & Hh & Hmid). repeat split; simpl; [done.. |].
  exists (mid ++ [working (db s)]). rewrite Hh, (assoc_L (++)).
  split; [done |]. apply Forall_app. split; [done | by constructor].
Qed.

Lemma in_session_rollback : preserves I rollback.
Proof. intros s (Hw & Hc & Hh). by repeat split. Qed.

Lemma in_session_set_current_file a b : preserves I (set_current_file a b).
Proof. intros s Hs. exact Hs. Qed.

Lemma in_session_symbol_step c : preserves I (get_or_create_symbol w c).
Proof.
  intros s Hs. destruct c as [cursor|]; [| exact Hs].
  rewrite get_or_create_symbol_eq.
  destruct (truthy_str _) eqn:Husr; [| exact Hs].
  destruct (List.find _ _) eqn:Hfind; [exact Hs |].
  destruct (kind cursor) as [k|] eqn:Hk; [| exact Hs].
  destruct (complexity_of cursor k) as [c|] eqn:Hc; [| exact Hs].
  simpl.
  change (after_insert (new_symbol w cursor k c s) s) with
    (commit (on_working
       (with_symbols (λ l, l ++ [new_symbol w cursor k c s])) s).2).2.
  apply in_session_commit, in_session_on_working; [done |].
  apply symbol_insert; try done; [apply Hs | by apply truthy_str_nonempty].
Qed.

Lemma in_session_record_reference node k p wr :
  preserves I (record_reference w node k p wr).
Proof.
  unfold record_reference.
  destruct (truthy_int p) eqn:Hp; [| apply preserves_ret].
  set (rk := if bool_decide (k = CALL_EXPR) then _ else _).
  assert (Hrk : ∀ r, rk = Some r → r ∈ [CALL; READ; WRITE]).
  { subst rk. intros r.
    destruct (bool_decide (k = CALL_EXPR)); [intros [= <-]; set_solver |].
    destruct (bool_decide _); [| done].
    destruct wr; intros [= <-]; set_solver. }
  destruct rk as [r|]; [| apply preserves_ret].
  destruct (target_of node) as [tc|]; [| apply preserves_ret].
  apply preserves_bind; [apply in_session_symbol_step | intros [ts|]];
    [| apply preserves_ret].
  apply preserves_bind; [apply preserves_get_self | intros self].
  intros s Hs. apply in_session_on_working; [done |].
  apply reference_insert; [apply Hs | done | by apply Hrk].
Qed.

Lemma in_session_visit_node node :
  ∀ p wr, preserves I (visit_node w node p wr).
Proof.
  induction node as [node IH] using Cursor_children_ind.
  destruct node as [k sp dn u loc ext sc isd toks cs d r]; simpl in IH.
  intros p wr. simpl.
  apply preserves_bind; [apply preserves_or_raise | intros k'].
  apply preserves_bind; [| intros cur].
  { apply enter_definition_preserves, in_session_symbol_step. }
  apply preserves_bind; [apply in_session_record_reference | intros _].
  apply preserves_if.
  - destruct cs as [|lhs rhs]; [apply preserves_ret |].
    apply Forall_cons in IH as [Hl Hr].
    apply preserves_bind; [apply Hl | intros _].
    apply preserves_for_each. eapply Forall_impl; [exact Hr |].
    intros c Hc. apply Hc.
  - apply preserves_for_each. eapply Forall_impl; [exact IH |].
    intros c Hc. apply Hc.
Qed.

Lemma in_session_extract_includes tu : preserves I (extract_includes w tu).
Proof.
  unfold extract_includes. destruct (get_includes tu) as [incs|];
    [| apply preserves_ret].
  apply preserves_for_each, Forall_forall. intros inc _.
  apply preserves_bind; [apply preserves_get_self | intros self].
  apply preserves_if; [apply preserves_ret |].
  apply preserves_bind; [apply preserves_query | intros d].
  intros s Hs. apply in_session_on_working; [done |].
  apply include_insert, Hs.
Qed.

Lemma in_session_get_or_create_file path fpid :
  preserves I (get_or_create_file w path fpid).
Proof.
  intros s Hs. unfold get_or_create_file, bind at 1, query at 1.
  destruct (List.find _ _) eqn:Hfind; [exact Hs |].
  unfold bind at 1.
  destruct (getmtime w (abspath w path)) as [mtime|]; [| exact Hs].
  simpl.
  match goal with
  | |- in_session _ _ ?x =>
      change x with
        (commit (on_working (with_files (λ l, l ++
           [FileRecord.mk (next_id (FileRecord.id <$> files (working (db s))))
                          (abspath w path) mtime fpid None])) s).2).2
  end.
  apply in_session_commit, in_session_on_working; [done |].
  apply file_insert; [apply Hs | done].
Qed.

Lemma in_session_index_file path fpid comp :
  preserves I (index_file w path fpid comp).
Proof.
  unfold index_file.
  apply preserves_bind; [apply preserves_get_self | intros self].
  apply preserves_bind; [apply in_session_set_current_file | intros _].
  apply preserves_bind; [apply in_session_get_or_create_file | intros fr].
  apply preserves_bind; [apply in_session_set_current_file | intros _].
  apply preserves_bind; [| intros _].
  { intros s Hs. apply in_session_on_working; [done |].
    apply symbols_deleted, Hs. }
  apply preserves_bind; [| intros _].
  { intros s Hs. apply in_session_on_working; [done |].
    apply includes_deleted, Hs. }
  apply preserves_bind; [apply in_session_commit | intros _].
  apply preserves_try_except; [| apply in_session_rollback].
  apply preserves_bind; [apply preserves_or_raise | intros tu].
  apply preserves_bind; [apply in_session_extract_includes | intros _].
  apply preserves_bind; [apply in_session_visit_node | intros _].
  apply in_session_commit.
Qed.

Lemma in_session_update_project f :
  scan_update f → preserves I (update_project pid f).
Proof.
  intros Hf s Hs. apply in_session_on_working; [done |].
  apply project_update; [done | apply Hs].
Qed.

Lemma in_session_scan_loop hp comp total paths :
  ∀ idx, 0 ≤ idx → idx + len paths = total →
         preserves I (scan_loop w pid hp comp total idx paths).
Proof.
  induction paths as [|path paths IH]; intros idx Hidx Htotal;
    [apply preserves_ret |].
  simpl. apply preserves_bind.
  - apply preserves_try_except; [| apply preserves_ret].
    apply preserves_bind; [apply in_session_index_file | intros _].
    apply preserves_if; [| apply preserves_ret].
    apply preserves_bind; [| intros _; apply in_session_commit].
    apply in_session_update_project. constructor.
    unfold len in Htotal. simpl in Htotal. lia.
  - intros _. apply IH; [lia |].
    unfold len in *. simpl in Htotal. lia.
Qed.

Lemma in_session_scan_project root :
  preserves I (scan_project w pid root).
Proof.
  unfold scan_project.
  apply preserves_bind; [apply preserves_query | intros d].
  apply preserves_bind; [| intros _].
  { apply preserves_if; [| apply preserves_ret].
    apply preserves_bind; [| intros _; apply in_session_commit].
    apply in_session_update_project. constructor. }
  apply preserves_try_except.
  - apply preserves_bind; [apply preserves_or_raise | intros root'].
    apply preserves_bind; [| intros comp].
    { apply preserves_if; [| apply preserves_ret].
      apply preserves_try_except; [| apply preserves_ret].
      apply preserves_bind; [apply preserves_or_raise | intros c].
      apply preserves_bind; [| intros _; apply preserves_ret].
      apply preserves_if; [| apply preserves_ret].
      apply preserves_bind; [| intros _; apply in_session_commit].
      apply in_session_update_project. constructor. }
    apply preserves_bind; [| intros _].
    { apply in_session_scan_loop; [done | lia]. }
    apply preserves_if; [| apply preserves_ret].
    apply preserves_bind; [| intros _; apply in_session_commit].
    apply in_session_update_project. constructor.
  - apply preserves_if; [| apply preserves_ret].
    apply preserves_bind; [| intros _; apply in_session_commit].
    apply in_session_update_project. constructor.
Qed.

(** From a session in which [P] holds, a scan leaves one in which [P]
    holds, and [P] holds of every state it commits. *)
Lemma scan_project_keeps root s :
  h0 = history (db s) →
  P (working (db s)) → P (committed (db s)) →
  let s' := (scan_project w pid root s).2 in
  P (working (db s')) ∧ P (committed (db s'))
  ∧ Forall P (committed_during s s').
Proof.
  intros Hh0 Hw Hc s'.
  assert (Hs : I s).
  { repeat split; [done.. |]. exists []. by rewrite app_nil_r. }
  apply (in_session_scan_project root) in Hs.
  destruct Hs as (Hw' & Hc' & mid & Hh & Hmid). fold s' in Hw', Hc', Hh.
  repeat split; [done.. |].
  unfold committed_during. by rewrite Hh, Hh0, drop_app_length.
Qed.

Lemma index_file_keeps path fpid comp s :
  h0 = history (db s) →
  P (working (db s)) → P (committed (db s)) →
  let s' := (index_file w path fpid comp s).2 in
  P (working (db s')) ∧ P (committed (db s'))
  ∧ Forall P (committed_during s s').
Proof.
  intros Hh0 Hw Hc s'.
  assert (Hs : I s).
  { repeat split; [done.. |]. exists []. by rewrite app_nil_r. }
  apply (in_session_index_file path fpid comp) in Hs.
  destruct Hs as (Hw' & Hc' & mid & Hh & Hmid). fold s' in Hw', Hc', Hh.
  repeat split; [done.. |].
  unfold committed_during. by rewrite Hh, Hh0, drop_app_length.
Qed.

End table_invariant.

(** * The indexing engine: the rows it writes *)

Section engine_rows.
Import Clang IndexerImpl Props EngineProps Fixtures.

Lemma next_id_above (l : list Z) x : x ∈ l → x < next_id l.
Proof.
  unfold next_id. induction l as [|y l IH]; [by intros ?%elem_of_nil |].
  intros [-> | Hx]%elem_of_cons; simpl; [lia |].
  specialize (IH Hx). lia.
Qed.

Lemma next_id_fresh (l : list Z) : next_id l ∉ l.
Proof. intros H%next_id_above. lia. Qed.

Lemma NoDup_snoc {A} (l : list A) x : NoDup l → x ∉ l → NoDup (l ++ [x]).
Proof.
  intros Hl Hx. apply NoDup_app. repeat split; [done | | apply NoDup_singleton].
  by intros y Hy ->%list_elem_of_singleton.
Qed.

Lemma find_path_None path (l : list FileRecord.t) :
  List.find (λ f, bool_decide (FileRecord.path f = path)) l = None →
  path ∉ FileRecord.path <$> l.
Proof.
  intros Hfind (f & -> & Hf)%list_elem_of_fmap.
  apply list_elem_of_In in Hf.
  pose proof (find_none _ _ Hfind f Hf) as Hn. simpl in Hn.
  by apply bool_decide_eq_false in Hn.
Qed.

(** X3. Primary keys.  From a session whose tables have no two rows with
    the same id and no two files with the same path, a scan leaves such a
    session, and every state it commits is one: the ids the engine gives
    to new files, symbols, references and includes are fresh, and a file
    is registered once per path. *)
Theorem scan_keeps_keys_unique (w : World) (pid : Z) (root : option pystr)
    (s : Indexer) :
  keyed (working (db s)) → keyed (committed (db s)) →
  let s' := (scan_project w pid root s).2 in
  keyed (working (db s')) ∧ keyed (committed (db s'))
  ∧ Forall keyed (committed_during s s').
Proof.
  apply (scan_project_keeps w keyed (history (db s)) pid); [..| done].
  - intros d path mtime fpid (Hi & Hp & Hrest) Hfind.
    repeat split; simpl; [| | apply Hrest..].
    + rewrite fmap_app. apply NoDup_snoc; [done | apply next_id_fresh].
    + rewrite fmap_app. apply NoDup_snoc; [done | by apply find_path_None].
  - intros s0 cursor k c (Hi & Hp & Hs & Hrest) _ _ _ _.
    repeat split; simpl; [done | done | | apply Hrest..].
    rewrite fmap_app. apply NoDup_snoc; [done | apply next_id_fresh].
  - intros d fid (Hi & Hp & Hs & Hrest).
    repeat split; simpl; [done | done | | apply Hrest..].
    by apply NoDup_fmap_filter.
  - intros d fid (Hi & Hp & Hs & Hr & Hinc).
    repeat split; simpl; [done.. |]. by apply NoDup_fmap_filter.
  - intros d fid tp tfid ln (Hi & Hp & Hs & Hr & Hinc).
    repeat split; simpl; [done.. |].
    rewrite fmap_app. apply NoDup_snoc; [done | apply next_id_fresh].
  - intros d src tgt rk fid ln col (Hi & Hp & Hs & Hr & Hinc) _ _.
    repeat split; simpl; [done | done | done | | done].
    rewrite fmap_app. apply NoDup_snoc; [done | apply next_id_fresh].
  - intros d f _ Hd. exact Hd.
Qed.

(** *** Counting decision points *)

Lemma logical_tokens_nonneg toks : 0 ≤ logical_tokens toks.
Proof. destruct toks; unfold logical_tokens, len; lia. Qed.

Lemma decision_points_nonneg n : 0 ≤ decision_points n.
Proof.
  unfold decision_points. destruct (kind n) as [k|]; [| done].
  pose proof (logical_tokens_nonneg (tokens n)).
  destruct (bool_decide (k ∈ decision_kinds)), (bool_decide (k = _)); lia.
Qed.

Lemma sum_list_app l k : sum_list (l ++ k) = sum_list l + sum_list k.
Proof. unfold sum_list. induction l as [|x l IH]; simpl; lia. Qed.

Lemma sum_list_nonneg l : Forall (λ x, 0 ≤ x) l → 0 ≤ sum_list l.
Proof. unfold sum_list. induction 1; simpl; lia. Qed.

(** The counter returns the sum of the points of the cursors of the tree
    when every kind in it can be read, and raises otherwise. *)
Lemma count_decision_points_spec node :
  match count_decision_points node with
  | Some n =>
      Forall (λ c, is_Some (kind c)) (subtree node)
      ∧ n = sum_list (decision_points <$> subtree node)
  | None => Exists (λ c, kind c = None) (subtree node)
  end.
Proof.
  induction node as [node IH] using Cursor_children_ind.
  destruct node as [k sp dn u loc ext sc isd toks cs d r]; simpl in IH.
  simpl.
  set (over := fix over (cs : list Cursor) : option Z :=
                 match cs with
                 | [] => Some 0
                 | c :: cs' =>
                     n ← count_decision_points c; m ← over cs'; Some (n + m)
                 end).
  set (sub := fix over (cs : list Cursor) : list Cursor :=
                match cs with
                | [] => []
                | c :: cs' => subtree c ++ over cs'
                end).
  set (node := mkCursor k sp dn u loc ext sc isd toks cs d r).
  assert (Hcs : match over cs with
                | Some m => Forall (λ c, is_Some (kind c)) (sub cs)
                            ∧ m = sum_list (decision_points <$> sub cs)
                | None => Exists (λ c, kind c = None) (sub cs)
                end).
  { clear node. induction IH as [|c cs Hc _ IHcs]; [by split |].
    simpl. destruct (count_decision_points c) as [n|]; simpl.
    - destruct Hc as [Hall ->].
      destruct (over cs) as [m|]; simpl.
      + destruct IHcs as [Hall' ->]. split; [by apply Forall_app |].
        by rewrite fmap_app, sum_list_app.
      + apply Exists_app. by right.
    - apply Exists_app. by left. }
  destruct k as [k|]; simpl; [| by apply Exists_cons_hd].
  destruct (over cs) as [m|]; simpl.
  - destruct Hcs as [Hall ->]. split; [by constructor |].
    unfold sum_list at 2. simpl. unfold decision_points at 2. simpl.
    reflexivity.
  - by apply Exists_cons_tl.
Qed.

Lemma complexity_of_function cursor c :
  calculate_cyclomatic_complexity cursor = Some c →
  kind cursor = Some FUNCTION_DECL → 1 ≤ c.
Proof.
  unfold calculate_cyclomatic_complexity. intros Hc Hk. rewrite Hk in Hc.
  simpl in Hc. pose proof (count_decision_points_spec cursor) as Hn.
  destruct (count_decision_points cursor) as [n|]; [| done].
  simpl in Hc. injection Hc as <-. destruct Hn as [_ ->].
  enough (0 ≤ sum_list (decision_points <$> subtree cursor)) by lia.
  apply sum_list_nonneg, Forall_fmap, Forall_forall.
  intros x _. apply decision_points_nonneg.
Qed.

Lemma kind_map_function k : kind_map k = FUNCTION ↔ k = FUNCTION_DECL.
Proof. destruct k; simpl; split; congruence. Qed.

(** X4. Symbol rows.  From a session in which every symbol row has a
    non-empty [usr], an end line, no line count, and a complexity that is
    at least one for a function and zero for any other kind, a scan
    leaves such a session and commits only such states. *)
Theorem scan_keeps_symbol_rows_well_formed (w : World) (pid : Z)
    (root : option pystr) (s : Indexer) :
  Forall symbol_row_ok (symbols (working (db s))) →
  Forall symbol_row_ok (symbols (committed (db s))) →
  let s' := (scan_project w pid root s).2 in
  Forall symbol_row_ok (symbols (working (db s')))
  ∧ Forall symbol_row_ok (symbols (committed (db s')))
  ∧ Forall (λ d, Forall symbol_row_ok (symbols d)) (committed_during s s').
Proof.
  apply (scan_project_keeps w (λ d, Forall symbol_row_ok (symbols d))
           (history (db s)) pid); [..| done]; try done.
  - intros s0 cursor k c Hd Husr _ Hk Hc. simpl.
    apply Forall_app. split; [done |]. constructor; [| done].
    repeat split; simpl; [done | by eexists | |].
    + intros ->%kind_map_function. unfold complexity_of in Hc. simpl in Hc.
      by eapply complexity_of_function.
    + intros Hnot. unfold complexity_of in Hc.
      destruct (bool_decide_reflect (k = FUNCTION_DECL)) as [-> | _];
        [by destruct Hnot | by injection Hc].
  - intros d fid Hd. simpl. apply Forall_forall.
    intros x [_ Hx]%list_elem_of_filter. revert x Hx. by apply Forall_forall.
Qed.

(** X5. Reference rows.  From a session in which every reference has a
    source symbol and is a call, a read or a write, a scan leaves such a
    session and commits only such states: the engine records no reference
    outside a scope, and none of the kinds [type_usage] and [include]. *)
Theorem scan_keeps_reference_rows_well_formed (w : World) (pid : Z)
    (root : option pystr) (s : Indexer) :
  Forall reference_row_ok (references (working (db s))) →
  Forall reference_row_ok (references (committed (db s))) →
  let s' := (scan_project w pid root s).2 in
  Forall reference_row_ok (references (working (db s')))
  ∧ Forall reference_row_ok (references (committed (db s')))
  ∧ Forall (λ d, Forall reference_row_ok (references d))
           (committed_during s s').
Proof.
  apply (scan_project_keeps w (λ d, Forall reference_row_ok (references d))
           (history (db s)) pid); [..| done]; try done.
  intros d src tgt rk fid ln col Hd Hsrc Hrk. simpl.
  apply Forall_app. split; [done |]. constructor; [| done].
  split; [| done]. simpl. destruct src as [i|]; [| done].
  exists i. split; [done |]. simpl in Hsrc.
  destruct (Z.eqb_spec i 0); [done | done].
Qed.

(** X6. From a session without an open transaction, a scan only adds to
    the file table and to the reference table: in the session it leaves
    and in every state it commits, the rows these tables had before are
    still there, unchanged and in the same order, before any new row.  So
    a file keeps the id, the [last_modified] and the project it was
    registered with, and indexing a file again deletes none of its
    references. *)
Theorem scan_only_appends_files_and_references (w : World) (pid : Z)
    (root : option pystr) (s : Indexer) :
  working (db s) = committed (db s) →
  let s' := (scan_project w pid root s).2 in
  grown_from (working (db s)) (working (db s'))
  ∧ grown_from (working (db s)) (committed (db s'))
  ∧ Forall (grown_from (working (db s))) (committed_during s s').
Proof.
  intros Hclean.
  apply (scan_project_keeps w (grown_from (working (db s)))
           (history (db s)) pid); [..| done | done |]; try done.
  - intros d path mtime fpid [Hf Hr] _. split; [| done].
    simpl. by apply prefix_app_r.
  - intros d src tgt rk fid ln col [Hf Hr] _ _. split; [done |].
    simpl. by apply prefix_app_r.
  - by rewrite <- Hclean.
Qed.

Lemma scan_update_identity f :
  scan_update f →
  ∀ p, Project.id (f p) = Project.id p
       ∧ Project.name (f p) = Project.name p
       ∧ Project.root_path (f p) = Project.root_path p.
Proof. by destruct 1. Qed.

Lemma same_projects_refl pid d : same_projects pid d d.
Proof.
  unfold same_projects. induction (projects d) as [|p l IH]; by constructor.
Qed.

(** X7. From a session without an open transaction, a scan of the
    project [pid] adds and removes no project; it keeps the id, the name
    and the root path of every project, and leaves the row of every other
    project as it was, in the session it leaves and in every state it
    commits. *)
Theorem scan_touches_only_its_project (w : World) (pid : Z)
    (root : option pystr) (s : Indexer) :
  working (db s) = committed (db s) →
  let s' := (scan_project w pid root s).2 in
  same_projects pid (working (db s)) (working (db s'))
  ∧ same_projects pid (working (db s)) (committed (db s'))
  ∧ Forall (same_projects pid (working (db s))) (committed_during s s').
Proof.
  intros Hclean.
  apply (scan_project_keeps w (same_projects pid (working (db s)))
           (history (db s)) pid); [..| done | |]; try done.
  - intros d f Hf Hd. unfold same_projects in *. simpl.
    apply Forall2_fmap_r. eapply Forall2_impl; [exact Hd |].
    intros p0 p (Hid & Hname & Hroot & Hother). simpl.
    destruct (bool_decide_reflect (Project.id p = pid)) as [Hp | Hp].
    + destruct (scan_update_identity f Hf p) as (-> & -> & ->).
      repeat split; [done.. |]. intros Hne. congruence.
    + done.
  - apply same_projects_refl.
  - rewrite <- Hclean. apply same_projects_refl.
Qed.

Lemma Qmake_fraction i n :
  0 < i ≤ n → (0 <= Qmake i (Z.to_pos n))%Q ∧ (Qmake i (Z.to_pos n) <= 1)%Q.
Proof.
  intros Hin. unfold Qle. simpl. rewrite Z2Pos.id by lia. lia.
Qed.

(** X8. From a session in which the progress of the project [pid] lies
    between 0 and 1, a scan of [pid] leaves such a session and commits
    only such states: every progress it stores is a fraction [i / n] of
    the files found with [0 < i ≤ n], or 0 at the start, or 1 at the
    end. *)
Theorem scan_keeps_progress_a_fraction (w : World) (pid : Z)
    (root : option pystr) (s : Indexer) :
  progress_in_range pid (working (db s)) →
  progress_in_range pid (committed (db s)) →
  let s' := (scan_project w pid root s).2 in
  progress_in_range pid (working (db s'))
  ∧ progress_in_range pid (committed (db s'))
  ∧ Forall (progress_in_range pid) (committed_during s s').
Proof.
  apply (scan_project_keeps w (progress_in_range pid)
           (history (db s)) pid); [..| done]; try done.
  intros d f Hf Hd p. simpl.
  intros (p0 & -> & Hp0)%list_elem_of_fmap Hid.
  specialize (Hd p0 Hp0).
  destruct (bool_decide_reflect (Project.id p0 = pid)) as [Hp | Hp];
    [| by apply Hd].
  specialize (Hd Hp). destruct Hf; simpl; try done.
  by apply Qmake_fraction.
Qed.

(** X1. The complexity of a cursor that is not a function declaration is
    0.  For a function declaration it is 1 plus, over all cursors of its
    tree, one for every [if], [while], [for], [case], [default], [do] and
    conditional operator and, for every binary operator, the number of
    [&&] and [||] among the tokens of its extent (so an operator nested in
    another binary operator is counted once for each); it is at least 1.
    The computation raises exactly when the kind of some cursor of the
    tree cannot be read. *)
Theorem complexity_counts_decision_points (cursor : Cursor) :
  (∀ k, kind cursor = Some k → k ≠ FUNCTION_DECL →
        calculate_cyclomatic_complexity cursor = Some 0)
  ∧ (kind cursor = Some FUNCTION_DECL →
     match calculate_cyclomatic_complexity cursor with
     | Some c =>
         Forall (λ n, is_Some (kind n)) (subtree cursor)
         ∧ c = 1 + sum_list (decision_points <$> subtree cursor)
         ∧ 1 ≤ c
     | None => Exists (λ n, kind n = None) (subtree cursor)
     end)
  ∧ (kind cursor = None → calculate_cyclomatic_complexity cursor = None).
Proof.
  unfold calculate_cyclomatic_complexity. split; [| split].
  - intros k -> Hk. simpl. by rewrite bool_decide_eq_true_2.
  - intros Hk. rewrite Hk. simpl.
    pose proof (count_decision_points_spec cursor) as Hn.
    destruct (count_decision_points cursor) as [n|]; simpl; [| done].
    destruct Hn as [Hall ->]. repeat split; [done |].
    enough (0 ≤ sum_list (decision_points <$> subtree cursor)) by lia.
    apply sum_list_nonneg, Forall_fmap, Forall_forall.
    intros x _. apply decision_points_nonneg.
  - by intros ->.
Qed.

Lemma find_path_snoc path (l : list FileRecord.t) fr :
  List.find (λ f, bool_decide (FileRecord.path f = path)) l = None →
  FileRecord.path fr = path →
  List.find (λ f, bool_decide (FileRecord.path f = path)) (l ++ [fr])
  = Some fr.
Proof.
  intros Hnone Hfr. induction l as [|x l IH]; simpl in *.
  - by rewrite bool_decide_eq_true_2.
  - destruct (bool_decide (FileRecord.path x = path)); [done | by apply IH].
Qed.

(** X2. A file is registered once.  When get-or-create returns a row for
    a path, the row carries the absolute path and is in the file table,
    and any later call for the same absolute path returns that very row
    and changes nothing, whatever project is given and whatever the
    modification time of the file has become.  The call raises only for a
    path that has no row and whose modification time cannot be read, and
    then it has written nothing. *)
Theorem file_row_is_created_once (w : World) (path : pystr)
    (project_id : option Z) (s : Indexer) :
  match get_or_create_file w path project_id s with
  | (Ok fr, s1) =>
      FileRecord.path fr = abspath w path
      ∧ fr ∈ files (working (db s1))
      ∧ (fr ∉ files (working (db s)) →
         FileRecord.project_id fr = project_id
         ∧ getmtime w (abspath w path) = Some (FileRecord.last_modified fr)
         ∧ working (db s1) = committed (db s1))
      ∧ ∀ w' project_id',
          abspath w' path = abspath w path →
          get_or_create_file w' path project_id' s1 = (Ok fr, s1)
  | (Raise, s1) =>
      s1 = s
      ∧ getmtime w (abspath w path) = None
      ∧ abspath w path ∉ FileRecord.path <$> files (working (db s))
  end.
Proof.
  unfold get_or_create_file, bind at 1, query at 1.
  destruct (List.find _ (files (working (db s)))) as [fr|] eqn:Hfind.
  - simpl. pose proof Hfind as Hfr. apply find_some in Hfr as [Hin Hp].
    apply bool_decide_eq_true in Hp. apply list_elem_of_In in Hin.
    split; [done |]. split; [done |]. split; [done |].
    intros w' pid' Habs. unfold get_or_create_file, bind, query.
    rewrite Habs. by rewrite Hfind.
  - unfold bind at 1.
    destruct (getmtime w (abspath w path)) as [mtime|] eqn:Hmtime; simpl.
    + split; [done |]. split.
      { apply elem_of_app. right. by apply list_elem_of_singleton. }
      split; [done |].
      intros w' pid' Habs. unfold get_or_create_file, bind, query.
      rewrite Habs. simpl. by rewrite find_path_snoc.
    + split; [done |]. split; [done |]. by apply find_path_None.
Qed.

End engine_rows.

(** * The indexing engine: the files of a scan *)

Section engine_files.
Import Clang IndexerImpl Props EngineProps Fixtures.

Lemma Dir_subdirs_ind (P : Dir → Prop) :
  (∀ d, Forall (λ entry, P entry.2) (subdirs d) → P d) → ∀ d, P d.
Proof.
  intros step. fix IH 1. intros [subs fs].
  apply step. simpl. induction subs as [|[name sub] subs IHsubs]; constructor.
  - apply IH.
  - exact IHsubs.
Qed.

Lemma startswith_prefix (s p : pystr) :
  startswith s p = true ↔ ∃ t, s = p ++ t.
Proof.
  revert s. induction p as [|a p IH]; intros s.
  - destruct s; simpl; (split; [by eexists | done]).
  - destruct s as [|b s]; simpl; [split; [done | by intros [t ?]] |].
    rewrite andb_true_iff, N.eqb_eq, IH. split.
    + intros [-> [t ->]]. by exists t.
    + intros [t [= -> ->]]. split; [done | by exists t].
Qed.

Lemma has_source_suffix_spec f :
  has_source_suffix f = true
  ↔ ∃ stem suf, suf ∈ source_suffixes ∧ f = stem ++ suf.
Proof.
  unfold has_source_suffix. rewrite existsb_exists. split.
  - intros (suf & Hin%list_elem_of_In & [t Ht]%startswith_prefix).
    exists (rev t), suf. split; [done |].
    rewrite <- (rev_involutive f), Ht, rev_app_distr.
    by rewrite rev_involutive.
  - intros (stem & suf & Hin & ->). exists suf.
    split; [by apply list_elem_of_In |].
    apply startswith_prefix. exists (rev stem). by rewrite rev_app_distr.
Qed.

Lemma collect_files_listed w d :
  ∀ root p, p ∈ collect_files w root d ↔ listed w root d p.
Proof.
  induction d as [d IH] using Dir_subdirs_ind.
  destruct d as [subs fs]; simpl in IH. intros root p. simpl.
  set (below := fix below (subs : list (pystr * Dir)) : list pystr :=
                  match subs with
                  | [] => []
                  | (name, sub) :: subs' =>
                      (if bool_decide (name ∈ ignored_dirs) then []
                       else collect_files w (path_join w root name) sub)
                      ++ below subs'
                  end).
  assert (Hbelow : ∀ subs', Forall (λ entry : pystr * Dir,
              ∀ root p, p ∈ collect_files w root entry.2
                        ↔ listed w root entry.2 p) subs' →
            (p ∈ below subs' ↔
             ∃ name sub, (name, sub) ∈ subs' ∧ (name ∉ ignored_dirs)
                         ∧ listed w (path_join w root name) sub p)).
  { clear. intros subs'. induction 1 as [|[name sub] subs' Hsub _ IHsubs].
    - simpl. split; [by intros ?%elem_of_nil |].
      by intros (? & ? & ?%elem_of_nil & _).
    - simpl. rewrite elem_of_app, IHsubs. simpl in Hsub. split.
      + intros [Hp | (name' & sub' & Hin & Hok & Hl)].
        * destruct (bool_decide_reflect (name ∈ ignored_dirs));
            [by apply elem_of_nil in Hp |].
          exists name, sub. split; [left |]. split; [done |].
          by apply Hsub.
        * exists name', sub'. split; [by right | done].
      + intros (name' & sub' & [[= -> ->] | Hin]%elem_of_cons & Hok & Hl).
        * left. rewrite bool_decide_eq_false_2 by done. by apply Hsub.
        * right. by exists name', sub'. }
  rewrite elem_of_app, (Hbelow subs IH), list_elem_of_fmap. split.
  - intros [(f & -> & [Hsuf Hf]%list_elem_of_filter)
           | (name & sub & Hin & Hok & Hl)].
    + by apply listed_here.
    + by eapply listed_below.
  - inversion 1 as [root' d' f Hf Hsuf | root' d' name sub p' Hin Hok Hl];
      simplify_eq; simpl in *.
    + left. exists f. split; [done |]. by apply list_elem_of_filter.
    + right. by exists name, sub.
Qed.

(** X9. The files a scan indexes.  A path is collected exactly when the
    root is a directory and the path names a file with one of the suffixes
    [.c], [.h], [.cpp], [.hpp], [.cc], [.cxx] (compared with regard to
    case) that is reached from the root through directories none of which
    is named [.git], [build], [venv] or [node_modules]. *)
Theorem scan_collects_sources_outside_ignored_directories (w : World)
    (root : pystr) (p : pystr) :
  (p ∈ files_to_scan w root
   ↔ ∃ d, tree w root = Some d ∧ listed w root d p)
  ∧ (∀ f, has_source_suffix f = true
          ↔ ∃ stem suf, suf ∈ source_suffixes ∧ f = stem ++ suf).
Proof.
  split; [| apply has_source_suffix_spec].
  unfold files_to_scan. destruct (tree w root) as [d|].
  - rewrite collect_files_listed. split; [by exists d |].
    by intros (d' & [= <-] & Hl).
  - split; [by intros ?%elem_of_nil | by intros (d' & ? & _)].
Qed.

(** *** What one call of [index_file] leaves *)

Lemma get_or_create_file_result w path fpid s :
  match get_or_create_file w path fpid s with
  | (Ok fr, s1) =>
      FileRecord.path fr = abspath w path
      ∧ fr ∈ files (working (db s1))
      ∧ current_file_id s1 = current_file_id s
      ∧ file_path s1 = file_path s
  | (Raise, s1) =>
      s1 = s
      ∧ getmtime w (abspath w path) = None
      ∧ abspath w path ∉ FileRecord.path <$> files (working (db s))
  end.
Proof.
  unfold get_or_create_file, bind at 1, query at 1.
  destruct (List.find _ (files (working (db s)))) as [fr|] eqn:Hfind.
  - simpl. apply find_some in Hfind as [Hin Hp].
    apply bool_decide_eq_true in Hp. by apply list_elem_of_In in Hin.
  - unfold bind at 1.
    destruct (getmtime w (abspath w path)) as [mtime|] eqn:Hmtime; simpl.
    + repeat split. apply elem_of_app. right. by apply list_elem_of_singleton.
    + repeat split. by apply find_path_None.
Qed.

(** The indexer stays at its file during a traversal. *)
Lemma at_file_symbol_step w a b c :
  preserves (λ s, current_file_id s = a ∧ file_path s = b)
            (get_or_create_symbol w c).
Proof.
  intros s Hs. destruct c as [cursor|]; [| exact Hs].
  rewrite get_or_create_symbol_eq.
  destruct (truthy_str _); [| exact Hs].
  destruct (List.find _ _); [exact Hs |].
  destruct (kind cursor) as [k|]; [| exact Hs].
  destruct (complexity_of cursor k) as [c|]; exact Hs.
Qed.

Lemma at_file_visit_node w a b node p wr :
  preserves (λ s, current_file_id s = a ∧ file_path s = b)
            (visit_node w node p wr).
Proof.
  apply visit_node_preserves; [apply at_file_symbol_step |].
  by intros f s Hs.
Qed.

Lemma at_file_extract_includes w a b tu :
  preserves (λ s, current_file_id s = a ∧ file_path s = b)
            (extract_includes w tu).
Proof.
  unfold extract_includes. destruct (get_includes tu) as [incs|];
    [| apply preserves_ret].
  apply preserves_for_each, Forall_forall. intros inc _.
  apply preserves_bind; [apply preserves_get_self | intros self].
  apply preserves_if; [apply preserves_ret |].
  apply preserves_bind; [apply preserves_query | intros d].
  by intros s Hs.
Qed.

(** A block that ends with a commit, run under a handler that rolls
    back: it returns, and leaves no open transaction. *)
Lemma commit_or_rollback {A B C} (a : M A) (b : A → M B) (c : A → M C) s :
  let r := try_except
             (let! x := a in run! b x in run! c x in commit) rollback s in
  r.1 = Ok tt ∧ clean r.2.
Proof.
  unfold try_except, bind.
  destruct (a s) as [[x|] s1]; [| done].
  destruct (b x s1) as [[y|] s2]; [| done].
  by destruct (c x s2) as [[z|] s3].
Qed.

(** X10. What [index_file] leaves.  It raises only when the file has no
    row and its modification time cannot be read, and then it has written
    nothing.  Otherwise it returns, whether or not the parse and the
    traversal succeed, with the absolute path as the current path, the id
    of the row of that path as the current file, and no open
    transaction. *)
Theorem index_file_returns_with_the_file_registered (w : World)
    (path : pystr) (project_id : option Z)
    (comp_db : option CompilationDatabase) (s : Indexer) :
  match index_file w path project_id comp_db s with
  | (Ok _, s') =>
      clean s'
      ∧ file_path s' = Some (abspath w path)
      ∧ ∃ fr, fr ∈ files (working (db s'))
              ∧ FileRecord.path fr = abspath w path
              ∧ current_file_id s' = Some (FileRecord.id fr)
  | (Raise, s') =>
      db s' = db s
      ∧ current_file_id s' = current_file_id s
      ∧ file_path s' = Some (abspath w path)
      ∧ getmtime w (abspath w path) = None
      ∧ abspath w path ∉ FileRecord.path <$> files (working (db s))
  end.
Proof.
  unfold index_file, bind at 1, get_self at 1, bind at 1,
    set_current_file at 1, modify at 1, bind at 1.
  set (s0 := mkIndexer (db s) (current_file_id s) (Some (abspath w path))).
  pose proof (get_or_create_file_result w path project_id s0) as Hfile.
  destruct (get_or_create_file w path project_id s0) as [[fr|] s1].
  2: { destruct Hfile as (-> & Hm & Hp). done. }
  destruct Hfile as (Hpath & Hin & _ & _).
  unfold bind at 1, set_current_file at 1, modify at 1,
    bind at 1, on_working at 1, modify at 1,
    bind at 1, on_working at 1, modify at 1,
    bind at 1, commit at 1, modify at 1.
  simpl db. simpl current_file_id. simpl file_path.
  match goal with |- context [try_except ?m rollback ?st] =>
    set (body := m); set (s3 := st) end.
  pose proof (commit_or_rollback
                (or_raise (parse w path (compile_args path comp_db)))
                (extract_includes w)
                (λ tu, visit_node w (cursor tu) None false) s3)
    as [Hok Hclean].
  fold body in Hok, Hclean.
  set (K := λ t : Indexer,
         (current_file_id t = Some (FileRecord.id fr)
          ∧ file_path t = Some (abspath w path))
         ∧ in_session (λ d, fr ∈ files d) (history (db s1)) t).
  assert (HK : preserves K (try_except body rollback)).
  { assert (Hc : preserves K commit).
    { intros t [Ht Hs]. split; [done |]. by apply in_session_commit. }
    apply preserves_try_except.
    - apply preserves_bind; [apply preserves_or_raise | intros tu].
      apply preserves_bind; [| intros _].
      { intros t [Ht Hs]. split; [by apply at_file_extract_includes |].
        clear Ht. revert t Hs. apply in_session_extract_includes; try done;
          intros; simpl; apply elem_of_app; by left. }
      apply preserves_bind; [| intros _; exact Hc].
      intros t [Ht Hs]. split; [by apply at_file_visit_node |].
      clear Ht. revert t Hs.
      change (preserves (in_session (λ d, fr ∈ files d) (history (db s1)))
                (visit_node w (cursor tu) None false)).
      apply (in_session_visit_node w _ _ 0); try done;
        intros; simpl; apply elem_of_app; by left.
    - intros t [Ht Hs]. split; [done |]. by apply in_session_rollback. }
  assert (Hs3 : K s3).
  { subst s3 K. simpl. repeat split; [done.. |].
    eexists. split; [done |]. by constructor. }
  specialize (HK s3 Hs3).
  destruct (try_except body rollback s3) as [[[]|] s4]; [| done].
  simpl in *. destruct HK as ((Hcur & Hfp) & Hw & _).
  split; [done |]. split; [done |]. by exists fr.
Qed.

(** *** The include rows of a file *)

Lemma new_include_rows_entries w fs fid incs :
  ∀ l, include_entry <$> new_include_rows w fs fid l incs
       = inclusion_entry w fs <$> incs
       ∧ Forall (λ i, Include.source_file_id i = fid)
                (new_include_rows w fs fid l incs).
Proof.
  induction incs as [|inc incs IH]; intros l; [by split |].
  cbn [new_include_rows]. destruct (IH (l ++ [Include.mk (next_id (Include.id <$> l)) fid
           (include inc)
           (FileRecord.id <$> List.find (λ f, bool_decide
              (FileRecord.path f = abspath w (include inc))) fs)
           (line (inc_location inc))])) as [Heq Hall].
  split; [| by constructor].
  rewrite !fmap_cons. f_equal. exact Heq.
Qed.

(** The state in which the include table of the open transaction is
    [l]. *)
Lemma extract_includes_eq w tu s fp :
  file_path s = Some fp →
  extract_includes w tu s
  = (Ok tt,
     match get_includes tu with
     | Some incs =>
         (on_working (with_includes (λ l, l ++
            new_include_rows w (files (working (db s))) (current_file_id s)
                             l (own_inclusions w fp incs))) s).2
     | None => s
     end).
Proof.
  intros Hfp. unfold extract_includes.
  destruct (get_includes tu) as [incs|]; [| done].
  revert s Hfp. induction incs as [|inc incs IH]; intros s Hfp.
  - simpl. unfold ret, on_working, modify. simpl.
    destruct s as [[c wk h] cur fpath]. simpl. f_equal. f_equal. f_equal.
    destruct wk. unfold with_includes. simpl. by rewrite app_nil_r.
  - simpl. unfold bind at 1, bind at 1, get_self at 1.
    unfold own_inclusions. rewrite filter_cons.
    destruct (decide (abspath w (source inc) = fp)) as [Heq | Hne].
    + rewrite bool_decide_eq_false_2
        by (rewrite Hfp; intros Hne; apply Hne; congruence).
      unfold bind at 1, query at 1, on_working at 1, modify at 1.
      simpl. rewrite IH by done. simpl. f_equal. f_equal.
      f_equal. unfold with_includes. simpl. f_equal.
      by rewrite <- (assoc_L (++)).
    + rewrite bool_decide_eq_true_2 by (rewrite Hfp; congruence).
      unfold ret at 1. by rewrite IH.
Qed.

Lemma get_or_create_file_includes w path fpid s :
  includes (working (db (get_or_create_file w path fpid s).2))
  = includes (working (db s)).
Proof.
  unfold get_or_create_file, bind at 1, query at 1.
  destruct (List.find _ (files (working (db s)))); [done |].
  unfold bind at 1. by destruct (getmtime w (abspath w path)).
Qed.

(** During the traversal the include table of the open transaction is
    [L], and the committed one is [L0] or, after a commit, [L]; the file
    table is [F] throughout. *)
Lemma includes_visit_node w (L0 L : list Include.t) (F : list FileRecord.t)
    node p wr :
  preserves (λ t, includes (working (db t)) = L
                  ∧ (includes (committed (db t)) = L0
                     ∨ includes (committed (db t)) = L)
                  ∧ files (working (db t)) = F
                  ∧ files (committed (db t)) = F)
            (visit_node w node p wr).
Proof.
  apply visit_node_preserves.
  - intros c s Hs. destruct c as [cursor|]; [| exact Hs].
    rewrite get_or_create_symbol_eq.
    destruct (truthy_str _); [| exact Hs].
    destruct (List.find _ _); [exact Hs |].
    destruct (kind cursor) as [k|]; [| exact Hs].
    destruct (complexity_of cursor k) as [c|]; [| exact Hs].
    destruct Hs as (Hw & Hc & Hf & Hfc). simpl. repeat split; auto.
  - intros f s Hs. exact Hs.
Qed.

Lemma filter_filter_not {A} (P : A → Prop) `{∀ x, Decision (P x)}
    (l : list A) :
  filter P (filter (λ x, ¬ P x) l) = [].
Proof.
  induction l as [|x l IH]; [done |].
  rewrite filter_cons. destruct (decide (¬ P x)) as [Hx | Hx]; [| done].
  rewrite filter_cons. by destruct (decide (P x)).
Qed.

Lemma filter_all {A} (P : A → Prop) `{∀ x, Decision (P x)} (l : list A) :
  Forall P l → filter P l = l.
Proof.
  induction 1 as [|x l Hx _ IH]; [done |].
  rewrite filter_cons. destruct (decide (P x)); [by rewrite IH | done].
Qed.

Lemma filter_none {A} (P : A → Prop) `{∀ x, Decision (P x)} (l : list A) :
  Forall (λ x, ¬ P x) l → filter P l = [].
Proof.
  induction 1 as [|x l Hx _ IH]; [done |].
  rewrite filter_cons. by destruct (decide (P x)).
Qed.

Lemma filter_idemp {A} (P : A → Prop) `{∀ x, Decision (P x)} (l : list A) :
  filter P (filter P l) = filter P l.
Proof.
  apply filter_all, Forall_forall. by intros x [? _]%list_elem_of_filter.
Qed.

Lemma subtree_eq node :
  subtree node = node :: (children node ≫= subtree).
Proof.
  by destruct node as [k sp dn u loc ext sc isd toks cs d r].
Qed.

Lemma readable_inv node :
  readable node →
  is_Some (kind node)
  ∧ kinds_readable node
  ∧ (∀ t, target_of node = Some t → kinds_readable t)
  ∧ Forall readable (children node).
Proof.
  unfold readable, kinds_readable. intros H.
  split; [| split; [| split]].
  - rewrite subtree_eq in H. by apply Forall_cons in H as [[? _] _].
  - eapply Forall_impl; [exact H |]. by intros n [? _].
  - rewrite subtree_eq in H. by apply Forall_cons in H as [[_ ?] _].
  - rewrite subtree_eq in H. apply Forall_cons in H as [_ H].
    apply Forall_forall. intros c Hc. apply Forall_forall. intros n Hn.
    rewrite Forall_forall in H. apply H, list_elem_of_bind. by exists c.
Qed.

Lemma returns_ret {A} (a : A) : returns (ret a).
Proof. intros s. by eexists _, _. Qed.

Lemma returns_bind {A B} (m : M A) (k : A → M B) :
  returns m → (∀ a, returns (k a)) → returns (bind m k).
Proof.
  intros Hm Hk s. unfold bind. destruct (Hm s) as (a & s1 & ->). apply Hk.
Qed.

Lemma returns_for_each {A} (body : A → M unit) (xs : list A) :
  Forall (λ x, returns (body x)) xs → returns (for_each xs body).
Proof.
  induction 1 as [|x xs Hx _ IH]; [apply returns_ret |].
  change (for_each (x :: xs) body) with (run! body x in for_each xs body).
  apply returns_bind; [exact Hx | intros _; exact IH].
Qed.

Lemma get_or_create_symbol_returns (w : World) cursor :
  (∀ c, cursor = Some c → kinds_readable c) →
  returns (get_or_create_symbol w cursor).
Proof.
  intros Hc s. destruct cursor as [c|]; [| by eexists _, _].
  specialize (Hc c eq_refl). rewrite get_or_create_symbol_eq.
  destruct (truthy_str _); [| by eexists _, _].
  destruct (List.find _ _); [by eexists _, _ |].
  assert (Hk : is_Some (kind c)).
  { unfold kinds_readable in Hc. rewrite subtree_eq in Hc.
    by apply Forall_cons in Hc as [? _]. }
  destruct Hk as [k Hk]. rewrite Hk.
  assert (Hcount : is_Some (complexity_of c k)).
  { unfold complexity_of. destruct (bool_decide _); [| done].
    unfold calculate_cyclomatic_complexity. rewrite Hk. simpl.
    destruct (bool_decide _); [done |].
    pose proof (count_decision_points_spec c) as Hspec.
    destruct (count_decision_points c) as [n|]; [done |].
    exfalso. apply Exists_exists in Hspec as (x & Hx & Hnone).
    unfold kinds_readable in Hc. rewrite Forall_forall in Hc.
    destruct (Hc x Hx) as [? ?]. congruence. }
  destruct Hcount as [n ->]. by eexists _, _.
Qed.

Lemma visit_node_returns (w : World) node :
  readable node → ∀ p wr, returns (visit_node w node p wr).
Proof.
  induction node as [node IH] using Cursor_children_ind.
  intros Hread p wr.
  destruct (readable_inv node Hread) as ([k Hk] & Hkinds & Htarget & Hcs).
  assert (Hchildren : Forall (λ c, ∀ q b, returns (visit_node w c q b))
                             (children node)).
  { apply Forall_forall. intros c Hc q b. rewrite Forall_forall in IH, Hcs.
    by apply IH; [| apply Hcs]. }
  clear IH Hcs Hread.
  assert (Hnode : returns (get_or_create_symbol w (Some node))).
  { apply get_or_create_symbol_returns. by intros c [= <-]. }
  assert (Hrefer : ∀ t, target_of node = Some t →
                        returns (get_or_create_symbol w (Some t))).
  { intros t Ht. apply get_or_create_symbol_returns. intros c [= <-].
    by apply Htarget. }
  clear Hkinds Htarget.
  destruct node as [k0 sp dn u loc ext sc isd toks cs d r].
  simpl in Hk, Hchildren. subst k0. simpl.
  apply returns_bind; [apply returns_ret | intros k'].
  apply returns_bind.
  { unfold enter_definition.
    apply returns_bind; [intros t; by eexists _, _ |].
    intros self. destruct (_ && _); [| apply returns_ret].
    apply returns_bind; [exact Hnode |]. intros [?|]; apply returns_ret. }
  intros cur. apply returns_bind.
  { unfold record_reference. destruct (truthy_int p); [| apply returns_ret].
    destruct (if bool_decide (k' = CALL_EXPR) then _ else _);
      [| apply returns_ret].
    destruct (target_of _) as [t|] eqn:Ht; [| apply returns_ret].
    apply returns_bind; [by apply Hrefer |].
    intros [?|]; [| apply returns_ret].
    apply returns_bind; [intros st; by eexists _, _ |]. intros self.
    intros st. by eexists _, _. }
  intros _. destruct (is_assign k' toks).
  - destruct cs as [|lhs rhs]; [apply returns_ret |].
    apply Forall_cons in Hchildren as [Hl Hr].
    apply returns_bind; [apply Hl | intros _].
    apply returns_for_each. eapply Forall_impl; [exact Hr |].
    intros c Hc. apply Hc.
  - apply returns_for_each. eapply Forall_impl; [exact Hchildren |].
    intros c Hc. apply Hc.
Qed.

(** X11. Indexing a file again replaces its include rows.  When
    [index_file] returns, the include rows of every other file are as they
    were.  The file itself has no include row when the parse fails or the
    inclusions cannot be listed.  When both succeed and the traversal
    finds nothing it cannot read, the file has exactly one row per
    inclusion directive of the file itself, in order, each with the path
    as written, the line, and the id of the file registered under the
    absolute path of the target, if any.  When the traversal raises, the
    file has these rows or, if nothing was committed before, none. *)
Theorem reindexing_replaces_the_include_rows (w : World) (path : pystr)
    (project_id : option Z) (comp_db : option CompilationDatabase)
    (s : Indexer) :
  match index_file w path project_id comp_db s with
  | (Ok _, s') =>
      let fid := current_file_id s' in
      let rows := includes_of fid (working (db s')) in
      includes_of_others fid (working (db s'))
      = includes_of_others fid (working (db s))
      ∧ match parse w path (compile_args path comp_db) with
        | None => rows = []
        | Some tu =>
            match get_includes tu with
            | None => rows = []
            | Some incs =>
                let entries :=
                  inclusion_entry w (files (working (db s'))) <$>
                    own_inclusions w (abspath w path) incs in
                (readable (cursor tu) → include_entry <$> rows = entries)
                ∧ (rows = [] ∨ include_entry <$> rows = entries)
            end
        end
  | (Raise, _) => True
  end.
Proof.
  unfold index_file, bind at 1, get_self at 1, bind at 1,
    set_current_file at 1, modify at 1, bind at 1.
  set (s0 := mkIndexer (db s) (current_file_id s) (Some (abspath w path))).
  pose proof (get_or_create_file_includes w path project_id s0) as Hinc.
  destruct (get_or_create_file w path project_id s0) as [[fr|] s1]; [| done].
  simpl in Hinc.
  unfold bind at 1, set_current_file at 1, modify at 1,
    bind at 1, on_working at 1, modify at 1,
    bind at 1, on_working at 1, modify at 1,
    bind at 1, commit at 1, modify at 1.
  simpl db. simpl current_file_id. simpl file_path.
  set (fid := Some (FileRecord.id fr)).
  set (L0 := filter (λ i, Include.source_file_id i ≠ fid)
                    (includes (working (db s)))).
  match goal with |- context [try_except _ rollback ?st] => set (s3 := st) end.
  assert (H3 : includes (working (db s3)) = L0
               ∧ includes (committed (db s3)) = L0
               ∧ files (committed (db s3)) = files (working (db s3))
               ∧ current_file_id s3 = fid
               ∧ file_path s3 = Some (abspath w path)).
  { subst s3 L0. simpl. by rewrite Hinc. }
  destruct H3 as (Hw3 & Hc3 & Hf3 & Hcur3 & Hfp3). clearbody s3.
  set (F := files (working (db s3))) in *.
  set (added := λ incs,
         L0 ++ new_include_rows w F fid L0
                 (own_inclusions w (abspath w path) incs)).
  (* what the final state can be *)
  enough (Hfinal :
            match try_except
                    (let! tu := or_raise (parse w path
                                            (compile_args path comp_db)) in
                     run! extract_includes w tu in
                     run! visit_node w (cursor tu) None false in
                     commit) rollback s3 with
            | (Ok _, s') =>
                current_file_id s' = fid
                ∧ files (working (db s')) = F
                ∧ match parse w path (compile_args path comp_db) with
                  | None => includes (working (db s')) = L0
                  | Some tu =>
                      match get_includes tu with
                      | None => includes (working (db s')) = L0
                      | Some incs =>
                          (readable (cursor tu) →
                           includes (working (db s')) = added incs)
                          ∧ (includes (working (db s')) = L0
                             ∨ includes (working (db s')) = added incs)
                      end
                  end
            | (Raise, _) => True
            end).
  { destruct (try_except _ rollback s3) as [[[]|] s']; [| done].
    destruct Hfinal as (-> & HF & Hincs).
    assert (Hnone : filter (λ i, Include.source_file_id i = fid) L0 = []).
    { unfold L0. apply filter_none, Forall_forall.
      intros x [Hx _]%list_elem_of_filter. done. }
    assert (Hothers : filter (λ i, Include.source_file_id i ≠ fid) L0 = L0).
    { apply filter_idemp. }
    assert (Hadded : ∀ incs,
              filter (λ i, Include.source_file_id i ≠ fid) (added incs) = L0
              ∧ include_entry <$>
                  filter (λ i, Include.source_file_id i = fid) (added incs)
                = inclusion_entry w F <$>
                    own_inclusions w (abspath w path) incs).
    { intros incs. unfold added.
      destruct (new_include_rows_entries w F fid
                  (own_inclusions w (abspath w path) incs) L0)
        as [Hent Hsrc].
      rewrite !filter_app, Hnone, Hothers. simpl.
      rewrite (filter_all _ _ Hsrc), filter_none, app_nil_r; [done |].
      eapply Forall_impl; [exact Hsrc |]. intros x Hx Hn. done. }
    cbv zeta. unfold includes_of, includes_of_others. fold L0. rewrite HF.
    destruct (parse w path (compile_args path comp_db)) as [tu|].
    2: { rewrite Hincs. by rewrite Hothers, Hnone. }
    destruct (get_includes tu) as [incs|].
    2: { rewrite Hincs. by rewrite Hothers, Hnone. }
    destruct Hincs as [Hread Hincs].
    destruct (Hadded incs) as [Hrest Hrows].
    split; [| split].
    - destruct Hincs as [-> | ->]; [by rewrite Hothers | done].
    - intros Hr. by rewrite (Hread Hr).
    - destruct Hincs as [-> | ->]; [left; by rewrite Hnone | by right]. }
  unfold try_except, bind at 1.
  destruct (parse w path (compile_args path comp_db)) as [tu|] eqn:Hparse;
    simpl.
  2: { auto. }
  unfold bind at 1. rewrite (extract_includes_eq w tu s3 _ Hfp3).
  set (L := match get_includes tu with
            | Some incs => added incs
            | None => L0
            end).
  match goal with |- context [bind _ _ ?st] => set (s4 := st) end.
  assert (H4 : includes (working (db s4)) = L
               ∧ (includes (committed (db s4)) = L0
                  ∨ includes (committed (db s4)) = L)
               ∧ files (working (db s4)) = F
               ∧ files (committed (db s4)) = F).
  { subst s4 L added. destruct (get_includes tu) as [incs|]; simpl.
    - rewrite Hw3, Hcur3. auto.
    - auto. }
  assert (Hcur4 : current_file_id s4 = fid ∧ file_path s4 = Some (abspath w path)).
  { subst s4. by destruct (get_includes tu). }
  clearbody s4.
  pose proof (includes_visit_node w L0 L F (cursor tu) None false s4 H4)
    as H5.
  pose proof (at_file_visit_node w _ _ (cursor tu) None false s4 Hcur4)
    as Hcur5.
  pose proof (λ Hr, visit_node_returns w (cursor tu) Hr None false s4)
    as Hreturns.
  unfold bind at 1.
  destruct (visit_node w (cursor tu) None false s4) as [[[]|] s5];
    simpl in *.
  - destruct H5 as (Hw5 & _ & Hf5 & _). destruct Hcur5 as [-> _].
    split; [done |]. split; [done |]. subst L.
    destruct (get_includes tu); auto.
  - destruct H5 as (_ & Hc5 & _ & Hf5). destruct Hcur5 as [-> _].
    split; [done |]. split; [done |]. subst L.
    destruct (get_includes tu) as [incs|].
    + split; [| done]. intros Hr.
      by destruct (Hreturns Hr) as (? & ? & ?).
    + by destruct Hc5.
Qed.

End engine_files.

(** * The indexing engine: the statements at concrete inputs *)

Section engine_examples.
Import Clang IndexerImpl Props EngineProps Fixtures Samples.

(** X3 at a second scan of the project [/p]. *)
Lemma scan_keeps_keys_unique_witness :
  keyed (working (db scanned_once))
  ∧ keyed (committed (db scanned_once))
  ∧ keyed (working (db (scan_project world_a 1 (Some (py "/p"))
                          scanned_once).2))
  ∧ keyed (committed (db (scan_project world_a 1 (Some (py "/p"))
                            scanned_once).2))
  ∧ Forall keyed
      (committed_during scanned_once
         (scan_project world_a 1 (Some (py "/p")) scanned_once).2).
Proof.
  assert (Hw : keyed (working (db scanned_once))).
  { unfold keyed. repeat split; apply (bool_decide_unpack _); by vm_compute. }
  assert (Hc : keyed (committed (db scanned_once))).
  { unfold keyed. repeat split; apply (bool_decide_unpack _); by vm_compute. }
  split; [exact Hw |]. split; [exact Hc |].
  exact (scan_keeps_keys_unique world_a 1 (Some (py "/p")) scanned_once
           Hw Hc).
Defined.

(** X4 at a second scan of the project [/p]. *)
Lemma scan_keeps_symbol_rows_well_formed_witness :
  Forall symbol_row_ok (symbols (working (db scanned_once)))
  ∧ Forall symbol_row_ok (symbols (committed (db scanned_once)))
  ∧ Forall symbol_row_ok
      (symbols (working (db (scan_project world_a 1 (Some (py "/p"))
                               scanned_once).2)))
  ∧ Forall symbol_row_ok
      (symbols (committed (db (scan_project world_a 1 (Some (py "/p"))
                                 scanned_once).2)))
  ∧ Forall (λ d, Forall symbol_row_ok (symbols d))
      (committed_during scanned_once
         (scan_project world_a 1 (Some (py "/p")) scanned_once).2).
Proof.
  assert (Hw : Forall symbol_row_ok (symbols (working (db scanned_once)))).
  { unfold symbol_row_ok. apply (bool_decide_unpack _). by vm_compute. }
  assert (Hc : Forall symbol_row_ok (symbols (committed (db scanned_once)))).
  { unfold symbol_row_ok. apply (bool_decide_unpack _). by vm_compute. }
  split; [exact Hw |]. split; [exact Hc |].
  exact (scan_keeps_symbol_rows_well_formed world_a 1 (Some (py "/p"))
           scanned_once Hw Hc).
Defined.

(** X5 at a second scan of the project [/p], which starts with the two
    references of [f], a write of [x] and a read of [y]. *)
Lemma scan_keeps_reference_rows_well_formed_witness :
  Forall reference_row_ok (references (working (db scanned_once)))
  ∧ Forall reference_row_ok (references (committed (db scanned_once)))
  ∧ Forall reference_row_ok
      (references (working (db (scan_project world_a 1 (Some (py "/p"))
                                  scanned_once).2)))
  ∧ Forall reference_row_ok
      (references (committed (db (scan_project world_a 1 (Some (py "/p"))
                                    scanned_once).2)))
  ∧ Forall (λ d, Forall reference_row_ok (references d))
      (committed_during scanned_once
         (scan_project world_a 1 (Some (py "/p")) scanned_once).2).
Proof.
  assert (Hw : Forall reference_row_ok
                 (references (working (db scanned_once)))).
  { apply Forall_forall. intros r Hr. vm_compute in Hr.
    repeat (apply elem_of_cons in Hr as [-> | Hr]);
      [| | by apply elem_of_nil in Hr];
      (split; [eexists; split; [reflexivity | discriminate]
              | apply (bool_decide_unpack _); by vm_compute]). }
  assert (Hc : Forall reference_row_ok
                 (references (committed (db scanned_once)))).
  { apply Forall_forall. intros r Hr. vm_compute in Hr.
    repeat (apply elem_of_cons in Hr as [-> | Hr]);
      [| | by apply elem_of_nil in Hr];
      (split; [eexists; split; [reflexivity | discriminate]
              | apply (bool_decide_unpack _); by vm_compute]). }
  split; [exact Hw |]. split; [exact Hc |].
  exact (scan_keeps_reference_rows_well_formed world_a 1 (Some (py "/p"))
           scanned_once Hw Hc).
Defined.

(** X6 at a second scan of the project [/p]. *)
Lemma scan_only_appends_files_and_references_witness :
  working (db scanned_once) = committed (db scanned_once)
  ∧ grown_from (working (db scanned_once))
      (working (db (scan_project world_a 1 (Some (py "/p"))
                      scanned_once).2))
  ∧ grown_from (working (db scanned_once))
      (committed (db (scan_project world_a 1 (Some (py "/p"))
                        scanned_once).2))
  ∧ Forall (grown_from (working (db scanned_once)))
      (committed_during scanned_once
         (scan_project world_a 1 (Some (py "/p")) scanned_once).2).
Proof.
  assert (H : working (db scanned_once) = committed (db scanned_once))
    by (by vm_compute).
  split; [exact H |].
  exact (scan_only_appends_files_and_references world_a 1 (Some (py "/p"))
           scanned_once H).
Defined.

(** X7 at a second scan of the project [/p]. *)
Lemma scan_touches_only_its_project_witness :
  working (db scanned_once) = committed (db scanned_once)
  ∧ same_projects 1 (working (db scanned_once))
      (working (db (scan_project world_a 1 (Some (py "/p"))
                      scanned_once).2))
  ∧ same_projects 1 (working (db scanned_once))
      (committed (db (scan_project world_a 1 (Some (py "/p"))
                        scanned_once).2))
  ∧ Forall (same_projects 1 (working (db scanned_once)))
      (committed_during scanned_once
         (scan_project world_a 1 (Some (py "/p")) scanned_once).2).
Proof.
  assert (H : working (db scanned_once) = committed (db scanned_once))
    by (by vm_compute).
  split; [exact H |].
  exact (scan_touches_only_its_project world_a 1 (Some (py "/p"))
           scanned_once H).
Defined.

(** X8 at a second scan of the project [/p], whose progress is 1 after
    the first. *)
Lemma scan_keeps_progress_a_fraction_witness :
  progress_in_range 1 (working (db scanned_once))
  ∧ progress_in_range 1 (committed (db scanned_once))
  ∧ progress_in_range 1
      (working (db (scan_project world_a 1 (Some (py "/p"))
                      scanned_once).2))
  ∧ progress_in_range 1
      (committed (db (scan_project world_a 1 (Some (py "/p"))
                        scanned_once).2))
  ∧ Forall (progress_in_range 1)
      (committed_during scanned_once
         (scan_project world_a 1 (Some (py "/p")) scanned_once).2).
Proof.
  assert (Hw : progress_in_range 1 (working (db scanned_once))).
  { intros p Hp _. vm_compute in Hp.
    apply list_elem_of_singleton in Hp as ->.
    split; unfold Qle; simpl; lia. }
  assert (Hc : progress_in_range 1 (committed (db scanned_once))).
  { intros p Hp _. vm_compute in Hp.
    apply list_elem_of_singleton in Hp as ->.
    split; unfold Qle; simpl; lia. }
  split; [exact Hw |]. split; [exact Hc |].
  exact (scan_keeps_progress_a_fraction world_a 1 (Some (py "/p"))
           scanned_once Hw Hc).
Defined.

(** X1 at the function [g], whose body is [if (a && b || c) ...]: one for
    the function, one for the [if], two for the tokens [&&] and [||] of
    the outer operator and one more for the [&&] of the inner one. *)
Lemma complexity_counts_decision_points_witness :
  kind fun_g = Some FUNCTION_DECL
  ∧ calculate_cyclomatic_complexity fun_g = Some 5
  ∧ 1 + sum_list (decision_points <$> subtree fun_g) = 5.
Proof.
  split; [reflexivity |].
  pose proof (proj1 (proj2 (complexity_counts_decision_points fun_g))
                eq_refl) as H.
  change (calculate_cyclomatic_complexity fun_g) with (Some 5) in H.
  destruct H as (_ & H & _). split; [reflexivity | by rewrite <- H].
Defined.

(** X11 at [/p/a.c] read with its two inclusions and the one of
    [stdio.h]: the tree can be read, and the file gets the two rows of
    its own directives, the second resolved to the row of [/p/b.h]. *)
Lemma reindexing_replaces_the_include_rows_witness :
  readable (cursor tu_including)
  ∧ include_entry <$>
      includes_of (Some 2)
        (working (db (index_file (world_of (Some tu_including)) a_c
                        (Some 1) None with_b_h).2))
    = [(stdio_h, None, 1); (py "/p/b.h", Some 1, 2)]
  ∧ match index_file (world_of (Some tu_including)) a_c (Some 1) None
            with_b_h with
    | (Ok _, s') =>
        let fid := current_file_id s' in
        let rows := includes_of fid (working (db s')) in
        includes_of_others fid (working (db s'))
        = includes_of_others fid (working (db with_b_h))
        ∧ match parse (world_of (Some tu_including)) a_c
                  (compile_args a_c None) with
          | None => rows = []
          | Some tu =>
              match get_includes tu with
              | None => rows = []
              | Some incs =>
                  let entries :=
                    inclusion_entry (world_of (Some tu_including))
                      (files (working (db s'))) <$>
                      own_inclusions (world_of (Some tu_including))
                        (abspath (world_of (Some tu_including)) a_c) incs in
                  (readable (cursor tu) → include_entry <$> rows = entries)
                  ∧ (rows = [] ∨ include_entry <$> rows = entries)
              end
          end
    | (Raise, _) => True
    end.
Proof.
  split.
  { unfold readable. simpl.
    repeat (constructor;
            [split; [by eexists |];
             intros t Ht; simpl in Ht; try discriminate;
             injection Ht as <-; unfold kinds_readable; simpl;
             repeat (constructor; [by eexists |]); constructor |]).
    constructor. }
  split; [by vm_compute |].
  exact (reindexing_replaces_the_include_rows (world_of (Some tu_including))
           a_c (Some 1) None with_b_h).
Defined.

End engine_examples.

(** * The analyzer: the files and the include graph of a project *)

Section project_files.
Import Props GraphProps Fixtures Nx ArchitectureAnalyzer.

(** *** The pattern match of the file queries *)

Lemma like_percent_step pattern s :
  like (37%N :: pattern) s
  = like pattern s
    || match s with [] => false | _ :: s' => like (37%N :: pattern) s' end.
Proof. by destruct s. Qed.

Lemma like_char_step p pattern s :
  p ≠ 37%N →
  like (p :: pattern) s
  = match s with
    | [] => false
    | c :: s' =>
        ((p =? 95) || (ascii_fold p =? ascii_fold c))%N && like pattern s'
    end.
Proof.
  intros Hp. simpl. destruct (N.eqb_spec p 37); [done |]. by destruct s.
Qed.

Lemma like_percent s : like [37%N] s = true.
Proof.
  induction s as [|c s IH]; [done |]. rewrite like_percent_step, IH.
  apply orb_true_r.
Qed.

(** Whatever the pattern holds, it matches itself followed by
    anything. *)
Lemma like_prefix_self p rest : like (p ++ [37%N]) (p ++ rest) = true.
Proof.
  induction p as [|a p IH]; [apply like_percent |].
  rewrite <- !app_comm_cons. destruct (decide (a = 37%N)) as [-> | Ha].
  - rewrite like_percent_step. apply orb_true_iff. right.
    rewrite like_percent_step, IH. done.
  - rewrite like_char_step by done. rewrite IH, N.eqb_refl.
    by rewrite orb_true_r.
Qed.

Lemma like_literal p :
  literal p → ∀ s, like p s = true ↔ same_up_to_case s p.
Proof.
  unfold same_up_to_case.
  induction 1 as [|a p [Ha Ha'] _ IH]; intros s.
  - destruct s; simpl; split; congruence.
  - rewrite like_char_step by done. destruct s as [|c s]; [done |].
    rewrite andb_true_iff, IH, !fmap_cons.
    destruct (N.eqb_spec a 95); [done |]. simpl. rewrite N.eqb_eq.
    split; [intros [-> ->]; done | intros [= -> ->]; done].
Qed.

Lemma like_literal_percent p :
  literal p →
  ∀ s, like (p ++ [37%N]) s = true
       ↔ ∃ pre rest, s = pre ++ rest ∧ same_up_to_case pre p.
Proof.
  unfold same_up_to_case.
  induction 1 as [|a p [Ha Ha'] _ IH]; intros s.
  - simpl app. rewrite like_percent. split; [| done].
    intros _. by exists [], s.
  - rewrite <- app_comm_cons, like_char_step by done.
    destruct s as [|c s].
    + split; [done |]. intros (pre & rest & Hs & Hpre).
      symmetry in Hs. apply app_eq_nil in Hs as [-> _]. done.
    + rewrite andb_true_iff, IH.
      destruct (N.eqb_spec a 95); [done |]. simpl. rewrite N.eqb_eq. split.
      * intros [Hac (pre & rest & -> & Hpre)].
        exists (c :: pre), rest. split; [done |].
        by rewrite !fmap_cons, Hac, Hpre.
      * intros (pre & rest & Hs & Hpre).
        destruct pre as [|c' pre]; [done |].
        rewrite !fmap_cons in Hpre. injection Hpre as Hc Hpre.
        rewrite <- app_comm_cons in Hs. injection Hs as -> ->.
        split; [done |]. by exists pre, rest.
Qed.

Lemma elem_of_project_files w d pid f :
  f ∈ _get_project_files w d pid
  ↔ root_path d pid ≠ [] ∧ f ∈ files d ∧ under_root w d pid f = true.
Proof.
  unfold _get_project_files.
  destruct (root_path d pid) as [|c r] eqn:Hroot; simpl.
  - split; [by intros ?%elem_of_nil | by intros [? _]].
  - rewrite list_elem_of_filter. split; [by intros [? ?] | by intros (_ & ? & ?)].
Qed.

(** X12. The files of a project.  Without a project row, or with an
    empty root, the project has no files.  Otherwise every file row whose
    path is the root, or the root followed by the separator and anything,
    is a file of the project, whatever characters the root holds. *)
Theorem files_below_the_root_are_project_files (w : World) (d : Database)
    (pid : Z) :
  (root_path d pid = [] → _get_project_files w d pid = [])
  ∧ (∀ f, f ∈ files d → root_path d pid ≠ [] →
          (FileRecord.path f = root_path d pid
           ∨ ∃ rest, FileRecord.path f = root_path d pid ++ sep w ++ rest) →
          f ∈ _get_project_files w d pid).
Proof.
  split.
  - intros Hroot. unfold _get_project_files. by rewrite Hroot.
  - intros f Hf Hroot Hpath. apply elem_of_project_files.
    split; [done |]. split; [done |]. unfold under_root.
    apply orb_true_iff. destruct Hpath as [-> | [rest ->]].
    + left. by apply bool_decide_eq_true.
    + right. change (py "%") with [37%N]. rewrite !(assoc_L (++)).
      apply like_prefix_self.
Qed.

(** X13. When neither the root nor the separator holds a [%] or a [_],
    the files of the project are exactly the file rows whose path is the
    root or begins with the root and the separator, compared without
    regard to the case of ASCII letters. *)
Theorem project_files_are_those_below_the_root (w : World) (d : Database)
    (pid : Z) (f : FileRecord.t) :
  root_path d pid ≠ [] →
  literal (root_path d pid ++ sep w) →
  f ∈ _get_project_files w d pid
  ↔ f ∈ files d
    ∧ (FileRecord.path f = root_path d pid
       ∨ ∃ pre rest, FileRecord.path f = pre ++ rest
                     ∧ same_up_to_case pre (root_path d pid ++ sep w)).
Proof.
  intros Hroot Hlit. rewrite elem_of_project_files. unfold under_root.
  change (py "%") with [37%N].
  rewrite orb_true_iff, bool_decide_eq_true, (assoc_L (++)).
  rewrite (like_literal_percent _ Hlit). split.
  - by intros (_ & ? & ?).
  - by intros [? ?].
Qed.

(** *** The nodes of the include graph *)

Lemma nodes_add_edge u v G x :
  x ∈ nodes (add_edge u v G) ↔ x ∈ nodes G ∨ x = u ∨ x = v.
Proof.
  unfold add_edge.
  destruct (bool_decide _); simpl; rewrite !nodes_add_node; tauto.
Qed.

Lemma nodes_add_files (l : list FileRecord.t) G x :
  x ∈ nodes (foldl (λ G f, add_node (FileRecord.id f) G) G l)
  ↔ x ∈ nodes G ∨ ∃ f, f ∈ l ∧ FileRecord.id f = x.
Proof.
  revert G. induction l as [|f l IH]; intros G; simpl.
  - split; [by left | by intros [? | (? & ?%elem_of_nil & _)]].
  - rewrite IH, nodes_add_node. split.
    + intros [[? | ->] | (f' & Hf' & Hid)].
      * by left.
      * right. exists f. split; [left | done].
      * right. exists f'. split; [by right | done].
    + intros [? | (f' & [-> | Hf']%elem_of_cons & Hid)].
      * by left; left.
      * by left; right.
      * right. by exists f'.
Qed.

Lemma nodes_add_includes (l : list Include.t) G x :
  x ∈ nodes (foldl (λ G inc,
      match Include.source_file_id inc, Include.target_file_id inc with
      | Some src, Some tgt =>
          if truthy_int (Some tgt) then add_edge src tgt G else G
      | _, _ => G
      end) G l)
  ↔ x ∈ nodes G
    ∨ ∃ inc a b, inc ∈ l ∧ Include.source_file_id inc = Some a
                 ∧ Include.target_file_id inc = Some b ∧ b ≠ 0
                 ∧ (x = a ∨ x = b).
Proof.
  revert G. induction l as [|inc l IH]; intros G.
  { simpl. split; [by left |].
    by intros [? | (? & ? & ? & ?%elem_of_nil & _)]. }
  simpl. rewrite IH. clear IH.
  assert (Hstep : x ∈ nodes
            (match Include.source_file_id inc, Include.target_file_id inc with
             | Some src, Some tgt =>
                 if truthy_int (Some tgt) then add_edge src tgt G else G
             | _, _ => G
             end)
          ↔ x ∈ nodes G
            ∨ ∃ a b, Include.source_file_id inc = Some a
                     ∧ Include.target_file_id inc = Some b ∧ b ≠ 0
                     ∧ (x = a ∨ x = b)).
  { destruct (Include.source_file_id inc) as [src|];
      [| split; [by left | by intros [? | (? & ? & ? & _)]]].
    destruct (Include.target_file_id inc) as [tgt|];
      [| split; [by left | by intros [? | (? & ? & _ & ? & _)]]].
    simpl. destruct (Z.eqb_spec tgt 0) as [-> | Hne]; simpl.
    - split; [by left |]. intros [? | (? & ? & _ & [= <-] & ? & _)]; done.
    - rewrite nodes_add_edge. split.
      + intros [? | Hx]; [by left | right]. by exists src, tgt.
      + intros [? | (a & b & [= <-] & [= <-] & _ & Hx)]; [by left | by right]. }
  rewrite Hstep. split.
  - intros [[? | (a & b & ?)] | (inc' & a & b & Hin & ?)].
    + by left.
    + right. exists inc, a, b. split; [left | done].
    + right. exists inc', a, b. split; [by right | done].
  - intros [? | (inc' & a & b & [-> | Hin]%elem_of_cons & ?)].
    + by left; left.
    + left; right. by exists a, b.
    + right. by exists inc', a, b.
Qed.

Lemma elem_of_project_includes w d pid inc :
  inc ∈ project_includes w d pid
  ↔ inc ∈ includes d
    ∧ ∃ f, f ∈ files d
           ∧ Include.source_file_id inc = Some (FileRecord.id f)
           ∧ under_root w d pid f = true.
Proof.
  unfold project_includes. rewrite list_elem_of_bind. split.
  - intros (inc' & (f & Hif & Hf)%list_elem_of_bind & Hinc).
    destruct (bool_decide_reflect
                (Include.source_file_id inc' = Some (FileRecord.id f)))
      as [Hsrc | Hsrc]; simpl in Hif; [| by apply elem_of_nil in Hif].
    destruct (under_root w d pid f) eqn:Hroot;
      [| by apply elem_of_nil in Hif].
    apply list_elem_of_singleton in Hif as ->.
    split; [done |]. by exists f.
  - intros (Hinc & f & Hf & Hsrc & Hroot). exists inc. split; [| done].
    apply list_elem_of_bind. exists f. split; [| done].
    rewrite bool_decide_eq_true_2, Hroot by done. simpl. left.
Qed.

(** X14. The include graph of a project.  No node and no edge is kept
    twice and the ends of an edge are nodes.  The nodes are the ids of the
    files of the project together with the ends of the edges, so a file
    outside the project that a project file includes is a node as well.
    There is an edge from [u] to [v] exactly when some include row of a
    file row with id [u] whose path lies under the root has the target
    file [v], with [v] neither null nor 0; a file that includes itself
    gives an edge from the file to itself. *)
Theorem include_graph_nodes_and_edges (w : World) (d : Database) (pid : Z) :
  let G := build_include_graph w d pid in
  wf_graph G
  ∧ (∀ n, n ∈ nodes G
          ↔ (∃ f, f ∈ _get_project_files w d pid ∧ FileRecord.id f = n)
            ∨ ∃ m, edge G n m ∨ edge G m n)
  ∧ (∀ u v, edge G u v
            ↔ v ≠ 0
              ∧ ∃ inc f, inc ∈ includes d ∧ f ∈ files d
                         ∧ under_root w d pid f = true
                         ∧ FileRecord.id f = u
                         ∧ Include.source_file_id inc = Some u
                         ∧ Include.target_file_id inc = Some v).
Proof.
  intros G.
  assert (Hedge : ∀ u v, edge G u v
            ↔ v ≠ 0
              ∧ ∃ inc f, inc ∈ includes d ∧ f ∈ files d
                         ∧ under_root w d pid f = true
                         ∧ FileRecord.id f = u
                         ∧ Include.source_file_id inc = Some u
                         ∧ Include.target_file_id inc = Some v).
  { intros u v. unfold G. rewrite edge_build_include_graph. split.
    - intros (inc & (Hinc & f & Hf & Hsrc & Hroot)%elem_of_project_includes
              & Hu & Hv & Hne).
      split; [done |]. exists inc, f. repeat split; try done. congruence.
    - intros (Hne & inc & f & Hinc & Hf & Hroot & Hid & Hu & Hv).
      exists inc. repeat split; try done.
      apply elem_of_project_includes. split; [done |].
      exists f. repeat split; try done. congruence. }
  split; [apply wf_build_include_graph |]. split; [| exact Hedge].
  intros n. unfold G at 1, build_include_graph.
  rewrite nodes_add_includes, nodes_add_files. simpl. split.
  - intros [[?%elem_of_nil | Hfile] | (inc & a & b & Hinc & Ha & Hb & Hne & Hn)];
      [done | by left | right].
    assert (Hab : edge G a b).
    { apply edge_build_include_graph. by exists inc. }
    destruct Hn as [-> | ->]; [exists b; by left | exists a; by right].
  - intros [Hfile | (m & [Hnm | Hmn])]; [by left; right | |].
    + apply edge_build_include_graph in Hnm
        as (inc & Hinc & Ha & Hb & Hne).
      right. exists inc, n, m. repeat split; try done. by left.
    + apply edge_build_include_graph in Hmn
        as (inc & Hinc & Ha & Hb & Hne).
      right. exists inc, m, n. repeat split; try done. by right.
Qed.

End project_files.

(** * The graph library: the condensation of a graph *)

Section condensation_facts.
Import Props GraphProps Nx.

Lemma elem_of_range a b x : x ∈ range a b ↔ a ≤ x < b.
Proof.
  unfold range. rewrite list_elem_of_fmap. split.
  - intros (k & -> & Hk). apply elem_of_seq in Hk. lia.
  - intros Hx. exists (Z.to_nat (x - a)). split; [lia |].
    apply elem_of_seq. lia.
Qed.

Lemma edges_view_spec G u v :
  wf_graph G → (u, v) ∈ edges_view G ↔ edge G u v.
Proof.
  intros (_ & _ & Hends). unfold edges_view.
  rewrite list_elem_of_bind. split.
  - intros (u' & (v' & [= -> ->] & Hv)%list_elem_of_fmap & Hu).
    by apply successors_spec.
  - intros Huv. exists u. split; [| by apply (Hends u v)].
    apply list_elem_of_fmap. exists v. split; [done |].
    by apply successors_spec.
Qed.

(** *** Graphs built by adding edges *)

Lemma add_edges_spec {A} (g : A → option (Z * Z)) (l : list A) :
  ∀ G,
    let G' := foldl (λ G x, match g x with
                            | Some (i, j) => add_edge i j G
                            | None => G
                            end) G l in
    (wf_graph G → wf_graph G')
    ∧ (∀ a b, (a, b) ∈ edges G'
              ↔ (a, b) ∈ edges G ∨ ∃ x, x ∈ l ∧ g x = Some (a, b))
    ∧ (∀ n, n ∈ nodes G'
            ↔ n ∈ nodes G
              ∨ ∃ x a b, x ∈ l ∧ g x = Some (a, b) ∧ (n = a ∨ n = b)).
Proof.
  induction l as [|x l IH]; intros G.
  { simpl. split; [done |]. split.
    - intros a b. split; [by left |].
      by intros [? | (? & ?%elem_of_nil & _)].
    - intros n. split; [by left |].
      by intros [? | (? & ? & ? & ?%elem_of_nil & _)]. }
  simpl. set (G1 := match g x with
                    | Some (i, j) => add_edge i j G
                    | None => G
                    end).
  destruct (IH G1) as (Hwf & Hedges & Hnodes). split; [| split].
  - intros HG. apply Hwf. subst G1.
    destruct (g x) as [[i j]|]; [by apply wf_add_edge | done].
  - intros a b. rewrite Hedges. subst G1. split.
    + intros [Hab | (y & Hy & Hg)].
      * destruct (g x) as [[i j]|] eqn:Hgx; [| by left].
        apply edges_add_edge in Hab as [? | [= -> ->]]; [by left |].
        right. exists x. split; [left | done].
      * right. exists y. split; [by right | done].
    + intros [Hab | (y & [-> | Hy]%elem_of_cons & Hg)].
      * left. destruct (g x) as [[i j]|]; [| done].
        apply edges_add_edge. by left.
      * left. rewrite Hg. apply edges_add_edge. by right.
      * right. by exists y.
  - intros n. rewrite Hnodes. subst G1. split.
    + intros [Hn | (y & a & b & Hy & Hg & Hab)].
      * destruct (g x) as [[i j]|] eqn:Hgx; [| by left].
        apply nodes_add_edge in Hn as [? | Hn]; [by left |].
        right. exists x, i, j. split; [left | done].
      * right. exists y, a, b. split; [by right | done].
    + intros [Hn | (y & a & b & [-> | Hy]%elem_of_cons & Hg & Hab)].
      * left. destruct (g x) as [[i j]|]; [| done].
        apply nodes_add_edge. by left.
      * left. rewrite Hg. apply nodes_add_edge. by right.
      * right. by exists y, a, b.
Qed.

Lemma add_nodes_spec (l : list Z) :
  ∀ G,
    let G' := foldl (λ G i, add_node i G) G l in
    (wf_graph G → wf_graph G')
    ∧ edges G' = edges G
    ∧ (∀ n, n ∈ nodes G' ↔ n ∈ nodes G ∨ n ∈ l).
Proof.
  induction l as [|x l IH]; intros G.
  { simpl. split; [done |]. split; [done |]. intros n.
    split; [by left | by intros [? | ?%elem_of_nil]]. }
  simpl. destruct (IH (add_node x G)) as (Hwf & Hedges & Hnodes).
  split; [| split].
  - intros HG. by apply Hwf, wf_add_node.
  - by rewrite Hedges, edges_add_node.
  - intros n. rewrite Hnodes, nodes_add_node, elem_of_cons. tauto.
Qed.

(** *** The components and their numbers *)

Lemma sccs_spec G :
  wf_graph G →
  (∀ c, c ∈ strongly_connected_components G →
        ∃ v, v ∈ nodes G ∧ c = component_of G v)
  ∧ (∀ v, v ∈ nodes G →
          ∃ c, c ∈ strongly_connected_components G ∧ v ∈ c)
  ∧ all_disjoint (strongly_connected_components G).
Proof.
  intros HG.
  destruct (components_spec G HG (nodes G) ∅) as (Hsound & Hcomplete & Hdisj);
    [done | by intros x y ?%elem_of_empty |].
  split; [| split; [| done]].
  - intros c Hc. destruct (Hsound c Hc) as (v & Hv & _ & ->). by exists v.
  - intros v Hv. apply Hcomplete; [done | by apply not_elem_of_empty].
Qed.

Lemma all_disjoint_lookup cs (i j : nat) c c' x :
  all_disjoint cs → cs !! i = Some c → cs !! j = Some c' →
  x ∈ c → x ∈ c' → i = j.
Proof.
  intros Hcs. revert i j.
  induction Hcs as [|c0 cs Hc0 _ IH]; intros i j Hi Hj Hx Hx'; [done |].
  destruct i as [|i], j as [|j]; simpl in *.
  - done.
  - injection Hi as ->. exfalso.
    apply list_elem_of_lookup_2 in Hj.
    rewrite Forall_forall in Hc0. by apply (Hc0 c' Hj x).
  - injection Hj as ->. exfalso.
    apply list_elem_of_lookup_2 in Hi.
    rewrite Forall_forall in Hc0. by apply (Hc0 c Hi x).
  - f_equal. by apply IH.
Qed.

Lemma component_index_spec sccs n i :
  all_disjoint sccs →
  component_index sccs n = Some i ↔ in_component sccs i n.
Proof.
  intros Hdisj. unfold component_index, in_component. split.
  - destruct (list_find _ sccs) as [[k c]|] eqn:Hfind; [| done].
    simpl. intros [= <-]. apply list_find_Some in Hfind as (Hk & Hn & _).
    split; [lia |]. exists c. by rewrite Nat2Z.id.
  - intros (Hi & c & Hc & Hn).
    destruct (list_find (λ c : list Z, n ∈ c) sccs) as [[k c']|] eqn:Hfind.
    + simpl. apply list_find_Some in Hfind as (Hk & Hn' & _).
      rewrite (all_disjoint_lookup sccs k (Z.to_nat i) c' c n) by done.
      f_equal. lia.
    + apply list_find_None in Hfind. rewrite Forall_forall in Hfind.
      exfalso. apply (Hfind c); [by eapply list_elem_of_lookup_2 | done].
Qed.

Lemma in_component_node G i n :
  wf_graph G →
  in_component (strongly_connected_components G) i n →
  n ∈ nodes G ∧ i < len (strongly_connected_components G).
Proof.
  intros HG (Hi & c & Hc & Hn).
  destruct (sccs_spec G HG) as (Hsound & _ & _). split.
  - destruct (Hsound c) as (v & Hv & ->);
      [by eapply list_elem_of_lookup_2 |].
    apply (component_of_spec G v n HG Hv) in Hn as [Hvn _].
    by eapply path_stays_in_nodes.
  - apply lookup_lt_Some in Hc. unfold len. lia.
Qed.

Lemma node_in_component G n :
  wf_graph G → n ∈ nodes G →
  ∃ i, in_component (strongly_connected_components G) i n.
Proof.
  intros HG Hn. destruct (sccs_spec G HG) as (_ & Hcomplete & _).
  destruct (Hcomplete n Hn) as (c & Hc & Hnc).
  apply list_elem_of_lookup in Hc as [k Hk].
  exists (Z.of_nat k). split; [lia |]. exists c. by rewrite Nat2Z.id.
Qed.

(** The members of a component are the nodes that reach, and are reached
    from, any one of them. *)
Lemma in_component_mutually_reachable G i u v :
  wf_graph G →
  in_component (strongly_connected_components G) i u →
  in_component (strongly_connected_components G) i v
  ↔ mutually_reachable G u v.
Proof.
  intros HG (Hi & c & Hc & Hu).
  destruct (sccs_spec G HG) as (Hsound & _ & _).
  destruct (Hsound c) as (x & Hx & ->); [by eapply list_elem_of_lookup_2 |].
  apply (component_of_spec G x u HG Hx) in Hu. split.
  - intros (_ & c' & Hc' & Hv). rewrite Hc in Hc'. injection Hc' as <-.
    apply (component_of_spec G x v HG Hx) in Hv.
    eapply mutually_reachable_trans; [| exact Hv].
    by apply mutually_reachable_sym.
  - intros Huv. split; [done |]. exists (component_of G x). split; [done |].
    apply (component_of_spec G x v HG Hx).
    by eapply mutually_reachable_trans.
Qed.

Lemma in_component_unique G i j n :
  wf_graph G →
  in_component (strongly_connected_components G) i n →
  in_component (strongly_connected_components G) j n → i = j.
Proof.
  intros HG (Hi & c & Hc & Hn) (Hj & c' & Hc' & Hn').
  destruct (sccs_spec G HG) as (_ & _ & Hdisj).
  pose proof (all_disjoint_lookup _ _ _ _ _ n Hdisj Hc Hc' Hn Hn'). lia.
Qed.

(** *** The condensed graph *)

Lemma foldl_pointwise {A B} (f g : A → B → A) (l : list B) :
  (∀ a b, f a b = g a b) → ∀ a, foldl f a l = foldl g a l.
Proof.
  intros Hfg. induction l as [|b l IH]; intros a; [done |].
  simpl. by rewrite Hfg, IH.
Qed.

Lemma condensation_eq G :
  condensation G
  = (foldl (λ C e, match condensed_edge (strongly_connected_components G) e
                   with
                   | Some (i, j) => add_edge i j C
                   | None => C
                   end)
       (foldl (λ C i, add_node i C) empty
              (range 0 (len (strongly_connected_components G))))
       (edges_view G),
     strongly_connected_components G).
Proof.
  unfold condensation. f_equal. apply foldl_pointwise.
  intros C e. unfold condensed_edge.
  destruct (component_index _ e.1) as [i|]; [| done].
  destruct (component_index _ e.2) as [j|]; [| done].
  by destruct (bool_decide (i ≠ j)).
Qed.

Lemma condensation_spec G :
  wf_graph G →
  let C := (condensation G).1 in
  let sccs := strongly_connected_components G in
  wf_graph C
  ∧ (∀ i, i ∈ nodes C ↔ 0 ≤ i < len sccs)
  ∧ (∀ i j, edge C i j
            ↔ i ≠ j ∧ ∃ u v, edge G u v ∧ in_component sccs i u
                             ∧ in_component sccs j v).
Proof.
  intros HG C sccs. subst C. rewrite condensation_eq. simpl. fold sccs.
  destruct (sccs_spec G HG) as (_ & _ & Hdisj). fold sccs in Hdisj.
  destruct (add_nodes_spec (range 0 (len sccs)) empty)
    as (Hwf0 & Hedges0 & Hnodes0).
  destruct (add_edges_spec (condensed_edge sccs) (edges_view G)
              (foldl (λ C i, add_node i C) empty (range 0 (len sccs))))
    as (Hwf & Hedges & Hnodes).
  assert (Hstep : ∀ e i j, condensed_edge sccs e = Some (i, j)
            ↔ i ≠ j ∧ in_component sccs i e.1 ∧ in_component sccs j e.2).
  { intros e i j. unfold condensed_edge.
    rewrite <- !(component_index_spec sccs) by done.
    destruct (component_index sccs e.1) as [i'|];
      [| split; [done | by intros (_ & ? & _)]].
    destruct (component_index sccs e.2) as [j'|];
      [| split; [done | by intros (_ & _ & ?)]].
    destruct (bool_decide_reflect (i' ≠ j')) as [Hne | Heq].
    - split; [by intros [= -> ->] | by intros (_ & [= ->] & [= ->])].
    - split; [done |]. intros (Hne & [= ->] & [= ->]). done. }
  split; [| split].
  - apply Hwf, Hwf0, wf_empty.
  - intros i. rewrite Hnodes, Hnodes0, elem_of_range. simpl. split.
    + intros [[?%elem_of_nil | ?] | (e & a & b & He & Hab & Hi)];
        [done | done |].
      apply Hstep in Hab as (_ & Ha & Hb).
      pose proof (in_component_node G _ _ HG Ha) as [_ Ha'].
      pose proof (in_component_node G _ _ HG Hb) as [_ Hb'].
      destruct Ha as [Ha _], Hb as [Hb _]. fold sccs in Ha', Hb'.
      destruct Hi as [-> | ->]; lia.
    + intros Hi. left. by right.
  - intros i j. unfold edge. rewrite Hedges, Hedges0. simpl. split.
    + intros [?%elem_of_nil | ([u v] & He & Hij)]; [done |].
      apply Hstep in Hij as (Hne & Hu & Hv). simpl in *.
      split; [done |]. exists u, v. split; [| done].
      by apply edges_view_spec.
    + intros (Hne & u & v & Huv & Hu & Hv). right. exists (u, v).
      split; [by apply edges_view_spec |]. by apply Hstep.
Qed.

(** A path of the condensed graph stands for paths of the graph between
    the members of its ends. *)
Lemma condensation_path G i j :
  wf_graph G →
  rtc (edge (condensation G).1) i j →
  ∀ u v, in_component (strongly_connected_components G) i u →
         in_component (strongly_connected_components G) j v →
         rtc (edge G) u v.
Proof.
  intros HG Hpath.
  destruct (condensation_spec G HG) as (_ & _ & Hedge).
  induction Hpath as [i | i m j Him _ IH]; intros u v Hu Hv.
  - by apply (in_component_mutually_reachable G i u v HG Hu) in Hv as [? _].
  - apply Hedge in Him as (_ & a & b & Hab & Ha & Hb).
    apply (in_component_mutually_reachable G i u a HG Hu) in Ha as [Hua _].
    etrans; [exact Hua |]. eapply rtc_l; [exact Hab |]. by apply IH.
Qed.

Lemma condensation_acyclic G :
  wf_graph G → acyclic (condensation G).1.
Proof.
  intros HG i Hcycle.
  destruct (condensation_spec G HG) as (_ & _ & Hedge).
  apply tc_first_step in Hcycle as (m & Him & Hmi).
  apply Hedge in Him as (Hne & a & b & Hab & Ha & Hb).
  apply Hne. apply (in_component_unique G i m b HG); [| done].
  apply (in_component_mutually_reachable G i a b HG Ha). split.
  - by apply rtc_once.
  - by apply (condensation_path G m i HG Hmi).
Qed.

(** The sort of the condensed graph never fails. *)
Lemma condensation_sorted G :
  wf_graph G →
  ∃ order, topological_sort (condensation G).1 = TopoOk order
           ∧ topological (condensation G).1 order.
Proof.
  intros HG. destruct (condensation_spec G HG) as (HC & _ & _).
  pose proof (topological_sort_spec _ HC) as Hspec.
  destruct (topological_sort (condensation G).1) as [order| | |];
    [by exists order | | done..].
  exfalso. apply Hspec. by apply condensation_acyclic.
Qed.

End condensation_facts.

(** * The analyzer: layers of a graph with cycles *)

Section levelization_total.
Import Props GraphProps Fixtures Nx ArchitectureAnalyzer.

Lemma range_snoc (n : nat) :
  range 0 (Z.of_nat (S n)) = range 0 (Z.of_nat n) ++ [Z.of_nat n].
Proof.
  unfold range. rewrite !Z.sub_0_r, !Nat2Z.id, seq_S, fmap_app. done.
Qed.

Lemma length_range (n : nat) : length (range 0 (Z.of_nat n)) = n.
Proof. unfold range. by rewrite length_fmap, length_seq, Z.sub_0_r, Nat2Z.id. Qed.

Lemma levelize_condensed_snoc members order i :
  levelize_condensed members (order ++ [i])
  = foldl (λ layers file_id, <[file_id := len order]> layers)
          (levelize_condensed members order)
          (default [] (members !! Z.to_nat i)).
Proof.
  unfold levelize_condensed, len. rewrite length_app. simpl.
  rewrite Nat.add_1_r, range_snoc.
  rewrite zip_with_app by (by rewrite length_range).
  by rewrite foldl_app.
Qed.

Lemma foldl_insert_members (ms : list Z) (l : Z) n :
  ∀ L : gmap Z Z,
    foldl (λ layers file_id, <[file_id := l]> layers) L ms !! n
    = if decide (n ∈ ms) then Some l else L !! n.
Proof.
  induction ms as [|m ms IH]; intros L; cbn [foldl].
  - by rewrite decide_False by apply not_elem_of_nil.
  - rewrite IH. destruct (decide (n ∈ ms)) as [Hin | Hout].
    + by rewrite decide_True by (by right).
    + destruct (decide (n = m)) as [-> | Hne].
      * rewrite lookup_insert_eq. by rewrite decide_True by left.
      * rewrite lookup_insert_ne by done.
        rewrite decide_False; [done |]. by intros [? | ?]%elem_of_cons.
Qed.

(** The layer of a file is the place of its component in the order. *)
Lemma levelize_condensed_spec sccs order :
  all_disjoint sccs → NoDup order → (∀ i, i ∈ order → 0 ≤ i) →
  ∀ n l, levelize_condensed sccs order !! n = Some l
         ↔ 0 ≤ l ∧ ∃ i, order !! Z.to_nat l = Some i
                        ∧ in_component sccs i n.
Proof.
  intros Hdisj. induction order as [|i order IH] using rev_ind;
    intros Hnd Hpos n l.
  { unfold levelize_condensed. simpl. rewrite lookup_empty.
    split; [done | by intros (_ & ? & ? & _)]. }
  apply NoDup_app in Hnd as (Hnd & Hnot & _).
  assert (Hi : i ∉ order).
  { intros Hin. apply (Hnot i Hin). left. }
  assert (Hpos' : ∀ j, j ∈ order → 0 ≤ j).
  { intros j Hj. apply Hpos, elem_of_app. by left. }
  assert (Hi0 : 0 ≤ i).
  { apply Hpos, elem_of_app. right. left. }
  specialize (IH Hnd Hpos').
  rewrite levelize_condensed_snoc, foldl_insert_members.
  destruct (decide (n ∈ default [] (sccs !! Z.to_nat i))) as [Hin | Hout].
  - assert (Hcomp : in_component sccs i n).
    { split; [done |]. destruct (sccs !! Z.to_nat i) as [c|] eqn:Hc;
        [by exists c | by apply elem_of_nil in Hin]. }
    split.
    + intros [= <-]. unfold len. split; [lia |]. exists i.
      rewrite Nat2Z.id, lookup_app_r, Nat.sub_diag by done. done.
    + intros (Hl & j & Hj & Hcomp'). f_equal.
      destruct (decide (Z.to_nat l < length order)%nat) as [Hlt | Hge].
      * exfalso. rewrite lookup_app_l in Hj by done. apply Hi.
        destruct Hcomp as (_ & c & Hc & Hn), Hcomp' as (Hj0 & c' & Hc' & Hn').
        assert (Z.to_nat i = Z.to_nat j)
          by (by eapply (all_disjoint_lookup sccs _ _ c c' n)).
        assert (i = j) as -> by lia. by eapply list_elem_of_lookup_2.
      * apply lookup_lt_Some in Hj. rewrite length_app in Hj. simpl in Hj.
        unfold len. lia.
  - rewrite IH. split.
    + intros (Hl & j & Hj & Hcomp). split; [done |]. exists j.
      split; [| done]. rewrite lookup_app_l; [done |].
      by eapply lookup_lt_Some.
    + intros (Hl & j & Hj & Hcomp). split; [done |]. exists j.
      split; [| done].
      destruct (decide (Z.to_nat l < length order)%nat) as [Hlt | Hge].
      * by rewrite lookup_app_l in Hj.
      * exfalso. apply Hout.
        rewrite lookup_app_r in Hj by lia.
        destruct (Z.to_nat l - length order)%nat; [| done].
        injection Hj as <-. destruct Hcomp as (_ & c & -> & Hn). done.
Qed.

(** In a topological order an edge leads from an earlier place to a
    later one. *)
Lemma topo_list_places G l :
  topo_list G l → NoDup l →
  ∀ a b (pa pb : nat),
    l !! pa = Some a → l !! pb = Some b → edge G a b → (pa < pb)%nat.
Proof.
  induction 1 as [|l x Hl IH Hx]; intros Hnd a b pa pb Ha Hb Hab; [done |].
  apply NoDup_app in Hnd as (Hnd & Hnot & _).
  assert (Hxl : x ∉ l).
  { intros Hin. apply (Hnot x Hin). left. }
  assert (Hplace : ∀ y (p : nat), (l ++ [x]) !! p = Some y → y ∈ l →
                     l !! p = Some y).
  { intros y p Hp Hy.
    destruct (decide (p < length l)%nat) as [Hlt | Hge];
      [by rewrite lookup_app_l in Hp |].
    rewrite lookup_app_r in Hp by lia.
    destruct (p - length l)%nat; [| done]. injection Hp as ->. done. }
  assert (Hal : a ∈ l).
  { destruct (decide (pb < length l)%nat) as [Hlt | Hge].
    - rewrite lookup_app_l in Hb by done.
      apply (topo_list_closed G l Hl b); [| done].
      by eapply list_elem_of_lookup_2.
    - rewrite lookup_app_r in Hb by lia.
      destruct (pb - length l)%nat; [| done]. injection Hb as <-.
      by apply Hx. }
  pose proof (Hplace a pa Ha Hal) as Ha'.
  destruct (decide (pb < length l)%nat) as [Hlt | Hge].
  - rewrite lookup_app_l in Hb by done. by eapply IH.
  - apply lookup_lt_Some in Ha'. lia.
Qed.

(** *** The branch [compute_levelization] takes *)

Lemma compute_levelization_cyclic w d pid :
  let G := build_include_graph w d pid in
  ¬ acyclic G →
  ∃ order,
    topological (condensation G).1 order
    ∧ compute_levelization w d pid
      = levelize_condensed (strongly_connected_components G) order.
Proof.
  intros G Hcyclic.
  pose proof (wf_build_include_graph w d pid) as HG. fold G in HG.
  pose proof (topological_sort_spec G HG) as Hspec.
  destruct (condensation_sorted G HG) as (order & Hsort & Horder).
  exists order. split; [done |].
  unfold compute_levelization, is_directed_acyclic_graph. fold G.
  destruct (topological_sort G) as [order'| | |]; [| | done..].
  - exfalso. apply Hcyclic. by eapply topological_acyclic.
  - rewrite condensation_eq in *. simpl in *. by rewrite Hsort.
Qed.

(** In the branch for graphs with cycles every node has a layer, the
    place of its component in the order of the components. *)
Lemma condensed_layer_of_node G order n :
  wf_graph G → topological (condensation G).1 order →
  let L := levelize_condensed (strongly_connected_components G) order in
  (∀ l, L !! n = Some l
        ↔ 0 ≤ l ∧ ∃ i, order !! Z.to_nat l = Some i
                       ∧ in_component (strongly_connected_components G) i n)
  ∧ (n ∈ nodes G → ∃ l, L !! n = Some l).
Proof.
  intros HG (Hnd & Hall & Hlist) L.
  destruct (condensation_spec G HG) as (HC & Hnodes & Hedges).
  destruct (sccs_spec G HG) as (_ & _ & Hdisj).
  assert (Hspec := levelize_condensed_spec
            (strongly_connected_components G) order Hdisj Hnd).
  assert (Hpos : ∀ i, i ∈ order → 0 ≤ i).
  { intros i Hi%Hall%Hnodes. lia. }
  specialize (Hspec Hpos n). split; [exact Hspec |].
  intros Hn. destruct (node_in_component G n HG Hn) as [i Hi].
  assert (Hin : i ∈ order).
  { apply Hall, Hnodes. destruct Hi as [Hi0 Hi'].
    pose proof (in_component_node G i n HG (conj Hi0 Hi')) as [_ ?]. lia. }
  apply list_elem_of_lookup in Hin as [p Hp].
  exists (Z.of_nat p). apply Hspec. split; [lia |].
  exists i. by rewrite Nat2Z.id.
Qed.

Lemma layer_from_nonneg G (L : gmap Z Z) n :
  (∀ m l, L !! m = Some l → 0 ≤ l) → 0 ≤ layer_from G L n.
Proof.
  intros HL. unfold layer_from.
  destruct (predecessors G n) as [|p ps]; [done |].
  pose proof (foldl_max_ge_init ((λ p, default 0 (L !! p)) <$> ps)
                (default 0 (L !! p))) as Hmax.
  unfold max_of.
  assert (0 ≤ default 0 (L !! p)).
  { destruct (L !! p) as [l|] eqn:Hl; simpl; [by eapply HL | done]. }
  lia.
Qed.

Lemma levelize_acyclic_nonneg G order :
  ∀ n l, levelize_acyclic G order !! n = Some l → 0 ≤ l.
Proof.
  induction order as [|x order IH] using rev_ind; intros n l.
  - unfold levelize_acyclic. simpl. by rewrite lookup_empty.
  - rewrite levelize_snoc. destruct (decide (n = x)) as [-> | Hne].
    + rewrite lookup_insert_eq. intros [= <-]. by apply layer_from_nonneg.
    + rewrite lookup_insert_ne by done. apply IH.
Qed.

Lemma project_file_is_node w d pid f :
  f ∈ _get_project_files w d pid →
  FileRecord.id f ∈ nodes (build_include_graph w d pid).
Proof.
  intros Hf. unfold build_include_graph.
  apply nodes_add_includes. left. apply nodes_add_files. right. by exists f.
Qed.

(** X15. Every node of the include graph of a project gets a layer,
    whether the graph has cycles or not, and nothing else does; so every
    file of the project has a layer, the map is never the empty map of
    the failure branch unless the graph is empty, and no layer is
    negative. *)
Theorem every_node_of_the_include_graph_gets_a_layer (w : World)
    (d : Database) (pid : Z) :
  let G := build_include_graph w d pid in
  let L := compute_levelization w d pid in
  (∀ n, n ∈ nodes G ↔ is_Some (L !! n))
  ∧ (∀ f, f ∈ _get_project_files w d pid → is_Some (L !! FileRecord.id f))
  ∧ (∀ n l, L !! n = Some l → 0 ≤ l).
Proof.
  intros G L.
  pose proof (wf_build_include_graph w d pid) as HG. fold G in HG.
  assert (Hboth : (∀ n, n ∈ nodes G ↔ is_Some (L !! n))
                  ∧ (∀ n l, L !! n = Some l → 0 ≤ l)).
  { pose proof (topological_sort_spec G HG) as Hspec.
    destruct (topological_sort G) as [order0| | |] eqn:Hsort; [| | done..].
    - destruct (compute_levelization_acyclic w d pid) as (order & Horder & HL).
      { by eapply topological_acyclic. }
      fold G in Horder. subst L. rewrite HL. split.
      + intros n. destruct (levelize_topological G order Horder n)
          as [Hout Hin]. split.
        * intros Hn. destruct (Hin Hn) as (l & Hl & _). by exists l.
        * intros [l Hl]. destruct (decide (n ∈ nodes G)) as [| Hn]; [done |].
          specialize (Hout Hn). unfold G in Hout. congruence.
      + apply levelize_acyclic_nonneg.
    - destruct (compute_levelization_cyclic w d pid Hspec)
        as (order & Horder & HL).
      fold G in Horder. subst L. rewrite HL. fold G. split.
      + intros n. destruct (condensed_layer_of_node G order n HG Horder)
          as [Hl Hn]. split; [by intros [l ?]%Hn; eexists |].
        intros [l (_ & i & _ & Hi)%Hl].
        by apply (in_component_node G i n HG).
      + intros n l. destruct (condensed_layer_of_node G order n HG Horder)
          as [Hl _]. by intros [? _]%Hl. }
  destruct Hboth as [Hdom Hpos]. split; [done |]. split; [| done].
  intros f Hf. apply Hdom. by apply project_file_is_node.
Qed.

(** X16. Layers of a graph with a cycle.  Two nodes have the same layer
    exactly when each reaches the other, so the files of a cycle share a
    layer and no two components do; an include that leaves a component
    leads to a higher layer; and the layers are numbers below the number
    of components. *)
Theorem files_on_a_cycle_share_a_layer (w : World) (d : Database)
    (pid : Z) :
  let G := build_include_graph w d pid in
  let L := compute_levelization w d pid in
  ¬ acyclic G →
  (∀ u v, u ∈ nodes G → v ∈ nodes G →
          L !! u = L !! v ↔ mutually_reachable G u v)
  ∧ (∀ u v, edge G u v → ¬ mutually_reachable G u v →
            ∃ lu lv, L !! u = Some lu ∧ L !! v = Some lv ∧ lu < lv)
  ∧ (∀ n l, L !! n = Some l →
            0 ≤ l < len (strongly_connected_components G)).
Proof.
  intros G L Hcyclic.
  pose proof (wf_build_include_graph w d pid) as HG. fold G in HG.
  destruct (compute_levelization_cyclic w d pid Hcyclic)
    as (order & Horder & HL).
  fold G in Horder, HL. subst L. rewrite HL.
  set (sccs := strongly_connected_components G).
  assert (Hlayer := λ n, condensed_layer_of_node G order n HG Horder).
  fold sccs in Hlayer. simpl in Hlayer.
  destruct (condensation_spec G HG) as (HC & Hnodes & Hedges).
  fold sccs in Hnodes, Hedges.
  destruct Horder as (Hnd & Hall & Hlist).
  split; [| split].
  - intros u v Hu Hv.
    destruct (Hlayer u) as [Hospec Hosome], (Hlayer v) as [Hvspec Hvsome].
    destruct (Hosome Hu) as [lu Hlu]. rewrite Hlu.
    pose proof (proj1 (Hospec lu) Hlu) as (Hlu0 & i & Hi & Hiu). split.
    + intros Hsame. symmetry in Hsame.
      apply Hvspec in Hsame as (_ & j & Hj & Hjv).
      rewrite Hi in Hj. injection Hj as <-.
      by apply (in_component_mutually_reachable G i u v HG).
    + intros Huv. symmetry. apply Hvspec. split; [done |]. exists i.
      split; [done |].
      by apply (in_component_mutually_reachable G i u v HG).
  - intros u v Huv Hnot.
    destruct (proj2 (proj2 HG) u v Huv) as [Hu Hv].
    destruct (Hlayer u) as [Hospec Hosome], (Hlayer v) as [Hvspec Hvsome].
    destruct (Hosome Hu) as [lu Hlu], (Hvsome Hv) as [lv Hlv].
    exists lu, lv. split; [done |]. split; [done |].
    pose proof (proj1 (Hospec lu) Hlu) as (Hlu0 & i & Hi & Hiu).
    pose proof (proj1 (Hvspec lv) Hlv) as (Hlv0 & j & Hj & Hjv).
    assert (Hij : edge (condensation G).1 i j).
    { apply Hedges. split; [| by exists u, v].
      intros ->. apply Hnot.
      by apply (in_component_mutually_reachable G j u v HG). }
    pose proof (topo_list_places _ order Hlist Hnd i j _ _ Hi Hj Hij). lia.
  - intros n l Hl. destruct (Hlayer n) as [Hspec _].
    apply Hspec in Hl as (Hl0 & i & Hi & Hin). split; [done |].
    apply lookup_lt_Some in Hi.
    assert (length order ≤ length (nodes (condensation G).1))%nat.
    { apply NoDup_length_le; [done |]. intros x. apply Hall. }
    assert (length (nodes (condensation G).1) ≤ length sccs)%nat.
    { destruct HC as (HndC & _).
      transitivity (length (range 0 (len sccs))).
      - apply NoDup_length_le; [done |]. intros x Hx%Hnodes.
        by apply elem_of_range.
      - unfold len. by rewrite length_range. }
    unfold len. lia.
Qed.

End levelization_total.

(** * The analyzer: the statements at concrete inputs *)

Section graph_examples.
Import Props GraphProps Fixtures Nx ArchitectureAnalyzer.

(** X13 at the project [/p] with the files [/p/core/a.c] and
    [/p/ui/b.c], for the first of them. *)
Lemma project_files_are_those_below_the_root_witness :
  root_path arch_db 1 ≠ []
  ∧ literal (root_path arch_db 1 ++ sep world_a)
  ∧ (FileRecord.mk 1 (py "/p/core/a.c") 0 (Some 1) (Some 1)
       ∈ _get_project_files world_a arch_db 1
     ↔ FileRecord.mk 1 (py "/p/core/a.c") 0 (Some 1) (Some 1)
         ∈ files arch_db
       ∧ (py "/p/core/a.c" = root_path arch_db 1
          ∨ ∃ pre rest, py "/p/core/a.c" = pre ++ rest
                        ∧ same_up_to_case pre
                            (root_path arch_db 1 ++ sep world_a))).
Proof.
  assert (Hroot : root_path arch_db 1 ≠ []) by (by vm_compute).
  assert (Hlit : literal (root_path arch_db 1 ++ sep world_a)).
  { unfold literal. apply (bool_decide_unpack _). by vm_compute. }
  split; [exact Hroot |]. split; [exact Hlit |].
  exact (project_files_are_those_below_the_root world_a arch_db 1
           (FileRecord.mk 1 (py "/p/core/a.c") 0 (Some 1) (Some 1))
           Hroot Hlit).
Defined.

(** X16 at the project in which [a.h] includes [b.h], [b.h] includes
    [c.h] and [c.h] includes [a.h]. *)
Lemma files_on_a_cycle_share_a_layer_witness :
  ¬ acyclic (build_include_graph world_a cycle_db 1)
  ∧ (∀ u v, u ∈ nodes (build_include_graph world_a cycle_db 1) →
            v ∈ nodes (build_include_graph world_a cycle_db 1) →
            compute_levelization world_a cycle_db 1 !! u
            = compute_levelization world_a cycle_db 1 !! v
            ↔ mutually_reachable (build_include_graph world_a cycle_db 1)
                u v)
  ∧ (∀ u v, edge (build_include_graph world_a cycle_db 1) u v →
            ¬ mutually_reachable (build_include_graph world_a cycle_db 1)
                u v →
            ∃ lu lv, compute_levelization world_a cycle_db 1 !! u = Some lu
                     ∧ compute_levelization world_a cycle_db 1 !! v = Some lv
                     ∧ lu < lv)
  ∧ (∀ n l, compute_levelization world_a cycle_db 1 !! n = Some l →
            0 ≤ l < len (strongly_connected_components
                           (build_include_graph world_a cycle_db 1))).
Proof.
  assert (Hcycle : ¬ acyclic (build_include_graph world_a cycle_db 1)).
  { intros Hacyclic. apply (Hacyclic 1).
    apply (tc_l _ 1 2 1); [by vm_compute; set_solver |].
    apply (tc_l _ 2 3 1); [by vm_compute; set_solver |].
    apply tc_once. by vm_compute; set_solver. }
  split; [exact Hcycle |].
  exact (files_on_a_cycle_share_a_layer world_a cycle_db 1 Hcycle).
Defined.

End graph_examples.

(** * The analyzer: the module matrix and the hot spots *)

Section reports.
Import Props EngineProps GraphProps Fixtures ArchitectureAnalyzer Reports.

(** *** The module dependency matrix *)

Lemma include_count_between d mi mj :
  include_count d (module_file_ids d mi) (module_file_ids d mj)
  = len (filter (include_between d mi mj) (includes d)).
Proof.
  unfold include_count. f_equal. apply filter_ext_in. intros inc _.
  unfold include_between.
  rewrite andb_true_iff, !in_module_file_ids. done.
Qed.

Lemma file_in_module_unique d fid m m' :
  NoDup (FileRecord.id <$> files d) →
  file_in_module d fid m → file_in_module d fid m' →
  ModuleDefinition.id m = ModuleDefinition.id m'.
Proof.
  intros Hnd (f & Hf & -> & Hm) (f' & Hf' & [= Hid] & Hm').
  assert (f = f') as <- by (by eapply (NoDup_fmap_eq FileRecord.id)).
  congruence.
Qed.

Lemma lookup_filter_unique (ms : list ModuleDefinition.t) (i j : nat) m m' :
  NoDup (ModuleDefinition.id <$> ms) →
  ms !! i = Some m → ms !! j = Some m' →
  ModuleDefinition.id m = ModuleDefinition.id m' → i = j.
Proof.
  intros Hnd Hi Hj Hid.
  apply (NoDup_lookup _ i j (ModuleDefinition.id m) Hnd).
  - by rewrite list_lookup_fmap, Hi.
  - by rewrite list_lookup_fmap, Hj, Hid.
Qed.

(** X17. The module dependency matrix.  The list of modules holds the
    modules of the project in the order of the table; the matrix is
    square, with one row and one column per module; the diagonal is 0 and
    the entry of two different modules is the number of include rows
    whose source is a file of the first and whose target is a file of the
    second.  When file ids and module ids are unique, an include row is
    counted in one entry at most. *)
Theorem module_matrix_counts_includes_between_modules (d : Database)
    (pid : Z) :
  let ms := filter (λ m, ModuleDefinition.project_id m = pid) (modules d) in
  let r := get_module_dependency_matrix d pid in
  module_list r
  = (λ m, mkModuleEntry (ModuleDefinition.id m) (ModuleDefinition.name m)
                        (ModuleDefinition.layer m)) <$> ms
  ∧ length (matrix r) = length ms
  ∧ (∀ (i j : nat) mi mj,
       ms !! i = Some mi → ms !! j = Some mj →
       ∃ row, matrix r !! i = Some row
              ∧ length row = length ms
              ∧ row !! j
                = Some (if decide (i = j) then 0
                        else len (filter (include_between d mi mj)
                                         (includes d))))
  ∧ (NoDup (FileRecord.id <$> files d) →
     NoDup (ModuleDefinition.id <$> modules d) →
     ∀ inc (i j i' j' : nat) mi mj mi' mj',
       ms !! i = Some mi → ms !! j = Some mj →
       ms !! i' = Some mi' → ms !! j' = Some mj' →
       include_between d mi mj inc → include_between d mi' mj' inc →
       i = i' ∧ j = j').
Proof.
  intros ms r. subst r. unfold get_module_dependency_matrix. fold ms.
  split; [by destruct ms |]. split; [destruct ms; [done |] |].
  { simpl. by rewrite length_imap. }
  split.
  - intros i j mi mj Hi Hj.
    assert (Hmatrix : matrix (match ms with
              | [] => mkDependencyMatrix [] []
              | _ => mkDependencyMatrix
                  ((λ m, mkModuleEntry (ModuleDefinition.id m)
                           (ModuleDefinition.name m)
                           (ModuleDefinition.layer m)) <$> ms)
                  (imap (λ i src_module,
                     imap (λ j tgt_module,
                        if bool_decide (i = j) then 0
                        else include_count d (module_file_ids d src_module)
                               (module_file_ids d tgt_module)) ms) ms)
              end)
            = imap (λ i src_module,
                     imap (λ j tgt_module,
                        if bool_decide (i = j) then 0
                        else include_count d (module_file_ids d src_module)
                               (module_file_ids d tgt_module)) ms) ms).
    { by destruct ms. }
    rewrite Hmatrix. rewrite list_lookup_imap, Hi. simpl.
    eexists. split; [done |]. rewrite length_imap. split; [done |].
    rewrite list_lookup_imap, Hj. simpl. f_equal.
    destruct (decide (i = j)) as [-> | Hne].
    + by rewrite bool_decide_eq_true_2.
    + rewrite bool_decide_eq_false_2 by done. apply include_count_between.
  - intros Hfiles Hmods inc i j i' j' mi mj mi' mj' Hi Hj Hi' Hj'
      [Hsrc Htgt] [Hsrc' Htgt'].
    assert (Hms : NoDup (ModuleDefinition.id <$> ms))
      by (by apply NoDup_fmap_filter).
    split.
    + eapply (lookup_filter_unique ms); [done | done | done |].
      by eapply file_in_module_unique.
    + eapply (lookup_filter_unique ms); [done | done | done |].
      by eapply file_in_module_unique.
Qed.

(** *** The stable sort by descending key *)

Lemma insert_descending_perm {A} (key : A → Z) x l :
  insert_descending key x l ≡ₚ x :: l.
Proof.
  induction l as [|y l IH]; [done |]. simpl.
  destruct (key x <? key y); [| done]. rewrite IH. apply Permutation_swap.
Qed.

Lemma sort_descending_perm {A} (key : A → Z) l :
  sort_descending key l ≡ₚ l.
Proof.
  induction l as [|x l IH]; [done |]. unfold sort_descending in *. simpl.
  by rewrite insert_descending_perm, IH.
Qed.

Lemma insert_descending_filter {A} (key : A → Z) k x l :
  filter (λ y, key y = k) (insert_descending key x l)
  = filter (λ y, key y = k) (x :: l).
Proof.
  induction l as [|y l IH]; [done |]. simpl.
  destruct (Z.ltb_spec (key x) (key y)) as [Hlt | Hge]; [| done].
  rewrite (filter_cons _ y), IH, !filter_cons.
  destruct (decide (key y = k)), (decide (key x = k)); try done. lia.
Qed.

Lemma sort_descending_filter {A} (key : A → Z) k l :
  filter (λ y, key y = k) (sort_descending key l)
  = filter (λ y, key y = k) l.
Proof.
  induction l as [|x l IH]; [done |]. unfold sort_descending in *. simpl.
  by rewrite insert_descending_filter, !filter_cons, IH.
Qed.

Lemma insert_descending_sorted {A} (key : A → Z) x l :
  StronglySorted (λ a b, key b ≤ key a) l →
  StronglySorted (λ a b, key b ≤ key a) (insert_descending key x l).
Proof.
  induction 1 as [|y l Hl IH Hy]; simpl; [by repeat constructor |].
  destruct (Z.ltb_spec (key x) (key y)) as [Hlt | Hge].
  - constructor; [done |].
    rewrite insert_descending_perm. constructor; [lia | done].
  - constructor; [by constructor |]. constructor; [done |].
    eapply Forall_impl; [exact Hy |]. simpl. intros z Hz. lia.
Qed.

Lemma sort_descending_sorted {A} (key : A → Z) l :
  StronglySorted (λ a b, key b ≤ key a) (sort_descending key l).
Proof.
  induction l as [|x l IH]; [constructor |].
  by apply insert_descending_sorted.
Qed.

Lemma StronglySorted_descending {A} (key : A → Z) l :
  StronglySorted (λ a b, key b ≤ key a) l → descending key l.
Proof.
  induction 1 as [|x l Hl IH Hx]; intros i j a b Hij Hi Hj; [done |].
  destruct i as [|i], j as [|j]; simpl in *; try lia.
  - injection Hi as ->. rewrite Forall_forall in Hx. apply Hx.
    by eapply list_elem_of_lookup_2.
  - apply (IH i j a b); [lia | done | done].
Qed.

(** X18. The hot spots.  The list returned is cut from the metrics of
    the files of the project put in the order of descending total
    complexity, files of equal complexity staying in the order of the
    table: for a count [top_n] that is not negative it is the first
    [top_n] entries of that list, or all of them when there are fewer, so
    no file left out is more complex than a file listed; for a negative
    count it is the list without its last [-top_n] entries. *)
Theorem hotspots_are_the_most_complex_files (w : World) (d : Database)
    (pid : Z) (top_n : Z) :
  let all := metrics_of d <$> _get_project_files w d pid in
  ∃ sorted,
    stable_rearrangement total_complexity all sorted
    ∧ descending total_complexity sorted
    ∧ (0 ≤ top_n →
       get_hotspot_files w d pid top_n = take (Z.to_nat top_n) sorted
       ∧ ∀ x y, x ∈ get_hotspot_files w d pid top_n →
                y ∈ drop (Z.to_nat top_n) sorted →
                total_complexity y ≤ total_complexity x)
    ∧ (top_n < 0 →
       get_hotspot_files w d pid top_n
       = take (length sorted - Z.to_nat (- top_n)) sorted).
Proof.
  intros all. exists (sort_descending total_complexity all).
  pose proof (StronglySorted_descending total_complexity _
                (sort_descending_sorted total_complexity all)) as Hdesc.
  split; [| split; [done |]].
  { split; [apply sort_descending_perm |].
    intros k. apply sort_descending_filter. }
  unfold get_hotspot_files. fold all.
  set (sorted := sort_descending total_complexity all) in *.
  split.
  - intros Hn.
    assert (Hslice : slice sorted None (Some top_n)
                     = take (Z.to_nat top_n) sorted).
    { unfold slice, clamp, len. destruct (Z.ltb_spec top_n 0); [lia |].
      rewrite Z.sub_0_r.
      destruct (Z.le_gt_cases top_n (Z.of_nat (length sorted))).
      - by rewrite Z.min_l by lia.
      - rewrite Z.min_r by lia. rewrite Nat2Z.id.
        change (Z.to_nat 0) with 0%nat. rewrite drop_0.
        rewrite (take_ge sorted (length sorted)) by lia.
        rewrite (take_ge sorted (Z.to_nat top_n)) by lia. done. }
    split; [done |]. rewrite Hslice.
    intros x y [i Hi]%list_elem_of_lookup [j Hj]%list_elem_of_lookup.
    rewrite lookup_take_Some in Hi. destruct Hi as [Hi Hlt].
    rewrite lookup_drop in Hj.
    apply (Hdesc i (Z.to_nat top_n + j)%nat x y); [lia | done | done].
  - intros Hn. unfold slice, clamp, len.
    destruct (Z.ltb_spec top_n 0); [| lia]. rewrite Z.sub_0_r. simpl.
    f_equal. lia.
Qed.

(** *** The metrics of a file *)

Lemma foldl_add_sum (l : list Z) a : foldl Z.add a l = a + sum_list l.
Proof.
  revert a. unfold sum_list. induction l as [|x l IH]; intros a; simpl;
    [lia |]. rewrite IH. lia.
Qed.

Lemma functions_bound_complexity (l : list Symbol.t) :
  Forall symbol_row_ok l →
  len (filter (λ s, Symbol.kind s = FUNCTION) l)
  ≤ sum_list (Symbol.cyclomatic_complexity <$> l)
  ∧ (filter (λ s, Symbol.kind s = FUNCTION) l = [] →
     sum_list (Symbol.cyclomatic_complexity <$> l) = 0).
Proof.
  unfold len, sum_list.
  induction 1 as [|x l (_ & _ & _ & Hfun & Hother) _ [IH IH0]];
    [done |].
  rewrite filter_cons, fmap_cons. simpl.
  destruct (decide (Symbol.kind x = FUNCTION)) as [Hk | Hk].
  - specialize (Hfun Hk). simpl. split; [lia | done].
  - rewrite (Hother Hk). split; [lia |]. intros Hnil. by rewrite IH0.
Qed.

(** X19. The metrics of a file over a store whose symbol rows are as the
    engine writes them: the total complexity is at least the number of
    functions, which is at most the number of symbols; a file without
    functions has total complexity 0 and average 0; for a file with
    functions the average is the total divided by the number of functions
    and is at least 1. *)
Theorem file_metrics_bound_by_functions (d : Database) (f : FileRecord.t) :
  Forall symbol_row_ok (symbols d) →
  let m := metrics_of d f in
  0 ≤ function_count m ≤ symbol_count m
  ∧ function_count m ≤ total_complexity m
  ∧ (function_count m = 0 →
     total_complexity m = 0 ∧ avg_complexity m = 0%Q)
  ∧ (0 < function_count m →
     avg_complexity m
     = Qmake (total_complexity m) (Z.to_pos (function_count m))
     ∧ (1 <= avg_complexity m)%Q).
Proof.
  intros Hrows m. subst m. unfold metrics_of. simpl.
  set (S := filter (λ s, Symbol.file_id s = Some (FileRecord.id f))
                   (symbols d)).
  assert (HS : Forall symbol_row_ok S).
  { apply Forall_forall. intros x [_ Hx]%list_elem_of_filter.
    revert x Hx. by apply Forall_forall. }
  destruct (functions_bound_complexity S HS) as [Hle Hzero].
  rewrite foldl_add_sum, Z.add_0_l.
  assert (Hlen : (length (filter (λ s, Symbol.kind s = FUNCTION) S)
                  ≤ length S)%nat) by apply length_filter.
  unfold len in *. split; [lia |]. split; [done |]. split.
  - intros Hnone.
    assert (filter (λ s, Symbol.kind s = FUNCTION) S = []) as Hnil.
    { apply length_zero_iff_nil. lia. }
    rewrite Hzero by done. split; [done |].
    destruct (Z.ltb_spec 0 (Z.of_nat (length
                (filter (λ s, Symbol.kind s = FUNCTION) S)))); [lia | done].
  - intros Hsome.
    destruct (Z.ltb_spec 0 (Z.of_nat (length
                (filter (λ s, Symbol.kind s = FUNCTION) S)))); [| lia].
    split; [done |]. unfold Qle. simpl. rewrite Z2Pos.id by lia. lia.
Qed.

End reports.

(** * The service: the dependency structure matrix *)

Section dsm.
Import Props GraphProps Fixtures Nx ArchitectureAnalyzer Api.

(** *** The two dictionaries *)

Lemma file_map_snoc F g :
  file_map (F ++ [g]) = <[FileRecord.id g := g]> (file_map F).
Proof. unfold file_map. by rewrite foldl_snoc. Qed.

Lemma file_map_spec F x f :
  NoDup (FileRecord.id <$> F) →
  file_map F !! x = Some f ↔ f ∈ F ∧ FileRecord.id f = x.
Proof.
  induction F as [|g F IH] using rev_ind; intros Hnd.
  { unfold file_map. simpl. rewrite lookup_empty.
    split; [done | by intros [?%elem_of_nil _]]. }
  rewrite fmap_app in Hnd. apply NoDup_app in Hnd as (Hnd & Hnot & _).
  rewrite file_map_snoc, elem_of_app, list_elem_of_singleton.
  destruct (decide (x = FileRecord.id g)) as [-> | Hne].
  - rewrite lookup_insert_eq. split.
    + intros [= <-]. split; [by right | done].
    + intros [[Hin | ->] Hid]; [| done]. exfalso.
      apply (Hnot (FileRecord.id g)); [| left].
      rewrite <- Hid. by apply list_elem_of_fmap_2.
  - rewrite lookup_insert_ne by done. rewrite IH by done. split.
    + intros [? ?]. split; [by left | done].
    + intros [[? | ->] ?]; [done | done].
Qed.

Lemma index_map_snoc O g :
  index_map (O ++ [g]) = <[FileRecord.id g := length O]> (index_map O).
Proof.
  unfold index_map. rewrite imap_app, foldl_app. simpl.
  by rewrite Nat.add_0_r.
Qed.

Lemma index_map_spec O x (i : nat) :
  NoDup (FileRecord.id <$> O) →
  index_map O !! x = Some i
  ↔ ∃ f, O !! i = Some f ∧ FileRecord.id f = x.
Proof.
  induction O as [|g O IH] using rev_ind; intros Hnd.
  { unfold index_map. simpl. rewrite lookup_empty.
    split; [done | by intros (? & ? & _)]. }
  rewrite fmap_app in Hnd. apply NoDup_app in Hnd as (Hnd & Hnot & _).
  rewrite index_map_snoc.
  destruct (decide (x = FileRecord.id g)) as [-> | Hne].
  - rewrite lookup_insert_eq. split.
    + intros [= <-]. exists g. by rewrite lookup_app_r, Nat.sub_diag.
    + intros (f & Hf & Hid). f_equal.
      destruct (decide (i < length O)%nat) as [Hlt | Hge].
      * exfalso. rewrite lookup_app_l in Hf by done.
        apply (Hnot (FileRecord.id g)); [| left]. rewrite <- Hid.
        apply list_elem_of_fmap_2. by eapply list_elem_of_lookup_2.
      * apply lookup_lt_Some in Hf. rewrite length_app in Hf. simpl in Hf.
        lia.
  - rewrite lookup_insert_ne by done. rewrite IH by done. split.
    + intros (f & Hf & Hid). exists f. split; [| done].
      rewrite lookup_app_l; [done |]. by eapply lookup_lt_Some.
    + intros (f & Hf & Hid). exists f. split; [| done].
      destruct (decide (i < length O)%nat) as [Hlt | Hge];
        [by rewrite lookup_app_l in Hf |].
      rewrite lookup_app_r in Hf by lia.
      destruct (i - length O)%nat; [| done]. injection Hf as ->. done.
Qed.

(** *** The graph of the matrix *)

Lemma dsm_graph_eq F incs :
  dsm_graph F incs
  = foldl (λ G inc, match dsm_edge inc with
                    | Some (i, j) => add_edge i j G
                    | None => G
                    end)
          (foldl (λ G f, add_node (FileRecord.id f) G) empty F) incs.
Proof.
  unfold dsm_graph. apply foldl_pointwise. intros G inc. unfold dsm_edge.
  destruct (Include.source_file_id inc) as [src|]; [| done].
  destruct (Include.target_file_id inc) as [tgt|]; [| done].
  by destruct (bool_decide (src ≠ tgt)).
Qed.

Lemma dsm_edge_Some inc u v :
  dsm_edge inc = Some (u, v)
  ↔ Include.source_file_id inc = Some u
    ∧ Include.target_file_id inc = Some v ∧ u ≠ v.
Proof.
  unfold dsm_edge.
  destruct (Include.source_file_id inc) as [src|];
    [| split; [done | by intros [? _]]].
  destruct (Include.target_file_id inc) as [tgt|];
    [| split; [done | by intros (_ & ? & _)]].
  destruct (bool_decide_reflect (src ≠ tgt)) as [Hne | Heq].
  - split; [by intros [= -> ->] | by intros ([= ->] & [= ->] & _)].
  - split; [done |]. intros ([= ->] & [= ->] & ?). done.
Qed.

Lemma elem_of_includes_among d ids inc :
  inc ∈ includes_among d ids
  ↔ inc ∈ includes d
    ∧ (∃ u, Include.source_file_id inc = Some u ∧ u ∈ ids)
    ∧ (∃ v, Include.target_file_id inc = Some v ∧ v ∈ ids).
Proof.
  unfold includes_among. rewrite list_elem_of_filter, andb_true_iff.
  unfold in_.
  destruct (Include.source_file_id inc) as [u|],
           (Include.target_file_id inc) as [v|]; simpl;
    rewrite ?bool_decide_eq_true; split;
    try (by intros [[? ?] ?]); try (by intros (_ & [? [? _]] & _));
    try (by intros (_ & _ & [? [? _]])).
  - intros [[Hu Hv] Hin]. split; [done |]. split; [by exists u | by exists v].
  - intros (Hin & (u' & [= <-] & Hu) & (v' & [= <-] & Hv)). done.
Qed.

Lemma dsm_graph_spec d F :
  let ids := FileRecord.id <$> F in
  let G := dsm_graph F (includes_among d ids) in
  wf_graph G
  ∧ (∀ x, x ∈ nodes G ↔ x ∈ ids)
  ∧ (∀ u v, edge G u v
            ↔ u ≠ v ∧ u ∈ ids ∧ v ∈ ids
              ∧ ∃ inc, inc ∈ includes d
                       ∧ Include.source_file_id inc = Some u
                       ∧ Include.target_file_id inc = Some v).
Proof.
  intros ids G. subst G. rewrite dsm_graph_eq.
  destruct (add_edges_spec dsm_edge (includes_among d ids)
              (foldl (λ G f, add_node (FileRecord.id f) G) empty F))
    as (Hwf & Hedges & Hnodes).
  assert (Hedge : ∀ u v,
            (∃ inc, inc ∈ includes_among d ids ∧ dsm_edge inc = Some (u, v))
            ↔ u ≠ v ∧ u ∈ ids ∧ v ∈ ids
              ∧ ∃ inc, inc ∈ includes d
                       ∧ Include.source_file_id inc = Some u
                       ∧ Include.target_file_id inc = Some v).
  { intros u v. split.
    - intros (inc & (Hin & (u' & Hu' & Hu) & (v' & Hv' & Hv))
                      %elem_of_includes_among
              & (Hsrc & Htgt & Hne)%dsm_edge_Some).
      rewrite Hsrc in Hu'. rewrite Htgt in Hv'.
      injection Hu' as <-. injection Hv' as <-.
      repeat split; try done. by exists inc.
    - intros (Hne & Hu & Hv & inc & Hin & Hsrc & Htgt). exists inc. split.
      + apply elem_of_includes_among. split; [done |].
        split; [by exists u | by exists v].
      + by apply dsm_edge_Some. }
  split; [| split].
  - apply Hwf. apply wf_foldl; [| apply wf_empty].
    intros G f HG. by apply wf_add_node.
  - intros x. rewrite Hnodes, nodes_add_files. simpl. unfold ids.
    rewrite list_elem_of_fmap. split.
    + intros [[?%elem_of_nil | (f & Hf & <-)]
             | (inc & a & b & Hinc & Hab & Hx)]; [done | by exists f |].
      destruct (proj1 (Hedge a b)) as (_ & Ha & Hb & _); [by exists inc |].
      unfold ids in Ha, Hb. rewrite list_elem_of_fmap in Ha, Hb.
      destruct Ha as (fa & -> & Hfa), Hb as (fb & -> & Hfb).
      destruct Hx as [-> | ->]; [by exists fa | by exists fb].
    + intros (f & -> & Hf). left. right. by exists f.
  - intros u v. unfold edge. rewrite Hedges, edges_add_nodes. simpl.
    rewrite <- Hedge. split; [by intros [?%elem_of_nil | ?] | by right].
Qed.

(** *** The order of the files *)

Lemma NoDup_members sccs (order : list Z) :
  all_disjoint sccs → Forall (NoDup (A:=Z)) sccs →
  NoDup order → (∀ i, i ∈ order → 0 ≤ i) →
  NoDup (i ← order; default [] (sccs !! Z.to_nat i)).
Proof.
  intros Hdisj Hcs Hnd Hpos. induction Hnd as [|i order Hi Hnd IH].
  { constructor. }
  simpl. apply NoDup_app. split; [| split].
  - destruct (sccs !! Z.to_nat i) as [c|] eqn:Hc; simpl; [| constructor].
    rewrite Forall_forall in Hcs. apply Hcs.
    by eapply list_elem_of_lookup_2.
  - intros x Hx (j & Hxj & Hj)%list_elem_of_bind.
    destruct (sccs !! Z.to_nat i) as [c|] eqn:Hc;
      [| by apply elem_of_nil in Hx].
    destruct (sccs !! Z.to_nat j) as [c'|] eqn:Hc';
      [| by apply elem_of_nil in Hxj].
    simpl in *.
    pose proof (all_disjoint_lookup sccs _ _ c c' x Hdisj Hc Hc' Hx Hxj).
    assert (0 ≤ i) by (apply Hpos; left).
    assert (0 ≤ j) by (apply Hpos; by right).
    apply Hi. by replace i with j by lia.
  - apply IH. intros j Hj. apply Hpos. by right.
Qed.

(** The order is defined on every graph built by [add_node] and
    [add_edge]: it lists every node once, and on a graph without cycles
    it is a topological order. *)
Lemma sorted_ids_spec G :
  wf_graph G →
  ∃ ids, sorted_ids G = Some ids
         ∧ NoDup ids
         ∧ (∀ x, x ∈ ids ↔ x ∈ nodes G)
         ∧ (acyclic G → topological G ids).
Proof.
  intros HG. unfold sorted_ids.
  pose proof (topological_sort_spec G HG) as Hspec.
  destruct (topological_sort G) as [order| | |] eqn:Hsort; [| | done..].
  - exists order. pose proof Hspec as (Hnd & Hall & Hl).
    split; [done |]. split; [done |]. split; [done |]. done.
  - destruct (condensation_sorted G HG) as (order & Hsorted & Horder).
    destruct (condensation_spec G HG) as (HC & Hnodes & _).
    destruct (sccs_spec G HG) as (Hsound & _ & Hdisj).
    rewrite condensation_eq in *. simpl in *. rewrite Hsorted. simpl.
    destruct Horder as (Hnd & Hall & _).
    assert (Hpos : ∀ i, i ∈ order → 0 ≤ i).
    { intros i Hi%Hall%Hnodes. lia. }
    eexists. split; [done |]. split; [| split; [| by intros ?]].
    + apply NoDup_members; try done. apply Forall_forall.
      intros c (v & Hv & ->)%Hsound. by apply NoDup_component_of.
    + intros x. rewrite list_elem_of_bind. split.
      * intros (i & Hx & Hi).
        destruct (strongly_connected_components G !! Z.to_nat i)
          as [c|] eqn:Hc; [| by apply elem_of_nil in Hx].
        apply (in_component_node G i x HG). split; [by apply Hpos |].
        by exists c.
      * intros Hx. destruct (node_in_component G x HG Hx) as [i Hi].
        exists i. split.
        -- destruct Hi as (_ & c & -> & Hxc). done.
        -- apply Hall, Hnodes.
           pose proof (in_component_node G i x HG Hi) as [_ ?].
           destruct Hi as [? _]. lia.
Qed.

(** *** The order inside [sorted_ids]: the components as blocks *)

Lemma lookup_bind_block {A B} (g : A → list B) (l : list A) (k : nat) x :
  (l ≫= g) !! k = Some x →
  ∃ (p : nat) a (q : nat),
    l !! p = Some a ∧ g a !! q = Some x
    ∧ k = (length (take p l ≫= g) + q)%nat.
Proof.
  revert k. induction l as [|a l IH]; intros k; [done |].
  rewrite bind_cons. intros Hk.
  destruct (decide (k < length (g a))%nat) as [Hlt | Hge].
  - rewrite lookup_app_l in Hk by done. by exists 0%nat, a, k.
  - rewrite lookup_app_r in Hk by lia.
    destruct (IH _ Hk) as (p & b & q & Hp & Hq & Hpos).
    exists (S p), b, q. split; [done |]. split; [done |].
    rewrite firstn_cons, bind_cons, length_app. lia.
Qed.

Lemma block_start_next {A B} (g : A → list B) (l : list A) (p p' : nat) a :
  l !! p = Some a → (p < p')%nat →
  (length (take p l ≫= g) + length (g a) ≤ length (take p' l ≫= g))%nat.
Proof.
  intros Hp Hlt.
  assert (Htake : take p' l = take (S p) l ++ drop (S p) (take p' l)).
  { rewrite <- (take_drop (S p) (take p' l)) at 1.
    rewrite take_take. by replace (S p `min` p')%nat with (S p) by lia. }
  rewrite Htake, (take_S_r l p a Hp), !bind_app, !length_app.
  simpl. rewrite app_nil_r. lia.
Qed.

Lemma sorted_ids_order G ids :
  wf_graph G → sorted_ids G = Some ids →
  (∀ (i j : nat) u v,
     ids !! i = Some u → ids !! j = Some v → edge G u v → (j < i)%nat →
     mutually_reachable G u v)
  ∧ (∀ (i k j : nat) u x v,
       (i < k < j)%nat →
       ids !! i = Some u → ids !! k = Some x → ids !! j = Some v →
       mutually_reachable G u v → mutually_reachable G u x).
Proof.
  intros HG. unfold sorted_ids.
  pose proof (topological_sort_spec G HG) as Hspec.
  destruct (topological_sort G) as [order| | |] eqn:Hsort; [| | done..].
  - intros [= <-]. pose proof Hspec as (Hnd & Hall & Hl).
    pose proof (topological_acyclic G order HG Hspec) as Hacyclic.
    split.
    + intros i j u v Hi Hj Huv Hlt.
      pose proof (topo_list_places G order Hl Hnd u v i j Hi Hj Huv). lia.
    + intros i k j u x v Hikj Hi Hk Hj [Huv Hvu].
      assert (u = v) as <-.
      { apply rtc_tc in Huv as [Huv | Huv]; [done |].
        apply rtc_tc in Hvu as [Hvu | Hvu]; [done |].
        destruct (Hacyclic u). by etrans. }
      pose proof (NoDup_lookup order i j u Hnd Hi Hj). lia.
  - destruct (condensation_sorted G HG) as (order & Hsorted & Horder).
    destruct (condensation_spec G HG) as (HC & Hnodes & Hedges).
    rewrite condensation_eq in *. simpl in *. rewrite Hsorted. simpl.
    intros [= <-]. destruct Horder as (Hnd & Hall & Hl).
    set (sccs := strongly_connected_components G) in *.
    set (g := λ scc_idx : Z, default [] (sccs !! Z.to_nat scc_idx)).
    assert (Hblock : ∀ (i : nat) u, (order ≫= g) !! i = Some u →
              ∃ (p : nat) a (q : nat),
                order !! p = Some a ∧ in_component sccs a u
                ∧ i = (length (take p order ≫= g) + q)%nat
                ∧ (q < length (g a))%nat).
    { intros i u Hi.
      destruct (lookup_bind_block g order i u Hi)
        as (p & a & q & Hp & Hq & Hpos).
      exists p, a, q. split; [done |]. split; [| split; [done |]].
      - split.
        + apply (list_elem_of_lookup_2 order p a), Hall, Hnodes in Hp. lia.
        + unfold g in Hq. destruct (sccs !! Z.to_nat a) as [c|]; [| done].
          exists c. split; [done |]. by eapply list_elem_of_lookup_2.
      - by eapply lookup_lt_Some. }
    split.
    + intros i j u v Hi Hj Huv Hlt.
      destruct (Hblock i u Hi) as (pu & a & qu & Hpu & Hau & -> & Hqu).
      destruct (Hblock j v Hj) as (pv & b & qv & Hpv & Hbv & -> & Hqv).
      destruct (decide (a = b)) as [<- | Hab].
      { by apply (in_component_mutually_reachable G a u v HG Hau). }
      assert (Hedge : edge (condensation G).1 a b).
      { rewrite condensation_eq. simpl. apply Hedges. split; [done |].
        by exists u, v. }
      rewrite condensation_eq in Hedge. simpl in Hedge.
      pose proof (topo_list_places _ order Hl Hnd a b pu pv Hpu Hpv Hedge)
        as Hplaces.
      pose proof (block_start_next g order pu pv a Hpu Hplaces). lia.
    + intros i k j u x v Hikj Hi Hk Hj Huv.
      destruct (Hblock i u Hi) as (pu & a & qu & Hpu & Hau & -> & Hqu).
      destruct (Hblock k x Hk) as (px & b & qx & Hpx & Hbx & -> & Hqx).
      destruct (Hblock j v Hj) as (pv & c & qv & Hpv & Hcv & -> & Hqv).
      apply (in_component_mutually_reachable G a u v HG Hau) in Huv.
      pose proof (in_component_unique G _ _ v HG Huv Hcv) as <-.
      assert (pu = pv) as <-.
      { exact (NoDup_lookup order pu pv a Hnd Hpu Hpv). }
      apply (in_component_mutually_reachable G a u x HG Hau).
      destruct (decide (px = pu)) as [-> | Hne].
      { assert (b = a) as -> by congruence. done. }
      destruct (decide (px < pu)%nat) as [Hlt | Hge].
      * pose proof (block_start_next g order px pu b Hpx Hlt). lia.
      * pose proof (block_start_next g order pu px a Hpu ltac:(lia)). lia.
Qed.

Lemma omap_file_map F (l : list Z) :
  NoDup (FileRecord.id <$> F) →
  (∀ x, x ∈ l → x ∈ FileRecord.id <$> F) →
  FileRecord.id <$> omap (λ fid, file_map F !! fid) l = l.
Proof.
  intros Hnd. induction l as [|x l IH]; intros Hl; [done |].
  destruct (proj1 (list_elem_of_fmap _ _ _) (Hl x ltac:(left)))
    as (f & Hid & Hf).
  simpl. rewrite (proj2 (file_map_spec F x f Hnd)) by done. simpl.
  f_equal; [done |]. apply IH.
  intros y Hy. apply Hl. by right.
Qed.

Lemma order_files_spec F ids :
  NoDup (FileRecord.id <$> F) → NoDup ids →
  (∀ x, x ∈ ids ↔ x ∈ FileRecord.id <$> F) →
  order_files F ids ≡ₚ F ∧ FileRecord.id <$> order_files F ids = ids.
Proof.
  intros HF Hids Hsame. unfold order_files.
  assert (Hrest : filter (λ f, FileRecord.id f ∉ (list_to_set ids : gset Z)) F
                  = []).
  { apply filter_none, Forall_forall. intros f Hf Hout. apply Hout.
    apply elem_of_list_to_set, Hsame. by apply list_elem_of_fmap_2. }
  rewrite Hrest, app_nil_r.
  assert (Hmap : FileRecord.id <$> omap (λ fid, file_map F !! fid) ids = ids).
  { apply omap_file_map; [done |]. intros x. apply Hsame. }
  split; [| done]. apply NoDup_Permutation.
  - apply (NoDup_fmap_1 FileRecord.id). by rewrite Hmap.
  - by apply (NoDup_fmap_1 FileRecord.id).
  - intros f. rewrite list_elem_of_omap. split.
    + intros (x & Hx & Hf). by apply (file_map_spec F x f HF) in Hf as [? _].
    + intros Hf. exists (FileRecord.id f). split.
      * apply Hsame. by apply list_elem_of_fmap_2.
      * by apply file_map_spec.
Qed.

(** *** The counts *)

Lemma entry_replicate (n i j : nat) :
  (i < n)%nat → (j < n)%nat →
  entry (replicate n (replicate n 0)) i j = Some 0.
Proof.
  intros Hi Hj. unfold entry.
  rewrite lookup_replicate_2 by done. simpl.
  by rewrite lookup_replicate_2.
Qed.

Lemma increment_spec n M (i j : nat) :
  square n M → (i < n)%nat → (j < n)%nat →
  ∃ M', increment M i j = Some M'
        ∧ square n M'
        ∧ ∀ i' j', entry M' i' j'
                   = if decide (i' = i ∧ j' = j)
                     then (λ x, x + 1) <$> entry M i j
                     else entry M i' j'.
Proof.
  intros [Hlen Hrows] Hi Hj. unfold increment, entry.
  destruct (lookup_lt_is_Some_2 M i) as [row Hrow]; [lia |].
  assert (Hrowlen : length row = n).
  { rewrite Forall_forall in Hrows. apply Hrows.
    by eapply list_elem_of_lookup_2. }
  destruct (lookup_lt_is_Some_2 row j) as [x Hx]; [lia |].
  rewrite Hrow. simpl. rewrite Hx. simpl. eexists. split; [done |]. split.
  - split; [by rewrite length_insert |].
    apply Forall_insert; [done |]. by rewrite length_insert.
  - intros i' j'. destruct (decide (i' = i)) as [-> | Hne].
    + rewrite list_lookup_insert_eq by lia. simpl.
      destruct (decide (j' = j)) as [-> | Hne'].
      * rewrite decide_True by done. by rewrite list_lookup_insert_eq by lia.
      * rewrite decide_False by (by intros [_ ?]).
        rewrite list_lookup_insert_ne by done. by rewrite Hrow.
    + rewrite decide_False by (by intros [? _]).
      by rewrite list_lookup_insert_ne by done.
Qed.

Lemma count_includes_spec O incs :
  NoDup (FileRecord.id <$> O) →
  ∃ M, count_includes O incs = Some M
       ∧ square (length O) M
       ∧ ∀ i j : nat, (i < length O)%nat → (j < length O)%nat →
           entry M i j
           = Some (len (filter
                          (λ inc,
                             Include.source_file_id inc ≫= (index_map O !!.)
                             = Some i
                             ∧ Include.target_file_id inc ≫= (index_map O !!.)
                               = Some j)
                          incs)).
Proof.
  intros HO. unfold count_includes.
  induction incs as [|inc incs IH] using rev_ind.
  { eexists. split; [done |]. split.
    - split; [by rewrite length_replicate |].
      apply Forall_replicate. by rewrite length_replicate.
    - intros i j Hi Hj. by apply entry_replicate. }
  destruct IH as (M & HM & Hsq & Hent).
  rewrite foldl_snoc, HM. simpl.
  assert (Hcount : ∀ (P : Include.t → Prop) `{∀ x, Decision (P x)},
            len (filter P (incs ++ [inc]))
            = len (filter P incs) + (if decide (P inc) then 1 else 0)).
  { intros P HP. unfold len. rewrite filter_app, length_app, filter_cons.
    destruct (decide (P inc)); simpl; lia. }
  destruct (Include.source_file_id inc ≫= (index_map O !!.))
    as [src_idx|] eqn:Hsrc.
  2: { exists M. split; [done |]. split; [done |]. intros i j Hi Hj.
       rewrite Hent, Hcount by done. rewrite decide_False by (intros [? _]; congruence).
       by rewrite Z.add_0_r. }
  destruct (Include.target_file_id inc ≫= (index_map O !!.))
    as [tgt_idx|] eqn:Htgt.
  2: { exists M. split; [done |]. split; [done |]. intros i j Hi Hj.
       rewrite Hent, Hcount by done. rewrite decide_False by (intros [_ ?]; congruence).
       by rewrite Z.add_0_r. }
  assert (Hbound : ∀ o (k : nat), o ≫= (index_map O !!.) = Some k →
                     (k < length O)%nat).
  { intros [x|] k; [| done]. simpl.
    intros (f & Hf & _)%index_map_spec; [| done]. by eapply lookup_lt_Some. }
  pose proof (Hbound _ _ Hsrc) as Hsrc'.
  pose proof (Hbound _ _ Htgt) as Htgt'.
  destruct (increment_spec _ M src_idx tgt_idx Hsq Hsrc' Htgt')
    as (M' & HM' & Hsq' & Hent').
  exists M'. split; [done |]. split; [done |]. intros i j Hi Hj.
  rewrite Hent', Hcount. destruct (decide (i = src_idx ∧ j = tgt_idx))
    as [[-> ->] | Hne].
  - rewrite Hent by done. simpl. by rewrite decide_True.
  - rewrite Hent by done. rewrite decide_False; [by rewrite Z.add_0_r |].
    intros [Hi' Hj']. apply Hne. split; congruence.
Qed.

(** *** The endpoint *)

Lemma NoDup_ids_filter (P : FileRecord.t → Prop) `{∀ f, Decision (P f)} F :
  NoDup (FileRecord.id <$> F) → NoDup (FileRecord.id <$> filter P F).
Proof.
  intros HF. eapply sublist_NoDup; [exact HF |].
  apply fmap_sublist, sublist_filter.
Qed.

Lemma counted_includes d O (i j : nat) fi fj :
  NoDup (FileRecord.id <$> O) →
  O !! i = Some fi → O !! j = Some fj →
  filter (λ inc,
            Include.source_file_id inc ≫= (index_map O !!.) = Some i
            ∧ Include.target_file_id inc ≫= (index_map O !!.) = Some j)
         (includes_among d (FileRecord.id <$> O))
  = filter (include_from_to fi fj) (includes d).
Proof.
  intros HO Hi Hj. unfold includes_among. rewrite list_filter_filter.
  apply filter_ext_in. intros inc _. unfold include_from_to, in_.
  assert (Hplace : ∀ (k : nat) f x, O !! k = Some f →
            index_map O !! x = Some k ↔ x = FileRecord.id f).
  { intros k f x Hk. rewrite index_map_spec by done. split.
    - intros (f' & Hf' & <-). congruence.
    - intros ->. by exists f. }
  assert (Hin : ∀ (k : nat) f, O !! k = Some f →
            FileRecord.id f ∈ FileRecord.id <$> O).
  { intros k f Hk. apply list_elem_of_fmap_2.
    by eapply list_elem_of_lookup_2. }
  destruct (Include.source_file_id inc) as [u|],
           (Include.target_file_id inc) as [v|]; simpl;
    try (split; [by intros [[? ?] ?] | by intros [? ?]]).
  rewrite (Hplace i fi u Hi), (Hplace j fj v Hj), andb_true_iff,
          !bool_decide_eq_true.
  split.
  - intros [[-> ->] _]. done.
  - intros [[= ->] [= ->]]. split; [done |]. split; by eapply Hin.
Qed.

Lemma get_project_dsm_spec (w : World) (basename : pystr → pystr) d pid root :
  NoDup (FileRecord.id <$> files d) →
  project_root d pid = Some root →
  let F := files_under w d root in
  let G := dsm_graph F (includes_among d (FileRecord.id <$> F)) in
  ∃ O M,
    get_project_dsm w basename d pid
    = Some (mkDsm (dsm_file basename <$> O) M)
    ∧ O ≡ₚ F
    ∧ NoDup (FileRecord.id <$> O)
    ∧ square (length O) M
    ∧ (∀ (i j : nat) fi fj, O !! i = Some fi → O !! j = Some fj →
         entry M i j
         = Some (len (filter (include_from_to fi fj) (includes d))))
    ∧ (∀ (i j : nat) fi fj inc,
         O !! i = Some fi → O !! j = Some fj → (j < i)%nat →
         inc ∈ includes d → include_from_to fi fj inc →
         mutually_reachable G (FileRecord.id fi) (FileRecord.id fj))
    ∧ (∀ (i k j : nat) fi fk fj,
         (i < k < j)%nat →
         O !! i = Some fi → O !! k = Some fk → O !! j = Some fj →
         mutually_reachable G (FileRecord.id fi) (FileRecord.id fj) →
         mutually_reachable G (FileRecord.id fi) (FileRecord.id fk)).
Proof.
  intros Hnd Hroot F G. unfold project_root in Hroot.
  unfold get_project_dsm.
  destruct (List.find _ (projects d)) as [p|] eqn:Hfind; [| done].
  injection Hroot as Hroot. rewrite Hroot. fold F. fold G.
  assert (HF : NoDup (FileRecord.id <$> F)) by by apply NoDup_ids_filter.
  destruct (dsm_graph_spec d F) as (HG & Hnodes & Hedges). fold G in HG.
  destruct (sorted_ids_spec G HG) as (ids & Hsorted & Hids & Hall & _).
  destruct (sorted_ids_order G ids HG Hsorted) as [Hbelow Hblock].
  rewrite Hsorted. simpl.
  destruct (order_files_spec F ids HF Hids) as [Hperm Hordered].
  { intros x. rewrite Hall. apply Hnodes. }
  set (O := order_files F ids) in *.
  assert (HO : NoDup (FileRecord.id <$> O)) by by rewrite Hordered.
  assert (Hsame : FileRecord.id <$> F ≡ₚ FileRecord.id <$> O)
    by by rewrite Hperm.
  assert (Hplace : ∀ (i : nat) f, O !! i = Some f →
            ids !! i = Some (FileRecord.id f)).
  { intros i f Hi. rewrite <- Hordered, list_lookup_fmap, Hi. done. }
  destruct (count_includes_spec O (includes_among d (FileRecord.id <$> F)) HO)
    as (M & HM & Hsq & Hent).
  rewrite HM. simpl. exists O, M.
  split; [done |]. split; [done |]. split; [done |]. split; [done |].
  split; [| split].
  - intros i j fi fj Hi Hj.
    rewrite Hent by (by eapply lookup_lt_Some).
    rewrite <- (counted_includes d O i j fi fj HO Hi Hj).
    assert (Hamong : includes_among d (FileRecord.id <$> F)
                     = includes_among d (FileRecord.id <$> O)).
    { unfold includes_among. apply filter_ext_in. intros inc _. unfold in_.
      destruct (Include.source_file_id inc) as [u|],
               (Include.target_file_id inc) as [v|]; simpl;
        rewrite ?andb_true_iff, ?bool_decide_eq_true; by rewrite ?Hsame. }
    by rewrite Hamong.
  - intros i j fi fj inc Hi Hj Hlt Hinc [Hsrc Htgt].
    apply (Hbelow i j); [by apply Hplace | by apply Hplace | | done].
    apply Hedges. split.
    { intros Heq. pose proof (Hplace _ _ Hi) as Hi'.
      pose proof (Hplace _ _ Hj) as Hj'. rewrite Heq in Hi'.
      pose proof (NoDup_lookup ids i j _ Hids Hi' Hj'). lia. }
    split; [| split; [| by exists inc]].
    + rewrite Hsame. apply list_elem_of_fmap_2.
      by eapply list_elem_of_lookup_2.
    + rewrite Hsame. apply list_elem_of_fmap_2.
      by eapply list_elem_of_lookup_2.
  - intros i k j fi fk fj Hikj Hi Hk Hj.
    apply (Hblock i k j); [done | by apply Hplace..].
Qed.

(** X20. The matrix endpoint answers for every project of a store whose
    file ids are distinct.  For a project without a row the answer is
    empty.  Otherwise the list is a rearrangement of the files under the
    root of the project, each of them once, the matrix is square with one
    row per file, and its entry in row [i] and column [j] is the number of
    include rows that lead from the [i]-th to the [j]-th file of the
    list. *)
Theorem dsm_lists_the_files_and_counts_their_includes (w : World)
    (basename : pystr → pystr) (d : Database) (pid : Z) :
  NoDup (FileRecord.id <$> files d) →
  match project_root d pid with
  | None => get_project_dsm w basename d pid = Some (mkDsm [] [])
  | Some root =>
      ∃ ordered M,
        get_project_dsm w basename d pid
        = Some (mkDsm (dsm_file basename <$> ordered) M)
        ∧ ordered ≡ₚ files_under w d root
        ∧ square (length ordered) M
        ∧ ∀ (i j : nat) fi fj,
            ordered !! i = Some fi → ordered !! j = Some fj →
            entry M i j
            = Some (len (filter (include_from_to fi fj) (includes d)))
  end.
Proof.
  intros Hnd. destruct (project_root d pid) as [root|] eqn:Hroot.
  - destruct (get_project_dsm_spec w basename d pid root Hnd Hroot)
      as (O & M & Hget & Hperm & _ & Hsq & Hent & _).
    by exists O, M.
  - unfold project_root in Hroot. unfold get_project_dsm.
    by destruct (List.find _ (projects d)).
Qed.

(** X21. An include counted below the diagonal of the matrix lies on a
    cycle: when the entry in row [i] and column [j] with [j < i] is not
    zero, the two files include each other, directly or through other
    files of the project. *)
Theorem dsm_includes_below_the_diagonal_lie_on_cycles (w : World)
    (basename : pystr → pystr) (d : Database) (pid : Z) (root : pystr)
    (r : Dsm) :
  let F := files_under w d root in
  let G := dsm_graph F (includes_among d (FileRecord.id <$> F)) in
  NoDup (FileRecord.id <$> files d) →
  project_root d pid = Some root →
  get_project_dsm w basename d pid = Some r →
  ∀ (i j : nat) fi fj c,
    (j < i)%nat →
    file_list r !! i = Some fi → file_list r !! j = Some fj →
    entry (matrix r) i j = Some c → c ≠ 0 →
    mutually_reachable G (dsm_id fi) (dsm_id fj).
Proof.
  intros F G Hnd Hroot Hget i j fi fj c Hlt Hi Hj Hc Hne.
  destruct (get_project_dsm_spec w basename d pid root Hnd Hroot)
    as (O & M & Hget' & _ & _ & _ & Hent & Hbelow & _).
  rewrite Hget' in Hget. injection Hget as <-. simpl in *.
  apply list_lookup_fmap_Some in Hi as (fi' & -> & Hi).
  apply list_lookup_fmap_Some in Hj as (fj' & -> & Hj). simpl.
  rewrite (Hent i j fi' fj' Hi Hj) in Hc. injection Hc as <-.
  destruct (filter (include_from_to fi' fj') (includes d)) as [|inc rest]
    eqn:Hfilter; [done |].
  assert (Hinc : inc ∈ filter (include_from_to fi' fj') (includes d))
    by (rewrite Hfilter; left).
  apply list_elem_of_filter in Hinc as [Hft Hinc].
  by apply (Hbelow i j fi' fj' inc).
Qed.

(** X22. Without a cycle among the includes of the project the matrix is
    upper triangular: every entry below the diagonal is zero, so every
    file is listed before the files it includes. *)
Theorem dsm_is_upper_triangular_without_cycles (w : World)
    (basename : pystr → pystr) (d : Database) (pid : Z) (root : pystr)
    (r : Dsm) :
  let F := files_under w d root in
  let G := dsm_graph F (includes_among d (FileRecord.id <$> F)) in
  NoDup (FileRecord.id <$> files d) →
  project_root d pid = Some root →
  acyclic G →
  get_project_dsm w basename d pid = Some r →
  ∀ i j : nat,
    (j < i)%nat → (i < length (file_list r))%nat →
    entry (matrix r) i j = Some 0.
Proof.
  intros F G Hnd Hroot Hacyclic Hget i j Hlt Hi.
  destruct (get_project_dsm_spec w basename d pid root Hnd Hroot)
    as (O & M & Hget' & _ & HO & _ & Hent & Hbelow & _).
  rewrite Hget' in Hget. injection Hget as <-. simpl in *.
  rewrite length_fmap in Hi.
  destruct (lookup_lt_is_Some_2 O i Hi) as [fi Hfi].
  destruct (lookup_lt_is_Some_2 O j ltac:(lia)) as [fj Hfj].
  rewrite (Hent i j fi fj Hfi Hfj).
  destruct (filter (include_from_to fi fj) (includes d)) as [|inc rest]
    eqn:Hfilter; [done |].
  assert (Hinc : inc ∈ filter (include_from_to fi fj) (includes d))
    by (rewrite Hfilter; left).
  apply list_elem_of_filter in Hinc as [Hft Hinc].
  destruct (Hbelow i j fi fj inc Hfi Hfj Hlt Hinc Hft) as [Hij Hji].
  assert (Hdiff : FileRecord.id fi ≠ FileRecord.id fj).
  { intros Heq.
    assert (Hi' : (FileRecord.id <$> O) !! i = Some (FileRecord.id fi))
      by by rewrite list_lookup_fmap, Hfi.
    assert (Hj' : (FileRecord.id <$> O) !! j = Some (FileRecord.id fi))
      by by rewrite list_lookup_fmap, Hfj, Heq.
    pose proof (NoDup_lookup _ i j _ HO Hi' Hj'). lia. }
  apply rtc_tc in Hij as [Hij | Hij]; [done |].
  apply rtc_tc in Hji as [Hji | Hji]; [by destruct Hdiff |].
  destruct (Hacyclic (FileRecord.id fi)). by etrans.
Qed.

(** X23. The files of a cycle stand together in the list: a file listed
    between two files that include each other, directly or through other
    files, includes them and is included by them in the same way. *)
Theorem dsm_keeps_the_files_of_a_cycle_together (w : World)
    (basename : pystr → pystr) (d : Database) (pid : Z) (root : pystr)
    (r : Dsm) :
  let F := files_under w d root in
  let G := dsm_graph F (includes_among d (FileRecord.id <$> F)) in
  NoDup (FileRecord.id <$> files d) →
  project_root d pid = Some root →
  get_project_dsm w basename d pid = Some r →
  ∀ (i k j : nat) fi fk fj,
    (i < k < j)%nat →
    file_list r !! i = Some fi → file_list r !! k = Some fk →
    file_list r !! j = Some fj →
    mutually_reachable G (dsm_id fi) (dsm_id fj) →
    mutually_reachable G (dsm_id fi) (dsm_id fk).
Proof.
  intros F G Hnd Hroot Hget i k j fi fk fj Hikj Hi Hk Hj.
  destruct (get_project_dsm_spec w basename d pid root Hnd Hroot)
    as (O & M & Hget' & _ & _ & _ & _ & _ & Hblock).
  rewrite Hget' in Hget. injection Hget as <-. simpl in *.
  apply list_lookup_fmap_Some in Hi as (fi' & -> & Hi).
  apply list_lookup_fmap_Some in Hk as (fk' & -> & Hk).
  apply list_lookup_fmap_Some in Hj as (fj' & -> & Hj). simpl.
  by apply (Hblock i k j).
Qed.

End dsm.
(** * The reports and the matrix: the statements at concrete inputs *)

Section report_examples.
Import Clang IndexerImpl Props EngineProps GraphProps Fixtures Samples.
Import Nx ArchitectureAnalyzer Reports Api.

(** X19 at the file [/p/a.c] after a scan of the project [/p]: one
    function among three symbols. *)
Lemma file_metrics_bound_by_functions_witness :
  Forall symbol_row_ok (symbols (working (db scanned_once)))
  ∧ (let m := metrics_of (working (db scanned_once))
                (FileRecord.mk 1 (py "/p/a.c") 0 (Some 1) None) in
     0 ≤ function_count m ≤ symbol_count m
     ∧ function_count m ≤ total_complexity m
     ∧ (function_count m = 0 →
        total_complexity m = 0 ∧ avg_complexity m = 0%Q)
     ∧ (0 < function_count m →
        avg_complexity m
        = Qmake (total_complexity m) (Z.to_pos (function_count m))
        ∧ (1 <= avg_complexity m)%Q)).
Proof.
  assert (Hw : Forall symbol_row_ok (symbols (working (db scanned_once)))).
  { unfold symbol_row_ok. apply (bool_decide_unpack _). by vm_compute. }
  split; [exact Hw |].
  exact (file_metrics_bound_by_functions (working (db scanned_once))
           (FileRecord.mk 1 (py "/p/a.c") 0 (Some 1) None) Hw).
Defined.

(** X20 at the project of the four headers. *)
Lemma dsm_lists_the_files_and_counts_their_includes_witness :
  NoDup (FileRecord.id <$> files cycle_db)
  ∧ match project_root cycle_db 1 with
    | None =>
        get_project_dsm world_a posix_basename cycle_db 1
        = Some (mkDsm [] [])
    | Some root =>
        ∃ ordered M,
          get_project_dsm world_a posix_basename cycle_db 1
          = Some (mkDsm (dsm_file posix_basename <$> ordered) M)
          ∧ ordered ≡ₚ files_under world_a cycle_db root
          ∧ square (length ordered) M
          ∧ ∀ (i j : nat) fi fj,
              ordered !! i = Some fi → ordered !! j = Some fj →
              entry M i j
              = Some (len (filter (include_from_to fi fj)
                                  (includes cycle_db)))
    end.
Proof.
  assert (Hnd : NoDup (FileRecord.id <$> files cycle_db)).
  { apply (bool_decide_unpack _). by vm_compute. }
  split; [exact Hnd |].
  exact (dsm_lists_the_files_and_counts_their_includes world_a
           posix_basename cycle_db 1 Hnd).
Defined.

(** X21 at the project of the four headers, whose matrix has the include
    of [a.h] by [c.h] below the diagonal. *)
Lemma dsm_includes_below_the_diagonal_lie_on_cycles_witness :
  NoDup (FileRecord.id <$> files cycle_db)
  ∧ project_root cycle_db 1 = Some (py "/p")
  ∧ get_project_dsm world_a posix_basename cycle_db 1 = Some cycle_dsm
  ∧ ∀ (i j : nat) fi fj c,
      (j < i)%nat →
      file_list cycle_dsm !! i = Some fi →
      file_list cycle_dsm !! j = Some fj →
      entry (matrix cycle_dsm) i j = Some c → c ≠ 0 →
      mutually_reachable
        (dsm_graph (files_under world_a cycle_db (py "/p"))
           (includes_among cycle_db
              (FileRecord.id <$> files_under world_a cycle_db (py "/p"))))
        (dsm_id fi) (dsm_id fj).
Proof.
  assert (Hnd : NoDup (FileRecord.id <$> files cycle_db)).
  { apply (bool_decide_unpack _). by vm_compute. }
  assert (Hroot : project_root cycle_db 1 = Some (py "/p"))
    by (by vm_compute).
  assert (Hget : get_project_dsm world_a posix_basename cycle_db 1
                 = Some cycle_dsm) by (by vm_compute).
  split; [exact Hnd |]. split; [exact Hroot |]. split; [exact Hget |].
  exact (dsm_includes_below_the_diagonal_lie_on_cycles world_a
           posix_basename cycle_db 1 (py "/p") cycle_dsm Hnd Hroot Hget).
Defined.

(** X22 at the project of the three headers in a chain. *)
Lemma dsm_is_upper_triangular_without_cycles_witness :
  NoDup (FileRecord.id <$> files chain_db)
  ∧ project_root chain_db 1 = Some (py "/p")
  ∧ acyclic
      (dsm_graph (files_under world_a chain_db (py "/p"))
         (includes_among chain_db
            (FileRecord.id <$> files_under world_a chain_db (py "/p"))))
  ∧ get_project_dsm world_a posix_basename chain_db 1 = Some chain_dsm
  ∧ ∀ i j : nat,
      (j < i)%nat → (i < length (file_list chain_dsm))%nat →
      entry (matrix chain_dsm) i j = Some 0.
Proof.
  assert (Hnd : NoDup (FileRecord.id <$> files chain_db)).
  { apply (bool_decide_unpack _). by vm_compute. }
  assert (Hroot : project_root chain_db 1 = Some (py "/p"))
    by (by vm_compute).
  assert (Hacyclic :
    acyclic
      (dsm_graph (files_under world_a chain_db (py "/p"))
         (includes_among chain_db
            (FileRecord.id <$> files_under world_a chain_db (py "/p"))))).
  { destruct (dsm_graph_spec chain_db
                (files_under world_a chain_db (py "/p"))) as (HG & _).
    apply (topological_acyclic _ [3; 2; 1] HG).
    pose proof (topological_sort_spec _ HG) as Hsort.
    assert (Horder :
      topological_sort
        (dsm_graph (files_under world_a chain_db (py "/p"))
           (includes_among chain_db
              (FileRecord.id <$> files_under world_a chain_db (py "/p"))))
      = TopoOk [3; 2; 1]) by (by vm_compute).
    by rewrite Horder in Hsort. }
  assert (Hget : get_project_dsm world_a posix_basename chain_db 1
                 = Some chain_dsm) by (by vm_compute).
  split; [exact Hnd |]. split; [exact Hroot |]. split; [exact Hacyclic |].
  split; [exact Hget |].
  exact (dsm_is_upper_triangular_without_cycles world_a posix_basename
           chain_db 1 (py "/p") chain_dsm Hnd Hroot Hacyclic Hget).
Defined.

(** X23 at the project of the four headers: [b.h] stands between [a.h]
    and [c.h]. *)
Lemma dsm_keeps_the_files_of_a_cycle_together_witness :
  NoDup (FileRecord.id <$> files cycle_db)
  ∧ project_root cycle_db 1 = Some (py "/p")
  ∧ get_project_dsm world_a posix_basename cycle_db 1 = Some cycle_dsm
  ∧ ∀ (i k j : nat) fi fk fj,
      (i < k < j)%nat →
      file_list cycle_dsm !! i = Some fi →
      file_list cycle_dsm !! k = Some fk →
      file_list cycle_dsm !! j = Some fj →
      mutually_reachable
        (dsm_graph (files_under world_a cycle_db (py "/p"))
           (includes_among cycle_db
              (FileRecord.id <$> files_under world_a cycle_db (py "/p"))))
        (dsm_id fi) (dsm_id fj) →
      mutually_reachable
        (dsm_graph (files_under world_a cycle_db (py "/p"))
           (includes_among cycle_db
              (FileRecord.id <$> files_under world_a cycle_db (py "/p"))))
        (dsm_id fi) (dsm_id fk).
Proof.
  assert (Hnd : NoDup (FileRecord.id <$> files cycle_db)).
  { apply (bool_decide_unpack _). by vm_compute. }
  assert (Hroot : project_root cycle_db 1 = Some (py "/p"))
    by (by vm_compute).
  assert (Hget : get_project_dsm world_a posix_basename cycle_db 1
                 = Some cycle_dsm) by (by vm_compute).
  split; [exact Hnd |]. split; [exact Hroot |]. split; [exact Hget |].
  exact (dsm_keeps_the_files_of_a_cycle_together world_a posix_basename
           cycle_db 1 (py "/p") cycle_dsm Hnd Hroot Hget).
Defined.

End report_examples.
